(** * The membership cache of the Ethernet switch IGMP snooper

    A shallow embedding of [release/src/router/snooper/cache.c]: the host
    table (MAC -> switch port), the group table with its per-port member
    lists and derived port bitmask, the shared member pool, the router
    pseudo-group and the two sweep timers.

    The C program keeps its tables in file-level statics and links its
    records into intrusive BSD queues.  Here the statics are the fields of
    one [cache] record threaded through a small state monad; every
    [calloc]ed record lives in a store addressed by its allocation index,
    and the hash chains and the age-ordered pools are lists of such
    addresses, so that a write through one pointer is seen through the
    others.  A dereference of [NULL] (or of an address that was never
    allocated) is the outcome [Fault]. *)

From Stdlib Require Import ZArith List Bool Lia.
From Stdlib.Strings Require Import Byte.
From stdpp Require Import base numbers list.
Import ListNotations.

Local Open Scope Z_scope.

(** ** Ethernet and IP addresses *)

(** [unsigned char ea[ETHER_ADDR_LEN]]: six octets.  [memcmp(a, b,
    ETHER_ADDR_LEN) == 0] is equality of the six octets and [memcpy] is
    assignment. *)
Record ether_addr : Type := EtherAddr {
  ea0 : byte; ea1 : byte; ea2 : byte; ea3 : byte; ea4 : byte; ea5 : byte
}.

#[global] Instance byte_eq_dec : EqDecision byte := Byte.byte_eq_dec.

#[global] Instance ether_addr_eq_dec : EqDecision ether_addr.
Proof. solve_decision. Defined.

(** What [calloc] and [memset(.., 0, ..)] leave in an address field. *)
Definition ea_zero : ether_addr := EtherAddr x00 x00 x00 x00 x00 x00.

(** [in_addr_t]: an IPv4 address, only ever compared for equality. *)
Definition in_addr_t : Type := Z.

(** ** Constants of cache.c *)

Definition GROUP_POOL_SIZE : Z := 512.
Definition MEMBER_POOL_SIZE : Z := 1024.
Definition HOST_POOL_SIZE : Z := 32.
Definition HOST_TTL : Z := 3.
Definition HASH_SIZE : N := 64.

(** ** Records *)

(** [struct host_entry]; the two link fields are the positions of the
    record's address in [hosts_hash] and [hosts_pool]. *)
Record host_entry : Type := {
  host_time : Z;          (* unsigned long time *)
  host_port : Z;          (* int port *)
  host_ea : ether_addr
}.

(** [struct member_entry]; its link is its position in the one list that
    holds it (a port's member list, or the free list). *)
Record member_entry : Type := {
  member_time : Z;        (* unsigned long time *)
  member_addr : in_addr_t
}.

(** [struct group_entry]; [group_members] is the array
    [members[PORT_MAX + 1]] of list heads. *)
Record group_entry : Type := {
  group_members : list (list member_entry);
  group_time : Z;         (* unsigned long time *)
  group_portmap : Z;      (* int portmap *)
  group_ea : ether_addr
}.

(** Modelled from the spec: [struct timer_entry] and the Timer Service
    ([snooper.h] and the timer code are not part of the sources).  The
    spec gives it two observations, "whether armed and its deadline", and
    the operations schedule / reschedule / cancel at an absolute tick. *)
Record timer_entry : Type := {
  timer_pending : bool;
  expires : Z
}.

Definition mod_timer (timer : timer_entry) (deadline : Z) : timer_entry :=
  {| timer_pending := true; expires := deadline |}.

Definition del_timer (timer : timer_entry) : timer_entry :=
  {| timer_pending := false; expires := expires timer |}.

(** [set_timer] at start-up: created, not scheduled. *)
Definition timer_zero : timer_entry := {| timer_pending := false; expires := 0 |}.

(** The calls made to the switch driver, in the order they are made. *)
Inductive driver_call : Type :=
| drv_get_port (ea : ether_addr)                  (* switch_get_port(ea) *)
| drv_clr_portmap (ea : ether_addr)               (* switch_clr_portmap(ea) *)
| drv_add_portmap (ea : ether_addr) (portmap : Z) (* switch_add_portmap(ea, portmap) *)
| drv_del_portmap (ea : ether_addr) (portmap : Z) (* switch_del_portmap(ea, portmap) *).

#[global] Instance driver_call_eq_dec : EqDecision driver_call.
Proof. solve_decision. Defined.

(** The static [hosts]. [hosts_mem] is the store of the [calloc]ed
    [host_entry] objects: address [a] is the [a]-th allocation. *)
Record hosts_t : Type := {
  hosts_mem : list host_entry;
  hosts_pool : list nat;          (* STAILQ, head first *)
  hosts_hash : list (list nat);   (* LIST_HEAD hash[HASH_SIZE] *)
  hosts_count : Z
}.

(** The static [members]. *)
Record members_t : Type := {
  members_free : list member_entry;   (* LIST, head first *)
  members_count : Z
}.

(** The static [groups]. *)
Record groups_t : Type := {
  groups_mem : list group_entry;
  groups_pool : list nat;
  groups_hash : list (list nat);
  groups_timer : timer_entry;
  groups_count : Z
}.

(** The static [routers]. *)
Record routers_t : Type := {
  routers_group : group_entry;
  routers_timer : timer_entry
}.

(** What the program sees of its environment: whether the next [calloc]
    calls succeed ([true]) or return [NULL]; once the list is used up
    every call succeeds), the port the switch reports for a MAC, and the
    driver calls made so far (oldest first). *)
Record world_t : Type := {
  calloc_results : list bool;
  switch_port_of : ether_addr -> Z;
  driver_log : list driver_call
}.

Record cache : Type := {
  hosts : hosts_t;
  members : members_t;
  groups : groups_t;
  routers : routers_t;
  world : world_t
}.

(** Field updates. *)
Definition with_hosts (f : hosts_t -> hosts_t) (c : cache) : cache :=
  {| hosts := f (hosts c); members := members c; groups := groups c;
     routers := routers c; world := world c |}.
Definition with_members (f : members_t -> members_t) (c : cache) : cache :=
  {| hosts := hosts c; members := f (members c); groups := groups c;
     routers := routers c; world := world c |}.
Definition with_groups (f : groups_t -> groups_t) (c : cache) : cache :=
  {| hosts := hosts c; members := members c; groups := f (groups c);
     routers := routers c; world := world c |}.
Definition with_routers (f : routers_t -> routers_t) (c : cache) : cache :=
  {| hosts := hosts c; members := members c; groups := groups c;
     routers := f (routers c); world := world c |}.
Definition with_world (f : world_t -> world_t) (c : cache) : cache :=
  {| hosts := hosts c; members := members c; groups := groups c;
     routers := routers c; world := f (world c) |}.

Definition set_hosts_mem (v : list host_entry) (h : hosts_t) : hosts_t :=
  {| hosts_mem := v; hosts_pool := hosts_pool h; hosts_hash := hosts_hash h;
     hosts_count := hosts_count h |}.
Definition set_hosts_pool (v : list nat) (h : hosts_t) : hosts_t :=
  {| hosts_mem := hosts_mem h; hosts_pool := v; hosts_hash := hosts_hash h;
     hosts_count := hosts_count h |}.
Definition set_hosts_hash (v : list (list nat)) (h : hosts_t) : hosts_t :=
  {| hosts_mem := hosts_mem h; hosts_pool := hosts_pool h; hosts_hash := v;
     hosts_count := hosts_count h |}.
Definition set_hosts_count (v : Z) (h : hosts_t) : hosts_t :=
  {| hosts_mem := hosts_mem h; hosts_pool := hosts_pool h;
     hosts_hash := hosts_hash h; hosts_count := v |}.

Definition set_members_free (v : list member_entry) (m : members_t) : members_t :=
  {| members_free := v; members_count := members_count m |}.
Definition set_members_count (v : Z) (m : members_t) : members_t :=
  {| members_free := members_free m; members_count := v |}.

Definition set_groups_mem (v : list group_entry) (g : groups_t) : groups_t :=
  {| groups_mem := v; groups_pool := groups_pool g; groups_hash := groups_hash g;
     groups_timer := groups_timer g; groups_count := groups_count g |}.
Definition set_groups_pool (v : list nat) (g : groups_t) : groups_t :=
  {| groups_mem := groups_mem g; groups_pool := v; groups_hash := groups_hash g;
     groups_timer := groups_timer g; groups_count := groups_count g |}.
Definition set_groups_hash (v : list (list nat)) (g : groups_t) : groups_t :=
  {| groups_mem := groups_mem g; groups_pool := groups_pool g; groups_hash := v;
     groups_timer := groups_timer g; groups_count := groups_count g |}.
Definition set_groups_timer (v : timer_entry) (g : groups_t) : groups_t :=
  {| groups_mem := groups_mem g; groups_pool := groups_pool g;
     groups_hash := groups_hash g; groups_timer := v;
     groups_count := groups_count g |}.
Definition set_groups_count (v : Z) (g : groups_t) : groups_t :=
  {| groups_mem := groups_mem g; groups_pool := groups_pool g;
     groups_hash := groups_hash g; groups_timer := groups_timer g;
     groups_count := v |}.

Definition set_routers_group (v : group_entry) (r : routers_t) : routers_t :=
  {| routers_group := v; routers_timer := routers_timer r |}.
Definition set_routers_timer (v : timer_entry) (r : routers_t) : routers_t :=
  {| routers_group := routers_group r; routers_timer := v |}.

Definition set_calloc_results (v : list bool) (w : world_t) : world_t :=
  {| calloc_results := v; switch_port_of := switch_port_of w;
     driver_log := driver_log w |}.
Definition set_driver_log (v : list driver_call) (w : world_t) : world_t :=
  {| calloc_results := calloc_results w; switch_port_of := switch_port_of w;
     driver_log := v |}.

Definition set_host_ea (ea : ether_addr) (h : host_entry) : host_entry :=
  {| host_time := host_time h; host_port := host_port h; host_ea := ea |}.
Definition set_member_time (t : Z) (m : member_entry) : member_entry :=
  {| member_time := t; member_addr := member_addr m |}.
Definition set_group_members (v : list (list member_entry)) (g : group_entry) : group_entry :=
  {| group_members := v; group_time := group_time g;
     group_portmap := group_portmap g; group_ea := group_ea g |}.
Definition set_group_time (v : Z) (g : group_entry) : group_entry :=
  {| group_members := group_members g; group_time := v;
     group_portmap := group_portmap g; group_ea := group_ea g |}.
Definition set_group_portmap (v : Z) (g : group_entry) : group_entry :=
  {| group_members := group_members g; group_time := group_time g;
     group_portmap := v; group_ea := group_ea g |}.
Definition set_group_ea (v : ether_addr) (g : group_entry) : group_entry :=
  {| group_members := group_members g; group_time := group_time g;
     group_portmap := group_portmap g; group_ea := v |}.

(** ** The state monad with faults *)

Inductive outcome (A : Type) : Type :=
| Done (a : A) (c : cache)
| Fault.
Arguments Done {A} a c.
Arguments Fault {A}.

Definition cacheM (A : Type) : Type := cache -> outcome A.

Definition ret {A} (a : A) : cacheM A := fun c => Done a c.
Definition bind {A B} (m : cacheM A) (k : A -> cacheM B) : cacheM B :=
  fun c => match m c with
           | Done a c' => k a c'
           | Fault => Fault
           end.
Definition fault {A} : cacheM A := fun _ => Fault.
Definition gets {A} (f : cache -> A) : cacheM A := fun c => Done (f c) c.
Definition modify (f : cache -> cache) : cacheM unit := fun c => Done tt (f c).

Declare Scope cache_scope.
Delimit Scope cache_scope with cacheM.
Notation "x <- m ;; k" := (bind m (fun x => k))
  (at level 100, m at next level, right associativity) : cache_scope.
Notation "m ;;; k" := (bind m (fun _ => k))
  (at level 100, right associativity) : cache_scope.
Local Open Scope cache_scope.

(** A pointer to a pooled record: [NULL] or the address of an allocation. *)
Definition ptr : Type := option nat.
Definition NULL : ptr := None.

(** A non-null [struct group_entry *]: a pooled group, or [&routers.group]. *)
Inductive group_ptr : Type :=
| pooled (a : nat)
| the_routers.

Section Snooper.

(** ** What snooper.h declares

    [snooper.h] is not part of the sources; the constants and the helper
    it declares are parameters of the development. *)

(** [PORT_MAX]: the highest switch port number.  Port bitmasks are [int]s
    with bits [0..PORT_MAX]; they are modelled as unbounded integers, which
    is exact when [PORT_MAX <= 30] (see [get_portmap_range]). *)
Variable PORT_MAX : nat.

(** [TIMER_HZ]: timer ticks per second. *)
Variable TIMER_HZ : Z.

(** The width of [unsigned long], the type of tick counts. *)
Variable ULONG_BITS : Z.

(** [ether_hash]: an unsigned hash of the six octets. *)
Variable ether_hash : ether_addr -> N.

Definition HASH_INDEX (ea : ether_addr) : nat :=
  N.to_nat (ether_hash ea mod HASH_SIZE).

(** ** Tick arithmetic *)

(** Conversion to [unsigned long]. *)
Definition ulong (x : Z) : Z := x mod 2 ^ ULONG_BITS.

(** The cast [(long) x] of an [unsigned long] expression. *)
Definition long (x : Z) : Z :=
  let u := ulong x in
  if u <? 2 ^ (ULONG_BITS - 1) then u else u - 2 ^ ULONG_BITS.

(** [~0UL / 2] *)
Definition ULONG_HALF : Z := (2 ^ ULONG_BITS - 1) / 2.

(** Modelled from the spec: the Time Source's "wraparound-safe
    comparison" ([time_after] and friends come from [snooper.h]); the
    usual signed-difference tests. *)
Definition time_after (a b : Z) : bool := long (b - a) <? 0.
Definition time_before (a b : Z) : bool := time_after b a.
Definition time_after_eq (a b : Z) : bool := 0 <=? long (a - b).
Definition time_before_eq (a b : Z) : bool := time_after_eq b a.

(** ** Access to the store and to the environment *)

(** Dereferencing: [NULL] faults. *)
Definition nonnull (p : ptr) : cacheM nat :=
  match p with
  | Some a => ret a
  | None => fault
  end.

Definition host_load (a : nat) : cacheM host_entry :=
  fun c => match hosts_mem (hosts c) !! a with
           | Some h => Done h c
           | None => Fault
           end.

Definition put_host (a : nat) (h : host_entry) (c : cache) : cache :=
  with_hosts (fun hs => set_hosts_mem (<[a := h]> (hosts_mem hs)) hs) c.

Definition host_store (a : nat) (h : host_entry) : cacheM unit :=
  modify (put_host a h).

(** The record a non-null group pointer points to. *)
Definition group_at (c : cache) (group : group_ptr) : option group_entry :=
  match group with
  | pooled a => groups_mem (groups c) !! a
  | the_routers => Some (routers_group (routers c))
  end.

Definition put_group (group : group_ptr) (g : group_entry) (c : cache) : cache :=
  match group with
  | pooled a => with_groups (fun gs => set_groups_mem (<[a := g]> (groups_mem gs)) gs) c
  | the_routers => with_routers (set_routers_group g) c
  end.

Definition group_load (group : group_ptr) : cacheM group_entry :=
  fun c => match group_at c group with
           | Some g => Done g c
           | None => Fault
           end.

Definition group_store (group : group_ptr) (g : group_entry) : cacheM unit :=
  modify (put_group group g).

(** Whether this [calloc] call succeeds. *)
Definition calloc_result : cacheM bool :=
  fun c => match calloc_results (world c) with
           | [] => Done true c
           | ok :: rest => Done ok (with_world (set_calloc_results rest) c)
           end.

Definition host_zero : host_entry :=
  {| host_time := 0; host_port := 0; host_ea := ea_zero |}.

Definition member_zero : member_entry :=
  {| member_time := 0; member_addr := 0 |}.

Definition group_zero : group_entry :=
  {| group_members := replicate (S PORT_MAX) [];
     group_time := 0; group_portmap := 0; group_ea := ea_zero |}.

(** [calloc(1, sizeof(struct host_entry))] *)
Definition calloc_host : cacheM ptr :=
  ok <- calloc_result;;
  if ok : bool then
    a <- gets (fun c => length (hosts_mem (hosts c)));;
    modify (with_hosts (fun hs => set_hosts_mem (hosts_mem hs ++ [host_zero]) hs));;;
    ret (Some a)
  else ret NULL.

(** [calloc(1, sizeof(struct group_entry))] *)
Definition calloc_group : cacheM ptr :=
  ok <- calloc_result;;
  if ok : bool then
    a <- gets (fun c => length (groups_mem (groups c)));;
    modify (with_groups (fun gs => set_groups_mem (groups_mem gs ++ [group_zero]) gs));;;
    ret (Some a)
  else ret NULL.

Definition driver (call : driver_call) : cacheM unit :=
  modify (with_world (fun w => set_driver_log (driver_log w ++ [call]) w)).

Definition switch_get_port (ea : ether_addr) : cacheM Z :=
  driver (drv_get_port ea);;;
  gets (fun c => switch_port_of (world c) ea).
Definition switch_clr_portmap (ea : ether_addr) : cacheM unit :=
  driver (drv_clr_portmap ea).
Definition switch_add_portmap (ea : ether_addr) (portmap : Z) : cacheM unit :=
  driver (drv_add_portmap ea portmap).
Definition switch_del_portmap (ea : ether_addr) (portmap : Z) : cacheM unit :=
  driver (drv_del_portmap ea portmap).

(** [LIST_REMOVE(elm, hash)]: the record leaves the chain it is linked in. *)
Definition hash_unlink (a : nat) (hash : list (list nat)) : list (list nat) :=
  map (List.remove Nat.eq_dec a) hash.

(** [LIST_INSERT_HEAD(&hash[index], elm, hash)] *)
Definition hash_link (index a : nat) (hash : list (list nat)) : list (list nat) :=
  <[index := a :: nth index hash []]> hash.

(** ** The host table *)

(** [LIST_FOREACH(host, &hosts.hash[index], hash)
       if (memcmp(host->ea, ea, ETHER_ADDR_LEN) == 0) return host;] *)
Fixpoint hosts_hash_find (chain : list nat) (ea : ether_addr) : cacheM ptr :=
  match chain with
  | [] => ret NULL
  | a :: chain' =>
      h <- host_load a;;
      if decide (host_ea h = ea) then ret (Some a)
      else hosts_hash_find chain' ea
  end.

(** [STAILQ_FOREACH(host, &hosts.pool, link)
       { if (time_before(host->time, time)) break; prev = host; }]:
    the position in the queue and the address of the first entry whose
    time has passed. *)
Fixpoint hosts_pool_scan (queue : list nat) (time : Z) (pos : nat)
  : cacheM (option (nat * nat)) :=
  match queue with
  | [] => ret None
  | a :: queue' =>
      h <- host_load a;;
      if time_before (host_time h) time then ret (Some (pos, a))
      else hosts_pool_scan queue' time (S pos)
  end.

(** The tail of [get_host], from [memcpy(host->ea, ea, ETHER_ADDR_LEN)]. *)
Definition get_host_link (ea : ether_addr) (index : nat) (host : ptr) : cacheM ptr :=
  a <- nonnull host;;
  h <- host_load a;;
  host_store a (set_host_ea ea h);;;
  modify (with_hosts (fun hs => set_hosts_hash (hash_link index a (hosts_hash hs)) hs));;;
  modify (with_hosts (fun hs => set_hosts_pool (hosts_pool hs ++ [a]) hs));;;
  ret host.

Definition get_host (ea : ether_addr) (time : Z) : cacheM ptr :=
  let index := HASH_INDEX ea in
  chain <- gets (fun c => nth index (hosts_hash (hosts c)) []);;
  host <- hosts_hash_find chain ea;;
  match host with
  | Some _ => ret host
  | None =>
      count <- gets (fun c => hosts_count (hosts c));;
      host <- (if count <? HOST_POOL_SIZE then
                 host <- calloc_host;;
                 match host with
                 | None =>          (* if (!host) hosts.count++; *)
                     modify (with_hosts (fun hs => set_hosts_count (hosts_count hs + 1) hs));;;
                     ret host
                 | Some _ => ret host
                 end
               else ret NULL);;
      match host with
      | Some _ => get_host_link ea index host
      | None =>
          queue <- gets (fun c => hosts_pool (hosts c));;
          found <- hosts_pool_scan queue time 0;;
          match found with
          | None => ret NULL
          | Some (pos, a) =>
              modify (with_hosts (fun hs => set_hosts_hash (hash_unlink a (hosts_hash hs)) hs));;;
              modify (with_hosts (fun hs => set_hosts_pool (delete pos (hosts_pool hs)) hs));;;
              (* memset(&host, 0, sizeof *host): it is the pointer variable
                 [host] (and the stack behind it) that is cleared, not the
                 record; [host] is NULL from here on. *)
              get_host_link ea index NULL
          end
      end
  end.

Definition get_port (haddr : ether_addr) (now : Z) : cacheM Z :=
  let time := now in
  host <- get_host haddr time;;
  cached <- match host with
            | Some a =>
                h <- host_load a;;
                ret (if time_after_eq (host_time h) time then Some (host_port h) else None)
            | None => ret None
            end;;
  match cached with
  | Some port => ret port
  | None =>
      port <- switch_get_port haddr;;
      match host with
      | Some a =>
          if (0 <=? port) && (port <=? Z.of_nat PORT_MAX) then
            h <- host_load a;;
            host_store a {| host_time := ulong (time + HOST_TTL * TIMER_HZ);
                            host_port := port;
                            host_ea := host_ea h |}
          else ret tt
      | None => ret tt
      end;;;
      ret port
  end.


(** ** The member pool *)

(** [LIST_FOREACH(member, &group->members[port], link)
       if (member->addr == addr) return member;]
    A pointer to a linked member is its position in the list. *)
Fixpoint members_find (l : list member_entry) (addr : in_addr_t) : option nat :=
  match l with
  | [] => None
  | m :: l' =>
      if decide (member_addr m = addr) then Some 0%nat
      else option_map S (members_find l' addr)
  end.

(** [group->members[port]] *)
Definition port_members (g : group_entry) (port : nat) : list member_entry :=
  nth port (group_members g) [].

Definition set_port_members (port : nat) (l : list member_entry) (g : group_entry)
  : group_entry :=
  set_group_members (<[port := l]> (group_members g)) g.

Definition get_member (group : group_ptr) (addr : in_addr_t) (port : nat)
    (allocate : bool) : cacheM (option nat) :=
  g <- group_load group;;
  match members_find (port_members g port) addr with
  | Some pos => ret (Some pos)
  | None =>
      if negb allocate then ret None
      else
        free <- gets (fun c => members_free (members c));;
        member <- match free with
                  | _ :: free' =>
                      (* LIST_REMOVE(member, link); memset(member, 0, sizeof *member) *)
                      modify (with_members (set_members_free free'));;;
                      ret (Some member_zero)
                  | [] =>
                      count <- gets (fun c => members_count (members c));;
                      if count <? MEMBER_POOL_SIZE then
                        ok <- calloc_result;;
                        if ok : bool then
                          modify (with_members (fun ms =>
                                    set_members_count (members_count ms + 1) ms));;;
                          ret (Some member_zero)
                        else ret None
                      else ret None
                  end;;
        match member with
        | None => ret None
        | Some m =>
            (* member->addr = addr; LIST_INSERT_HEAD(&group->members[port], ..) *)
            let m := {| member_time := member_time m; member_addr := addr |} in
            group_store group (set_port_members port (m :: port_members g port) g);;;
            ret (Some 0%nat)
        end
  end.

(** [member->time = time], for the member at [pos] of [group->members[port]]. *)
Definition member_touch (group : group_ptr) (port pos : nat) (time : Z) : cacheM unit :=
  g <- group_load group;;
  match port_members g port !! pos with
  | Some m =>
      group_store group
        (set_port_members port (<[pos := set_member_time time m]> (port_members g port)) g)
  | None => fault
  end.

(** [consume_member(member)], for the member at [pos] of
    [group->members[port]]: unlinked, then pushed on the free list. *)
Definition consume_member (group : group_ptr) (port pos : nat) : cacheM unit :=
  g <- group_load group;;
  match port_members g port !! pos with
  | Some m =>
      group_store group (set_port_members port (delete pos (port_members g port)) g);;;
      modify (with_members (fun ms => set_members_free (m :: members_free ms) ms))
  | None => fault
  end.

(** ** Groups *)

(** The loop [for (port = 0; port <= PORT_MAX; port++)]. *)
Definition ports : list nat := seq 0 (S PORT_MAX).

Definition init_group (g : group_entry) : group_entry :=
  fold_left (fun g port => set_port_members port [] g) ports
            (set_group_portmap 0 g).

(** [LIST_FOREACH_SAFE(member, .., link, next) consume_member(member);]
    over one list: every member goes to the head of the free list, in
    list order. *)
Fixpoint consume_members (l free : list member_entry) : list member_entry :=
  match l with
  | [] => free
  | m :: l' => consume_members l' (m :: free)
  end.

Definition consume_group (group : group_ptr) : cacheM unit :=
  g <- group_load group;;
  free <- gets (fun c => members_free (members c));;
  let '(g', free') :=
    fold_left (fun '(g, free) port =>
                 (set_port_members port [] g, consume_members (port_members g port) free))
              ports (set_group_portmap 0 g, free) in
  group_store group g';;;
  modify (with_members (set_members_free free')).

Definition get_portmap (g : group_entry) : Z :=
  fold_left (fun portmap port =>
               match port_members g port with
               | [] => portmap
               | _ :: _ => Z.lor portmap (Z.shiftl 1 (Z.of_nat port))
               end)
            ports 0.

(** [LIST_FOREACH(group, &groups.hash[index], hash)
       if (memcmp(group->ea, ea, ETHER_ADDR_LEN) == 0) return group;] *)
Fixpoint groups_hash_find (chain : list nat) (ea : ether_addr) : cacheM ptr :=
  match chain with
  | [] => ret NULL
  | a :: chain' =>
      g <- group_load (pooled a);;
      if decide (group_ea g = ea) then ret (Some a)
      else groups_hash_find chain' ea
  end.

(** [STAILQ_FOREACH(group, &groups.pool, link)
       { if (group->portmap == 0) break; prev = group; }] *)
Fixpoint groups_pool_scan (queue : list nat) (pos : nat) : cacheM (option (nat * nat)) :=
  match queue with
  | [] => ret None
  | a :: queue' =>
      g <- group_load (pooled a);;
      if group_portmap g =? 0 then ret (Some (pos, a))
      else groups_pool_scan queue' (S pos)
  end.

(** The tail of [get_group], from [init_group(group)]. *)
Definition get_group_link (ea : ether_addr) (index : nat) (group : ptr) : cacheM ptr :=
  a <- nonnull group;;
  g <- group_load (pooled a);;
  group_store (pooled a) (set_group_ea ea (init_group g));;;
  modify (with_groups (fun gs => set_groups_hash (hash_link index a (groups_hash gs)) gs));;;
  modify (with_groups (fun gs => set_groups_pool (groups_pool gs ++ [a]) gs));;;
  ret group.

Definition get_group (ea : ether_addr) (allocate : bool) : cacheM ptr :=
  let index := HASH_INDEX ea in
  chain <- gets (fun c => nth index (groups_hash (groups c)) []);;
  group <- groups_hash_find chain ea;;
  match group with
  | Some _ => ret group
  | None =>
      if negb allocate then ret NULL
      else
        count <- gets (fun c => groups_count (groups c));;
        group <- (if count <? GROUP_POOL_SIZE then
                    group <- calloc_group;;
                    match group with
                    | Some _ =>      (* if (group) groups.count++; *)
                        modify (with_groups (fun gs =>
                                  set_groups_count (groups_count gs + 1) gs));;;
                        ret group
                    | None => ret group
                    end
                  else ret NULL);;
        match group with
        | Some _ => get_group_link ea index group
        | None =>
            queue <- gets (fun c => groups_pool (groups c));;
            found <- groups_pool_scan queue 0;;
            match found with
            | None => ret NULL
            | Some (pos, a) =>
                modify (with_groups (fun gs =>
                          set_groups_hash (hash_unlink a (groups_hash gs)) gs));;;
                modify (with_groups (fun gs =>
                          set_groups_pool (delete pos (groups_pool gs)) gs));;;
                g <- group_load (pooled a);;
                switch_clr_portmap (group_ea g);;;
                (* memset(&group, 0, sizeof(group)): the pointer variable
                   [group] is cleared, not the record; [group] is NULL from
                   here on. *)
                get_group_link ea index NULL
            end
        end
  end.

(** ** Start-up *)

Definition init_cache : cacheM Z :=
  modify (fun c =>
    {| hosts := {| hosts_mem := []; hosts_pool := [];
                   hosts_hash := replicate (N.to_nat HASH_SIZE) [];
                   hosts_count := 0 |};
       members := {| members_free := []; members_count := 0 |};
       groups := {| groups_mem := []; groups_pool := [];
                    groups_hash := replicate (N.to_nat HASH_SIZE) [];
                    groups_timer := timer_zero; groups_count := 0 |};
       routers := {| routers_group := init_group group_zero;
                     routers_timer := timer_zero |};
       world := world c |});;;
  ret 0.


(** ** The group sweep *)

Definition routers_portmap (c : cache) : Z := group_portmap (routers_group (routers c)).

(** The body of [STAILQ_FOREACH(group, &groups.pool, link)] in
    [group_timer]; the result is the final [expires]. *)
Fixpoint group_timer_sweep (queue : list nat) (time expires : Z) : cacheM Z :=
  match queue with
  | [] => ret expires
  | a :: queue' =>
      g <- group_load (pooled a);;
      let portmap := group_portmap g in
      if portmap =? 0 then group_timer_sweep queue' time expires
      else if time_after (group_time g) time then
        group_timer_sweep queue' time
          (if time_before (group_time g) expires then group_time g else expires)
      else
        consume_group (pooled a);;;
        rmap <- gets routers_portmap;;
        let portmap := Z.land portmap (Z.lnot rmap) in
        (if portmap =? 0 then ret tt
         else switch_del_portmap (group_ea g) portmap);;;
        group_timer_sweep queue' time expires
  end.

(** The callback of [groups.timer]; [now] is what [now()] returns. *)
Definition group_timer (now : Z) : cacheM unit :=
  let time := now in
  let expires := ulong (time + ULONG_HALF) in
  queue <- gets (fun c => groups_pool (groups c));;
  expires <- group_timer_sweep queue time expires;;
  if time_before expires (ulong (time + ULONG_HALF)) then
    modify (with_groups (fun gs => set_groups_timer (mod_timer (groups_timer gs) expires) gs))
  else ret tt.

(** ** Membership *)

Definition port_invalid (port : Z) : bool :=
  (port <? 0) || (Z.of_nat PORT_MAX <? port).

Definition add_member (maddr : ether_addr) (addr : in_addr_t) (port timeout : Z)
    (now : Z) : cacheM Z :=
  if port_invalid port then ret (-1)
  else
    group <- get_group maddr true;;
    portmap <- match group with
               | Some a =>
                   let group := pooled a in
                   g <- group_load group;;
                   let portmap := group_portmap g in
                   let time := ulong (now + timeout) in
                   group_store group (set_group_time time g);;;
                   member <- get_member group addr (Z.to_nat port) true;;
                   match member with
                   | Some pos => member_touch group (Z.to_nat port) pos time
                   | None => ret tt
                   end;;;
                   g <- group_load group;;
                   let newmap := get_portmap g in
                   group_store group (set_group_portmap newmap g);;;
                   let portmap := Z.land (Z.lxor portmap newmap) newmap in
                   timer <- gets (fun c => groups_timer (groups c));;
                   (if negb (timer_pending timer) || time_before time (expires timer) then
                      modify (with_groups (set_groups_timer (mod_timer timer time)))
                    else ret tt);;;
                   ret portmap
               | None => ret 0
               end;;
    (if portmap =? 0 then ret tt
     else
       rmap <- gets routers_portmap;;
       switch_add_portmap maddr (Z.lor portmap rmap));;;
    ret portmap.

Definition del_member (maddr : ether_addr) (addr : in_addr_t) (port : Z) : cacheM Z :=
  if port_invalid port then ret (-1)
  else
    group <- get_group maddr false;;
    portmap <- match group with
               | Some a =>
                   let group := pooled a in
                   g <- group_load group;;
                   let portmap := group_portmap g in
                   member <- get_member group addr (Z.to_nat port) false;;
                   match member with
                   | Some pos => consume_member group (Z.to_nat port) pos
                   | None => ret tt
                   end;;;
                   g <- group_load group;;
                   let newmap := get_portmap g in
                   group_store group (set_group_portmap newmap g);;;
                   let portmap := Z.land (Z.lxor portmap newmap) portmap in
                   (if negb (portmap =? 0) && (newmap =? 0) then consume_group group
                    else ret tt);;;
                   ret portmap
               | None => ret 0
               end;;
    rmap <- gets routers_portmap;;
    let portmap := Z.land portmap (Z.lnot rmap) in
    (if portmap =? 0 then ret tt else switch_del_portmap maddr portmap);;;
    ret portmap.

(** ** Router tracking *)

(** The body of [LIST_FOREACH_SAFE(member, &group->members[port], link,
    next)] in [router_timer], over one list: the members kept, the
    updated [group->time] and the updated free list. *)
Fixpoint router_sweep (l : list member_entry) (time gtime : Z)
    (free : list member_entry) : list member_entry * Z * list member_entry :=
  match l with
  | [] => ([], gtime, free)
  | m :: l' =>
      if time_after (member_time m) time then
        let gtime := if time_before (member_time m) gtime
                     then member_time m else gtime in
        let '(kept, gtime', free') := router_sweep l' time gtime free in
        (m :: kept, gtime', free')
      else router_sweep l' time gtime (m :: free)
  end.

(** [STAILQ_FOREACH(group, &groups.pool, link)
       { groupmap = portmap & ~group->portmap;
         if (groupmap) switch_xxx_portmap(group->ea, groupmap); }]
    at the end of [router_timer] (del) and of [add_router] (add). *)
Fixpoint routers_fan_out (queue : list nat) (portmap : Z)
    (switch_portmap : ether_addr -> Z -> cacheM unit) : cacheM unit :=
  match queue with
  | [] => ret tt
  | a :: queue' =>
      g <- group_load (pooled a);;
      let groupmap := Z.land portmap (Z.lnot (group_portmap g)) in
      (if groupmap =? 0 then ret tt else switch_portmap (group_ea g) groupmap);;;
      routers_fan_out queue' portmap switch_portmap
  end.

(** The callback of [routers.timer]; its [data] is [&routers.group]. *)
Definition router_timer (now : Z) : cacheM unit :=
  let group := the_routers in
  let time := now in
  g <- group_load group;;
  let portmap := group_portmap g in
  if portmap <? 0 then ret tt
  else
    portmap <- (if time_after (group_time g) time then
                  free <- gets (fun c => members_free (members c));;
                  let '(g', free') :=
                    fold_left (fun '(g, free) port =>
                                 let '(kept, gtime, free') :=
                                   router_sweep (port_members g port) time (group_time g) free in
                                 (set_port_members port kept (set_group_time gtime g), free'))
                              ports (set_group_time (ulong (time + ULONG_HALF)) g, free) in
                  modify (with_members (set_members_free free'));;;
                  let newmap := get_portmap g' in
                  group_store group (set_group_portmap newmap g');;;
                  let portmap := Z.land (Z.lxor portmap newmap) portmap in
                  (if newmap =? 0 then consume_group group
                   else modify (with_routers (fun rs =>
                          set_routers_timer (mod_timer (routers_timer rs) (group_time g')) rs)));;;
                  ret portmap
                else
                  consume_group group;;;
                  ret portmap);;
    if portmap =? 0 then ret tt
    else
      queue <- gets (fun c => groups_pool (groups c));;
      routers_fan_out queue portmap switch_del_portmap.

Definition add_router (addr : in_addr_t) (port timeout : Z) (now : Z) : cacheM Z :=
  if port_invalid port then ret (-1)
  else
    let group := the_routers in
    g <- group_load group;;
    let portmap := group_portmap g in
    let time := ulong (now + timeout) in
    group_store group (set_group_time time g);;;
    member <- get_member group addr (Z.to_nat port) true;;
    match member with
    | Some pos => member_touch group (Z.to_nat port) pos time
    | None => ret tt
    end;;;
    g <- group_load group;;
    let newmap := get_portmap g in
    group_store group (set_group_portmap newmap g);;;
    let portmap := Z.land (Z.lxor portmap newmap) newmap in
    timer <- gets (fun c => routers_timer (routers c));;
    (if negb (timer_pending timer) || time_after (expires timer) time then
       modify (with_routers (set_routers_timer (mod_timer timer time)))
     else ret tt);;;
    (if portmap =? 0 then ret tt
     else
       queue <- gets (fun c => groups_pool (groups c));;
       routers_fan_out queue portmap switch_add_portmap);;;
    ret portmap.

(** ** Fast expiry *)

(** [STAILQ_FOREACH(group, &groups.pool, link) group->time = time;] *)
Fixpoint expire_all (queue : list nat) (time : Z) : cacheM unit :=
  match queue with
  | [] => ret tt
  | a :: queue' =>
      g <- group_load (pooled a);;
      group_store (pooled a) (set_group_time time g);;;
      expire_all queue' time
  end.

(** [maddr] is [None] for the C call with a null [maddr]. *)
Definition expire_members (maddr : option ether_addr) (timeout : Z) (now : Z) : cacheM Z :=
  let time := ulong (now + timeout) in
  found <- match maddr with
           | Some ea =>
               group <- get_group ea false;;
               match group with
               | None => ret false                 (* return -1; *)
               | Some a =>
                   g <- group_load (pooled a);;
                   group_store (pooled a) (set_group_time time g);;;
                   ret true
               end
           | None =>
               queue <- gets (fun c => groups_pool (groups c));;
               expire_all queue time;;;
               ret true
           end;;
  if found : bool then
    timer <- gets (fun c => groups_timer (groups c));;
    (if negb (timer_pending timer) || time_after (expires timer) time then
       modify (with_groups (set_groups_timer (mod_timer timer time)))
     else ret tt);;;
    ret 0
  else ret (-1).

(** ** The operations the packet path and the Timer Service invoke *)

Inductive call : Type :=
| call_get_port (haddr : ether_addr) (now : Z)
| call_add_member (maddr : ether_addr) (addr : in_addr_t) (port timeout now : Z)
| call_del_member (maddr : ether_addr) (addr : in_addr_t) (port : Z)
| call_add_router (addr : in_addr_t) (port timeout now : Z)
| call_expire_members (maddr : option ether_addr) (timeout now : Z)
| call_group_timer (now : Z)
| call_router_timer (now : Z).

(** Modelled from the spec: when a timer fires the Timer Service takes it
    off its schedule before it runs the callback ("otherwise transition to
    idle" at the end of a sweep that does not reschedule). *)
Definition fire_group_timer (now : Z) : cacheM unit :=
  modify (with_groups (fun gs => set_groups_timer (del_timer (groups_timer gs)) gs));;;
  group_timer now.

Definition fire_router_timer (now : Z) : cacheM unit :=
  modify (with_routers (fun rs => set_routers_timer (del_timer (routers_timer rs)) rs));;;
  router_timer now.

Definition run (op : call) : cacheM Z :=
  match op with
  | call_get_port haddr now => get_port haddr now
  | call_add_member maddr addr port timeout now => add_member maddr addr port timeout now
  | call_del_member maddr addr port => del_member maddr addr port
  | call_add_router addr port timeout now => add_router addr port timeout now
  | call_expire_members maddr timeout now => expire_members maddr timeout now
  | call_group_timer now => fire_group_timer now;;; ret 0
  | call_router_timer now => fire_router_timer now;;; ret 0
  end.

(** A run of operations from the state [init_cache] leaves. *)
Fixpoint run_all (ops : list call) : cacheM unit :=
  match ops with
  | [] => ret tt
  | op :: ops' => run op;;; run_all ops'
  end.


(** * Properties *)

(** ** What the properties speak about *)

(** The driver calls an operation makes: [c'] extends the log of [c] by [new]. *)
Definition calls_made (c c' : cache) (new : list driver_call) : Prop :=
  driver_log (world c') = driver_log (world c) ++ new.

(** The group entry the table holds for [ea]: what [get_group(ea, 0)] finds. *)
Definition group_of (c : cache) (ea : ether_addr) : option group_entry :=
  match get_group ea false c with
  | Done (Some a) _ => groups_mem (groups c) !! a
  | _ => None
  end.

(** The port bitmask of the group for [ea]; no ports when there is no entry. *)
Definition bitmask_of (c : cache) (ea : ether_addr) : Z :=
  match group_of c ea with
  | Some g => group_portmap g
  | None => 0
  end.

(** The bitmask the spec asks for: exactly the ports, among [0..PORT_MAX],
    whose member list is not empty. *)
Definition bitmask_exact (g : group_entry) : Prop :=
  forall i : Z,
    Z.testbit (group_portmap g) i = true <->
    exists p : nat, i = Z.of_nat p /\ (p <= PORT_MAX)%nat /\ port_members g p <> [].

(** The stored bitmask agrees with a recomputation. *)
Definition consistent (g : group_entry) : Prop := group_portmap g = get_portmap g.

Definition bitmask_inv (c : cache) : Prop :=
  consistent (routers_group (routers c)) /\ Forall consistent (groups_mem (groups c)).

(** The cache states: what [init_cache] leaves, then any operations. *)
Definition reachable (c : cache) : Prop :=
  exists (c0 c1 : cache) (ops : list call),
    init_cache c0 = Done 0 c1 /\ run_all ops c1 = Done tt c.

(** ** Running monadic code *)

Lemma bind_inv {A B} (m : cacheM A) (k : A -> cacheM B) c b c' :
  bind m k c = Done b c' ->
  exists a c1, m c = Done a c1 /\ k a c1 = Done b c'.
Proof.
  unfold bind. destruct (m c) as [a c1|]; [|discriminate].
  intros H. exists a, c1. split; [reflexivity|exact H].
Qed.

Lemma bind_Done {A B} (m : cacheM A) (k : A -> cacheM B) c a c1 :
  m c = Done a c1 -> bind m k c = k a c1.
Proof. unfold bind. intros ->. reflexivity. Qed.

Lemma bind_Fault {A B} (m : cacheM A) (k : A -> cacheM B) c :
  m c = Fault -> bind m k c = Fault.
Proof. unfold bind. intros ->. reflexivity. Qed.


#[local] Arguments ulong : simpl never.
#[local] Arguments long : simpl never.
#[local] Arguments time_after : simpl never.
#[local] Arguments time_before : simpl never.
#[local] Arguments time_after_eq : simpl never.
#[local] Arguments get_portmap : simpl never.
#[local] Arguments init_group : simpl never.
#[local] Arguments HASH_INDEX : simpl never.
#[local] Arguments hash_link : simpl never.
#[local] Arguments hash_unlink : simpl never.
#[local] Arguments port_members : simpl never.
#[local] Arguments set_port_members : simpl never.
#[local] Arguments ports : simpl never.
#[local] Arguments put_group : simpl never.
#[local] Arguments put_host : simpl never.
#[local] Arguments group_at : simpl never.
#[local] Arguments Z.mul : simpl never.
#[local] Arguments Z.add : simpl never.

Lemma group_load_inv group c g c' :
  group_load group c = Done g c' -> c' = c /\ group_at c group = Some g.
Proof.
  unfold group_load. destruct (group_at c group); [|discriminate].
  intros H. inversion H; subst. split; reflexivity.
Qed.

Lemma group_load_at group c g :
  group_at c group = Some g -> group_load group c = Done g c.
Proof. unfold group_load. intros ->. reflexivity. Qed.

Lemma host_load_inv a c h c' :
  host_load a c = Done h c' -> c' = c /\ hosts_mem (hosts c) !! a = Some h.
Proof.
  unfold host_load. destruct (hosts_mem (hosts c) !! a); [|discriminate].
  intros H. inversion H; subst. split; reflexivity.
Qed.

Lemma host_load_at a c h :
  hosts_mem (hosts c) !! a = Some h -> host_load a c = Done h c.
Proof. unfold host_load. intros ->. reflexivity. Qed.

Lemma with_world_id c : with_world (set_calloc_results (calloc_results (world c))) c = c.
Proof. destruct c as [? ? ? ? []]. reflexivity. Qed.

Lemma calloc_result_inv c ok c' :
  calloc_result c = Done ok c' ->
  exists rest, c' = with_world (set_calloc_results rest) c.
Proof.
  unfold calloc_result. destruct (calloc_results (world c)) as [|b rest] eqn:E; intros H;
    inversion H; subst.
  - exists []. rewrite <- E. symmetry. apply with_world_id.
  - exists rest. reflexivity.
Qed.

Lemma nonnull_inv p c a c' : nonnull p c = Done a c' -> p = Some a /\ c' = c.
Proof. destruct p; unfold nonnull, ret, fault; intros H; inversion H; auto. Qed.

(** Decompose a hypothesis [H : m c = Done r c'] along the structure of
    the monadic program [m]. *)
Ltac run_inv1 :=
  match goal with
  | H : Done _ _ = Done _ _ |- _ => inversion H; subst; clear H
  | H : Fault = Done _ _ |- _ => discriminate H
  | H : NULL = Some _ |- _ => discriminate H
  | H : fault _ = Done _ _ |- _ => discriminate H
  | H : ret _ _ = Done _ _ |- _ => unfold ret in H
  | H : gets _ _ = Done _ _ |- _ => unfold gets in H
  | H : modify _ _ = Done _ _ |- _ => unfold modify in H
  | H : group_store _ _ _ = Done _ _ |- _ => unfold group_store in H
  | H : host_store _ _ _ = Done _ _ |- _ => unfold host_store in H
  | H : driver _ _ = Done _ _ |- _ => unfold driver in H
  | H : switch_add_portmap _ _ _ = Done _ _ |- _ => unfold switch_add_portmap in H
  | H : switch_del_portmap _ _ _ = Done _ _ |- _ => unfold switch_del_portmap in H
  | H : switch_clr_portmap _ _ = Done _ _ |- _ => unfold switch_clr_portmap in H
  | H : switch_get_port _ _ = Done _ _ |- _ => unfold switch_get_port in H
  | H : group_load _ _ = Done _ _ |- _ => apply group_load_inv in H as [? H]; subst
  | H : host_load _ _ = Done _ _ |- _ => apply host_load_inv in H as [? H]; subst
  | H : nonnull _ _ = Done _ _ |- _ => apply nonnull_inv in H as [? ?]; subst
  | H : calloc_result _ = Done _ _ |- _ => apply calloc_result_inv in H as [? ?]; subst
  | H : bind _ _ _ = Done _ _ |- _ => apply bind_inv in H as (? & ? & ? & H)
  | H : (if ?b then _ else _) _ = Done _ _ |- _ => destruct b eqn:?
  | H : (match ?x with _ => _ end) _ = Done _ _ |- _ => destruct x eqn:?
  | H : (let '(_, _) := ?x in _) _ = Done _ _ |- _ => destruct x eqn:?
  end.
Ltac run_inv := repeat run_inv1.

(** Projections of an updated cache. *)
Lemma put_group_hosts x g c : hosts (put_group x g c) = hosts c.
Proof. destruct x; reflexivity. Qed.
Lemma put_group_members x g c : members (put_group x g c) = members c.
Proof. destruct x; reflexivity. Qed.
Lemma put_group_world x g c : world (put_group x g c) = world c.
Proof. destruct x; reflexivity. Qed.
Lemma put_group_pool x g c : groups_pool (groups (put_group x g c)) = groups_pool (groups c).
Proof. destruct x; reflexivity. Qed.
Lemma put_group_hash x g c : groups_hash (groups (put_group x g c)) = groups_hash (groups c).
Proof. destruct x; reflexivity. Qed.
Lemma put_group_timer x g c : groups_timer (groups (put_group x g c)) = groups_timer (groups c).
Proof. destruct x; reflexivity. Qed.
Lemma put_group_count x g c : groups_count (groups (put_group x g c)) = groups_count (groups c).
Proof. destruct x; reflexivity. Qed.
Lemma put_group_routers_timer x g c :
  routers_timer (routers (put_group x g c)) = routers_timer (routers c).
Proof. destruct x; reflexivity. Qed.
Lemma put_group_mem_length x g c :
  length (groups_mem (groups (put_group x g c))) = length (groups_mem (groups c)).
Proof. destruct x; simpl; [apply length_insert|reflexivity]. Qed.

Lemma group_at_put_eq x g c :
  is_Some (group_at c x) -> group_at (put_group x g c) x = Some g.
Proof.
  destruct x as [a|]; unfold group_at, put_group; simpl; [|reflexivity].
  intros Hs. apply list_lookup_insert_eq. apply lookup_lt_is_Some. exact Hs.
Qed.

Lemma group_at_put_ne x y g c :
  x <> y -> group_at (put_group x g c) y = group_at c y.
Proof.
  destruct x as [a|], y as [b|]; unfold group_at, put_group; simpl; try reflexivity.
  - intros Hne. apply list_lookup_insert_ne. congruence.
  - congruence.
Qed.

Lemma group_at_put x y g c g' :
  group_at (put_group x g c) y = Some g' ->
  (x = y /\ g' = g) \/ (x <> y /\ group_at c y = Some g').
Proof.
  destruct x as [a|], y as [b|]; unfold group_at, put_group; simpl.
  - destruct (decide (a = b)) as [->|Hne].
    + intros H. left. split; [reflexivity|].
      destruct (decide (b < length (groups_mem (groups c)))%nat) as [Hlt|Hge].
      * rewrite list_lookup_insert_eq in H by exact Hlt. congruence.
      * rewrite list_insert_ge in H by lia.
        apply lookup_lt_Some in H. lia.
    + rewrite list_lookup_insert_ne by exact Hne. intros H. right. split; congruence.
  - intros H. right. split; [congruence|exact H].
  - intros H. right. split; [congruence|exact H].
  - intros H. left. split; congruence.
Qed.

Lemma put_host_groups a h c : groups (put_host a h c) = groups c.
Proof. reflexivity. Qed.

(** ** Port bitmasks *)

Lemma port_members_set_nil port g : port_members (set_port_members port [] g) port = [].
Proof.
  unfold port_members, set_port_members. simpl. rewrite nth_lookup.
  destruct (decide (port < length (group_members g))%nat).
  - rewrite list_lookup_insert_eq by assumption. reflexivity.
  - rewrite list_insert_ge by lia. rewrite lookup_ge_None_2 by lia. reflexivity.
Qed.

Lemma port_members_set_eq port l g :
  (port < length (group_members g))%nat ->
  port_members (set_port_members port l g) port = l.
Proof.
  intros Hlt. unfold port_members, set_port_members. simpl. rewrite nth_lookup.
  rewrite list_lookup_insert_eq by assumption. reflexivity.
Qed.

Lemma port_members_set_ne p q l g :
  p <> q -> port_members (set_port_members p l g) q = port_members g q.
Proof.
  intros Hne. unfold port_members, set_port_members. simpl. rewrite !nth_lookup.
  rewrite list_lookup_insert_ne by assumption. reflexivity.
Qed.

Lemma in_ports p : In p ports <-> (p <= PORT_MAX)%nat.
Proof. unfold ports. rewrite in_seq. lia. Qed.

Definition nonempty {A} (l : list A) : bool :=
  match l with [] => false | _ :: _ => true end.

Lemma nonempty_true {A} (l : list A) : nonempty l = true <-> l <> [].
Proof. destruct l; simpl; split; congruence. Qed.

Lemma bit_of_port (p : nat) (i : Z) :
  Z.testbit (Z.shiftl 1 (Z.of_nat p)) i = (Z.of_nat p =? i).
Proof.
  rewrite Z.shiftl_1_l. destruct (Z.ltb_spec i 0).
  - rewrite Z.testbit_neg_r by assumption. symmetry. apply Z.eqb_neq. lia.
  - apply Z.pow2_bits_eqb. lia.
Qed.

Lemma get_portmap_bits_from g l acc i :
  Z.testbit
    (fold_left (fun portmap port =>
                  match port_members g port with
                  | [] => portmap
                  | _ :: _ => Z.lor portmap (Z.shiftl 1 (Z.of_nat port))
                  end) l acc) i
  = Z.testbit acc i
    || existsb (fun p => (Z.of_nat p =? i) && nonempty (port_members g p)) l.
Proof.
  revert acc. induction l as [|p l IH]; intros acc; simpl.
  - rewrite orb_false_r. reflexivity.
  - rewrite IH. destruct (port_members g p) as [|m ms]; simpl.
    + rewrite andb_false_r. reflexivity.
    + rewrite Z.lor_spec, bit_of_port, andb_true_r, orb_assoc. reflexivity.
Qed.

(** [get_portmap] computes the bitmask the spec describes. *)
Lemma get_portmap_spec g i :
  Z.testbit (get_portmap g) i = true <->
  exists p : nat, i = Z.of_nat p /\ (p <= PORT_MAX)%nat /\ port_members g p <> [].
Proof.
  unfold get_portmap. rewrite get_portmap_bits_from, Z.bits_0, orb_false_l.
  rewrite existsb_exists. split.
  - intros (p & Hin & Hp). apply andb_true_iff in Hp as [Heq Hne].
    exists p. apply Z.eqb_eq in Heq. apply in_ports in Hin. apply nonempty_true in Hne.
    auto.
  - intros (p & -> & Hle & Hne). exists p. split; [apply in_ports; exact Hle|].
    apply andb_true_iff. split; [apply Z.eqb_refl|apply nonempty_true; exact Hne].
Qed.

Lemma consistent_exact g : consistent g -> bitmask_exact g.
Proof. intros Hc i. rewrite Hc. apply get_portmap_spec. Qed.

Lemma exact_consistent g : bitmask_exact g -> consistent g.
Proof.
  intros He. apply Z.bits_inj'. intros i _.
  apply eq_true_iff_eq. rewrite (He i), get_portmap_spec. reflexivity.
Qed.

(** Port bitmasks fit in an [int] when [PORT_MAX <= 30]. *)
Lemma get_portmap_range g : 0 <= get_portmap g < 2 ^ Z.of_nat (S PORT_MAX).
Proof.
  assert (Hnn : 0 <= get_portmap g).
  { apply Z.bits_iff_nonneg_ex. exists (Z.of_nat (S PORT_MAX)). intros i Hi.
    destruct (Z.testbit (get_portmap g) i) eqn:E; [|reflexivity].
    apply get_portmap_spec in E as (p & -> & Hle & _). lia. }
  split; [exact Hnn|].
  destruct (Z.eq_dec (get_portmap g) 0) as [->|Hne].
  - apply Z.pow_pos_nonneg; lia.
  - apply Z.log2_lt_pow2; [lia|].
    destruct (Z.lt_ge_cases (Z.log2 (get_portmap g)) (Z.of_nat (S PORT_MAX))) as [Hl|Hg];
      [exact Hl|].
    assert (Hb : Z.testbit (get_portmap g) (Z.log2 (get_portmap g)) = true)
      by (apply Z.bit_log2; lia).
    apply get_portmap_spec in Hb as (p & Hp & Hle & _). lia.
Qed.

(** The recomputation looks at the member lists only. *)
Lemma get_portmap_ext g g' :
  (forall p, (p <= PORT_MAX)%nat ->
             nonempty (port_members g p) = nonempty (port_members g' p)) ->
  get_portmap g = get_portmap g'.
Proof.
  intros Hext. apply Z.bits_inj'. intros i _. apply eq_true_iff_eq.
  rewrite !get_portmap_spec. split; intros (p & -> & Hle & Hne); exists p;
    (split; [reflexivity|split; [exact Hle|]]);
    apply nonempty_true; apply nonempty_true in Hne;
    specialize (Hext p Hle); congruence.
Qed.

Lemma get_portmap_empty g :
  (forall p, (p <= PORT_MAX)%nat -> port_members g p = []) -> get_portmap g = 0.
Proof.
  intros He. apply Z.bits_inj'. intros i _. rewrite Z.bits_0.
  destruct (Z.testbit (get_portmap g) i) eqn:E; [|reflexivity].
  apply get_portmap_spec in E as (p & _ & Hle & Hne). elim Hne. apply He. exact Hle.
Qed.

(** ** Emptying a group *)

Definition clear_ports (l : list nat) (g : group_entry) : group_entry :=
  fold_left (fun g port => set_port_members port [] g) l g.

Lemma init_group_clear g : init_group g = clear_ports ports (set_group_portmap 0 g).
Proof. reflexivity. Qed.

Lemma consume_fold_group l g free :
  fst (fold_left (fun '(g, free) port =>
                    (set_port_members port [] g,
                     consume_members (port_members g port) free))
                 l (g, free)) = clear_ports l g.
Proof.
  revert g free. induction l as [|p l IH]; intros g free; simpl; [reflexivity|].
  apply IH.
Qed.

Lemma clear_ports_fields l g :
  group_time (clear_ports l g) = group_time g /\
  group_portmap (clear_ports l g) = group_portmap g /\
  group_ea (clear_ports l g) = group_ea g /\
  length (group_members (clear_ports l g)) = length (group_members g).
Proof.
  revert g. induction l as [|p l IH]; intros g; simpl; [auto|].
  destruct (IH (set_port_members p [] g)) as (H1 & H2 & H3 & H4).
  unfold clear_ports in *. rewrite H1, H2, H3, H4.
  unfold set_port_members. simpl. rewrite length_insert. auto.
Qed.

Lemma clear_ports_out l g p :
  ~ In p l -> port_members (clear_ports l g) p = port_members g p.
Proof.
  revert g. induction l as [|q l IH]; intros g Hnin; simpl; [reflexivity|].
  unfold clear_ports in *. rewrite IH by (intros ?; apply Hnin; right; assumption).
  apply port_members_set_ne. intros ->. apply Hnin. left. reflexivity.
Qed.

Lemma clear_ports_in l g p :
  In p l -> port_members (clear_ports l g) p = [].
Proof.
  revert g. induction l as [|q l IH]; intros g Hin; simpl; [destruct Hin|].
  destruct (in_dec Nat.eq_dec p l) as [Hl|Hl].
  - apply IH. exact Hl.
  - destruct Hin as [->|Hin]; [|contradiction].
    unfold clear_ports in *. rewrite clear_ports_out by exact Hl.
    apply port_members_set_nil.
Qed.

Lemma get_portmap_clear g : get_portmap (clear_ports ports g) = 0.
Proof.
  apply get_portmap_empty. intros p Hle. apply clear_ports_in, in_ports, Hle.
Qed.

Lemma consistent_cleared g : consistent (clear_ports ports (set_group_portmap 0 g)).
Proof.
  unfold consistent. rewrite get_portmap_clear.
  destruct (clear_ports_fields ports (set_group_portmap 0 g)) as (_ & -> & _). reflexivity.
Qed.

Lemma consistent_recomputed g : consistent (set_group_portmap (get_portmap g) g).
Proof. reflexivity. Qed.

Lemma consistent_set_ea ea g : consistent g -> consistent (set_group_ea ea g).
Proof. intros H. exact H. Qed.

Lemma consistent_set_time t g : consistent g -> consistent (set_group_time t g).
Proof. intros H. exact H. Qed.

Lemma consistent_zero : consistent group_zero.
Proof.
  unfold consistent. symmetry. apply get_portmap_empty. intros p Hle.
  unfold port_members, group_zero. cbn [group_members].
  rewrite nth_lookup.
  destruct (replicate (S PORT_MAX) (@nil member_entry) !! p) eqn:E; [|reflexivity].
  apply lookup_replicate in E as [-> _]. reflexivity.
Qed.

Lemma consume_group_inv group c r c' :
  consume_group group c = Done r c' ->
  exists g free',
    group_at c group = Some g /\
    c' = with_members (set_members_free free')
           (put_group group (clear_ports ports (set_group_portmap 0 g)) c).
Proof.
  intros H. unfold consume_group in H. run_inv.
  match goal with
  | E : fold_left _ _ (set_group_portmap 0 ?g0, ?fr) = (?g', ?f'),
    Hg : group_at _ _ = Some ?g0 |- _ =>
      exists g0, f'; split; [exact Hg|];
      pose proof (consume_fold_group ports (set_group_portmap 0 g0) fr) as Hf;
      rewrite E in Hf; simpl in Hf; rewrite Hf; reflexivity
  end.
Qed.

(** ** The bitmask invariant, group by group *)

Definition inv_but (x : option group_ptr) (c : cache) : Prop :=
  forall y g, Some y <> x -> group_at c y = Some g -> consistent g.

Lemma bitmask_inv_iff c : bitmask_inv c <-> inv_but None c.
Proof.
  unfold bitmask_inv, inv_but. rewrite Forall_lookup. split.
  - intros [Hr Hg] [a|] g _ Hy; unfold group_at in Hy.
    + eapply Hg; eassumption.
    + congruence.
  - intros H. split.
    + apply (H the_routers); [discriminate|reflexivity].
    + intros a g Ha. apply (H (pooled a)); [discriminate|exact Ha].
Qed.

Lemma inv_but_weaken x c : inv_but None c -> inv_but x c.
Proof. intros H y g _. apply H. discriminate. Qed.

Lemma inv_but_put x g c : inv_but (Some x) c -> inv_but (Some x) (put_group x g c).
Proof.
  intros H y g' Hne Hy. apply group_at_put in Hy as [[-> _]|[_ Hy]]; [congruence|].
  eapply H; eassumption.
Qed.

Lemma inv_all_put x g c :
  consistent g -> inv_but (Some x) c -> inv_but None (put_group x g c).
Proof.
  intros Hg H y g' _ Hy. apply group_at_put in Hy as [[_ ->]|[Hne Hy]]; [exact Hg|].
  eapply H; [|eassumption]. congruence.
Qed.

Lemma inv_but_same x c c' :
  (forall y, group_at c' y = group_at c y) -> inv_but x c -> inv_but x c'.
Proof. intros Hs H y g Hne Hy. rewrite Hs in Hy. eapply H; eassumption. Qed.

Lemma consume_group_restores group c r c' :
  inv_but (Some group) c -> consume_group group c = Done r c' -> inv_but None c'.
Proof.
  intros Hinv H. apply consume_group_inv in H as (g & free' & Hg & ->).
  apply inv_but_same with (c := put_group group (clear_ports ports (set_group_portmap 0 g)) c);
    [intros [|]; reflexivity|].
  apply inv_all_put; [apply consistent_cleared|exact Hinv].
Qed.

(** ** Looking a group up *)

Lemma groups_hash_find_state chain ea c r c' :
  groups_hash_find chain ea c = Done r c' -> c' = c.
Proof.
  revert c'. induction chain as [|a chain IH]; intros c' H; simpl in H; run_inv; auto.
Qed.

Lemma groups_hash_find_some chain ea c a c' :
  groups_hash_find chain ea c = Done (Some a) c' ->
  In a chain /\ exists g, group_at c (pooled a) = Some g /\ group_ea g = ea.
Proof.
  revert c'. induction chain as [|b chain IH]; intros c' H; simpl in H; run_inv.
  - split; [left; reflexivity|]. eauto.
  - destruct (IH _ H) as [Hin Hg]. split; [right; exact Hin|exact Hg].
Qed.

Lemma groups_hash_find_none chain ea c c' :
  groups_hash_find chain ea c = Done None c' ->
  forall a, In a chain -> exists g, group_at c (pooled a) = Some g /\ group_ea g <> ea.
Proof.
  revert c'. induction chain as [|b chain IH]; intros c' H a Hin; simpl in H; run_inv.
  - destruct Hin.
  - destruct Hin as [->|Hin]; [eauto|]. eapply IH; eassumption.
Qed.

(** The search reads the addresses of the chain and nothing else. *)
Lemma groups_hash_find_ea chain ea c c' r :
  (forall b, In b chain ->
     option_map group_ea (group_at c' (pooled b)) = option_map group_ea (group_at c (pooled b))) ->
  groups_hash_find chain ea c = Done r c ->
  groups_hash_find chain ea c' = Done r c'.
Proof.
  induction chain as [|b chain IH]; intros Hsame H; simpl in *.
  - unfold ret in *. inversion H. reflexivity.
  - apply bind_inv in H as (g & c1 & Hl & H).
    apply group_load_inv in Hl as [-> Hg].
    pose proof (Hsame b (or_introl eq_refl)) as Hb. rewrite Hg in Hb. simpl in Hb.
    destruct (group_at c' (pooled b)) as [g'|] eqn:Hg'; [|discriminate].
    simpl in Hb. rewrite (bind_Done _ _ _ _ _ (group_load_at _ _ _ Hg')).
    assert (group_ea g' = group_ea g) as -> by congruence.
    destruct (decide (group_ea g = ea)).
    + unfold ret in *. inversion H. reflexivity.
    + apply IH; [|exact H]. intros b' Hin. apply Hsame. right. exact Hin.
Qed.

Lemma get_group_lookup ea c :
  get_group ea false c =
  groups_hash_find (nth (HASH_INDEX ea) (groups_hash (groups c)) []) ea c.
Proof.
  unfold get_group, bind, gets. simpl.
  destruct (groups_hash_find _ ea c) as [[a|] c1|] eqn:E; try reflexivity.
Qed.

Lemma groups_pool_scan_state queue pos c r c' :
  groups_pool_scan queue pos c = Done r c' -> c' = c.
Proof.
  revert pos c'. induction queue as [|a queue IH]; intros pos c' H; simpl in H; run_inv; eauto.
Qed.

(** The state [get_group] leaves when it allocates a new entry. *)
Definition group_created (ea : ether_addr) (rest : list bool) (c : cache) : cache :=
  let a := length (groups_mem (groups c)) in
  with_groups (fun gs => set_groups_pool (groups_pool gs ++ [a]) gs)
    (with_groups (fun gs => set_groups_hash (hash_link (HASH_INDEX ea) a (groups_hash gs)) gs)
       (put_group (pooled a) (set_group_ea ea (init_group group_zero))
          (with_groups (fun gs => set_groups_count (groups_count gs + 1) gs)
             (with_groups (fun gs => set_groups_mem (groups_mem gs ++ [group_zero]) gs)
                (with_world (set_calloc_results rest) c))))).

Lemma get_group_inv ea al c r c' :
  get_group ea al c = Done r c' ->
  let chain := nth (HASH_INDEX ea) (groups_hash (groups c)) [] in
  (exists a, r = Some a /\ c' = c /\ groups_hash_find chain ea c = Done (Some a) c)
  \/ (groups_hash_find chain ea c = Done None c /\
      ((r = None /\ exists rest, c' = with_world (set_calloc_results rest) c)
       \/ (al = true /\ exists rest,
             r = Some (length (groups_mem (groups c))) /\ c' = group_created ea rest c))).
Proof.
  intros H chain. unfold get_group in H.
  apply bind_inv in H as (ch & c1 & E1 & H). unfold gets in E1. inversion E1; subst; clear E1.
  apply bind_inv in H as (found & c2 & E2 & H).
  pose proof (groups_hash_find_state _ _ _ _ _ E2) as ->.
  destruct found as [a|].
  - left. unfold ret in H. inversion H; subst. eauto.
  - right. split; [exact E2|]. clear E2.
    unfold get_group_link, calloc_group in H. run_inv.
    all: repeat match goal with
           | E : groups_pool_scan _ _ _ = Done _ _ |- _ =>
               apply groups_pool_scan_state in E; subst
           end.
    all: try (left; split; [reflexivity|];
              first [eexists; reflexivity | eexists; symmetry; apply with_world_id]).
    right. split; [destruct al; [reflexivity|discriminate]|].
    match goal with
    | H1 : Some (length _) = Some _, H2 : group_at _ _ = Some _ |- _ =>
        inversion H1; subst; unfold group_at in H2; simpl in H2;
        rewrite lookup_app_r, Nat.sub_diag in H2 by lia; simpl in H2;
        inversion H2; subst
    end.
    eexists. split; reflexivity.
Qed.

#[local] Arguments group_created : simpl never.

(** ** Driver calls *)

Definition logged (new : list driver_call) (c : cache) : cache :=
  with_world (fun w => set_driver_log (driver_log w ++ new) w) c.

Lemma logged_nil c : logged [] c = c.
Proof.
  destruct c as [? ? ? ? []]. unfold logged, with_world, set_driver_log. simpl.
  rewrite app_nil_r. reflexivity.
Qed.

Lemma logged_logged a b c : logged b (logged a c) = logged (a ++ b) c.
Proof. unfold logged, with_world, set_driver_log. simpl. rewrite app_assoc. reflexivity. Qed.

Lemma driver_logged call c : driver call c = Done tt (logged [call] c).
Proof. reflexivity. Qed.

Lemma calls_made_logged new c : calls_made c (logged new c) new.
Proof. reflexivity. Qed.

(** ** Members *)

(** The state after a member record was taken from the pool: the pool
    and the remaining [calloc] results are what changed. *)
Definition member_taken (ms : members_t) (rest : list bool) (c : cache) : cache :=
  with_members (fun _ => ms) (with_world (set_calloc_results rest) c).

Lemma get_member_inv group addr port al c r c' :
  get_member group addr port al c = Done r c' ->
  exists g, group_at c group = Some g /\
    ((exists pos, r = Some pos /\ members_find (port_members g port) addr = Some pos /\ c' = c)
     \/ (members_find (port_members g port) addr = None /\
         ((r = None /\ exists rest, c' = with_world (set_calloc_results rest) c)
          \/ (al = true /\ r = Some 0%nat /\ exists ms rest,
                c' = put_group group
                       (set_port_members port
                          ({| member_time := 0; member_addr := addr |} :: port_members g port) g)
                       (member_taken ms rest c))))).
Proof.
  intros H. unfold get_member in H.
  apply bind_inv in H as (g & c1 & E & H). apply group_load_inv in E as [-> Hg].
  exists g. split; [exact Hg|].
  destruct (members_find (port_members g port) addr) as [pos|] eqn:Ef.
  - left. unfold ret in H. inversion H; subst. eauto.
  - right. split; [reflexivity|]. run_inv; simpl.
    all: try (left; split; [reflexivity|];
              first [eexists; reflexivity | eexists; symmetry; apply with_world_id]).
    all: right; split; [destruct al; [reflexivity|discriminate]|]; split; [reflexivity|].
    all: first [ eexists _, _; unfold member_taken; reflexivity
               | eexists _, _; unfold member_taken; rewrite with_world_id; reflexivity ].
Qed.

Lemma member_touch_inv group port pos time c r c' :
  member_touch group port pos time c = Done r c' ->
  exists g m,
    group_at c group = Some g /\ port_members g port !! pos = Some m /\
    c' = put_group group
           (set_port_members port (<[pos := set_member_time time m]> (port_members g port)) g) c.
Proof. intros H. unfold member_touch in H. run_inv. eauto. Qed.

Lemma consume_member_inv group port pos c r c' :
  consume_member group port pos c = Done r c' ->
  exists g m,
    group_at c group = Some g /\ port_members g port !! pos = Some m /\
    c' = with_members (fun ms => set_members_free (m :: members_free ms) ms)
           (put_group group (set_port_members port (delete pos (port_members g port)) g) c).
Proof. intros H. unfold consume_member in H. run_inv. eauto. Qed.

Lemma members_find_lookup l addr pos :
  members_find l addr = Some pos ->
  exists m, l !! pos = Some m /\ member_addr m = addr.
Proof.
  revert pos. induction l as [|m l IH]; intros pos H; simpl in H; [discriminate|].
  destruct (decide (member_addr m = addr)).
  - inversion H; subst. exists m. auto.
  - destruct (members_find l addr) as [q|]; [|discriminate]. simpl in H.
    inversion H; subst. destruct (IH q eq_refl) as (m' & ? & ?). exists m'. auto.
Qed.

Lemma members_find_none l addr :
  members_find l addr = None <-> Forall (fun m => member_addr m <> addr) l.
Proof.
  induction l as [|m l IH]; simpl.
  - split; auto.
  - destruct (decide (member_addr m = addr)) as [He|Hne].
    + split; [discriminate|]. intros HF. inversion HF; subst. contradiction.
    + destruct (members_find l addr) as [q|] eqn:E; simpl.
      * split; [discriminate|]. intros HF. inversion HF; subst.
        apply IH in H2. discriminate.
      * split; [|reflexivity]. intros _. constructor; [exact Hne|]. apply IH. reflexivity.
Qed.

(** ** The bitmask invariant is kept *)

Lemma group_created_keeps_inv ea rest c :
  inv_but None c -> inv_but None (group_created ea rest c).
Proof.
  intros H. unfold group_created.
  apply inv_but_same with
    (c := put_group (pooled (length (groups_mem (groups c))))
            (set_group_ea ea (init_group group_zero))
            (with_groups (fun gs => set_groups_mem (groups_mem gs ++ [group_zero]) gs) c)).
  { intros [a|]; reflexivity. }
  apply inv_all_put.
  { rewrite init_group_clear. apply consistent_set_ea, consistent_cleared. }
  intros [a|] g Hne Hy; unfold group_at in Hy; simpl in Hy.
  - apply lookup_app_Some in Hy as [Hy|[Hge Hy]].
    + apply (H (pooled a)); [discriminate|exact Hy].
    + apply list_lookup_singleton_Some in Hy as [Hz <-]. apply consistent_zero.
  - apply (H the_routers); [discriminate|]. unfold group_at. congruence.
Qed.

Ltac inv_same st :=
  apply (fun H => inv_but_same _ st _ H);
  [intros [|]; unfold group_at; simpl; reflexivity|].

Ltac inv_peel :=
  repeat first
    [ match goal with
      | |- inv_but None ?c => is_var c; assumption
      | |- inv_but None (put_group _ _ _) =>
          apply inv_all_put;
          [first [ apply consistent_recomputed
                 | apply consistent_cleared
                 | apply consistent_set_time;
                   match goal with
                   | Hi : inv_but None ?c, Hg : group_at ?c ?y = Some ?g |- consistent ?g =>
                       apply (Hi y g); [discriminate|exact Hg]
                   end ]|]
      | |- inv_but (Some ?x) (put_group ?x _ _) => apply inv_but_put
      | |- inv_but None (group_created _ _ _) => apply group_created_keeps_inv
      | |- inv_but (Some _) (group_created _ _ _) =>
          apply inv_but_weaken, group_created_keeps_inv
      | |- inv_but _ (with_members _ ?c) => inv_same c
      | |- inv_but _ (member_taken _ _ ?c) => inv_same c
      | |- inv_but _ (with_world _ ?c) => inv_same c
      | |- inv_but _ (logged _ ?c) => inv_same c
      | |- inv_but _ (with_hosts _ ?c) => inv_same c
      | |- inv_but _ (put_host _ _ ?c) => inv_same c
      | |- inv_but _ (with_groups _ ?c) => inv_same c
      | |- inv_but _ (with_routers _ ?c) => inv_same c
      | |- inv_but (Some _) ?c => is_var c; apply inv_but_weaken; assumption
      end ].

Ltac use_inv :=
  repeat match goal with
    | H : get_member _ _ _ _ _ = Done _ _ |- _ =>
        apply get_member_inv in H as (? & ? & [(? & ? & ? & ?)|(? & [(? & ? & ?)|(? & ? & ? & ? & ?)])]);
        subst
    | H : member_touch _ _ _ _ _ = Done _ _ |- _ =>
        apply member_touch_inv in H as (? & ? & ? & ? & ?); subst
    | H : consume_member _ _ _ _ = Done _ _ |- _ =>
        apply consume_member_inv in H as (? & ? & ? & ? & ?); subst
    | H : consume_group _ _ = Done _ _ |- _ =>
        apply consume_group_inv in H as (? & ? & ? & ?); subst
    | H : get_group _ _ _ = Done _ _ |- _ =>
        apply get_group_inv in H as [(? & ? & ? & ?)|(? & [(? & ? & ?)|(? & ? & ? & ?)])];
        subst
    end.

Lemma add_member_keeps_inv maddr addr port timeout now c r c' :
  inv_but None c -> add_member maddr addr port timeout now c = Done r c' ->
  inv_but None c'.
Proof.
  intros Hinv H. unfold add_member in H.
  destruct (port_invalid port); [unfold ret in H; inversion H; subst; exact Hinv|].
  apply bind_inv in H as (group & c1 & Eg & H).
  apply get_group_inv in Eg as [(a & -> & -> & _)|(_ & [(-> & rest & ->)|(_ & rest & -> & ->)])].
  - run_inv; use_inv; simpl; inv_peel.
  - run_inv; use_inv; simpl; inv_peel.
  - run_inv; use_inv; simpl; inv_peel.
Qed.

Lemma group_at_logged new c y : group_at (logged new c) y = group_at c y.
Proof. destruct y; reflexivity. Qed.

Lemma routers_fan_out_inv (mk : ether_addr -> Z -> driver_call) queue portmap c r c' :
  routers_fan_out queue portmap (fun ea m => driver (mk ea m)) c = Done r c' ->
  exists new,
    c' = logged new c /\
    Forall (fun call =>
              exists a g, In a queue /\ group_at c (pooled a) = Some g /\
                call = mk (group_ea g) (Z.land portmap (Z.lnot (group_portmap g))) /\
                Z.land portmap (Z.lnot (group_portmap g)) <> 0) new.
Proof.
  revert c. induction queue as [|a queue IH]; intros c H; simpl in H.
  - run_inv. exists []. split; [symmetry; apply logged_nil|constructor].
  - apply bind_inv in H as (g & c1 & E & H). apply group_load_inv in E as [-> Hg].
    apply bind_inv in H as (u & c1 & E & H).
    destruct (Z.land portmap (Z.lnot (group_portmap g)) =? 0) eqn:Ez.
    + unfold ret in E. inversion E; subst; clear E.
      destruct (IH _ H) as (new & -> & HF). exists new. split; [reflexivity|].
      eapply Forall_impl; [exact HF|]. intros call (b & gb & Hin & Hb & Hc).
      exists b, gb. split; [right; exact Hin|]. split; assumption.
    + rewrite driver_logged in E. inversion E; subst; clear E.
      destruct (IH _ H) as (new & -> & HF). rewrite logged_logged.
      eexists. split; [reflexivity|]. constructor.
      * exists a, g. split; [left; reflexivity|]. split; [exact Hg|].
        split; [reflexivity|]. apply Z.eqb_neq. exact Ez.
      * eapply Forall_impl; [exact HF|]. intros call (b & gb & Hin & Hb & Hc).
        rewrite group_at_logged in Hb.
        exists b, gb. split; [right; exact Hin|]. split; assumption.
Qed.

Ltac use_fan_out :=
  repeat match goal with
    | H : routers_fan_out _ _ switch_del_portmap _ = Done _ _ |- _ =>
        apply (routers_fan_out_inv drv_del_portmap) in H as (? & ? & ?); subst
    | H : routers_fan_out _ _ switch_add_portmap _ = Done _ _ |- _ =>
        apply (routers_fan_out_inv drv_add_portmap) in H as (? & ? & ?); subst
    end.

Lemma del_member_keeps_inv maddr addr port c r c' :
  inv_but None c -> del_member maddr addr port c = Done r c' -> inv_but None c'.
Proof.
  intros Hinv H. unfold del_member in H.
  destruct (port_invalid port); [unfold ret in H; inversion H; subst; exact Hinv|].
  apply bind_inv in H as (group & c1 & Eg & H).
  rewrite get_group_lookup in Eg.
  pose proof (groups_hash_find_state _ _ _ _ _ Eg) as ->.
  destruct group as [a|]; run_inv; use_inv; simpl; inv_peel.
Qed.

Lemma add_router_keeps_inv addr port timeout now c r c' :
  inv_but None c -> add_router addr port timeout now c = Done r c' -> inv_but None c'.
Proof.
  intros Hinv H. unfold add_router in H.
  destruct (port_invalid port); [unfold ret in H; inversion H; subst; exact Hinv|].
  run_inv; use_inv; use_fan_out; simpl; inv_peel.
Qed.

Lemma router_timer_keeps_inv now c r c' :
  inv_but None c -> router_timer now c = Done r c' -> inv_but None c'.
Proof.
  intros Hinv H. unfold router_timer in H.
  run_inv; use_inv; use_fan_out; simpl; inv_peel.
Qed.

Lemma group_timer_sweep_keeps_inv queue time exp c r c' :
  inv_but None c -> group_timer_sweep queue time exp c = Done r c' -> inv_but None c'.
Proof.
  revert exp c. induction queue as [|a queue IH]; intros exp c Hinv H; simpl in H.
  - run_inv. exact Hinv.
  - apply bind_inv in H as (g & c1 & E & H). apply group_load_inv in E as [-> Hg].
    destruct (group_portmap g =? 0); [eapply IH; eassumption|].
    destruct (time_after (group_time g) time); [eapply IH; eassumption|].
    apply bind_inv in H as (u & c1 & E & H).
    apply (consume_group_restores _ _ _ _ (inv_but_weaken _ _ Hinv)) in E.
    apply bind_inv in H as (rmap & c2 & E2 & H). unfold gets in E2.
    inversion E2; subst; clear E2.
    apply bind_inv in H as (u2 & c3 & E3 & H).
    eapply IH; [|exact H].
    destruct (Z.land (group_portmap g) (Z.lnot (routers_portmap c2)) =? 0); run_inv;
      simpl; inv_peel.
Qed.

Lemma group_timer_keeps_inv now c r c' :
  inv_but None c -> group_timer now c = Done r c' -> inv_but None c'.
Proof.
  intros Hinv H. unfold group_timer in H.
  apply bind_inv in H as (queue & c1 & E & H). unfold gets in E. inversion E; subst; clear E.
  apply bind_inv in H as (exp & c2 & E & H).
  apply (group_timer_sweep_keeps_inv _ _ _ _ _ _ Hinv) in E.
  run_inv; simpl; inv_peel.
Qed.

Lemma expire_all_keeps_inv queue time c r c' :
  inv_but None c -> expire_all queue time c = Done r c' -> inv_but None c'.
Proof.
  revert c. induction queue as [|a queue IH]; intros c Hinv H; simpl in H.
  - run_inv. exact Hinv.
  - apply bind_inv in H as (g & c1 & E & H). apply group_load_inv in E as [-> Hg].
    apply bind_inv in H as (u & c1 & E & H). run_inv.
    eapply IH; [|exact H]. apply inv_all_put; [|apply inv_but_weaken; exact Hinv].
    apply consistent_set_time. apply (Hinv (pooled a)); [discriminate|exact Hg].
Qed.

Lemma expire_members_keeps_inv maddr timeout now c r c' :
  inv_but None c -> expire_members maddr timeout now c = Done r c' -> inv_but None c'.
Proof.
  intros Hinv H. unfold expire_members in H.
  apply bind_inv in H as (found & c1 & E & H).
  destruct maddr as [ea|].
  - apply bind_inv in E as (group & c2 & Eg & E).
    rewrite get_group_lookup in Eg.
    pose proof (groups_hash_find_state _ _ _ _ _ Eg) as ->.
    destruct group as [a|]; run_inv; simpl; inv_peel.
  - apply bind_inv in E as (queue & c2 & Eq & E). unfold gets in Eq.
    inversion Eq; subst; clear Eq.
    apply bind_inv in E as (u & c3 & Ee & E).
    apply (expire_all_keeps_inv _ _ _ _ _ Hinv) in Ee. run_inv; simpl; inv_peel.
Qed.

(** ** Looking a host up *)

Lemma hosts_hash_find_state chain ea c r c' :
  hosts_hash_find chain ea c = Done r c' -> c' = c.
Proof.
  revert c'. induction chain as [|a chain IH]; intros c' H; simpl in H; run_inv; auto.
Qed.

Lemma hosts_pool_scan_state queue time pos c r c' :
  hosts_pool_scan queue time pos c = Done r c' -> c' = c.
Proof.
  revert pos c'. induction queue as [|a queue IH]; intros pos c' H; simpl in H; run_inv; eauto.
Qed.

Lemma hosts_hash_find_some chain ea c a c' :
  hosts_hash_find chain ea c = Done (Some a) c' ->
  In a chain /\ exists h, hosts_mem (hosts c) !! a = Some h /\ host_ea h = ea.
Proof.
  revert c'. induction chain as [|b chain IH]; intros c' H; simpl in H; run_inv.
  - split; [left; reflexivity|]. eauto.
  - destruct (IH _ H) as [Hin Hg]. split; [right; exact Hin|exact Hg].
Qed.

Lemma hosts_hash_find_none chain ea c c' :
  hosts_hash_find chain ea c = Done None c' ->
  forall a, In a chain -> exists h, hosts_mem (hosts c) !! a = Some h /\ host_ea h <> ea.
Proof.
  revert c'. induction chain as [|b chain IH]; intros c' H a Hin; simpl in H; run_inv.
  - destruct Hin.
  - destruct Hin as [->|Hin]; [eauto|]. eapply IH; eassumption.
Qed.

(** The state [get_host] leaves when it allocates a new entry. *)
Definition host_created (ea : ether_addr) (rest : list bool) (c : cache) : cache :=
  let a := length (hosts_mem (hosts c)) in
  with_hosts (fun hs => set_hosts_pool (hosts_pool hs ++ [a]) hs)
    (with_hosts (fun hs => set_hosts_hash (hash_link (HASH_INDEX ea) a (hosts_hash hs)) hs)
       (put_host a (set_host_ea ea host_zero)
          (with_hosts (fun hs => set_hosts_mem (hosts_mem hs ++ [host_zero]) hs)
             (with_world (set_calloc_results rest) c)))).

(** The state [get_host] leaves when it finds no slot. *)
Definition host_refused (n : Z) (rest : list bool) (c : cache) : cache :=
  with_hosts (set_hosts_count n) (with_world (set_calloc_results rest) c).

Lemma host_refused_id c :
  host_refused (hosts_count (hosts c)) (calloc_results (world c)) c = c.
Proof. destruct c as [[] ? ? ? []]. reflexivity. Qed.

Lemma get_host_inv ea time c r c' :
  get_host ea time c = Done r c' ->
  let chain := nth (HASH_INDEX ea) (hosts_hash (hosts c)) [] in
  (exists a, r = Some a /\ c' = c /\ hosts_hash_find chain ea c = Done (Some a) c)
  \/ (hosts_hash_find chain ea c = Done None c /\
      ((r = None /\ exists n rest, c' = host_refused n rest c)
       \/ (exists rest,
             r = Some (length (hosts_mem (hosts c))) /\ c' = host_created ea rest c))).
Proof.
  intros H chain. unfold get_host in H.
  apply bind_inv in H as (ch & c1 & E1 & H). unfold gets in E1. inversion E1; subst; clear E1.
  apply bind_inv in H as (found & c2 & E2 & H).
  pose proof (hosts_hash_find_state _ _ _ _ _ E2) as ->.
  destruct found as [a|].
  - left. unfold ret in H. inversion H; subst. eauto.
  - right. split; [exact E2|]. clear E2.
    unfold get_host_link, calloc_host in H. run_inv.
    all: repeat match goal with
           | E : hosts_pool_scan _ _ _ _ = Done _ _ |- _ =>
               apply hosts_pool_scan_state in E; subst
           end.
    all: simpl in *.
    all: try (left; split; [reflexivity|];
              first [eexists _, _; reflexivity
                    | eexists _, _; symmetry; apply host_refused_id]).
    right.
    match goal with
    | H1 : Some (length _) = Some _, H2 : (_ ++ [host_zero]) !! _ = Some _ |- _ =>
        inversion H1; subst;
        rewrite lookup_app_r, Nat.sub_diag in H2 by lia; simpl in H2;
        inversion H2; subst
    end.
    eexists. split; reflexivity.
Qed.

Lemma get_port_frame haddr now c r c' :
  get_port haddr now c = Done r c' ->
  groups c' = groups c /\ routers c' = routers c /\ members c' = members c.
Proof.
  intros H. unfold get_port in H.
  apply bind_inv in H as (host & c1 & Eh & H).
  apply get_host_inv in Eh as [(a & -> & -> & _)|(_ & [(-> & n & rest & ->)|(rest & -> & ->)])];
    run_inv; simpl; auto.
Qed.

Lemma inv_but_eq x c c' :
  groups c' = groups c -> routers c' = routers c -> inv_but x c -> inv_but x c'.
Proof.
  intros Hg Hr. apply inv_but_same. intros [a|]; unfold group_at; congruence.
Qed.

Lemma run_keeps_inv op c r c' :
  inv_but None c -> run op c = Done r c' -> inv_but None c'.
Proof.
  intros Hinv H. destruct op; simpl in H.
  - apply get_port_frame in H as (Hg & Hr & _). eapply inv_but_eq; eassumption.
  - eapply add_member_keeps_inv; eassumption.
  - eapply del_member_keeps_inv; eassumption.
  - eapply add_router_keeps_inv; eassumption.
  - eapply expire_members_keeps_inv; eassumption.
  - apply bind_inv in H as (u & c1 & E & H). unfold ret in H. inversion H; subst; clear H.
    unfold fire_group_timer in E. apply bind_inv in E as (u' & c2 & E' & E).
    unfold modify in E'. inversion E'; subst; clear E'.
    eapply group_timer_keeps_inv; [|exact E]. inv_peel.
  - apply bind_inv in H as (u & c1 & E & H). unfold ret in H. inversion H; subst; clear H.
    unfold fire_router_timer in E. apply bind_inv in E as (u' & c2 & E' & E).
    unfold modify in E'. inversion E'; subst; clear E'.
    eapply router_timer_keeps_inv; [|exact E]. inv_peel.
Qed.

Lemma run_all_keeps_inv ops c r c' :
  inv_but None c -> run_all ops c = Done r c' -> inv_but None c'.
Proof.
  revert c. induction ops as [|op ops IH]; intros c Hinv H; simpl in H.
  - unfold ret in H. inversion H; subst. exact Hinv.
  - apply bind_inv in H as (v & c1 & E & H).
    eapply IH; [|exact H]. eapply run_keeps_inv; eassumption.
Qed.

Lemma init_cache_inv c r c' : init_cache c = Done r c' -> inv_but None c'.
Proof.
  intros H. unfold init_cache in H. run_inv.
  intros [a|] g _ Hy; unfold group_at in Hy; simpl in Hy.
  - rewrite lookup_nil in Hy. discriminate.
  - inversion Hy; subst. rewrite init_group_clear. apply consistent_cleared.
Qed.

Lemma reachable_inv c : reachable c -> inv_but None c.
Proof.
  intros (c0 & c1 & ops & Hi & Hr).
  eapply run_all_keeps_inv; [|exact Hr]. eapply init_cache_inv. exact Hi.
Qed.

Lemma reachable_step op c r c' : reachable c -> run op c = Done r c' -> reachable c'.
Proof.
  intros (c0 & c1 & ops & Hi & Hr) H. exists c0, c1, (ops ++ [op]). split; [exact Hi|].
  clear Hi. revert c1 Hr. induction ops as [|o ops IH]; intros c1 Hr; simpl in *.
  - unfold ret in Hr. inversion Hr; subst. unfold bind. rewrite H. reflexivity.
  - apply bind_inv in Hr as (v & c2 & E & Hr). rewrite (bind_Done _ _ _ _ _ E).
    apply IH. exact Hr.
Qed.

(** C1. In every state the cache can reach -- after [init_cache] and after
    each of [get_port], [add_member], [del_member], [add_router],
    [expire_members], the group sweep and the router sweep -- the port
    bitmask of the router state and of every group entry is exactly the set
    of ports in [0..PORT_MAX] whose member list is not empty. *)
Theorem bitmask_always_exact c :
  reachable c ->
  (bitmask_exact (routers_group (routers c)) /\
   forall a g, groups_mem (groups c) !! a = Some g -> bitmask_exact g) /\
  forall op r c', run op c = Done r c' ->
    bitmask_exact (routers_group (routers c')) /\
    forall a g, groups_mem (groups c') !! a = Some g -> bitmask_exact g.
Proof.
  assert (Hall : forall s, reachable s ->
            bitmask_exact (routers_group (routers s)) /\
            forall a g, groups_mem (groups s) !! a = Some g -> bitmask_exact g).
  { intros s Hs. apply reachable_inv in Hs. split.
    - apply consistent_exact. apply (Hs the_routers); [discriminate|reflexivity].
    - intros a g Ha. apply consistent_exact. apply (Hs (pooled a)); [discriminate|exact Ha]. }
  intros Hc. split; [apply Hall; exact Hc|].
  intros op r c' Hrun. apply Hall. eapply reachable_step; eassumption.
Qed.

(** ** Lookup misses *)

Lemma put_group_same x g c : group_at c x = Some g -> put_group x g c = c.
Proof.
  destruct x as [a|]; unfold group_at, put_group; intros H.
  - destruct c as [? ? [] ? ?]. unfold with_groups, set_groups_mem. simpl in *.
    rewrite list_insert_id by exact H. reflexivity.
  - destruct c as [? ? ? [] ?]. unfold with_routers, set_routers_group. simpl in *.
    congruence.
Qed.

Lemma set_group_portmap_same g : set_group_portmap (group_portmap g) g = g.
Proof. destruct g. reflexivity. Qed.

Lemma newly_clear_same (m r : Z) : Z.land (Z.land (Z.lxor m m) m) (Z.lnot r) = 0.
Proof. rewrite Z.lxor_nilpotent. reflexivity. Qed.

Lemma del_member_no_group maddr addr port c :
  port_invalid port = false ->
  get_group maddr false c = Done None c ->
  del_member maddr addr port c = Done 0 c.
Proof.
  intros Hp Hg. unfold del_member. rewrite Hp.
  rewrite (bind_Done _ _ _ _ _ Hg). reflexivity.
Qed.

Lemma del_member_no_member maddr addr port c a g :
  port_invalid port = false ->
  get_group maddr false c = Done (Some a) c ->
  group_at c (pooled a) = Some g ->
  consistent g ->
  members_find (port_members g (Z.to_nat port)) addr = None ->
  del_member maddr addr port c = Done 0 c.
Proof.
  intros Hp Hg Ha Hc Hm. unfold del_member. rewrite Hp.
  rewrite (bind_Done _ _ _ _ _ Hg). cbv beta iota.
  assert (Hload : group_load (pooled a) c = Done g c) by (apply group_load_at; exact Ha).
  assert (Hmem : get_member (pooled a) addr (Z.to_nat port) false c = Done None c).
  { unfold get_member. rewrite (bind_Done _ _ _ _ _ Hload), Hm. reflexivity. }
  assert (Hput : put_group (pooled a) (set_group_portmap (get_portmap g) g) c = c).
  { rewrite <- Hc, set_group_portmap_same. apply put_group_same. exact Ha. }
  unfold bind at 1. unfold bind at 1. rewrite Hload.
  unfold bind at 1. unfold bind at 1. rewrite Hmem.
  unfold bind at 1. unfold ret at 1.
  unfold bind at 1. rewrite Hload.
  unfold bind at 1. unfold group_store, modify. rewrite Hput.
  rewrite <- Hc, Z.lxor_nilpotent. simpl.
  reflexivity.
Qed.

Lemma expire_members_no_group ea timeout now c :
  get_group ea false c = Done None c ->
  expire_members (Some ea) timeout now c = Done (-1) c.
Proof.
  intros Hg. unfold expire_members.
  unfold bind at 1. unfold bind at 1. rewrite Hg. reflexivity.
Qed.

Lemma reachable_group_consistent c ea g :
  reachable c -> group_of c ea = Some g -> consistent g.
Proof.
  intros Hr Hg. apply reachable_inv in Hr. unfold group_of in Hg.
  destruct (get_group ea false c) as [[a|] c1|]; try discriminate.
  apply (Hr (pooled a)); [discriminate|exact Hg].
Qed.

(** C9, as the code has it.  In a reachable state, [del_member] for a
    member that is not there -- the group has no entry, or it has one and
    the address is not on that port's list -- returns 0, leaves the cache as
    it was and makes no driver call.  [expire_members] naming a group MAC
    without an entry also leaves the cache as it was (the sweep timer
    included) and makes no driver call, but it returns the error code -1. *)
Theorem lookup_miss_changes_nothing c :
  reachable c ->
  (forall maddr addr port,
     port_invalid port = false ->
     match get_group maddr false c with
     | Done None _ => True
     | Done (Some a) _ =>
         exists g, groups_mem (groups c) !! a = Some g /\
                   members_find (port_members g (Z.to_nat port)) addr = None
     | Fault => False
     end ->
     del_member maddr addr port c = Done 0 c) /\
  (forall ea timeout now,
     get_group ea false c = Done None c ->
     expire_members (Some ea) timeout now c = Done (-1) c).
Proof.
  intros Hr. split.
  - intros maddr addr port Hp Hm.
    destruct (get_group maddr false c) as [[a|] c1|] eqn:Hg; [| |destruct Hm].
    + assert (c1 = c) as ->.
      { rewrite get_group_lookup in Hg. eapply groups_hash_find_state. exact Hg. }
      destruct Hm as (g & Ha & Hf).
      eapply del_member_no_member; try eassumption.
      apply reachable_inv in Hr. apply (Hr (pooled a)); [discriminate|exact Ha].
    + assert (c1 = c) as ->.
      { rewrite get_group_lookup in Hg. eapply groups_hash_find_state. exact Hg. }
      apply del_member_no_group; assumption.
  - intros ea timeout now Hg. apply expire_members_no_group. exact Hg.
Qed.

(** ** Reading an updated cache *)

Lemma group_at_put_is_Some x g c y :
  is_Some (group_at (put_group x g c) y) <-> is_Some (group_at c y).
Proof.
  destruct x as [a|], y as [b|]; unfold group_at, put_group; simpl; try tauto.
  - rewrite !lookup_lt_is_Some, length_insert. tauto.
  - split; eauto.
Qed.

Lemma group_at_put_same x g c g' : group_at (put_group x g c) x = Some g' -> g' = g.
Proof. intros H. apply group_at_put in H as [[_ ->]|[Hne _]]; congruence. Qed.

Lemma group_at_with_members f c y : group_at (with_members f c) y = group_at c y.
Proof. destruct y; reflexivity. Qed.
Lemma group_at_with_world f c y : group_at (with_world f c) y = group_at c y.
Proof. destruct y; reflexivity. Qed.
Lemma group_at_with_hosts f c y : group_at (with_hosts f c) y = group_at c y.
Proof. destruct y; reflexivity. Qed.
Lemma group_at_member_taken ms rest c y : group_at (member_taken ms rest c) y = group_at c y.
Proof. destruct y; reflexivity. Qed.
Lemma group_at_groups_timer t c y :
  group_at (with_groups (set_groups_timer t) c) y = group_at c y.
Proof. destruct y; reflexivity. Qed.

Lemma put_group_put x g g' c : put_group x g (put_group x g' c) = put_group x g c.
Proof.
  destruct x as [a|]; unfold put_group, with_groups, with_routers, set_groups_mem; simpl.
  - rewrite list_insert_insert_eq. reflexivity.
  - reflexivity.
Qed.

Lemma put_group_with_members x g f c :
  put_group x g (with_members f c) = with_members f (put_group x g c).
Proof. destruct x; reflexivity. Qed.

Lemma put_group_with_world x g f c :
  put_group x g (with_world f c) = with_world f (put_group x g c).
Proof. destruct x; reflexivity. Qed.

Lemma put_group_member_taken x g ms rest c :
  put_group x g (member_taken ms rest c) = member_taken ms rest (put_group x g c).
Proof. destruct x; reflexivity. Qed.

Lemma with_members_const f c : with_members f c = with_members (fun _ => f (members c)) c.
Proof. reflexivity. Qed.

Lemma with_members_twice ms f c :
  with_members (fun _ => ms) (with_members f c) = with_members (fun _ => ms) c.
Proof. reflexivity. Qed.

Lemma get_member_lookup group addr port c :
  get_member group addr port false c =
  match group_at c group with
  | Some g => Done (members_find (port_members g port) addr) c
  | None => Fault
  end.
Proof.
  unfold get_member, bind, group_load. destruct (group_at c group) as [g|]; [|reflexivity].
  destruct (members_find _ addr); reflexivity.
Qed.

Lemma get_group_lookup_state ea c r c' : get_group ea false c = Done r c' -> c' = c.
Proof. rewrite get_group_lookup. apply groups_hash_find_state. Qed.

(** ** What [del_member] does *)

(** The bits of [before] that are clear in [after]. *)
Definition cleared (before after : Z) : Z := Z.land (Z.lxor before after) before.

(** The bits of [after] that were clear in [before]. *)
Definition newly_set (before after : Z) : Z := Z.land (Z.lxor before after) after.

Lemma cleared_spec before after i :
  Z.testbit (cleared before after) i = Z.testbit before i && negb (Z.testbit after i).
Proof.
  unfold cleared. rewrite Z.land_spec, Z.lxor_spec.
  destruct (Z.testbit before i), (Z.testbit after i); reflexivity.
Qed.

Lemma newly_set_spec before after i :
  Z.testbit (newly_set before after) i = negb (Z.testbit before i) && Z.testbit after i.
Proof.
  unfold newly_set. rewrite Z.land_spec, Z.lxor_spec.
  destruct (Z.testbit before i), (Z.testbit after i); reflexivity.
Qed.

Definition calls_if (portmap : Z) (call : driver_call) : list driver_call :=
  if portmap =? 0 then [] else [call].

Lemma del_member_inv maddr addr port c r c' :
  port_invalid port = false ->
  del_member maddr addr port c = Done r c' ->
  (get_group maddr false c = Done None c /\ r = 0 /\ c' = c)
  \/ exists a g g1 g' ms,
       get_group maddr false c = Done (Some a) c /\
       group_at c (pooled a) = Some g /\
       match members_find (port_members g (Z.to_nat port)) addr with
       | None => g1 = g
       | Some pos =>
           g1 = set_port_members (Z.to_nat port)
                  (delete pos (port_members g (Z.to_nat port))) g
       end /\
       (g' = set_group_portmap (get_portmap g1) g1 \/
        get_portmap g1 = 0 /\
        g' = clear_ports ports (set_group_portmap 0 (set_group_portmap (get_portmap g1) g1))) /\
       r = Z.land (cleared (group_portmap g) (get_portmap g1)) (Z.lnot (routers_portmap c)) /\
       c' = logged (calls_if r (drv_del_portmap maddr r))
              (with_members (fun _ => ms) (put_group (pooled a) g' c)).
Proof.
  intros Hp H. unfold del_member in H. rewrite Hp in H.
  apply bind_inv in H as (group & c1 & Eg & H).
  pose proof (get_group_lookup_state _ _ _ _ Eg) as ->.
  destruct group as [a|].
  2: { left. run_inv; rewrite Z.land_0_l in *; try discriminate. auto. }
  right.
  apply bind_inv in H as (portmap & c2 & Ep & H).
  apply bind_inv in Ep as (g & c3 & El & Ep). apply group_load_inv in El as [-> Hg].
  apply bind_inv in Ep as (member & c3 & Em & Ep).
  rewrite get_member_lookup, Hg in Em. inversion Em; subst c3 member; clear Em.
  apply bind_inv in Ep as (u & c4 & Ec & Ep).
  set (g1 := match members_find (port_members g (Z.to_nat port)) addr with
             | None => g
             | Some pos => set_port_members (Z.to_nat port)
                             (delete pos (port_members g (Z.to_nat port))) g
             end).
  assert (Hc4 : exists ms4, c4 = with_members (fun _ => ms4) (put_group (pooled a) g1 c)).
  { subst g1. destruct (members_find _ addr) as [pos|].
    - apply consume_member_inv in Ec as (g0 & m & Hg0 & Hm & ->).
      assert (g0 = g) as -> by congruence.
      eexists. apply with_members_const.
    - unfold ret in Ec. injection Ec as _ <-. exists (members c).
      rewrite (put_group_same _ _ _ Hg). destruct c; reflexivity. }
  destruct Hc4 as (ms4 & ->). clear Ec.
  apply bind_inv in Ep as (g2 & c5 & El & Ep). apply group_load_inv in El as [-> Hg2].
  rewrite group_at_with_members in Hg2. apply group_at_put_same in Hg2. subst g2.
  apply bind_inv in Ep as (u2 & c6 & Es & Ep).
  unfold group_store, modify in Es. inversion Es; subst c6; clear Es.
  rewrite put_group_with_members, put_group_put in Ep.
  apply bind_inv in Ep as (u3 & c7 & Ecg & Ep).
  unfold ret in Ep. inversion Ep; subst c2 portmap; clear Ep.
  assert (Hc7 : exists g' ms7,
            (g' = set_group_portmap (get_portmap g1) g1 \/
             get_portmap g1 = 0 /\
             g' = clear_ports ports
                    (set_group_portmap 0 (set_group_portmap (get_portmap g1) g1))) /\
            c7 = with_members (fun _ => ms7) (put_group (pooled a) g' c)).
  { destruct (negb _ && (get_portmap g1 =? 0)) eqn:Ecase.
    - apply andb_true_iff in Ecase as [_ Hz]. apply Z.eqb_eq in Hz.
      apply consume_group_inv in Ecg as (g3 & free' & Hg3 & ->).
      rewrite group_at_with_members in Hg3. apply group_at_put_same in Hg3. subst g3.
      rewrite put_group_with_members, put_group_put.
      eexists _, _. split; [right; split; [exact Hz|reflexivity]|]. reflexivity.
    - unfold ret in Ecg. injection Ecg as _ <-. eexists _, _. split; [left; reflexivity|].
      reflexivity. }
  destruct Hc7 as (g' & ms7 & Hg' & ->). clear Ecg.
  exists a, g, g1, g', ms7. split; [exact Eg|]. split; [exact Hg|].
  split; [subst g1; destruct (members_find _ addr); reflexivity|].
  split; [exact Hg'|].
  apply bind_inv in H as (rmap & c8 & Er & H). unfold gets in Er.
  inversion Er; subst c8 rmap; clear Er.
  assert (Hrm : routers_portmap (with_members (fun _ => ms7) (put_group (pooled a) g' c))
                = routers_portmap c) by reflexivity.
  rewrite Hrm in H. fold (cleared (group_portmap g) (get_portmap g1)) in H.
  apply bind_inv in H as (u4 & c9 & Ed & H). unfold ret in H. inversion H; subst r c9; clear H.
  split; [reflexivity|]. unfold calls_if.
  destruct (_ =? 0).
  - unfold ret in Ed. injection Ed as _ <-. symmetry. apply logged_nil.
  - unfold switch_del_portmap in Ed. rewrite driver_logged in Ed. inversion Ed. reflexivity.
Qed.

(** ** What [add_member] does *)

Lemma get_member_exhausted group addr port c g :
  group_at c group = Some g ->
  members_find (port_members g port) addr = None ->
  members_free (members c) = [] ->
  MEMBER_POOL_SIZE <= members_count (members c) ->
  get_member group addr port true c = Done None c.
Proof.
  intros Hg Hf Hfree Hcount. unfold get_member.
  rewrite (bind_Done _ _ _ _ _ (group_load_at _ _ _ Hg)), Hf. simpl.
  unfold bind, gets. rewrite Hfree.
  destruct (Z.ltb_spec (members_count (members c)) MEMBER_POOL_SIZE); [lia|reflexivity].
Qed.

Definition pool_has_room (c : cache) : Prop :=
  members_free (members c) <> [] \/ members_count (members c) < MEMBER_POOL_SIZE.

Lemma get_member_room group addr port c g pos c' :
  group_at c group = Some g ->
  members_find (port_members g port) addr = None ->
  get_member group addr port true c = Done (Some pos) c' ->
  pool_has_room c.
Proof.
  intros Hg Hf H. unfold pool_has_room.
  destruct (members_free (members c)) as [|m free] eqn:Hfree; [|left; discriminate].
  destruct (Z.lt_ge_cases (members_count (members c)) MEMBER_POOL_SIZE) as [Hlt|Hge];
    [right; exact Hlt|].
  rewrite (get_member_exhausted _ _ _ _ _ Hg Hf Hfree Hge) in H. discriminate.
Qed.

(** The sweep timer after [add_member] set a group's expiry to [time]. *)
Definition timer_after_add (timer : timer_entry) (time : Z) : timer_entry :=
  if negb (timer_pending timer) || time_before time (expires timer)
  then mod_timer timer time else timer.

Lemma with_groups_timer_id c : with_groups (set_groups_timer (groups_timer (groups c))) c = c.
Proof. destruct c as [? ? [] ? ?]. reflexivity. Qed.

Lemma member_taken_id c : member_taken (members c) (calloc_results (world c)) c = c.
Proof. destruct c as [? ? ? ? []]. reflexivity. Qed.

Lemma member_taken_world rest c :
  with_world (set_calloc_results rest) c = member_taken (members c) rest c.
Proof. destruct c. reflexivity. Qed.

Lemma add_member_inv maddr addr port timeout now c r c' :
  port_invalid port = false ->
  add_member maddr addr port timeout now c = Done r c' ->
  (get_group maddr false c = Done None c /\ r = 0 /\
   exists rest, c' = with_world (set_calloc_results rest) c)
  \/ exists a c1 g g1 ms rest,
       ((get_group maddr false c = Done (Some a) c /\ c1 = c) \/
        (get_group maddr false c = Done None c /\ a = length (groups_mem (groups c)) /\
         exists rest0, c1 = group_created maddr rest0 c)) /\
       group_at c1 (pooled a) = Some g /\
       let time := ulong (now + timeout) in
       let l := port_members g (Z.to_nat port) in
       match members_find l addr with
       | Some pos =>
           exists m, l !! pos = Some m /\
             g1 = set_port_members (Z.to_nat port) (<[pos := set_member_time time m]> l)
                    (set_group_time time g)
       | None =>
           (g1 = set_group_time time g /\ ms = members c) \/
           (pool_has_room c /\
            g1 = set_port_members (Z.to_nat port)
                   ({| member_time := time; member_addr := addr |} :: l)
                   (set_group_time time g))
       end /\
       r = newly_set (group_portmap g) (get_portmap g1) /\
       c' = logged (calls_if r (drv_add_portmap maddr (Z.lor r (routers_portmap c))))
              (with_groups (set_groups_timer (timer_after_add (groups_timer (groups c)) time))
                 (member_taken ms rest
                    (put_group (pooled a) (set_group_portmap (get_portmap g1) g1) c1))).
Proof.
  intros Hp H. unfold add_member in H. rewrite Hp in H.
  apply bind_inv in H as (group & c1 & Eg & H).
  assert (Hslot :
    (group = None /\ get_group maddr false c = Done None c /\
     exists rest, c1 = with_world (set_calloc_results rest) c)
    \/ exists a, group = Some a /\
         ((get_group maddr false c = Done (Some a) c /\ c1 = c) \/
          (get_group maddr false c = Done None c /\ a = length (groups_mem (groups c)) /\
           exists rest0, c1 = group_created maddr rest0 c))).
  { rewrite get_group_lookup.
    apply get_group_inv in Eg as [(a & -> & -> & Hf)|(Hf & [(-> & rest & ->)|(_ & rest & -> & ->)])].
    - right. exists a. auto.
    - left. eauto.
    - right. eexists. split; [reflexivity|]. right. eauto. }
  clear Eg. destruct Hslot as [(-> & Hnone & rest & ->)|(a & -> & Hslot)].
  { left. split; [exact Hnone|]. run_inv; simpl in *; try discriminate. split; [reflexivity|]. eauto. }
  right.
  assert (Hsame : members c1 = members c /\ routers c1 = routers c /\
                  groups_timer (groups c1) = groups_timer (groups c)).
  { destruct Hslot as [[_ ->]|(_ & _ & rest0 & ->)]; auto. }
  destruct Hsame as (Hmem1 & Hrt1 & Htm1).
  apply bind_inv in H as (portmap & c2 & Ep & H).
  apply bind_inv in Ep as (g & c3 & El & Ep). apply group_load_inv in El as [-> Hg].
  apply bind_inv in Ep as (u & c3 & Es & Ep).
  unfold group_store, modify in Es. injection Es as _ <-.
  apply bind_inv in Ep as (member & c4 & Em & Ep).
  apply bind_inv in Ep as (u2 & c5 & Et & Ep).
  set (time := ulong (now + timeout)) in *.
  set (l := port_members g (Z.to_nat port)).
  assert (Hg0 : group_at (put_group (pooled a) (set_group_time time g) c1) (pooled a)
                = Some (set_group_time time g)).
  { apply group_at_put_eq. eauto. }
  assert (Hc5 : exists g1 ms rest,
            match members_find l addr with
            | Some pos =>
                exists m, l !! pos = Some m /\
                  g1 = set_port_members (Z.to_nat port) (<[pos := set_member_time time m]> l)
                         (set_group_time time g)
            | None =>
                (g1 = set_group_time time g /\ ms = members c) \/
                (pool_has_room c /\
                 g1 = set_port_members (Z.to_nat port)
                        ({| member_time := time; member_addr := addr |} :: l)
                        (set_group_time time g))
            end /\
            c5 = member_taken ms rest (put_group (pooled a) g1 c1)).
  { pose proof Em as Em'.
    apply get_member_inv in Em as (g0 & Hg0' & Hcase).
    rewrite Hg0 in Hg0'. injection Hg0' as <-.
    change (port_members (set_group_time time g) (Z.to_nat port)) with l in Hcase.
    destruct Hcase as [(pos & -> & Hf & ->)|(Hf & [(-> & rest & ->)|(_ & -> & ms & rest & ->)])].
    - apply member_touch_inv in Et as (g2 & m & Hg2 & Hm & ->).
      rewrite Hg0 in Hg2. injection Hg2 as <-.
      change (port_members (set_group_time time g) (Z.to_nat port)) with l in *.
      rewrite put_group_put. rewrite Hf.
      eexists _, (members c1), (calloc_results (world c1)). split; [eauto|].
      rewrite <- (member_taken_id (put_group _ _ c1)) at 1.
      rewrite put_group_members, put_group_world. reflexivity.
    - unfold ret in Et. injection Et as _ <-. rewrite Hf.
      eexists _, (members c), rest. split; [left; split; reflexivity|].
      rewrite member_taken_world, put_group_members, Hmem1. reflexivity.
    - apply member_touch_inv in Et as (g2 & m & Hg2 & Hm & ->).
      rewrite put_group_member_taken, put_group_put in Hg2.
      rewrite group_at_member_taken in Hg2. apply group_at_put_same in Hg2. subst g2.
      assert (Hl : port_members
                     (set_port_members (Z.to_nat port)
                        ({| member_time := 0; member_addr := addr |} :: l)
                        (set_group_time time g)) (Z.to_nat port)
                   = {| member_time := 0; member_addr := addr |} :: l).
      { apply port_members_set_eq. simpl.
        destruct (decide (Z.to_nat port < length (group_members g))%nat) as [Hlt|Hge];
          [exact Hlt|].
        exfalso. unfold port_members, set_port_members in Hm. simpl in Hm.
        rewrite list_insert_ge in Hm by lia.
        unfold l, port_members in Hf. rewrite nth_overflow in Hm by lia.
        discriminate. }
      rewrite Hl in *. simpl in Hm. injection Hm as <-.
      rewrite put_group_put, put_group_member_taken, put_group_put.
      rewrite Hf. eexists _, ms, rest. split; [|reflexivity].
      right. split.
      + assert (Hroom : pool_has_room (put_group (pooled a) (set_group_time time g) c1)).
        { eapply get_member_room; [exact Hg0| |exact Em']. exact Hf. }
        unfold pool_has_room in *. rewrite put_group_members, Hmem1 in Hroom. exact Hroom.
      + unfold set_port_members, set_member_time. simpl.
        rewrite list_insert_insert_eq. reflexivity. }
  destruct Hc5 as (g1 & ms & rest & Hg1 & ->). clear Em Et.
  apply bind_inv in Ep as (g2 & c6 & El & Ep). apply group_load_inv in El as [-> Hg2].
  rewrite group_at_member_taken in Hg2. apply group_at_put_same in Hg2. subst g2.
  apply bind_inv in Ep as (u3 & c6 & Es & Ep).
  unfold group_store, modify in Es. injection Es as _ <-.
  rewrite put_group_member_taken, put_group_put in Ep.
  apply bind_inv in Ep as (timer & c6 & Eg & Ep). unfold gets in Eg.
  injection Eg as <- <-.
  assert (Htimer : groups_timer
                     (groups (member_taken ms rest
                                (put_group (pooled a)
                                   (set_group_portmap (get_portmap g1) g1) c1)))
                   = groups_timer (groups c)).
  { rewrite <- Htm1. reflexivity. }
  rewrite Htm1 in Ep.
  apply bind_inv in Ep as (u4 & c7 & Etm & Ep).
  unfold ret in Ep. injection Ep as <- <-.
  fold (newly_set (group_portmap g) (get_portmap g1)) in H.
  assert (Hc7 : c7 = with_groups
                       (set_groups_timer (timer_after_add (groups_timer (groups c)) time))
                       (member_taken ms rest
                          (put_group (pooled a) (set_group_portmap (get_portmap g1) g1) c1))).
  { unfold timer_after_add. destruct (negb _ || _).
    - unfold modify in Etm. injection Etm as _ <-. reflexivity.
    - unfold ret in Etm. injection Etm as _ <-.
      rewrite <- Htimer. symmetry. apply with_groups_timer_id. }
  subst c7. clear Etm.
  exists a, c1, g, g1, ms, rest. split; [exact Hslot|]. split; [exact Hg|].
  split; [exact Hg1|].
  apply bind_inv in H as (u5 & c8 & Ed & H). unfold ret in H. injection H as <- <-.
  split; [reflexivity|]. unfold calls_if.
  destruct (_ =? 0).
  - unfold ret in Ed. injection Ed as _ <-. symmetry. apply logged_nil.
  - apply bind_inv in Ed as (rmap & c9 & Er & Ed). unfold gets in Er. injection Er as <- <-.
    unfold switch_add_portmap in Ed. rewrite driver_logged in Ed. injection Ed as _ <-.
    assert (Hr : routers_portmap
                   (with_groups
                      (set_groups_timer (timer_after_add (groups_timer (groups c)) time))
                      (member_taken ms rest
                         (put_group (pooled a) (set_group_portmap (get_portmap g1) g1) c1)))
                 = routers_portmap c).
    { unfold routers_portmap. rewrite <- Hrt1. reflexivity. }
    rewrite Hr. reflexivity.
Qed.

(** ** What the group operations leave alone *)

(** The host table, the hash chains and the pool queue of the group table. *)
Definition table_frame (c c' : cache) : Prop :=
  hosts c' = hosts c /\
  groups_hash (groups c') = groups_hash (groups c) /\
  groups_pool (groups c') = groups_pool (groups c).

Lemma table_frame_refl c : table_frame c c.
Proof. repeat split. Qed.

Lemma table_frame_trans c1 c2 c3 : table_frame c1 c2 -> table_frame c2 c3 -> table_frame c1 c3.
Proof. intros (? & ? & ?) (? & ? & ?). repeat split; congruence. Qed.

Lemma table_frame_put x g c : table_frame c (put_group x g c).
Proof. destruct x; repeat split. Qed.

Lemma table_frame_logged new c : table_frame c (logged new c).
Proof. repeat split. Qed.

Lemma table_frame_members f c : table_frame c (with_members f c).
Proof. repeat split. Qed.

Lemma table_frame_world f c : table_frame c (with_world f c).
Proof. repeat split. Qed.

Lemma table_frame_groups_timer f c :
  table_frame c (with_groups (fun gs => set_groups_timer (f gs) gs) c).
Proof. repeat split. Qed.

Lemma table_frame_routers f c : table_frame c (with_routers f c).
Proof. repeat split. Qed.

Lemma consume_group_frame group c r c' :
  consume_group group c = Done r c' -> table_frame c c'.
Proof.
  intros H. apply consume_group_inv in H as (g & free' & _ & ->).
  eapply table_frame_trans; [apply table_frame_put|apply table_frame_members].
Qed.

Lemma get_member_frame group addr port al c r c' :
  get_member group addr port al c = Done r c' -> table_frame c c'.
Proof.
  intros H.
  apply get_member_inv in H
    as (g & _ & [(? & _ & _ & ->)|(_ & [(_ & ? & ->)|(_ & _ & ? & ? & ->)])]).
  - apply table_frame_refl.
  - apply table_frame_world.
  - unfold member_taken.
    eapply table_frame_trans; [|apply table_frame_put].
    eapply table_frame_trans; [apply table_frame_world|apply table_frame_members].
Qed.

Lemma member_touch_frame group port pos time c r c' :
  member_touch group port pos time c = Done r c' -> table_frame c c'.
Proof.
  intros H. apply member_touch_inv in H as (? & ? & _ & _ & ->). apply table_frame_put.
Qed.

Lemma routers_fan_out_frame mk queue portmap c r c' :
  routers_fan_out queue portmap (fun ea m => driver (mk ea m)) c = Done r c' ->
  table_frame c c'.
Proof.
  intros H. apply routers_fan_out_inv in H as (new & -> & _). apply table_frame_logged.
Qed.

Lemma del_member_frame maddr addr port c r c' :
  del_member maddr addr port c = Done r c' -> table_frame c c'.
Proof.
  intros H. destruct (port_invalid port) eqn:Hp.
  - unfold del_member in H. rewrite Hp in H. unfold ret in H. injection H as _ <-.
    apply table_frame_refl.
  - apply (del_member_inv _ _ _ _ _ _ Hp) in H
      as [(_ & _ & ->)|(a & g & g1 & g' & ms & _ & _ & _ & _ & _ & ->)].
    + apply table_frame_refl.
    + eapply table_frame_trans; [apply table_frame_put|].
      eapply table_frame_trans; [apply table_frame_members|apply table_frame_logged].
Qed.

Lemma add_router_frame addr port timeout now c r c' :
  add_router addr port timeout now c = Done r c' -> table_frame c c'.
Proof.
  intros H. unfold add_router in H.
  destruct (port_invalid port); [unfold ret in H; injection H as _ <-; apply table_frame_refl|].
  run_inv; use_inv; use_fan_out; repeat split.
Qed.

Lemma router_timer_frame now c r c' :
  router_timer now c = Done r c' -> table_frame c c'.
Proof.
  intros H. unfold router_timer in H.
  run_inv; use_inv; use_fan_out; repeat split.
Qed.

Lemma group_timer_sweep_frame queue time exp c r c' :
  group_timer_sweep queue time exp c = Done r c' ->
  table_frame c c' /\ routers c' = routers c.
Proof.
  revert exp c. induction queue as [|a queue IH]; intros exp c H; simpl in H.
  - run_inv. split; [apply table_frame_refl|reflexivity].
  - apply bind_inv in H as (g & c1 & E & H). apply group_load_inv in E as [-> Hg].
    destruct (group_portmap g =? 0); [eapply IH; eassumption|].
    destruct (time_after (group_time g) time); [eapply IH; eassumption|].
    apply bind_inv in H as (u & c1 & E & H).
    apply consume_group_inv in E as (g0 & free' & _ & ->).
    apply bind_inv in H as (rmap & c2 & E2 & H). unfold gets in E2. injection E2 as <- <-.
    apply bind_inv in H as (u2 & c3 & E3 & H).
    apply IH in H as (Hf & Hr).
    destruct (_ =? 0); run_inv.
    + split; [|exact Hr]. eapply table_frame_trans; [|exact Hf]. repeat split.
    + split; [|exact Hr]. eapply table_frame_trans; [|exact Hf]. repeat split.
Qed.

Lemma group_timer_frame now c r c' :
  group_timer now c = Done r c' -> table_frame c c' /\ routers c' = routers c.
Proof.
  intros H. unfold group_timer in H.
  apply bind_inv in H as (queue & c1 & E & H). unfold gets in E. injection E as <- <-.
  apply bind_inv in H as (exp & c2 & E & H).
  apply group_timer_sweep_frame in E as (Hf & Hr).
  destruct (time_before _ _); run_inv.
  - split; [|exact Hr]. eapply table_frame_trans; [exact Hf|]. repeat split.
  - split; assumption.
Qed.

Lemma expire_all_frame queue time c r c' :
  expire_all queue time c = Done r c' -> table_frame c c' /\ routers c' = routers c.
Proof.
  revert c. induction queue as [|a queue IH]; intros c H; simpl in H.
  - run_inv. split; [apply table_frame_refl|reflexivity].
  - apply bind_inv in H as (g & c1 & E & H). apply group_load_inv in E as [-> Hg].
    apply bind_inv in H as (u & c1 & E & H). unfold group_store, modify in E.
    injection E as _ <-. apply IH in H as (Hf & Hr). split; [|exact Hr].
    eapply table_frame_trans; [apply table_frame_put|exact Hf].
Qed.

Lemma expire_members_frame maddr timeout now c r c' :
  expire_members maddr timeout now c = Done r c' ->
  table_frame c c' /\ routers c' = routers c.
Proof.
  intros H. unfold expire_members in H.
  apply bind_inv in H as (found & c1 & E & H).
  assert (Hc1 : table_frame c c1 /\ routers c1 = routers c).
  { destruct maddr as [ea|].
    - apply bind_inv in E as (group & c2 & Eg & E).
      pose proof (get_group_lookup_state _ _ _ _ Eg) as ->.
      revert H. destruct group as [a|]; run_inv; repeat split.
    - apply bind_inv in E as (queue & c2 & Eq & E). unfold gets in Eq.
      injection Eq as <- <-.
      apply bind_inv in E as (u & c3 & Ee & E).
      apply expire_all_frame in Ee. revert H. run_inv. intros _. exact Ee. }
  clear E. destruct Hc1 as (Hf & Hr). destruct found; run_inv.
  - split; [|exact Hr]. eapply table_frame_trans; [exact Hf|]. repeat split.
  - split; assumption.
  - split; assumption.
Qed.

(** ** The shape of the tables *)

(** Both hash arrays keep their [HASH_SIZE] chains. *)
Definition tables_sized (c : cache) : Prop :=
  length (hosts_hash (hosts c)) = N.to_nat HASH_SIZE /\
  length (groups_hash (groups c)) = N.to_nat HASH_SIZE.

Lemma hash_link_length index a hash : length (hash_link index a hash) = length hash.
Proof. unfold hash_link. apply length_insert. Qed.

Lemma tables_sized_frame c c' : table_frame c c' -> tables_sized c -> tables_sized c'.
Proof. intros (Hh & Hg & _) (H1 & H2). unfold tables_sized. rewrite Hh, Hg. auto. Qed.

Lemma get_port_keeps_sized haddr now c r c' :
  tables_sized c -> get_port haddr now c = Done r c' -> tables_sized c'.
Proof.
  intros (Hh & Hg) H. pose proof (get_port_frame _ _ _ _ _ H) as (Hgr & _ & _).
  unfold tables_sized. rewrite Hgr. split; [|exact Hg].
  unfold get_port in H.
  apply bind_inv in H as (host & c1 & Eh & H).
  apply get_host_inv in Eh as [(a & -> & -> & _)|(_ & [(-> & n & rest & ->)|(rest & -> & ->)])];
    run_inv; simpl; rewrite ?hash_link_length; auto.
Qed.

Lemma add_member_keeps_sized maddr addr port timeout now c r c' :
  tables_sized c -> add_member maddr addr port timeout now c = Done r c' -> tables_sized c'.
Proof.
  intros (Hh & Hg) H. destruct (port_invalid port) eqn:Hp.
  - unfold add_member in H. rewrite Hp in H. unfold ret in H. injection H as _ <-.
    split; assumption.
  - apply (add_member_inv _ _ _ _ _ _ _ _ Hp) in H
      as [(_ & _ & rest & ->)|(a & c1 & g & g1 & ms & rest & Hslot & _ & _ & _ & ->)].
    + split; assumption.
    + destruct Hslot as [[_ ->]|(_ & _ & rest0 & ->)]; unfold tables_sized; simpl;
        rewrite ?put_group_hash; simpl; rewrite ?hash_link_length; auto.
Qed.

Lemma run_keeps_sized op c r c' :
  tables_sized c -> run op c = Done r c' -> tables_sized c'.
Proof.
  intros Hs H. destruct op; simpl in H.
  - eapply get_port_keeps_sized; eassumption.
  - eapply add_member_keeps_sized; eassumption.
  - eapply tables_sized_frame; [eapply del_member_frame; eassumption|exact Hs].
  - eapply tables_sized_frame; [eapply add_router_frame; eassumption|exact Hs].
  - eapply tables_sized_frame; [eapply expire_members_frame; eassumption|exact Hs].
  - apply bind_inv in H as (u & c1 & E & H). unfold ret in H. injection H as _ <-.
    unfold fire_group_timer in E. apply bind_inv in E as (u' & c2 & E' & E).
    unfold modify in E'. injection E' as _ <-.
    apply group_timer_frame in E as (Hf & _).
    eapply tables_sized_frame; [exact Hf|]. exact Hs.
  - apply bind_inv in H as (u & c1 & E & H). unfold ret in H. injection H as _ <-.
    unfold fire_router_timer in E. apply bind_inv in E as (u' & c2 & E' & E).
    unfold modify in E'. injection E' as _ <-.
    apply router_timer_frame in E.
    eapply tables_sized_frame; [exact E|]. exact Hs.
Qed.

Lemma reachable_sized c : reachable c -> tables_sized c.
Proof.
  intros (c0 & c1 & ops & Hi & Hr).
  assert (Hs1 : tables_sized c1).
  { unfold init_cache in Hi. run_inv. split; reflexivity. }
  clear Hi. revert c1 Hs1 Hr. induction ops as [|op ops IH]; intros c1 Hs1 Hr; simpl in Hr.
  - unfold ret in Hr. injection Hr as <-. exact Hs1.
  - apply bind_inv in Hr as (v & c2 & E & Hr).
    eapply IH; [|exact Hr]. eapply run_keeps_sized; eassumption.
Qed.

(** ** The entry of a group, before and after an operation *)

Lemma group_of_found ea c a :
  get_group ea false c = Done (Some a) c -> group_of c ea = group_at c (pooled a).
Proof. intros H. unfold group_of. rewrite H. reflexivity. Qed.

Lemma group_of_absent ea c :
  get_group ea false c = Done None c -> group_of c ea = None.
Proof. intros H. unfold group_of. rewrite H. reflexivity. Qed.

Lemma get_group_lookup_transfer ea c c' r :
  groups_hash (groups c') = groups_hash (groups c) ->
  (forall b, option_map group_ea (group_at c' (pooled b))
             = option_map group_ea (group_at c (pooled b))) ->
  get_group ea false c = Done r c -> get_group ea false c' = Done r c'.
Proof.
  rewrite !get_group_lookup. intros Hh He H. rewrite Hh.
  apply groups_hash_find_ea with (c := c); [|exact H]. intros b _. apply He.
Qed.

Lemma group_of_after_put ea c a g g' c' :
  get_group ea false c = Done (Some a) c ->
  group_at c (pooled a) = Some g ->
  group_ea g' = group_ea g ->
  groups_hash (groups c') = groups_hash (groups c) ->
  (forall b, group_at c' (pooled b) = group_at (put_group (pooled a) g' c) (pooled b)) ->
  get_group ea false c' = Done (Some a) c' /\ group_of c' ea = Some g'.
Proof.
  intros Hget Hg Hea Hh Hsame.
  assert (Hget' : get_group ea false c' = Done (Some a) c').
  { apply get_group_lookup_transfer with (c := c); [exact Hh| |exact Hget].
    intros b. rewrite Hsame. destruct (decide (a = b)) as [<-|Hne].
    - rewrite group_at_put_eq by eauto. rewrite Hg. simpl. congruence.
    - rewrite group_at_put_ne by congruence. reflexivity. }
  split; [exact Hget'|].
  rewrite (group_of_found _ _ _ Hget'), Hsame. apply group_at_put_eq. eauto.
Qed.

Lemma HASH_INDEX_lt ea : (HASH_INDEX ea < N.to_nat HASH_SIZE)%nat.
Proof.
  unfold HASH_INDEX.
  assert (ether_hash ea mod HASH_SIZE < HASH_SIZE)%N by (apply N.mod_lt; discriminate).
  lia.
Qed.

Lemma group_at_created ea rest c :
  group_at (group_created ea rest c) (pooled (length (groups_mem (groups c))))
  = Some (set_group_ea ea (init_group group_zero)).
Proof.
  unfold group_created, group_at, put_group. simpl.
  apply list_lookup_insert_eq. rewrite length_app. simpl. lia.
Qed.

Lemma group_created_hash ea rest c :
  groups_hash (groups (group_created ea rest c))
  = hash_link (HASH_INDEX ea) (length (groups_mem (groups c))) (groups_hash (groups c)).
Proof. reflexivity. Qed.

Lemma group_of_after_create ea rest c g' c' :
  length (groups_hash (groups c)) = N.to_nat HASH_SIZE ->
  group_ea g' = ea ->
  groups_hash (groups c') = groups_hash (groups (group_created ea rest c)) ->
  (forall b, group_at c' (pooled b)
             = group_at (put_group (pooled (length (groups_mem (groups c)))) g'
                           (group_created ea rest c)) (pooled b)) ->
  get_group ea false c' = Done (Some (length (groups_mem (groups c)))) c' /\
  group_of c' ea = Some g'.
Proof.
  intros Hlen Hea Hh Hsame.
  assert (Hat : group_at c' (pooled (length (groups_mem (groups c)))) = Some g').
  { rewrite Hsame. apply group_at_put_eq. rewrite group_at_created. eauto. }
  assert (Hget' : get_group ea false c' = Done (Some (length (groups_mem (groups c)))) c').
  { rewrite get_group_lookup, Hh, group_created_hash. unfold hash_link.
    rewrite nth_lookup, list_lookup_insert_eq by (rewrite Hlen; apply HASH_INDEX_lt).
    simpl. rewrite (bind_Done _ _ _ _ _ (group_load_at _ _ _ Hat)).
    rewrite decide_True by exact Hea. reflexivity. }
  split; [exact Hget'|]. rewrite (group_of_found _ _ _ Hget'). exact Hat.
Qed.

Lemma group_portmap_init g : group_portmap (init_group g) = 0.
Proof.
  rewrite init_group_clear.
  destruct (clear_ports_fields ports (set_group_portmap 0 g)) as (_ & -> & _). reflexivity.
Qed.

Lemma port_members_init g p : (p <= PORT_MAX)%nat -> port_members (init_group g) p = [].
Proof. intros Hp. rewrite init_group_clear. apply clear_ports_in, in_ports, Hp. Qed.

(** The entry [get_group] hands to [add_member]: the one the table has,
    or a freshly initialised one. *)
Definition entry_for (c : cache) (ea : ether_addr) : group_entry :=
  match group_of c ea with
  | Some g => g
  | None => set_group_ea ea (init_group group_zero)
  end.

(** The entry after [add_member] inserted or refreshed the member, before
    the bitmask is recomputed. *)
Definition member_added (g g1 : group_entry) (addr : in_addr_t) (port : nat) (time : Z)
    (room : Prop) : Prop :=
  let l := port_members g port in
  match members_find l addr with
  | Some pos =>
      exists m, l !! pos = Some m /\
        g1 = set_port_members port (<[pos := set_member_time time m]> l)
               (set_group_time time g)
  | None =>
      g1 = set_group_time time g \/
      (room /\
       g1 = set_port_members port ({| member_time := time; member_addr := addr |} :: l)
              (set_group_time time g))
  end.

Lemma member_added_ea g g1 addr port time room :
  member_added g g1 addr port time room ->
  group_ea g1 = group_ea g /\ group_time g1 = time.
Proof.
  unfold member_added. destruct (members_find _ addr).
  - intros (m & _ & ->). split; reflexivity.
  - intros [->|[_ ->]]; split; reflexivity.
Qed.

Lemma add_member_spec maddr addr port timeout now c r c' :
  tables_sized c ->
  port_invalid port = false ->
  add_member maddr addr port timeout now c = Done r c' ->
  (group_of c maddr = None /\ group_of c' maddr = None /\ r = 0 /\ calls_made c c' [] /\
   groups c' = groups c /\ get_group maddr false c' = Done None c')
  \/ exists g1,
       member_added (entry_for c maddr) g1 addr (Z.to_nat port) (ulong (now + timeout))
         (pool_has_room c) /\
       group_ea (entry_for c maddr) = maddr /\
       r = newly_set (group_portmap (entry_for c maddr)) (get_portmap g1) /\
       group_of c' maddr = Some (set_group_portmap (get_portmap g1) g1) /\
       calls_made c c' (calls_if r (drv_add_portmap maddr (Z.lor r (routers_portmap c)))) /\
       groups_timer (groups c')
       = timer_after_add (groups_timer (groups c)) (ulong (now + timeout)) /\
       routers c' = routers c /\ hosts c' = hosts c /\
       exists a, get_group maddr false c' = Done (Some a) c'.
Proof.
  intros (_ & Hlen) Hp H.
  apply (add_member_inv _ _ _ _ _ _ _ _ Hp) in H
    as [(Hnone & -> & rest & ->)|(a & c1 & g & g1 & ms & rest & Hslot & Hg & Hm & -> & ->)].
  - left. split; [apply group_of_absent; exact Hnone|].
    assert (Hnone' : get_group maddr false (with_world (set_calloc_results rest) c)
                     = Done None (with_world (set_calloc_results rest) c)).
    { apply get_group_lookup_transfer with (c := c); [reflexivity| |exact Hnone].
      intros b. rewrite group_at_with_world. reflexivity. }
    split; [apply group_of_absent; exact Hnone'|].
    split; [reflexivity|]. split; [|split; [reflexivity|exact Hnone']].
    unfold calls_made. rewrite app_nil_r. reflexivity.
  - right. exists g1.
    assert (Hentry : entry_for c maddr = g /\ group_ea g = maddr).
    { unfold entry_for. destruct Hslot as [[Hget ->]|(Hnone & -> & rest0 & ->)].
      - rewrite (group_of_found _ _ _ Hget), Hg. split; [reflexivity|].
        rewrite get_group_lookup in Hget.
        apply groups_hash_find_some in Hget as (_ & g0 & Hg0 & Hea). congruence.
      - rewrite (group_of_absent _ _ Hnone). rewrite group_at_created in Hg.
        injection Hg as <-. split; reflexivity. }
    destruct Hentry as (-> & Hea).
    assert (Hadded : member_added g g1 addr (Z.to_nat port) (ulong (now + timeout))
                       (pool_has_room c)).
    { unfold member_added. simpl in Hm. destruct (members_find _ addr); [exact Hm|].
      destruct Hm as [[-> _]|[Hroom ->]]; [left; reflexivity|right; auto]. }
    split; [exact Hadded|]. split; [exact Hea|]. split; [reflexivity|].
    apply member_added_ea in Hadded as (Hea1 & _).
    match goal with |- group_of ?st0 _ = _ /\ _ => set (st := st0) end.
    assert (Hafter : exists a', get_group maddr false st = Done (Some a') st /\
                       group_of st maddr = Some (set_group_portmap (get_portmap g1) g1)).
    { subst st. destruct Hslot as [[Hget ->]|(Hnone & -> & rest0 & ->)].
      * exists a. eapply group_of_after_put; [exact Hget|exact Hg| |reflexivity|].
        -- simpl. exact Hea1.
        -- intros b. rewrite group_at_logged, group_at_groups_timer, group_at_member_taken.
           reflexivity.
      * eexists. eapply group_of_after_create with (rest := rest0); [exact Hlen| |reflexivity|].
        -- simpl. congruence.
        -- intros b. rewrite group_at_logged, group_at_groups_timer, group_at_member_taken.
           reflexivity. }
    destruct Hafter as (a' & Hget' & Hof'). split; [exact Hof'|].
    assert (Hfr : calls_made c st
                    (calls_if (newly_set (group_portmap g) (get_portmap g1))
                       (drv_add_portmap maddr
                          (Z.lor (newly_set (group_portmap g) (get_portmap g1))
                             (routers_portmap c)))) /\
                  groups_timer (groups st)
                  = timer_after_add (groups_timer (groups c)) (ulong (now + timeout)) /\
                  routers st = routers c /\ hosts st = hosts c).
    { subst st. destruct Hslot as [[Hget ->]|(Hnone & -> & rest0 & ->)]; repeat split. }
    destruct Hfr as (H1 & H2 & H3 & H4).
    split; [exact H1|]. split; [exact H2|]. split; [exact H3|]. split; [exact H4|].
    exists a'. exact Hget'.
Qed.

(** The entry after [del_member] unlinked the member, before the bitmask
    is recomputed. *)
Definition member_removed (g : group_entry) (addr : in_addr_t) (port : nat) : group_entry :=
  match members_find (port_members g port) addr with
  | Some pos => set_port_members port (delete pos (port_members g port)) g
  | None => g
  end.

Lemma del_member_spec maddr addr port c r c' :
  port_invalid port = false ->
  del_member maddr addr port c = Done r c' ->
  (get_group maddr false c = Done None c /\ r = 0 /\ c' = c)
  \/ exists g g',
       group_of c maddr = Some g /\
       group_of c' maddr = Some g' /\
       group_portmap g' = get_portmap (member_removed g addr (Z.to_nat port)) /\
       r = Z.land (cleared (group_portmap g) (group_portmap g'))
                  (Z.lnot (routers_portmap c)) /\
       calls_made c c' (calls_if r (drv_del_portmap maddr r)) /\
       routers c' = routers c.
Proof.
  intros Hp H.
  apply (del_member_inv _ _ _ _ _ _ Hp) in H
    as [Hnone|(a & g & g1 & g' & ms & Hget & Hg & Hg1 & Hg' & -> & ->)]; [left; exact Hnone|].
  right. exists g, g'.
  assert (Hg1' : g1 = member_removed g addr (Z.to_nat port)).
  { unfold member_removed. destruct (members_find _ addr); exact Hg1. }
  clear Hg1. subst g1.
  assert (Hpm : group_portmap g' = get_portmap (member_removed g addr (Z.to_nat port)) /\
                group_ea g' = group_ea g).
  { assert (Hea : group_ea (member_removed g addr (Z.to_nat port)) = group_ea g).
    { unfold member_removed. destruct (members_find _ addr); reflexivity. }
    destruct Hg' as [->|[Hz ->]].
    - split; [reflexivity|exact Hea].
    - destruct (clear_ports_fields ports
                  (set_group_portmap 0
                     (set_group_portmap (get_portmap (member_removed g addr (Z.to_nat port)))
                        (member_removed g addr (Z.to_nat port)))))
        as (_ & -> & -> & _).
      simpl. split; [congruence|exact Hea]. }
  destruct Hpm as (Hpm & Hea).
  split; [rewrite (group_of_found _ _ _ Hget); exact Hg|].
  split.
  { eapply group_of_after_put; [exact Hget|exact Hg|exact Hea|reflexivity|].
    intros b. rewrite group_at_logged, group_at_with_members. reflexivity. }
  split; [exact Hpm|]. rewrite Hpm. split; [reflexivity|]. split; reflexivity.
Qed.

Lemma land_lnot_spec x y i :
  Z.testbit (Z.land x (Z.lnot y)) i = Z.testbit x i && negb (Z.testbit y i).
Proof.
  destruct (Z.lt_ge_cases i 0) as [Hneg|Hnn].
  - rewrite !Z.testbit_neg_r by exact Hneg. reflexivity.
  - rewrite Z.land_spec, Z.lnot_spec by exact Hnn. reflexivity.
Qed.

(** C4, as the code has it.  For every call of [del_member] with a valid
    port, the value returned is the set of bits that went from 1 to 0 in
    the group's bitmask with the ports of the router bitmask taken out:
    the router exclusion applies to the return value as well, and the
    driver is told to remove exactly the returned ports (and is not called
    when there are none). *)
Theorem del_member_returns_masked_ports maddr addr port c r c' :
  port_invalid port = false ->
  del_member maddr addr port c = Done r c' ->
  (forall i, Z.testbit r i =
             Z.testbit (bitmask_of c maddr) i
             && negb (Z.testbit (bitmask_of c' maddr) i)
             && negb (Z.testbit (routers_portmap c) i)) /\
  calls_made c c' (if r =? 0 then [] else [drv_del_portmap maddr r]).
Proof.
  intros Hp H.
  apply (del_member_spec _ _ _ _ _ _ Hp) in H
    as [(Hnone & -> & ->)|(g & g' & Hg & Hg' & _ & -> & Hcalls & _)].
  - split; [|unfold calls_made; simpl; rewrite app_nil_r; reflexivity].
    intros i. unfold bitmask_of. rewrite (group_of_absent _ _ Hnone), Z.bits_0. reflexivity.
  - split; [|exact Hcalls].
    intros i. unfold bitmask_of. rewrite Hg, Hg'.
    rewrite land_lnot_spec, cleared_spec. reflexivity.
Qed.

(** C5.  In a reachable state, for every call of [add_member] with a valid
    port, the value returned is exactly the set of bits that were 0 in the
    group's bitmask before the call and are 1 after it (a group without an
    entry has no bits); the driver gets one [switch_add_portmap] call for
    the group's MAC when that set is not empty, with that set OR'd with
    the router bitmask, and no call at all when it is empty. *)
Theorem add_member_returns_new_ports maddr addr port timeout now c r c' :
  reachable c ->
  port_invalid port = false ->
  add_member maddr addr port timeout now c = Done r c' ->
  (forall i, Z.testbit r i =
             negb (Z.testbit (bitmask_of c maddr) i) && Z.testbit (bitmask_of c' maddr) i) /\
  calls_made c c'
    (if r =? 0 then []
     else [drv_add_portmap maddr (Z.lor r (routers_portmap c'))]).
Proof.
  intros Hr Hp H. apply reachable_sized in Hr.
  apply (add_member_spec _ _ _ _ _ _ _ _ Hr Hp) in H
    as [(Hg & Hg' & -> & Hcalls & _)
       |(g1 & _ & Hea & -> & Hg' & Hcalls & _ & Hrt & _)].
  - split; [|exact Hcalls].
    intros i. unfold bitmask_of. rewrite Hg, Hg', Z.bits_0. reflexivity.
  - unfold routers_portmap. rewrite Hrt. split; [|exact Hcalls].
    intros i. rewrite newly_set_spec. unfold bitmask_of. rewrite Hg'. simpl.
    unfold entry_for. destruct (group_of c maddr); [reflexivity|].
    simpl. rewrite group_portmap_init. reflexivity.
Qed.

Lemma reachable_entry_consistent c ea : reachable c -> consistent (entry_for c ea).
Proof.
  intros Hr. unfold entry_for. destruct (group_of c ea) as [g|] eqn:Hg.
  - eapply reachable_group_consistent; eassumption.
  - rewrite init_group_clear. apply consistent_set_ea, consistent_cleared.
Qed.

Lemma newly_set_same m : newly_set m m = 0.
Proof. unfold newly_set. rewrite Z.lxor_nilpotent. reflexivity. Qed.

(** C10.  In a reachable state, let [add_member] be called with a valid
    port when no member record can be had: the free list is empty, the
    member pool is at [MEMBER_POOL_SIZE], and the address is not on that
    port's list of the group.  If the call obtains a group entry, it
    returns 0 and makes no driver call, and yet the state has changed: the
    entry is in the table under the group's MAC (for a group that had no
    entry it is new, with bitmask 0 and no members), its expiry is
    [now + timeout], and the sweep timer is rescheduled to that expiry when
    it was idle or when the expiry is before its deadline (and is left
    alone otherwise). *)
Theorem add_member_without_member_record maddr addr port timeout now c r c' :
  reachable c ->
  port_invalid port = false ->
  members_free (members c) = [] ->
  MEMBER_POOL_SIZE <= members_count (members c) ->
  members_find (port_members (entry_for c maddr) (Z.to_nat port)) addr = None ->
  add_member maddr addr port timeout now c = Done r c' ->
  group_of c' maddr <> None ->
  let time := ulong (now + timeout) in
  let timer := groups_timer (groups c) in
  r = 0 /\
  calls_made c c' [] /\
  (exists g', group_of c' maddr = Some g' /\
              group_ea g' = maddr /\
              group_time g' = time /\
              (group_of c maddr = None ->
               group_portmap g' = 0 /\
               forall p, (p <= PORT_MAX)%nat -> port_members g' p = [])) /\
  groups_timer (groups c') =
    (if negb (timer_pending timer) || time_before time (expires timer)
     then {| timer_pending := true; expires := time |}
     else timer).
Proof.
  intros Hr Hp Hfree Hcount Hfind H Hslot time timer.
  pose proof (reachable_entry_consistent c maddr Hr) as Hcons.
  apply reachable_sized in Hr.
  apply (add_member_spec _ _ _ _ _ _ _ _ Hr Hp) in H
    as [(_ & Hg' & _)|(g1 & Hadd & Hea & -> & Hg' & Hcalls & Htm & _)];
    [contradiction|].
  unfold member_added in Hadd. rewrite Hfind in Hadd.
  destruct Hadd as [->|[[Hroom|Hroom] _]]; [|congruence|lia].
  assert (Hpm : get_portmap (set_group_time (ulong (now + timeout)) (entry_for c maddr))
                = group_portmap (entry_for c maddr)).
  { symmetry. exact Hcons. }
  rewrite Hpm, newly_set_same in *.
  split; [reflexivity|]. split; [exact Hcalls|]. split; [|exact Htm].
  eexists. split; [exact Hg'|]. split; [exact Hea|]. split; [reflexivity|].
  intros Hnone. unfold entry_for. rewrite Hnone. simpl. split.
  - apply group_portmap_init.
  - intros p Hle. apply (port_members_init group_zero p Hle).
Qed.

(** ** [del_member] after [add_member] *)

Lemma consume_group_total group c :
  is_Some (group_at c group) -> exists c', consume_group group c = Done tt c'.
Proof.
  intros [g Hg]. unfold consume_group.
  rewrite (bind_Done _ _ _ _ _ (group_load_at _ _ _ Hg)).
  unfold bind, gets. destruct (fold_left _ ports _) as [g' free']. eexists. reflexivity.
Qed.

Lemma del_member_total maddr addr port c a g :
  port_invalid port = false ->
  get_group maddr false c = Done (Some a) c ->
  group_at c (pooled a) = Some g ->
  exists r c', del_member maddr addr port c = Done r c'.
Proof.
  intros Hp Hget Hg. unfold del_member. rewrite Hp.
  rewrite (bind_Done _ _ _ _ _ Hget). cbv beta iota.
  assert (Hinner : exists pm c2,
    (g <- group_load (pooled a);;
     let portmap := group_portmap g in
     member <- get_member (pooled a) addr (Z.to_nat port) false;;
     match member with
     | Some pos => consume_member (pooled a) (Z.to_nat port) pos
     | None => ret tt
     end;;;
     g0 <- group_load (pooled a);;
     let newmap := get_portmap g0 in
     group_store (pooled a) (set_group_portmap newmap g0);;;
     let portmap0 := Z.land (Z.lxor portmap newmap) portmap in
     (if negb (portmap0 =? 0) && (newmap =? 0) then consume_group (pooled a) else ret tt);;;
     ret portmap0) c = Done pm c2).
  { rewrite (bind_Done _ _ _ _ _ (group_load_at _ _ _ Hg)). cbv zeta.
    assert (Hm : get_member (pooled a) addr (Z.to_nat port) false c
                 = Done (members_find (port_members g (Z.to_nat port)) addr) c).
    { rewrite get_member_lookup, Hg. reflexivity. }
    rewrite (bind_Done _ _ _ _ _ Hm).
    assert (Hc : exists c1,
              match members_find (port_members g (Z.to_nat port)) addr with
              | Some pos => consume_member (pooled a) (Z.to_nat port) pos
              | None => ret tt
              end c = Done tt c1 /\ is_Some (group_at c1 (pooled a))).
    { destruct (members_find _ addr) as [pos|] eqn:Hf.
      - apply members_find_lookup in Hf as (m & Hm' & _).
        unfold consume_member.
        rewrite (bind_Done _ _ _ _ _ (group_load_at _ _ _ Hg)), Hm'.
        eexists. split; [reflexivity|].
        rewrite group_at_with_members. apply group_at_put_is_Some. eauto.
      - exists c. split; [reflexivity|eauto]. }
    destruct Hc as (c1 & Hc1 & [g0 Hg0]). rewrite (bind_Done _ _ _ _ _ Hc1).
    rewrite (bind_Done _ _ _ _ _ (group_load_at _ _ _ Hg0)). cbv zeta.
    unfold group_store. unfold bind at 1. unfold modify at 1.
    destruct (negb _ && _).
    - destruct (consume_group_total (pooled a)
                  (put_group (pooled a) (set_group_portmap (get_portmap g0) g0) c1))
        as (c3 & Hc3).
      { apply group_at_put_is_Some. eauto. }
      rewrite (bind_Done _ _ _ _ _ Hc3). eexists _, _. reflexivity.
    - eexists _, _. reflexivity. }
  destruct Hinner as (pm & c2 & Hinner). rewrite (bind_Done _ _ _ _ _ Hinner).
  unfold bind, gets, ret. destruct (_ =? 0); eexists _, _; reflexivity.
Qed.

Definition no_members (g : group_entry) : Prop :=
  Forall (fun l => l = []) (group_members g).

Lemma no_members_port g p : no_members g -> port_members g p = [].
Proof.
  intros H. unfold port_members. rewrite nth_lookup.
  destruct (group_members g !! p) as [l|] eqn:E; [|reflexivity].
  simpl. unfold no_members in H. rewrite Forall_lookup in H. eapply H. exact E.
Qed.

Lemma port_members_set_cases p l g :
  port_members (set_port_members p l g) p = l \/
  port_members (set_port_members p l g) p = port_members g p.
Proof.
  destruct (decide (p < length (group_members g))%nat) as [Hlt|Hge].
  - left. apply port_members_set_eq. exact Hlt.
  - right. unfold port_members, set_port_members. simpl.
    rewrite list_insert_ge by lia. reflexivity.
Qed.

Lemma port_valid_le port : port_invalid port = false -> (Z.to_nat port <= PORT_MAX)%nat.
Proof.
  unfold port_invalid. intros H. apply orb_false_iff in H as [H1 H2].
  apply Z.ltb_ge in H1. apply Z.ltb_ge in H2. lia.
Qed.

Lemma port_members_set_out p l g q :
  ~ (p < length (group_members g))%nat ->
  port_members (set_port_members p l g) q = port_members g q.
Proof.
  intros Hge. unfold port_members, set_port_members. simpl.
  rewrite list_insert_ge by lia. reflexivity.
Qed.

Lemma removed_after_added_empty g0 g1 addr port time room :
  (forall p, (p <= PORT_MAX)%nat -> port_members g0 p = []) ->
  (port <= PORT_MAX)%nat ->
  member_added g0 g1 addr port time room ->
  forall v p, (p <= PORT_MAX)%nat ->
    port_members (member_removed (set_group_portmap v g1) addr port) p = [].
Proof.
  intros Hempty Hport Hadded v p Hle.
  unfold member_added in Hadded. rewrite (Hempty _ Hport) in Hadded. simpl in Hadded.
  unfold member_removed.
  change (port_members (set_group_portmap v g1) port) with (port_members g1 port).
  destruct Hadded as [->|[_ ->]].
  - change (port_members (set_group_time time g0) port) with (port_members g0 port).
    rewrite (Hempty _ Hport). simpl. apply Hempty. exact Hle.
  - set (m := {| member_time := time; member_addr := addr |}).
    set (gt := set_group_time time g0).
    assert (Hgt : forall q, port_members gt q = port_members g0 q) by reflexivity.
    destruct (decide (port < length (group_members gt))%nat) as [Hlt|Hge].
    + rewrite (port_members_set_eq port [m] gt Hlt). simpl.
      rewrite decide_True by reflexivity. simpl.
      destruct (decide (port = p)) as [<-|Hne].
      * apply port_members_set_nil.
      * rewrite port_members_set_ne by exact Hne.
        change (port_members (set_group_portmap v (set_port_members port [m] gt)) p)
          with (port_members (set_port_members port [m] gt) p).
        rewrite port_members_set_ne by exact Hne. rewrite Hgt. apply Hempty. exact Hle.
    + rewrite (port_members_set_out port [m] gt port Hge), Hgt, (Hempty _ Hport). simpl.
      change (port_members (set_group_portmap v (set_port_members port [m] gt)) p)
        with (port_members (set_port_members port [m] gt) p).
      rewrite (port_members_set_out port [m] gt p Hge), Hgt. apply Hempty. exact Hle.
Qed.

(** C7, as the code has it.  In a reachable state, for every valid port
    [p], group MAC [G] and address [A]: if the group for [G] has no members
    at all (it has no entry, or every member list of its entry is empty),
    then [del_member(G, A, p)] right after [add_member(G, A, p, t)] returns
    and leaves the group's bitmask as it was before the add. *)
Theorem del_after_add_on_empty_group maddr addr port timeout now c r1 c1 :
  reachable c ->
  port_invalid port = false ->
  match group_of c maddr with
  | Some g => no_members g
  | None => True
  end ->
  add_member maddr addr port timeout now c = Done r1 c1 ->
  exists r2 c2,
    del_member maddr addr port c1 = Done r2 c2 /\
    bitmask_of c2 maddr = bitmask_of c maddr.
Proof.
  intros Hr Hp Hno Hadd.
  assert (Hempty : forall p, (p <= PORT_MAX)%nat -> port_members (entry_for c maddr) p = []).
  { unfold entry_for. destruct (group_of c maddr) as [g|].
    - intros p _. apply no_members_port. exact Hno.
    - intros p Hle. apply (port_members_init group_zero p Hle). }
  assert (Hbefore : bitmask_of c maddr = 0).
  { unfold bitmask_of. destruct (group_of c maddr) as [g|] eqn:Hg; [|reflexivity].
    rewrite (reachable_group_consistent _ _ _ Hr Hg).
    apply get_portmap_empty. intros p _. apply no_members_port. exact Hno. }
  rewrite Hbefore. clear Hno Hbefore.
  pose proof (port_valid_le _ Hp) as Hport.
  apply reachable_sized in Hr.
  apply (add_member_spec _ _ _ _ _ _ _ _ Hr Hp) in Hadd
    as [(_ & Hg1 & _ & _ & _ & Hnone)
       |(g1 & Hadded & _ & _ & Hg1 & _ & _ & _ & _ & a & Hget)].
  - exists 0, c1. split; [apply del_member_no_group; assumption|].
    unfold bitmask_of. rewrite Hg1. reflexivity.
  - pose proof Hg1 as Hat. rewrite (group_of_found _ _ _ Hget) in Hat.
    destruct (del_member_total maddr addr port c1 a _ Hp Hget Hat) as (r2 & c2 & Hdel).
    exists r2, c2. split; [exact Hdel|].
    apply (del_member_spec _ _ _ _ _ _ Hp) in Hdel
      as [(Hnone & _)|(g & g' & Hg & Hg' & Hpm & _)]; [congruence|].
    rewrite Hg1 in Hg. injection Hg as <-.
    unfold bitmask_of. rewrite Hg', Hpm.
    apply get_portmap_empty. intros p Hle.
    eapply removed_after_added_empty; eassumption.
Qed.

(** ** What [get_port] does *)

Definition port_valid (port : Z) : bool := (0 <=? port) && (port <=? Z.of_nat PORT_MAX).

(** The entry [get_port] writes after a driver query. *)
Definition host_cached (h : host_entry) (port now : Z) : host_entry :=
  {| host_time := ulong (now + HOST_TTL * TIMER_HZ); host_port := port; host_ea := host_ea h |}.

Lemma get_port_inv haddr now c r c' :
  get_port haddr now c = Done r c' ->
  exists host c1,
    get_host haddr now c = Done host c1 /\
    match host with
    | Some a =>
        exists h, hosts_mem (hosts c1) !! a = Some h /\
          if time_after_eq (host_time h) now then r = host_port h /\ c' = c1
          else r = switch_port_of (world c1) haddr /\
               c' = (if port_valid r then put_host a (host_cached h r now) else id)
                      (logged [drv_get_port haddr] c1)
    | None =>
        r = switch_port_of (world c1) haddr /\ c' = logged [drv_get_port haddr] c1
    end.
Proof.
  intros H. unfold get_port in H.
  apply bind_inv in H as (host & c1 & Eh & H). exists host, c1. split; [exact Eh|]. clear Eh.
  destruct host as [a|].
  - apply bind_inv in H as (cached & c2 & E & H).
    apply bind_inv in E as (h & c3 & El & E). apply host_load_inv in El as [-> Hh].
    unfold ret in E. injection E as <- <-.
    exists h. split; [exact Hh|].
    destruct (time_after_eq (host_time h) now).
    + unfold ret in H. injection H as <- <-. auto.
    + apply bind_inv in H as (port & c4 & Eq & H).
      unfold switch_get_port in Eq. apply bind_inv in Eq as (u & c5 & Ed & Eq).
      rewrite driver_logged in Ed. injection Ed as _ <-.
      unfold gets in Eq. injection Eq as <- <-.
      apply bind_inv in H as (u2 & c6 & Es & H). unfold ret in H. injection H as <- <-.
      split; [reflexivity|]. simpl. unfold port_valid.
      destruct ((0 <=? _) && (_ <=? _)).
      * apply bind_inv in Es as (h' & c7 & El & Es). apply host_load_inv in El as [-> Hh'].
        simpl in Hh'. assert (h' = h) as -> by congruence.
        unfold host_store, modify in Es. injection Es as _ <-. reflexivity.
      * unfold ret in Es. injection Es as _ <-. reflexivity.
  - apply bind_inv in H as (cached & c2 & E & H). unfold ret in E. injection E as <- <-.
    apply bind_inv in H as (port & c4 & Eq & H).
    unfold switch_get_port in Eq. apply bind_inv in Eq as (u & c5 & Ed & Eq).
    rewrite driver_logged in Ed. injection Ed as _ <-.
    unfold gets in Eq. injection Eq as <- <-.
    apply bind_inv in H as (u2 & c6 & Es & H). unfold ret in H. injection H as <- <-.
    unfold ret in Es. injection Es as _ <-. split; reflexivity.
Qed.

Lemma get_host_world_log ea time c r c' :
  get_host ea time c = Done r c' ->
  driver_log (world c') = driver_log (world c) /\
  switch_port_of (world c') = switch_port_of (world c).
Proof.
  intros H.
  apply get_host_inv in H as [(a & -> & -> & _)|(_ & [(-> & n & rest & ->)|(rest & -> & ->)])];
    split; reflexivity.
Qed.

(** One call of [get_port] makes no driver call or exactly one query. *)
Lemma get_port_calls haddr now c r c' :
  get_port haddr now c = Done r c' ->
  calls_made c c' [] \/ calls_made c c' [drv_get_port haddr].
Proof.
  intros H. apply get_port_inv in H as (host & c1 & Eh & H).
  apply get_host_world_log in Eh as (Hlog & _).
  unfold calls_made. rewrite <- Hlog.
  destruct host as [a|].
  - destruct H as (h & _ & H). destruct (time_after_eq (host_time h) now).
    + destruct H as [_ ->]. left. rewrite app_nil_r. reflexivity.
    + destruct H as [_ ->]. right. destruct (port_valid r); reflexivity.
  - destruct H as [_ ->]. right. reflexivity.
Qed.

(** The entry the host table holds for [ea]: what the search at the head
    of [get_host] finds. *)
Definition host_of (c : cache) (ea : ether_addr) : option host_entry :=
  match hosts_hash_find (nth (HASH_INDEX ea) (hosts_hash (hosts c)) []) ea c with
  | Done (Some a) _ => hosts_mem (hosts c) !! a
  | _ => None
  end.

Lemma hosts_hash_find_ea chain ea c c' r :
  (forall b, In b chain ->
     option_map host_ea (hosts_mem (hosts c') !! b)
     = option_map host_ea (hosts_mem (hosts c) !! b)) ->
  hosts_hash_find chain ea c = Done r c ->
  hosts_hash_find chain ea c' = Done r c'.
Proof.
  induction chain as [|b chain IH]; intros Hsame H; simpl in *.
  - unfold ret in *. injection H as <-. reflexivity.
  - apply bind_inv in H as (h & c1 & Hl & H).
    apply host_load_inv in Hl as [-> Hh].
    pose proof (Hsame b (or_introl eq_refl)) as Hb. rewrite Hh in Hb. simpl in Hb.
    destruct (hosts_mem (hosts c') !! b) as [h'|] eqn:Hh'; [|discriminate].
    simpl in Hb. rewrite (bind_Done _ _ _ _ _ (host_load_at _ _ _ Hh')).
    assert (host_ea h' = host_ea h) as -> by congruence.
    destruct (decide (host_ea h = ea)).
    + unfold ret in *. injection H as <-. reflexivity.
    + apply IH; [|exact H]. intros b' Hin. apply Hsame. right. exact Hin.
Qed.

Lemma get_host_found ea time c a :
  hosts_hash_find (nth (HASH_INDEX ea) (hosts_hash (hosts c)) []) ea c = Done (Some a) c ->
  get_host ea time c = Done (Some a) c.
Proof.
  intros H. unfold get_host. unfold bind at 1. unfold gets at 1.
  rewrite (bind_Done _ _ _ _ _ H). reflexivity.
Qed.

(** A cached, unexpired port is returned as it is: no query, no write. *)
Lemma get_port_hit ea now c a h :
  hosts_hash_find (nth (HASH_INDEX ea) (hosts_hash (hosts c)) []) ea c = Done (Some a) c ->
  hosts_mem (hosts c) !! a = Some h ->
  time_after_eq (host_time h) now = true ->
  get_port ea now c = Done (host_port h) c.
Proof.
  intros Hf Hh Ht. unfold get_port.
  rewrite (bind_Done _ _ _ _ _ (get_host_found _ now _ _ Hf)).
  cbv beta iota. unfold bind, ret, host_load. rewrite Hh, Ht. reflexivity.
Qed.

(** A cached, expired port is looked up again. *)
Lemma get_port_stale ea now c a h :
  hosts_hash_find (nth (HASH_INDEX ea) (hosts_hash (hosts c)) []) ea c = Done (Some a) c ->
  hosts_mem (hosts c) !! a = Some h ->
  time_after_eq (host_time h) now = false ->
  exists r c', get_port ea now c = Done r c' /\ calls_made c c' [drv_get_port ea].
Proof.
  intros Hf Hh Ht. unfold get_port.
  rewrite (bind_Done _ _ _ _ _ (get_host_found _ now _ _ Hf)).
  cbv beta iota. unfold bind, ret, gets, host_load, switch_get_port, driver, modify.
  rewrite Hh, Ht. simpl.
  destruct ((0 <=? switch_port_of (world c) ea)
            && (switch_port_of (world c) ea <=? Z.of_nat PORT_MAX)).
  - simpl. rewrite Hh. eexists _, _. split; reflexivity.
  - eexists _, _. split; reflexivity.
Qed.

(** ** Ticks within and past the time to live *)

Lemma pow2_double : 1 <= ULONG_BITS -> 2 ^ ULONG_BITS = 2 * 2 ^ (ULONG_BITS - 1).
Proof.
  intros H. rewrite <- Z.pow_succ_r by lia. f_equal. lia.
Qed.

Lemma ulong_diff a b : ulong (ulong a - ulong b) = ulong (a - b).
Proof. unfold ulong. rewrite <- Zminus_mod. reflexivity. Qed.

Lemma time_after_eq_within t ttl d :
  1 <= ULONG_BITS -> 0 <= ttl < 2 ^ (ULONG_BITS - 1) -> 0 <= d <= ttl ->
  time_after_eq (ulong (t + ttl)) (ulong (t + d)) = true.
Proof.
  intros Hw Httl Hd. pose proof (pow2_double Hw) as H2.
  unfold time_after_eq, long. rewrite ulong_diff.
  replace (t + ttl - (t + d)) with (ttl - d) by lia.
  unfold ulong. rewrite Z.mod_small by lia.
  destruct (Z.ltb_spec (ttl - d) (2 ^ (ULONG_BITS - 1))); [|lia].
  apply Z.leb_le. lia.
Qed.

Lemma time_after_eq_past t ttl d :
  1 <= ULONG_BITS -> 0 <= ttl < 2 ^ (ULONG_BITS - 1) ->
  ttl < d <= 2 ^ (ULONG_BITS - 1) ->
  time_after_eq (ulong (t + ttl)) (ulong (t + d)) = false.
Proof.
  intros Hw Httl Hd. pose proof (pow2_double Hw) as H2.
  unfold time_after_eq, long. rewrite ulong_diff.
  replace (t + ttl - (t + d)) with (ttl - d) by lia.
  unfold ulong.
  assert (Hm : (ttl - d) mod 2 ^ ULONG_BITS = ttl - d + 2 ^ ULONG_BITS).
  { symmetry. apply Z.mod_unique with (q := -1); lia. }
  rewrite Hm.
  destruct (Z.ltb_spec (ttl - d + 2 ^ ULONG_BITS) (2 ^ (ULONG_BITS - 1))); [lia|].
  apply Z.leb_gt. lia.
Qed.

Lemma calls_made_one_not_nil c call : ~ calls_made c c [call].
Proof.
  unfold calls_made. intros H. apply (f_equal (@length driver_call)) in H.
  rewrite length_app in H. simpl in H. lia.
Qed.

(** What a call of [get_port] that asked the driver, got a valid port
    and had a slot for the MAC leaves in the table. *)
Lemma get_port_cached haddr t1 c p c1 :
  tables_sized c ->
  get_port haddr t1 c = Done p c1 ->
  calls_made c c1 [drv_get_port haddr] ->
  port_valid p = true ->
  host_of c1 haddr <> None ->
  exists a h,
    hosts_hash_find (nth (HASH_INDEX haddr) (hosts_hash (hosts c1)) []) haddr c1
    = Done (Some a) c1 /\
    hosts_mem (hosts c1) !! a = Some h /\
    host_port h = p /\
    host_time h = ulong (t1 + HOST_TTL * TIMER_HZ).
Proof.
  intros (Hlen & _) H Hcalls Hvalid Hslot.
  apply get_port_inv in H as (host & c0 & Eh & H).
  apply get_host_inv in Eh as [(a & -> & -> & Hf)|(Hf & [(-> & n & rest & ->)|(rest & -> & ->)])].
  - destruct H as (h & Hh & H). destruct (time_after_eq (host_time h) t1).
    + destruct H as [_ ->]. elim (calls_made_one_not_nil _ _ Hcalls).
    + destruct H as [Hp ->]. rewrite Hvalid in *.
      exists a, (host_cached h p t1).
      split; [|split; [|split; reflexivity]].
      * apply hosts_hash_find_ea with (c := c); [|exact Hf].
        intros b _. unfold put_host. simpl.
        destruct (decide (a = b)) as [<-|Hne].
        -- rewrite list_lookup_insert_eq by (eapply lookup_lt_Some; exact Hh).
           rewrite Hh. reflexivity.
        -- rewrite list_lookup_insert_ne by exact Hne. reflexivity.
      * unfold put_host. simpl. apply list_lookup_insert_eq. eapply lookup_lt_Some. exact Hh.
  - destruct H as [_ ->]. elim Hslot. unfold host_of.
    rewrite (hosts_hash_find_ea _ haddr c
               (logged [drv_get_port haddr] (host_refused n rest c)) None);
      [reflexivity| |exact Hf].
    intros b _. reflexivity.
  - destruct H as (h & Hh & H).
    assert (Hh0 : h = set_host_ea haddr host_zero).
    { unfold host_created, put_host in Hh. simpl in Hh.
      rewrite list_lookup_insert_eq in Hh by (rewrite length_app; simpl; lia).
      congruence. }
    subst h. simpl in H. destruct (time_after_eq 0 t1).
    + destruct H as [_ ->]. exfalso. unfold calls_made in Hcalls. simpl in Hcalls.
      apply (f_equal (@length driver_call)) in Hcalls.
      rewrite length_app in Hcalls. simpl in Hcalls. lia.
    + destruct H as [Hp ->]. rewrite Hvalid in *.
      set (h' := host_cached (set_host_ea haddr host_zero) p t1).
      assert (Hat : hosts_mem
                      (hosts (put_host (length (hosts_mem (hosts c))) h'
                                (logged [drv_get_port haddr] (host_created haddr rest c))))
                    !! length (hosts_mem (hosts c)) = Some h').
      { unfold put_host, host_created. simpl. apply list_lookup_insert_eq.
        rewrite length_insert, length_app. simpl. lia. }
      exists (length (hosts_mem (hosts c))), h'.
      split; [|split; [exact Hat|split; reflexivity]].
      assert (Hchain : hosts_hash
                         (hosts (put_host (length (hosts_mem (hosts c))) h'
                                   (logged [drv_get_port haddr] (host_created haddr rest c))))
                       = hash_link (HASH_INDEX haddr) (length (hosts_mem (hosts c)))
                           (hosts_hash (hosts c))) by reflexivity.
      rewrite Hchain. unfold hash_link.
      rewrite nth_lookup, list_lookup_insert_eq by (rewrite Hlen; apply HASH_INDEX_lt).
      simpl. rewrite (bind_Done _ _ _ _ _ (host_load_at _ _ _ Hat)).
      rewrite decide_True by reflexivity. reflexivity.
Qed.

(** ** The entry of a host, across other operations *)

(** The search at the head of [get_host] finds [ea] in slot [a], which
    holds [h]. *)
Definition host_entry_at (c : cache) (ea : ether_addr) (a : nat) (h : host_entry) : Prop :=
  hosts_hash_find (nth (HASH_INDEX ea) (hosts_hash (hosts c)) []) ea c = Done (Some a) c /\
  hosts_mem (hosts c) !! a = Some h.

(** [c'] has every slot of [c], under the same MAC. *)
Definition slots_kept (c c' : cache) : Prop :=
  forall b hb, hosts_mem (hosts c) !! b = Some hb ->
    exists hb', hosts_mem (hosts c') !! b = Some hb' /\ host_ea hb' = host_ea hb.

(** [op] is a call of [get_port] for [ea]. *)
Definition asks_for (ea : ether_addr) (op : call) : bool :=
  match op with
  | call_get_port haddr _ => bool_decide (haddr = ea)
  | _ => false
  end.

Lemma hosts_hash_find_kept chain ea c c' a :
  slots_kept c c' ->
  hosts_hash_find chain ea c = Done (Some a) c ->
  hosts_hash_find chain ea c' = Done (Some a) c'.
Proof.
  intros Hkeep. induction chain as [|b chain IH]; intros H; simpl in *.
  - unfold ret, NULL in H. discriminate H.
  - apply bind_inv in H as (h & c1 & Hl & H).
    apply host_load_inv in Hl as [-> Hh].
    destruct (Hkeep _ _ Hh) as (h' & Hh' & Hea).
    rewrite (bind_Done _ _ _ _ _ (host_load_at _ _ _ Hh')). rewrite Hea.
    destruct (decide (host_ea h = ea)).
    + unfold ret in *. injection H as <-. reflexivity.
    + apply IH. exact H.
Qed.

Lemma host_entry_at_kept c c' ea a h :
  slots_kept c c' ->
  hosts_hash (hosts c') = hosts_hash (hosts c) ->
  hosts_mem (hosts c') !! a = Some h ->
  host_entry_at c ea a h -> host_entry_at c' ea a h.
Proof.
  intros Hkeep Hhash Hh [Hf _]. split; [|exact Hh].
  rewrite Hhash. eapply hosts_hash_find_kept; eassumption.
Qed.

Lemma host_entry_at_tables c c' ea a h :
  hosts_mem (hosts c') = hosts_mem (hosts c) ->
  hosts_hash (hosts c') = hosts_hash (hosts c) ->
  host_entry_at c ea a h -> host_entry_at c' ea a h.
Proof.
  intros Hm Hh H. pose proof H as [_ Ha].
  apply (host_entry_at_kept c); [|exact Hh|rewrite Hm; exact Ha|exact H].
  intros b hb Hb. exists hb. rewrite Hm. auto.
Qed.

Lemma host_entry_at_same c c' ea a h :
  hosts c' = hosts c -> host_entry_at c ea a h -> host_entry_at c' ea a h.
Proof. intros Hh. apply host_entry_at_tables; rewrite Hh; reflexivity. Qed.

Lemma host_entry_at_ea c ea a h : host_entry_at c ea a h -> host_ea h = ea.
Proof.
  intros [Hf Hh]. apply hosts_hash_find_some in Hf as (_ & h' & Hh' & Hea). congruence.
Qed.

(** Writing another slot leaves the entry where it is. *)
Lemma host_entry_at_put c ea a h a' h' h1 :
  a' <> a ->
  hosts_mem (hosts c) !! a' = Some h' -> host_ea h1 = host_ea h' ->
  host_entry_at c ea a h -> host_entry_at (put_host a' h1 c) ea a h.
Proof.
  intros Hne Hh' Hea H. pose proof H as [_ Ha].
  apply (host_entry_at_kept c); [|reflexivity| |exact H].
  - intros b hb Hb. unfold put_host. simpl.
    destruct (decide (a' = b)) as [<-|Hb'].
    + exists h1. rewrite list_lookup_insert_eq by (eapply lookup_lt_Some; exact Hh').
      split; [reflexivity|congruence].
    + exists hb. rewrite list_lookup_insert_ne by exact Hb'. auto.
  - unfold put_host. simpl. rewrite list_lookup_insert_ne by exact Hne. exact Ha.
Qed.

Lemma host_entry_at_created c ea a h ea' rest :
  tables_sized c -> ea' <> ea ->
  host_entry_at c ea a h -> host_entry_at (host_created ea' rest c) ea a h.
Proof.
  intros (Hlen & _) Hne H. pose proof H as [Hf Ha].
  pose proof (lookup_lt_Some _ _ _ Ha) as Hlt.
  assert (Hmem : forall b hb, hosts_mem (hosts c) !! b = Some hb ->
                   hosts_mem (hosts (host_created ea' rest c)) !! b = Some hb).
  { intros b hb Hb. pose proof (lookup_lt_Some _ _ _ Hb) as Hbl.
    unfold host_created, put_host. simpl.
    rewrite list_lookup_insert_ne by lia. rewrite lookup_app_l by exact Hbl. exact Hb. }
  assert (Hkeep : slots_kept c (host_created ea' rest c)).
  { intros b hb Hb. exists hb. split; [apply Hmem; exact Hb|reflexivity]. }
  split; [|apply Hmem; exact Ha].
  assert (Hhash : hosts_hash (hosts (host_created ea' rest c))
                  = hash_link (HASH_INDEX ea') (length (hosts_mem (hosts c)))
                      (hosts_hash (hosts c))) by reflexivity.
  rewrite Hhash. unfold hash_link. rewrite nth_lookup.
  destruct (decide (HASH_INDEX ea' = HASH_INDEX ea)) as [Hi|Hi].
  - rewrite Hi. rewrite list_lookup_insert_eq by (rewrite Hlen; apply HASH_INDEX_lt).
    simpl.
    assert (Hnew : hosts_mem (hosts (host_created ea' rest c)) !! length (hosts_mem (hosts c))
                   = Some (set_host_ea ea' host_zero)).
    { unfold host_created, put_host. simpl. apply list_lookup_insert_eq.
      rewrite length_app. simpl. lia. }
    rewrite (bind_Done _ _ _ _ _ (host_load_at _ _ _ Hnew)).
    simpl. rewrite decide_False by exact Hne.
    eapply hosts_hash_find_kept; eassumption.
  - rewrite list_lookup_insert_ne by exact Hi. rewrite <- nth_lookup.
    eapply hosts_hash_find_kept; eassumption.
Qed.

(** A call of [get_port] for another MAC leaves the entry as it is. *)
Lemma get_port_keeps_host ea' now c r c' ea a h :
  tables_sized c -> ea' <> ea ->
  get_port ea' now c = Done r c' ->
  host_entry_at c ea a h -> host_entry_at c' ea a h.
Proof.
  intros Hs Hne H Hat.
  apply get_port_inv in H as (host & c1 & Eh & H).
  apply get_host_inv in Eh as [(a' & -> & -> & Hf)|(_ & [(-> & n & rest & ->)|(rest & -> & ->)])].
  - destruct H as (h' & Hh' & H).
    assert (Ha : a' <> a).
    { intros ->. apply hosts_hash_find_some in Hf as (_ & h0 & Hh0 & Hea).
      apply host_entry_at_ea in Hat as Hea'. destruct Hat as [_ Hh].
      apply Hne. congruence. }
    destruct (time_after_eq (host_time h') now).
    + destruct H as [_ ->]. exact Hat.
    + destruct H as [_ ->]. destruct (port_valid r).
      * apply (host_entry_at_put _ _ _ _ _ h'); [exact Ha|exact Hh'|reflexivity|].
        apply (host_entry_at_same c); [reflexivity|exact Hat].
      * apply (host_entry_at_same c); [reflexivity|exact Hat].
  - destruct H as [_ ->]. apply (host_entry_at_tables c); [reflexivity|reflexivity|exact Hat].
  - destruct H as (h' & Hh' & H).
    pose proof (host_entry_at_created _ _ _ _ _ rest Hs Hne Hat) as Hat1.
    assert (Ha : length (hosts_mem (hosts c)) <> a).
    { destruct Hat as [_ Hh]. apply lookup_lt_Some in Hh. lia. }
    destruct (time_after_eq (host_time h') now).
    + destruct H as [_ ->]. exact Hat1.
    + destruct H as [_ ->]. destruct (port_valid r).
      * apply (host_entry_at_put _ _ _ _ _ h'); [exact Ha|exact Hh'|reflexivity|].
        apply (host_entry_at_same (host_created ea' rest c)); [reflexivity|exact Hat1].
      * apply (host_entry_at_same (host_created ea' rest c)); [reflexivity|exact Hat1].
Qed.

Lemma add_member_hosts maddr addr port timeout now c r c' :
  add_member maddr addr port timeout now c = Done r c' -> hosts c' = hosts c.
Proof.
  intros H. destruct (port_invalid port) eqn:Hp.
  - unfold add_member in H. rewrite Hp in H. unfold ret in H. injection H as _ <-.
    reflexivity.
  - apply (add_member_inv _ _ _ _ _ _ _ _ Hp) in H
      as [(_ & _ & rest & ->)|(a & c1 & g & g1 & ms & rest & Hslot & _ & _ & _ & ->)].
    + reflexivity.
    + destruct Hslot as [[_ ->]|(_ & _ & rest0 & ->)]; simpl;
        rewrite ?put_group_hosts; reflexivity.
Qed.

(** Every operation other than [get_port] for the same MAC leaves the
    entry of a host as it is. *)
Lemma run_keeps_host op c r c' ea a h :
  tables_sized c -> asks_for ea op = false ->
  run op c = Done r c' ->
  host_entry_at c ea a h -> host_entry_at c' ea a h.
Proof.
  intros Hs Hop H Hat. destruct op; simpl in H, Hop.
  - apply bool_decide_eq_false_1 in Hop.
    eapply get_port_keeps_host; eassumption.
  - apply add_member_hosts in H. eapply host_entry_at_same; eassumption.
  - apply del_member_frame in H as (Hh & _). eapply host_entry_at_same; eassumption.
  - apply add_router_frame in H as (Hh & _). eapply host_entry_at_same; eassumption.
  - apply expire_members_frame in H as ((Hh & _) & _). eapply host_entry_at_same; eassumption.
  - apply bind_inv in H as (u & c1 & E & H). unfold ret in H. injection H as _ <-.
    unfold fire_group_timer in E. apply bind_inv in E as (u' & c2 & E' & E).
    unfold modify in E'. injection E' as _ <-.
    apply group_timer_frame in E as ((Hh & _) & _).
    eapply host_entry_at_same; [exact Hh|].
    eapply host_entry_at_same; [|exact Hat]. reflexivity.
  - apply bind_inv in H as (u & c1 & E & H). unfold ret in H. injection H as _ <-.
    unfold fire_router_timer in E. apply bind_inv in E as (u' & c2 & E' & E).
    unfold modify in E'. injection E' as _ <-.
    apply router_timer_frame in E as (Hh & _).
    eapply host_entry_at_same; [exact Hh|].
    eapply host_entry_at_same; [|exact Hat]. reflexivity.
Qed.

Lemma run_all_keeps_host ops c c' ea a h :
  tables_sized c -> forallb (fun op => negb (asks_for ea op)) ops = true ->
  run_all ops c = Done tt c' ->
  host_entry_at c ea a h -> host_entry_at c' ea a h.
Proof.
  revert c. induction ops as [|op ops IH]; intros c Hs Hops H Hat; simpl in H, Hops.
  - unfold ret in H. injection H as <-. exact Hat.
  - apply andb_true_iff in Hops as [Hop Hops]. apply negb_true_iff in Hop.
    apply bind_inv in H as (v & c1 & E & H).
    eapply IH; [|exact Hops|exact H|].
    + eapply run_keeps_sized; eassumption.
    + eapply run_keeps_host; eassumption.
Qed.

(** C8.  In a reachable state, let a call of [get_port] for a MAC ask the
    driver, get a valid port and have a slot for the MAC (so the port is
    cached), and let any operations follow that are not calls of
    [get_port] for that MAC.  Then the second call for the MAC, when it
    comes up to [HOST_TTL] after the first, returns the cached port,
    changes nothing and makes no driver call; when it comes later than
    that, it makes a driver query.  And no call of [get_port], in any
    state, makes more than one driver call.  Ticks are compared with the
    wrap-around-safe tests, so "later" reaches half the tick range. *)
Theorem get_port_caches_for_ttl haddr t1 c p c1 ops c2 :
  reachable c ->
  1 <= ULONG_BITS ->
  0 <= HOST_TTL * TIMER_HZ < 2 ^ (ULONG_BITS - 1) ->
  get_port haddr t1 c = Done p c1 ->
  calls_made c c1 [drv_get_port haddr] ->
  port_valid p = true ->
  host_of c1 haddr <> None ->
  forallb (fun op => negb (asks_for haddr op)) ops = true ->
  run_all ops c1 = Done tt c2 ->
  (forall d, 0 <= d <= HOST_TTL * TIMER_HZ ->
     get_port haddr (ulong (t1 + d)) c2 = Done p c2) /\
  (forall d, HOST_TTL * TIMER_HZ < d <= 2 ^ (ULONG_BITS - 1) ->
     exists r c3,
       get_port haddr (ulong (t1 + d)) c2 = Done r c3 /\
       calls_made c2 c3 [drv_get_port haddr]) /\
  (forall ea now s r s',
     get_port ea now s = Done r s' ->
     calls_made s s' [] \/ calls_made s s' [drv_get_port ea]).
Proof.
  intros Hr Hw Httl H Hcalls Hvalid Hslot Hops Hrun. apply reachable_sized in Hr.
  destruct (get_port_cached _ _ _ _ _ Hr H Hcalls Hvalid Hslot)
    as (a & h & Hf & Hh & Hport & Htime).
  assert (Hs1 : tables_sized c1) by (eapply get_port_keeps_sized; eassumption).
  destruct (run_all_keeps_host _ _ _ _ a h Hs1 Hops Hrun (conj Hf Hh)) as [Hf2 Hh2].
  split; [|split].
  - intros d Hd. rewrite <- Hport. eapply get_port_hit; [exact Hf2|exact Hh2|].
    rewrite Htime. apply time_after_eq_within; assumption.
  - intros d Hd. eapply get_port_stale; [exact Hf2|exact Hh2|].
    rewrite Htime. apply time_after_eq_past; assumption.
  - intros ea now s r s' Hs. eapply get_port_calls. exact Hs.
Qed.

(** ** Driver calls that take ports out of a forwarding mask *)

(** [call] removes port [p] from the forwarding mask of some group. *)
Definition removes_port (call : driver_call) (p : Z) : Prop :=
  match call with
  | drv_del_portmap _ portmap => Z.testbit portmap p = true
  | drv_clr_portmap _ => True
  | _ => False
  end.

Lemma calls_made_trans c1 c2 c3 l1 l2 :
  calls_made c1 c2 l1 -> calls_made c2 c3 l2 -> calls_made c1 c3 (l1 ++ l2).
Proof. unfold calls_made. intros H1 H2. rewrite H2, H1, app_assoc. reflexivity. Qed.

Lemma calls_made_same c c' : world c' = world c -> calls_made c c' [].
Proof. unfold calls_made. intros ->. rewrite app_nil_r. reflexivity. Qed.

Lemma group_timer_sweep_calls queue time exp c r c' :
  group_timer_sweep queue time exp c = Done r c' ->
  exists new,
    calls_made c c' new /\
    Forall (fun call => exists ea m,
              call = drv_del_portmap ea (Z.land m (Z.lnot (routers_portmap c)))) new.
Proof.
  revert exp c. induction queue as [|a queue IH]; intros exp c H; simpl in H.
  - run_inv. exists []. split; [apply calls_made_same; reflexivity|constructor].
  - apply bind_inv in H as (g & c1 & E & H). apply group_load_inv in E as [-> Hg].
    destruct (group_portmap g =? 0); [eapply IH; eassumption|].
    destruct (time_after (group_time g) time); [eapply IH; eassumption|].
    apply bind_inv in H as (u & c1 & E & H).
    apply consume_group_inv in E as (g0 & free' & _ & ->).
    apply bind_inv in H as (rmap & c2 & E2 & H). unfold gets in E2. injection E2 as <- <-.
    apply bind_inv in H as (u2 & c3 & E3 & H).
    apply IH in H as (new & Hcalls & HF).
    assert (Hrm : forall G, routers_portmap
                              (with_members (set_members_free free')
                                 (put_group (pooled a) G c))
                            = routers_portmap c) by reflexivity.
    rewrite Hrm in E3.
    destruct (_ =? 0).
    + unfold ret in E3. injection E3 as _ <-. exists new. split.
      * unfold calls_made in *. rewrite Hcalls. reflexivity.
      * rewrite Hrm in HF. exact HF.
    + unfold switch_del_portmap in E3. rewrite driver_logged in E3. injection E3 as _ <-.
      eexists (_ :: new). split.
      * unfold calls_made in *. rewrite Hcalls. simpl. rewrite ?put_group_world.
        rewrite <- app_assoc. reflexivity.
      * constructor; [eauto|]. exact HF.
Qed.

Lemma group_timer_calls now c r c' :
  group_timer now c = Done r c' ->
  exists new,
    calls_made c c' new /\
    Forall (fun call => exists ea m,
              call = drv_del_portmap ea (Z.land m (Z.lnot (routers_portmap c)))) new.
Proof.
  intros H. unfold group_timer in H.
  apply bind_inv in H as (queue & c1 & E & H). unfold gets in E. injection E as <- <-.
  apply bind_inv in H as (exp & c2 & E & H).
  apply group_timer_sweep_calls in E as (new & Hcalls & HF).
  exists new. split; [|exact HF].
  destruct (time_before _ _); run_inv; exact Hcalls.
Qed.

Lemma expire_all_world queue time c r c' :
  expire_all queue time c = Done r c' -> world c' = world c.
Proof.
  revert c. induction queue as [|a queue IH]; intros c H; simpl in H.
  - run_inv. reflexivity.
  - apply bind_inv in H as (g & c1 & E & H). apply group_load_inv in E as [-> Hg].
    apply bind_inv in H as (u & c1 & E & H). unfold group_store, modify in E.
    injection E as _ <-. apply IH in H. rewrite H. apply put_group_world.
Qed.

Lemma expire_members_world maddr timeout now c r c' :
  expire_members maddr timeout now c = Done r c' -> world c' = world c.
Proof.
  intros H. unfold expire_members in H.
  apply bind_inv in H as (found & c1 & E & H).
  assert (Hc1 : world c1 = world c).
  { destruct maddr as [ea|].
    - apply bind_inv in E as (group & c2 & Eg & E).
      pose proof (get_group_lookup_state _ _ _ _ Eg) as ->.
      revert H. destruct group as [a|]; run_inv; reflexivity.
    - apply bind_inv in E as (queue & c2 & Eq & E). unfold gets in Eq.
      injection Eq as <- <-.
      apply bind_inv in E as (u & c3 & Ee & E).
      apply expire_all_world in Ee. revert H. run_inv. intros _. exact Ee. }
  clear E. destruct found; run_inv; exact Hc1.
Qed.

Lemma calls_made_log c c' :
  driver_log (world c') = driver_log (world c) -> calls_made c c' [].
Proof. unfold calls_made. intros ->. rewrite app_nil_r. reflexivity. Qed.

Lemma calls_made_logged_after c st new :
  driver_log (world st) = driver_log (world c) -> calls_made c (logged new st) new.
Proof. unfold calls_made. simpl. intros ->. reflexivity. Qed.

Lemma add_router_calls addr port timeout now c r c' :
  add_router addr port timeout now c = Done r c' ->
  exists new,
    calls_made c c' new /\
    Forall (fun call => exists ea m, call = drv_add_portmap ea m) new.
Proof.
  intros H. unfold add_router in H.
  destruct (port_invalid port).
  { unfold ret in H. injection H as _ <-. exists []. split; [|constructor].
    apply calls_made_same. reflexivity. }
  run_inv; use_inv; use_fan_out.
  all: first
    [ exists []; split; [apply calls_made_log; reflexivity|constructor]
    | eexists; split;
      [apply calls_made_logged_after; reflexivity
      |match goal with
       | HF : Forall _ ?new |- Forall _ ?new =>
           eapply Forall_impl; [exact HF|];
           intros call (a & g & _ & _ & -> & _); eauto
       end] ].
Qed.

Lemma routers_portmap_logged new c : routers_portmap (logged new c) = routers_portmap c.
Proof. reflexivity. Qed.
Lemma routers_portmap_with_members f c :
  routers_portmap (with_members f c) = routers_portmap c.
Proof. reflexivity. Qed.
Lemma routers_portmap_routers_timer f c :
  routers_portmap (with_routers (fun rs => set_routers_timer (f rs) rs) c) = routers_portmap c.
Proof. reflexivity. Qed.
Lemma routers_portmap_put_routers g c :
  routers_portmap (put_group the_routers g c) = group_portmap g.
Proof. reflexivity. Qed.
Lemma group_at_put_routers g c a :
  group_at (put_group the_routers g c) (pooled a) = group_at c (pooled a).
Proof. reflexivity. Qed.
Lemma group_at_with_routers f c a :
  group_at (with_routers f c) (pooled a) = group_at c (pooled a).
Proof. reflexivity. Qed.
Lemma group_at_the_routers c g :
  group_at c the_routers = Some g -> g = routers_group (routers c).
Proof. unfold group_at. congruence. Qed.

Lemma group_portmap_cleared g : group_portmap (clear_ports ports (set_group_portmap 0 g)) = 0.
Proof.
  destruct (clear_ports_fields ports (set_group_portmap 0 g)) as (_ & -> & _). reflexivity.
Qed.

Lemma router_timer_calls now c r c' :
  router_timer now c = Done r c' ->
  exists new portmap,
    calls_made c c' new /\
    (forall p, Z.testbit portmap p = true ->
               Z.testbit (routers_portmap c) p = true /\
               Z.testbit (routers_portmap c') p = false) /\
    Forall (fun call => exists a g,
              In a (groups_pool (groups c)) /\
              group_at c (pooled a) = Some g /\
              call = drv_del_portmap (group_ea g)
                       (Z.land portmap (Z.lnot (group_portmap g)))) new.
Proof.
  intros H. unfold router_timer in H.
  run_inv; use_inv; use_fan_out.
  all: repeat match goal with
         | Hg : group_at _ the_routers = Some _ |- _ =>
             apply group_at_the_routers in Hg; subst
         end.
  all: try (exists [], 0; split; [apply calls_made_log; reflexivity|];
            split; [intros p Hp; rewrite Z.bits_0 in Hp; discriminate|constructor]).
  all: match goal with
       | Hpm : (?pm =? 0) = false, HF : Forall _ ?new |- _ =>
           exists new, pm; split; [apply calls_made_logged_after; reflexivity|];
           split;
           [|eapply Forall_impl; [exact HF|];
             intros call (a & g0 & Hin & Hg & -> & _); exists a, g0;
             split; [exact Hin|]; split; [exact Hg|reflexivity]]
       end.
  all: intros p Hp; rewrite routers_portmap_logged.
  - rewrite routers_portmap_with_members, routers_portmap_put_routers, group_portmap_cleared.
    rewrite Z.bits_0. rewrite Z.land_spec in Hp. apply andb_true_iff in Hp as [_ Hp]. auto.
  - rewrite routers_portmap_routers_timer, routers_portmap_put_routers. simpl.
    rewrite Z.land_spec, Z.lxor_spec in Hp. unfold routers_portmap.
    destruct (Z.testbit (group_portmap _) p), (Z.testbit (get_portmap _) p);
      try discriminate; auto.
  - rewrite routers_portmap_with_members, routers_portmap_put_routers, group_portmap_cleared.
    rewrite Z.bits_0. auto.
Qed.

Lemma add_member_calls maddr addr port timeout now c r c' :
  add_member maddr addr port timeout now c = Done r c' ->
  exists new,
    calls_made c c' new /\
    Forall (fun call => exists ea m, call = drv_add_portmap ea m) new.
Proof.
  intros H. destruct (port_invalid port) eqn:Hp.
  - unfold add_member in H. rewrite Hp in H. unfold ret in H. injection H as _ <-.
    exists []. split; [apply calls_made_same; reflexivity|constructor].
  - apply (add_member_inv _ _ _ _ _ _ _ _ Hp) in H
      as [(_ & _ & rest & ->)|(a & c1 & g & g1 & ms & rest & Hslot & _ & _ & _ & ->)].
    + exists []. split; [apply calls_made_log; reflexivity|constructor].
    + eexists. split.
      * apply calls_made_logged_after.
        destruct Hslot as [[_ ->]|(_ & _ & rest0 & ->)]; reflexivity.
      * unfold calls_if. destruct (_ =? 0); repeat constructor. eauto.
Qed.

Lemma del_member_calls maddr addr port c r c' :
  del_member maddr addr port c = Done r c' ->
  routers c' = routers c /\
  exists new,
    calls_made c c' new /\
    Forall (fun call => exists ea m,
              call = drv_del_portmap ea (Z.land m (Z.lnot (routers_portmap c)))) new.
Proof.
  intros H. destruct (port_invalid port) eqn:Hp.
  - unfold del_member in H. rewrite Hp in H. unfold ret in H. injection H as _ <-.
    split; [reflexivity|].
    exists []. split; [apply calls_made_same; reflexivity|constructor].
  - apply (del_member_inv _ _ _ _ _ _ Hp) in H
      as [(_ & _ & ->)|(a & g & g1 & g' & ms & _ & _ & _ & _ & -> & ->)].
    + split; [reflexivity|].
      exists []. split; [apply calls_made_same; reflexivity|constructor].
    + split; [reflexivity|].
      eexists. split; [apply calls_made_logged_after; reflexivity|].
      unfold calls_if. destruct (_ =? 0); repeat constructor. eauto.
Qed.

Lemma removes_masked ea m rmap p :
  removes_port (drv_del_portmap ea (Z.land m (Z.lnot rmap))) p -> Z.testbit rmap p = false.
Proof.
  simpl. rewrite land_lnot_spec. intros H. apply andb_true_iff in H as [_ H].
  destruct (Z.testbit rmap p); [discriminate|reflexivity].
Qed.

(** Whatever the state, of the driver calls an operation that returns
    makes none removes a port from a forwarding mask while that port is in
    the router bitmask the operation leaves.  A port that was in the router
    bitmask before the operation is removed by the router timer only, after
    the sweep took it out of the router bitmask, and only from the masks of
    pooled groups whose own bitmask does not have it. *)
Lemma returning_calls_keep_router_ports op c r c' :
  run op c = Done r c' ->
  exists new,
    calls_made c c' new /\
    forall call p,
      In call new -> removes_port call p ->
      Z.testbit (routers_portmap c') p = false /\
      (Z.testbit (routers_portmap c) p = true ->
       exists now a g m,
         op = call_router_timer now /\
         In a (groups_pool (groups c)) /\
         groups_mem (groups c) !! a = Some g /\
         call = drv_del_portmap (group_ea g) m /\
         Z.testbit (group_portmap g) p = false).
Proof.
  intros H. destruct op; simpl in H.
  - (* get_port *)
    apply get_port_calls in H as [H|H]; eexists; (split; [exact H|]).
    + intros call p [].
    + intros call p [<-|[]] [].
  - (* add_member *)
    apply add_member_calls in H as (new & Hcalls & HF). exists new. split; [exact Hcalls|].
    intros call p Hin Hrm. rewrite List.Forall_forall in HF.
    destruct (HF call Hin) as (ea & m & ->). destruct Hrm.
  - (* del_member *)
    apply del_member_calls in H as (Hrt & new & Hcalls & HF).
    exists new. split; [exact Hcalls|].
    intros call p Hin Hrm. rewrite List.Forall_forall in HF.
    destruct (HF call Hin) as (ea & m & ->). apply removes_masked in Hrm.
    unfold routers_portmap in *. rewrite Hrt. split; [exact Hrm|]. congruence.
  - (* add_router *)
    apply add_router_calls in H as (new & Hcalls & HF). exists new. split; [exact Hcalls|].
    intros call p Hin Hrm. rewrite List.Forall_forall in HF.
    destruct (HF call Hin) as (ea & m & ->). destruct Hrm.
  - (* expire_members *)
    apply expire_members_world in H. exists []. split; [apply calls_made_same; exact H|].
    intros call p [].
  - (* the group sweep *)
    apply bind_inv in H as (u & c1 & E & H). unfold ret in H. injection H as _ <-.
    unfold fire_group_timer in E. apply bind_inv in E as (u' & c2 & E' & E).
    unfold modify in E'. injection E' as _ <-.
    pose proof (group_timer_frame _ _ _ _ E) as (_ & Hrt).
    apply group_timer_calls in E as (new & Hcalls & HF).
    exists new. split; [exact Hcalls|].
    intros call p Hin Hrm. rewrite List.Forall_forall in HF.
    destruct (HF call Hin) as (ea & m & ->). apply removes_masked in Hrm.
    unfold routers_portmap in *. rewrite Hrt. split; [exact Hrm|].
    simpl in Hrm. congruence.
  - (* the router sweep *)
    apply bind_inv in H as (u & c1 & E & H). unfold ret in H. injection H as _ <-.
    unfold fire_router_timer in E. apply bind_inv in E as (u' & c2 & E' & E).
    unfold modify in E'. injection E' as _ <-.
    apply router_timer_calls in E as (new & portmap & Hcalls & Hbits & HF).
    exists new. split; [exact Hcalls|].
    intros call p Hin Hrm. rewrite List.Forall_forall in HF.
    destruct (HF call Hin) as (a & g & Hpool & Hg & ->).
    simpl in Hrm. rewrite land_lnot_spec in Hrm. apply andb_true_iff in Hrm as [Hp Hg'].
    destruct (Hbits p Hp) as (_ & Hafter). split; [exact Hafter|].
    intros _. exists now, a, g, (Z.land portmap (Z.lnot (group_portmap g))).
    split; [reflexivity|]. split; [exact Hpool|]. split; [exact Hg|].
    split; [reflexivity|]. destruct (Z.testbit (group_portmap g) p); [discriminate|reflexivity].
Qed.
(** ** One host entry per MAC *)

(** The MACs of the entries in the pool queue of the host table. *)
Definition live_macs (c : cache) : list ether_addr :=
  omap (fun a => host_ea <$> hosts_mem (hosts c) !! a) (hosts_pool (hosts c)).

(** Every entry of the pool queue is allocated and linked in the chain of
    its MAC, and no two entries have the same MAC. *)
Definition hosts_inv (c : cache) : Prop :=
  (forall a, In a (hosts_pool (hosts c)) ->
     exists h, hosts_mem (hosts c) !! a = Some h /\
               In a (nth (HASH_INDEX (host_ea h)) (hosts_hash (hosts c)) [])) /\
  NoDup (live_macs c).

Lemma omap_step {A B} (f : A -> option B) a l :
  omap f (a :: l) = match f a with Some y => y :: omap f l | None => omap f l end.
Proof. reflexivity. Qed.

Lemma live_macs_ext c c' :
  hosts_pool (hosts c') = hosts_pool (hosts c) ->
  (forall a, In a (hosts_pool (hosts c)) ->
     host_ea <$> hosts_mem (hosts c') !! a = host_ea <$> hosts_mem (hosts c) !! a) ->
  live_macs c' = live_macs c.
Proof.
  unfold live_macs. intros -> H.
  induction (hosts_pool (hosts c)) as [|a l IH]; [reflexivity|].
  rewrite !omap_step. rewrite (H a (or_introl eq_refl)).
  rewrite IH by (intros b Hb; apply H; right; exact Hb). reflexivity.
Qed.

Lemma live_macs_in c ea :
  In ea (live_macs c) ->
  exists a h, In a (hosts_pool (hosts c)) /\ hosts_mem (hosts c) !! a = Some h /\ host_ea h = ea.
Proof.
  unfold live_macs. intros H. apply list_elem_of_In, list_elem_of_omap in H as (a & Ha & H).
  apply list_elem_of_In in Ha.
  destruct (hosts_mem (hosts c) !! a) as [h|] eqn:Hh; [|discriminate].
  simpl in H. injection H as <-. eauto.
Qed.

Lemma hosts_inv_put a h h1 c :
  hosts_mem (hosts c) !! a = Some h -> host_ea h1 = host_ea h ->
  hosts_inv c -> hosts_inv (put_host a h1 c).
Proof.
  intros Hh Hea [Hl Hn].
  assert (Hsame : forall b, host_ea <$> hosts_mem (hosts (put_host a h1 c)) !! b
                            = host_ea <$> hosts_mem (hosts c) !! b).
  { intros b. unfold put_host. simpl. destruct (decide (a = b)) as [<-|Hne].
    - rewrite list_lookup_insert_eq by (eapply lookup_lt_Some; exact Hh).
      rewrite Hh. simpl. congruence.
    - rewrite list_lookup_insert_ne by exact Hne. reflexivity. }
  split.
  - intros b Hb. destruct (Hl b Hb) as (hb & Hhb & Hin).
    pose proof (Hsame b) as Hs. rewrite Hhb in Hs.
    destruct (hosts_mem (hosts (put_host a h1 c)) !! b) as [hb'|]; [|discriminate].
    simpl in Hs. injection Hs as Hs. exists hb'. split; [reflexivity|].
    rewrite Hs. exact Hin.
  - rewrite (live_macs_ext c); [exact Hn|reflexivity|]. intros b _. apply Hsame.
Qed.

Lemma hosts_inv_tables c c' :
  hosts_mem (hosts c') = hosts_mem (hosts c) ->
  hosts_hash (hosts c') = hosts_hash (hosts c) ->
  hosts_pool (hosts c') = hosts_pool (hosts c) ->
  hosts_inv c -> hosts_inv c'.
Proof.
  intros Hm Hh Hp [Hl Hn]. split.
  - intros a Ha. rewrite Hm, Hh. apply Hl. rewrite <- Hp. exact Ha.
  - rewrite (live_macs_ext c); [exact Hn|exact Hp|]. intros a _. rewrite Hm. reflexivity.
Qed.

Lemma hosts_inv_created ea rest c :
  tables_sized c ->
  hosts_hash_find (nth (HASH_INDEX ea) (hosts_hash (hosts c)) []) ea c = Done None c ->
  hosts_inv c -> hosts_inv (host_created ea rest c).
Proof.
  intros (Hlen & _) Hnone [Hl Hn].
  set (n := length (hosts_mem (hosts c))).
  assert (Hold : forall b hb, hosts_mem (hosts c) !! b = Some hb ->
                   hosts_mem (hosts (host_created ea rest c)) !! b = Some hb).
  { intros b hb Hb. pose proof (lookup_lt_Some _ _ _ Hb) as Hbl.
    unfold host_created, put_host. simpl.
    rewrite list_lookup_insert_ne by lia. rewrite lookup_app_l by exact Hbl. exact Hb. }
  assert (Hnew : hosts_mem (hosts (host_created ea rest c)) !! n
                 = Some (set_host_ea ea host_zero)).
  { unfold host_created, put_host. simpl. apply list_lookup_insert_eq.
    rewrite length_app. simpl. lia. }
  assert (Hhash : hosts_hash (hosts (host_created ea rest c))
                  = hash_link (HASH_INDEX ea) n (hosts_hash (hosts c))) by reflexivity.
  assert (Hpool : hosts_pool (hosts (host_created ea rest c))
                  = hosts_pool (hosts c) ++ [n]) by reflexivity.
  assert (Hchain : forall i b, In b (nth i (hosts_hash (hosts c)) []) ->
                     In b (nth i (hash_link (HASH_INDEX ea) n (hosts_hash (hosts c))) [])).
  { intros i b Hb. unfold hash_link. rewrite (nth_lookup (<[_ := _]> _)).
    destruct (decide (HASH_INDEX ea = i)) as [<-|Hi].
    - rewrite list_lookup_insert_eq by (rewrite Hlen; apply HASH_INDEX_lt).
      simpl. right. exact Hb.
    - rewrite list_lookup_insert_ne by exact Hi. rewrite <- nth_lookup. exact Hb. }
  split.
  - intros a Ha. rewrite Hpool in Ha. apply in_app_or in Ha as [Ha|[<-|[]]].
    + destruct (Hl a Ha) as (h & Hh & Hin). exists h. split; [apply Hold; exact Hh|].
      rewrite Hhash. apply Hchain. exact Hin.
    + exists (set_host_ea ea host_zero). split; [exact Hnew|].
      rewrite Hhash. simpl. unfold hash_link. rewrite nth_lookup.
      rewrite list_lookup_insert_eq by (rewrite Hlen; apply HASH_INDEX_lt).
      simpl. left. reflexivity.
  - assert (Hmacs : live_macs (host_created ea rest c) = live_macs c ++ [ea]).
    { unfold live_macs. rewrite Hpool, omap_app. f_equal.
      - clear Hn Hpool. revert Hl.
        induction (hosts_pool (hosts c)) as [|a l IH]; intros Hl; [reflexivity|].
        rewrite !omap_step. destruct (Hl a (or_introl eq_refl)) as (h & Hh & _).
        rewrite (Hold _ _ Hh), Hh. simpl. f_equal.
        apply IH. intros b Hb. apply Hl. right. exact Hb.
      - rewrite omap_step, Hnew. reflexivity. }
    rewrite Hmacs. apply NoDup_app. split; [exact Hn|split; [|apply NoDup_singleton]].
    intros ea' Hin Hea'. apply list_elem_of_In in Hin.
    apply list_elem_of_singleton in Hea'. subst ea'.
    apply live_macs_in in Hin as (a & h & Ha & Hh & Hea).
    destruct (Hl a Ha) as (h' & Hh' & Hc). assert (h' = h) as -> by congruence.
    rewrite Hea in Hc.
    destruct (hosts_hash_find_none _ _ _ _ Hnone a Hc) as (h2 & Hh2 & Hne).
    apply Hne. congruence.
Qed.

Lemma get_port_keeps_hosts_inv haddr now c r c' :
  tables_sized c -> hosts_inv c -> get_port haddr now c = Done r c' -> hosts_inv c'.
Proof.
  intros Hs Hinv H.
  apply get_port_inv in H as (host & c1 & Eh & H).
  assert (Hlog : forall new s, hosts_inv s -> hosts_inv (logged new s)).
  { intros new s. apply hosts_inv_tables; reflexivity. }
  assert (Hpost : forall a s, hosts_inv s ->
            (exists h, hosts_mem (hosts s) !! a = Some h /\
               if time_after_eq (host_time h) now then r = host_port h /\ c' = s
               else r = switch_port_of (world s) haddr /\
                    c' = (if port_valid r then put_host a (host_cached h r now) else id)
                           (logged [drv_get_port haddr] s)) ->
            hosts_inv c').
  { intros a s Hi (h & Hh & Hc). destruct (time_after_eq (host_time h) now).
    - destruct Hc as [_ ->]. exact Hi.
    - destruct Hc as [_ ->]. destruct (port_valid r).
      + apply (hosts_inv_put _ h); [exact Hh|reflexivity|apply Hlog; exact Hi].
      + apply Hlog. exact Hi. }
  apply get_host_inv in Eh as [(a & -> & -> & Hf)|(Hnone & [(-> & n & rest & ->)|(rest & -> & ->)])].
  - eapply Hpost; [exact Hinv|exact H].
  - destruct H as [_ ->]. apply Hlog. revert Hinv. apply hosts_inv_tables; reflexivity.
  - eapply Hpost; [|exact H]. apply hosts_inv_created; assumption.
Qed.

Lemma run_keeps_hosts_inv op c r c' :
  tables_sized c -> hosts_inv c -> run op c = Done r c' -> hosts_inv c'.
Proof.
  intros Hs Hinv H.
  assert (Hsame : forall s s', hosts s' = hosts s -> hosts_inv s -> hosts_inv s').
  { intros s s' E. apply hosts_inv_tables; rewrite E; reflexivity. }
  destruct op; simpl in H.
  - eapply get_port_keeps_hosts_inv; eassumption.
  - apply add_member_hosts in H. eapply Hsame; eassumption.
  - apply del_member_frame in H as (Hh & _). eapply Hsame; eassumption.
  - apply add_router_frame in H as (Hh & _). eapply Hsame; eassumption.
  - apply expire_members_frame in H as ((Hh & _) & _). eapply Hsame; eassumption.
  - apply bind_inv in H as (u & c1 & E & H). unfold ret in H. injection H as _ <-.
    unfold fire_group_timer in E. apply bind_inv in E as (u' & c2 & E' & E).
    unfold modify in E'. injection E' as _ <-.
    apply group_timer_frame in E as ((Hh & _) & _).
    eapply Hsame; [exact Hh|]. eapply Hsame; [|exact Hinv]. reflexivity.
  - apply bind_inv in H as (u & c1 & E & H). unfold ret in H. injection H as _ <-.
    unfold fire_router_timer in E. apply bind_inv in E as (u' & c2 & E' & E).
    unfold modify in E'. injection E' as _ <-.
    apply router_timer_frame in E as (Hh & _).
    eapply Hsame; [exact Hh|]. eapply Hsame; [|exact Hinv]. reflexivity.
Qed.

(** In every reachable state the live host entries have pairwise distinct
    MACs, and each is the one the search for its MAC finds. *)
Lemma hosts_one_entry_per_mac c : reachable c -> hosts_inv c.
Proof.
  intros (c0 & c1 & ops & Hi & Hr).
  assert (H1 : tables_sized c1 /\ hosts_inv c1).
  { unfold init_cache in Hi. run_inv. split; [split; reflexivity|].
    split; [intros a []|apply NoDup_nil_2]. }
  clear Hi. revert c1 H1 Hr. induction ops as [|op ops IH]; intros c1 [Hs Hinv] Hr; simpl in Hr.
  - unfold ret in Hr. injection Hr as <-. exact Hinv.
  - apply bind_inv in Hr as (v & c2 & E & Hr).
    eapply IH; [|exact Hr]. split.
    + eapply run_keeps_sized; eassumption.
    + eapply run_keeps_hosts_inv; eassumption.
Qed.

(** * The tables as a whole *)

(** ** The shape of the group table *)

(** [members[PORT_MAX + 1]]: a group record has one member list per port. *)
Definition group_shaped (g : group_entry) : Prop :=
  length (group_members g) = S PORT_MAX.

(** The group table: the pool queue holds the allocated records in
    allocation order, [groups.count] counts them, every record is linked
    in the chain of its MAC and nowhere else, and no two records have the
    same MAC. *)
Definition groups_wf (c : cache) : Prop :=
  groups_pool (groups c) = seq 0 (length (groups_mem (groups c))) /\
  groups_count (groups c) = Z.of_nat (length (groups_mem (groups c))) /\
  groups_count (groups c) <= GROUP_POOL_SIZE /\
  (forall i a, In a (nth i (groups_hash (groups c)) []) ->
     exists g, groups_mem (groups c) !! a = Some g /\ HASH_INDEX (group_ea g) = i) /\
  (forall a g, groups_mem (groups c) !! a = Some g ->
     In a (nth (HASH_INDEX (group_ea g)) (groups_hash (groups c)) [])) /\
  (forall a b g g', groups_mem (groups c) !! a = Some g ->
     groups_mem (groups c) !! b = Some g' -> group_ea g = group_ea g' -> a = b) /\
  (forall y g, group_at c y = Some g -> group_shaped g).

(** [c'] has the records of [c], under the same MACs and in the same
    chains. *)
Definition groups_kept (c c' : cache) : Prop :=
  groups_pool (groups c') = groups_pool (groups c) /\
  groups_hash (groups c') = groups_hash (groups c) /\
  groups_count (groups c') = groups_count (groups c) /\
  length (groups_mem (groups c')) = length (groups_mem (groups c)) /\
  forall y g, group_at c y = Some g ->
    exists g', group_at c' y = Some g' /\ group_ea g' = group_ea g /\
               (group_shaped g -> group_shaped g').

#[local] Instance group_ptr_eq_dec : EqDecision group_ptr.
Proof. solve_decision. Defined.

Lemma groups_kept_refl c : groups_kept c c.
Proof. repeat split. intros y g Hy. exists g. auto. Qed.

Lemma groups_kept_trans c1 c2 c3 :
  groups_kept c1 c2 -> groups_kept c2 c3 -> groups_kept c1 c3.
Proof.
  intros (P1 & H1 & N1 & L1 & K1) (P2 & H2 & N2 & L2 & K2).
  repeat split; try congruence.
  intros y g Hy. destruct (K1 y g Hy) as (g2 & Hy2 & E2 & S2).
  destruct (K2 y g2 Hy2) as (g3 & Hy3 & E3 & S3).
  exists g3. split; [exact Hy3|]. split; [congruence|auto].
Qed.

Lemma groups_kept_put c x g g' :
  group_at c x = Some g -> group_ea g' = group_ea g ->
  (group_shaped g -> group_shaped g') ->
  groups_kept c (put_group x g' c).
Proof.
  intros Hx Hea Hsh. unfold groups_kept.
  rewrite put_group_pool, put_group_hash, put_group_count, put_group_mem_length.
  repeat split. intros y gy Hy.
  destruct (decide (y = x)) as [->|Hne].
  - exists g'. rewrite group_at_put_eq by (rewrite Hx; eauto).
    assert (gy = g) as -> by congruence. auto.
  - exists gy. rewrite group_at_put_ne by congruence. auto.
Qed.

(** Changes outside the group records. *)
Lemma groups_kept_same c c' :
  groups_pool (groups c') = groups_pool (groups c) ->
  groups_hash (groups c') = groups_hash (groups c) ->
  groups_count (groups c') = groups_count (groups c) ->
  groups_mem (groups c') = groups_mem (groups c) ->
  routers_group (routers c') = routers_group (routers c) ->
  groups_kept c c'.
Proof.
  intros P H N M R. repeat split; try congruence.
  intros [a|] g Hy; exists g; unfold group_at in *; split; [congruence|auto|congruence|auto].
Qed.

Lemma groups_wf_kept c c' : groups_kept c c' -> groups_wf c -> groups_wf c'.
Proof.
  intros (P & H & N & L & K) (W1 & W2 & W3 & W4 & W5 & W6 & W7).
  assert (Kinv : forall a g', groups_mem (groups c') !! a = Some g' ->
            exists g, groups_mem (groups c) !! a = Some g /\ group_ea g' = group_ea g).
  { intros a g' Ha. pose proof (lookup_lt_Some _ _ _ Ha) as Hlt. rewrite L in Hlt.
    apply lookup_lt_is_Some in Hlt as [g Hg].
    destruct (K (pooled a) g Hg) as (g2 & Hg2 & E & _). unfold group_at in Hg2.
    exists g. split; [exact Hg|congruence]. }
  unfold groups_wf. rewrite P, H, N, L.
  split; [exact W1|]. split; [exact W2|]. split; [exact W3|]. split; [|split; [|split]].
  - intros i a Hin. destruct (W4 i a Hin) as (g & Hg & Hi).
    destruct (K (pooled a) g Hg) as (g' & Hg' & E & _).
    exists g'. split; [exact Hg'|congruence].
  - intros a g' Ha. destruct (Kinv a g' Ha) as (g & Hg & E). rewrite E. eapply W5; exact Hg.
  - intros a b g1 g2 Ha Hb E.
    destruct (Kinv a g1 Ha) as (h1 & H1 & E1). destruct (Kinv b g2 Hb) as (h2 & H2 & E2).
    eapply W6; [exact H1|exact H2|congruence].
  - intros y g' Hy.
    assert (exists g, group_at c y = Some g) as [g Hg].
    { destruct y as [a|]; [|eexists; reflexivity].
      destruct (Kinv a g' Hy) as (g & Hg & _). eauto. }
    destruct (K y g Hg) as (g2 & Hg2 & _ & S). assert (g2 = g') as -> by congruence.
    apply S. eapply W7; exact Hg.
Qed.

(** *** Records that keep their shape *)

Lemma shaped_set_port p l g : group_shaped g -> group_shaped (set_port_members p l g).
Proof. unfold group_shaped, set_port_members. simpl. rewrite length_insert. auto. Qed.

Lemma shaped_set_time t g : group_shaped g -> group_shaped (set_group_time t g).
Proof. auto. Qed.

Lemma shaped_set_portmap m g : group_shaped g -> group_shaped (set_group_portmap m g).
Proof. auto. Qed.

Lemma shaped_set_ea ea g : group_shaped g -> group_shaped (set_group_ea ea g).
Proof. auto. Qed.

Lemma shaped_clear l g : group_shaped g -> group_shaped (clear_ports l g).
Proof.
  unfold clear_ports. revert g. induction l as [|p l IH]; intros g Hg; simpl; [exact Hg|].
  apply IH, shaped_set_port, Hg.
Qed.

Lemma shaped_zero : group_shaped group_zero.
Proof. unfold group_shaped, group_zero. cbn [group_members]. apply length_replicate. Qed.

Lemma shaped_init g : group_shaped g -> group_shaped (init_group g).
Proof. intros Hg. rewrite init_group_clear. apply shaped_clear, shaped_set_portmap, Hg. Qed.

Lemma clear_ports_ea l g : group_ea (clear_ports l g) = group_ea g.
Proof.
  unfold clear_ports. revert g. induction l as [|p l IH]; intros g; simpl; [reflexivity|].
  rewrite IH. reflexivity.
Qed.

(** *** A new record *)

Lemma get_group_room ea al c a c' :
  get_group ea al c = Done (Some a) c' ->
  groups_hash_find (nth (HASH_INDEX ea) (groups_hash (groups c)) []) ea c = Done None c ->
  groups_count (groups c) < GROUP_POOL_SIZE.
Proof.
  intros H Hnone. unfold get_group in H.
  apply bind_inv in H as (ch & c1 & E1 & H). unfold gets in E1. injection E1 as <- <-.
  rewrite (bind_Done _ _ _ _ _ Hnone) in H.
  destruct (negb al); [unfold ret, NULL in H; discriminate H|].
  apply bind_inv in H as (count & c2 & E2 & H). unfold gets in E2. injection E2 as <- <-.
  destruct (Z.ltb_spec (groups_count (groups c)) GROUP_POOL_SIZE) as [Hlt|Hge]; [exact Hlt|].
  exfalso. unfold get_group_link in H. run_inv.
Qed.

Lemma hash_link_chain index a hash i b :
  (index < length hash)%nat ->
  In b (nth i (hash_link index a hash) []) <->
  (i = index /\ b = a) \/ In b (nth i hash []).
Proof.
  intros Hlt. unfold hash_link. rewrite (nth_lookup (<[_ := _]> _)).
  destruct (decide (index = i)) as [<-|Hne].
  - rewrite list_lookup_insert_eq by exact Hlt. simpl. split.
    + intros [<-|Hin]; [left; auto|right; exact Hin].
    + intros [[_ ->]|Hin]; [left; reflexivity|right; exact Hin].
  - rewrite list_lookup_insert_ne by exact Hne. rewrite <- nth_lookup. split.
    + intros Hin. right. exact Hin.
    + intros [[-> _]|Hin]; [congruence|exact Hin].
Qed.

Lemma group_created_mem ea rest c :
  groups_mem (groups (group_created ea rest c))
  = groups_mem (groups c) ++ [set_group_ea ea (init_group group_zero)].
Proof.
  unfold group_created, put_group. simpl.
  replace (length (groups_mem (groups c))) with (length (groups_mem (groups c)) + 0)%nat by lia.
  rewrite insert_app_r. reflexivity.
Qed.

Lemma groups_wf_created ea rest c :
  tables_sized c -> groups_wf c ->
  groups_hash_find (nth (HASH_INDEX ea) (groups_hash (groups c)) []) ea c = Done None c ->
  groups_count (groups c) < GROUP_POOL_SIZE ->
  groups_wf (group_created ea rest c).
Proof.
  intros (_ & Hlen) (W1 & W2 & W3 & W4 & W5 & W6 & W7) Hnone Hroom.
  pose proof (HASH_INDEX_lt ea) as Hidx. rewrite <- Hlen in Hidx.
  assert (Hpool : groups_pool (groups (group_created ea rest c))
                  = groups_pool (groups c) ++ [length (groups_mem (groups c))]) by reflexivity.
  assert (Hcount : groups_count (groups (group_created ea rest c))
                   = groups_count (groups c) + 1) by reflexivity.
  assert (Hlook : forall a g, groups_mem (groups (group_created ea rest c)) !! a = Some g ->
            groups_mem (groups c) !! a = Some g
            \/ (a = length (groups_mem (groups c)) /\ g = set_group_ea ea (init_group group_zero))).
  { intros a g. rewrite group_created_mem. intros H.
    apply lookup_app_Some in H as [H|[Hge H]]; [left; exact H|right].
    apply list_lookup_singleton_Some in H as [Hz <-]. split; [lia|reflexivity]. }
  assert (Hfresh : forall b g, groups_mem (groups c) !! b = Some g -> group_ea g <> ea).
  { intros b g Hb Hea. pose proof (W5 b g Hb) as Hin. rewrite Hea in Hin.
    destruct (groups_hash_find_none _ _ _ _ Hnone b Hin) as (g2 & Hg2 & Hne).
    unfold group_at in Hg2. apply Hne. congruence. }
  unfold groups_wf. rewrite Hpool, Hcount, group_created_hash, group_created_mem.
  rewrite length_app. simpl length. rewrite Nat.add_1_r, seq_S. simpl.
  split; [rewrite W1; reflexivity|]. split; [lia|]. split; [lia|].
  split; [|split; [|split]].
  - intros i a Hin. apply (proj1 (hash_link_chain _ _ _ _ _ Hidx)) in Hin as [[-> ->]|Hin].
    + exists (set_group_ea ea (init_group group_zero)). split; [|reflexivity].
      rewrite lookup_app_r, Nat.sub_diag by lia. reflexivity.
    + destruct (W4 i a Hin) as (g & Hg & Hi). exists g. split; [|exact Hi].
      apply lookup_app_l_Some. exact Hg.
  - intros a g Ha. apply hash_link_chain; [exact Hidx|].
    apply lookup_app_Some in Ha as [Ha|[Hge Ha]].
    + right. eapply W5. exact Ha.
    + apply list_lookup_singleton_Some in Ha as [Hz <-]. left. split; [reflexivity|lia].
  - intros a b g g' Ha Hb E.
    apply lookup_app_Some in Ha as [Ha|[Hga Ha]];
      apply lookup_app_Some in Hb as [Hb|[Hgb Hb]].
    + eapply W6; eassumption.
    + apply list_lookup_singleton_Some in Hb as [_ <-]. simpl in E.
      exfalso. eapply Hfresh; eassumption.
    + apply list_lookup_singleton_Some in Ha as [_ <-]. simpl in E.
      exfalso. eapply Hfresh; [exact Hb|]. symmetry. exact E.
    + apply list_lookup_singleton_Some in Ha as [Hza _].
      apply list_lookup_singleton_Some in Hb as [Hzb _]. lia.
  - intros [a|] g Hy.
    + unfold group_at in Hy. apply Hlook in Hy as [Hy|[_ ->]].
      * apply (W7 (pooled a)). exact Hy.
      * apply shaped_set_ea, shaped_init, shaped_zero.
    + apply (W7 the_routers). exact Hy.
Qed.

Lemma get_group_keeps_wf ea al c r c' :
  tables_sized c -> groups_wf c -> get_group ea al c = Done r c' -> groups_wf c'.
Proof.
  intros Hs Hw H. pose proof H as H0.
  apply get_group_inv in H as [(a & -> & -> & _)|(Hnone & [(-> & rest & ->)|(_ & rest & -> & ->)])].
  - exact Hw.
  - revert Hw. apply groups_wf_kept, groups_kept_same; reflexivity.
  - apply groups_wf_created; [exact Hs|exact Hw|exact Hnone|].
    eapply get_group_room; eassumption.
Qed.

(** *** The operations *)

Ltac kept_wrap s := apply (groups_kept_trans _ s); [|apply groups_kept_same; reflexivity].

Ltac kept_shape :=
  let Hs := fresh "Hs" in
  intros Hs;
  repeat first
    [ exact Hs
    | apply shaped_clear
    | apply shaped_set_port
    | match goal with
      | |- group_shaped (set_group_time _ _) => apply shaped_set_time
      | |- group_shaped (set_group_portmap _ _) => apply shaped_set_portmap
      | Hsh : _ -> group_shaped ?g |- group_shaped ?g => apply Hsh
      end ].

Ltac kept_ea := rewrite ?clear_ports_ea; first [reflexivity | cbn; assumption].

(** The record a pointer points at, read off an earlier load. *)
Ltac kept_at Hg :=
  first
    [ exact Hg
    | rewrite ?group_at_member_taken, ?group_at_with_members, ?group_at_with_world,
        ?group_at_logged, ?group_at_groups_timer, ?group_at_with_routers;
      exact Hg ].

Ltac kept_peel :=
  lazymatch goal with
  | |- groups_kept ?c ?c => apply groups_kept_refl
  | |- groups_kept _ (put_group ?x ?g' ?s) =>
      apply (groups_kept_trans _ s);
      [kept_peel
      |match goal with
       | Hg : group_at _ x = Some ?g |- _ =>
           apply (groups_kept_put s x g g'); [solve [kept_at Hg]|kept_ea|kept_shape]
       end]
  | |- groups_kept _ (with_members _ ?s) => kept_wrap s; kept_peel
  | |- groups_kept _ (member_taken _ _ ?s) => kept_wrap s; kept_peel
  | |- groups_kept _ (with_world _ ?s) => kept_wrap s; kept_peel
  | |- groups_kept _ (logged _ ?s) => kept_wrap s; kept_peel
  | |- groups_kept _ (with_routers (set_routers_timer _) ?s) => kept_wrap s; kept_peel
  | |- groups_kept _ (with_routers (fun rs => set_routers_timer _ rs) ?s) =>
      kept_wrap s; kept_peel
  | |- groups_kept _ (with_groups (set_groups_timer _) ?s) => kept_wrap s; kept_peel
  | |- groups_kept _ (with_groups (fun gs => set_groups_timer _ gs) ?s) =>
      kept_wrap s; kept_peel
  | |- groups_kept ?c ?d => apply groups_kept_refl
  end.

Lemma add_member_keeps_wf maddr addr port timeout now c r c' :
  tables_sized c -> groups_wf c ->
  add_member maddr addr port timeout now c = Done r c' -> groups_wf c'.
Proof.
  intros Hs Hw H. unfold add_member in H.
  destruct (port_invalid port); [unfold ret in H; injection H as _ <-; exact Hw|].
  apply bind_inv in H as (group & c1 & Eg & H).
  apply (get_group_keeps_wf _ _ _ _ _ Hs Hw) in Eg.
  revert Eg. apply groups_wf_kept.
  destruct group as [a|]; run_inv; use_inv; try discriminate; simpl; kept_peel.
Qed.

Lemma del_member_kept maddr addr port c r c' :
  del_member maddr addr port c = Done r c' -> groups_kept c c'.
Proof.
  intros H. unfold del_member in H.
  destruct (port_invalid port); [unfold ret in H; injection H as _ <-; apply groups_kept_refl|].
  apply bind_inv in H as (group & c1 & Eg & H).
  pose proof (get_group_lookup_state _ _ _ _ Eg) as ->.
  destruct group as [a|]; run_inv; use_inv; try discriminate; simpl; kept_peel.
Qed.

Lemma add_router_kept addr port timeout now c r c' :
  add_router addr port timeout now c = Done r c' -> groups_kept c c'.
Proof.
  intros H. unfold add_router in H.
  destruct (port_invalid port); [unfold ret in H; injection H as _ <-; apply groups_kept_refl|].
  run_inv; use_inv; use_fan_out; try discriminate; simpl; kept_peel.
Qed.

(** The loop of [router_timer] over the ports [l]: the record with the
    lists swept and the free list that took the expired members. *)
Definition router_fold (time : Z) (l : list nat) (start : group_entry * list member_entry)
  : group_entry * list member_entry :=
  fold_left (fun '(g, free) port =>
               let '(kept, gtime, free') :=
                 router_sweep (port_members g port) time (group_time g) free in
               (set_port_members port kept (set_group_time gtime g), free'))
            l start.

Lemma router_fold_cons time p l g free :
  router_fold time (p :: l) (g, free)
  = let '(kept, gtime, free') := router_sweep (port_members g p) time (group_time g) free in
    router_fold time l (set_port_members p kept (set_group_time gtime g), free').
Proof.
  unfold router_fold. cbn [fold_left].
  destruct (router_sweep _ time (group_time g) free) as [[kept gtime] free1]. reflexivity.
Qed.

Lemma router_fold_ea time l g free g' free' :
  router_fold time l (g, free) = (g', free') ->
  group_ea g' = group_ea g /\ (group_shaped g -> group_shaped g').
Proof.
  revert g free. induction l as [|p l IH]; intros g free H.
  - injection H as <- <-. auto.
  - rewrite router_fold_cons in H.
    destruct (router_sweep _ time (group_time g) free) as [[kept gtime] free1].
    apply IH in H as [Hea Hsh]. split; [exact Hea|].
    intros Hg. apply Hsh, shaped_set_port, shaped_set_time, Hg.
Qed.

Lemma router_timer_kept now c r c' :
  router_timer now c = Done r c' -> groups_kept c c'.
Proof.
  intros H. unfold router_timer in H.
  apply bind_inv in H as (g & c0 & E & H). apply group_load_inv in E as [-> Hg].
  destruct (group_portmap g <? 0); [unfold ret in H; injection H as _ <-; apply groups_kept_refl|].
  apply bind_inv in H as (portmap & c1 & E & H).
  assert (Hk : groups_kept c c1).
  { destruct (time_after (group_time g) now).
    - apply bind_inv in E as (free & c2 & Ef & E). unfold gets in Ef. injection Ef as <- <-.
      fold (router_fold now ports (set_group_time (ulong (now + ULONG_HALF)) g,
                                   members_free (members c))) in E.
      destruct (router_fold now ports _) as [g' free'] eqn:Ef.
      apply router_fold_ea in Ef as [Hea Hsh]. cbn in Hea.
      run_inv; use_inv; try discriminate; kept_peel.
    - run_inv; use_inv; try discriminate; kept_peel. }
  eapply groups_kept_trans; [exact Hk|]. clear E Hk.
  destruct (portmap =? 0); run_inv; use_fan_out; kept_peel.
Qed.

Lemma group_timer_sweep_kept queue time exp c r c' :
  group_timer_sweep queue time exp c = Done r c' -> groups_kept c c'.
Proof.
  revert exp c. induction queue as [|a queue IH]; intros exp c H; simpl in H.
  - run_inv. apply groups_kept_refl.
  - apply bind_inv in H as (g & c1 & E & H). apply group_load_inv in E as [-> Hg].
    destruct (group_portmap g =? 0); [eapply IH; eassumption|].
    destruct (time_after (group_time g) time); [eapply IH; eassumption|].
    apply bind_inv in H as (u & c1 & E & H).
    apply bind_inv in H as (rmap & c2 & E2 & H). unfold gets in E2. injection E2 as <- <-.
    apply bind_inv in H as (u2 & c3 & E3 & H).
    apply IH in H. eapply groups_kept_trans; [|exact H].
    destruct (_ =? 0); run_inv; use_inv; try discriminate; simpl; kept_peel.
Qed.

Lemma group_timer_kept now c r c' :
  group_timer now c = Done r c' -> groups_kept c c'.
Proof.
  intros H. unfold group_timer in H.
  apply bind_inv in H as (queue & c1 & E & H). unfold gets in E. injection E as <- <-.
  apply bind_inv in H as (exp & c2 & E & H).
  apply group_timer_sweep_kept in E. eapply groups_kept_trans; [exact E|].
  run_inv; simpl; kept_peel.
Qed.

Lemma expire_all_kept queue time c r c' :
  expire_all queue time c = Done r c' -> groups_kept c c'.
Proof.
  revert c. induction queue as [|a queue IH]; intros c H; simpl in H.
  - run_inv. apply groups_kept_refl.
  - apply bind_inv in H as (g & c1 & E & H). apply group_load_inv in E as [-> Hg].
    apply bind_inv in H as (u & c1 & E & H). run_inv.
    apply IH in H. eapply groups_kept_trans; [|exact H]. kept_peel.
Qed.

Lemma expire_members_kept maddr timeout now c r c' :
  expire_members maddr timeout now c = Done r c' -> groups_kept c c'.
Proof.
  intros H. unfold expire_members in H.
  apply bind_inv in H as (found & c1 & E & H).
  assert (Hk : groups_kept c c1).
  { destruct maddr as [ea|].
    - apply bind_inv in E as (group & c2 & Eg & E).
      pose proof (get_group_lookup_state _ _ _ _ Eg) as ->.
      clear H. destruct group as [a|]; run_inv; kept_peel.
    - apply bind_inv in E as (queue & c2 & Eq & E). unfold gets in Eq. injection Eq as <- <-.
      apply bind_inv in E as (u & c3 & Ee & E). apply expire_all_kept in Ee.
      unfold ret in E. injection E as _ <-. exact Ee. }
  eapply groups_kept_trans; [exact Hk|]. clear E Hk. run_inv; kept_peel.
Qed.

Lemma run_keeps_wf op c r c' :
  tables_sized c -> groups_wf c -> run op c = Done r c' -> groups_wf c'.
Proof.
  intros Hs Hw H. destruct op; simpl in H.
  - revert Hw. apply groups_wf_kept.
    apply get_port_frame in H as (Hg & Hr & _).
    apply groups_kept_same; rewrite ?Hg, ?Hr; reflexivity.
  - eapply add_member_keeps_wf; eassumption.
  - revert Hw. eapply groups_wf_kept, del_member_kept; eassumption.
  - revert Hw. eapply groups_wf_kept, add_router_kept; eassumption.
  - revert Hw. eapply groups_wf_kept, expire_members_kept; eassumption.
  - apply bind_inv in H as (u & c1 & E & H). unfold ret in H. injection H as _ <-.
    unfold fire_group_timer in E. apply bind_inv in E as (u' & c2 & E' & E).
    unfold modify in E'. injection E' as _ <-.
    apply group_timer_kept in E. revert Hw. apply groups_wf_kept.
    eapply groups_kept_trans; [|exact E]. apply groups_kept_same; reflexivity.
  - apply bind_inv in H as (u & c1 & E & H). unfold ret in H. injection H as _ <-.
    unfold fire_router_timer in E. apply bind_inv in E as (u' & c2 & E' & E).
    unfold modify in E'. injection E' as _ <-.
    apply router_timer_kept in E. revert Hw. apply groups_wf_kept.
    eapply groups_kept_trans; [|exact E]. apply groups_kept_same; reflexivity.
Qed.

Lemma nth_replicate_nil {A} (n i : nat) : nth i (replicate n (@nil A)) [] = [].
Proof.
  rewrite nth_lookup. destruct (replicate n [] !! i) as [l|] eqn:E; [|reflexivity].
  apply lookup_replicate in E as [-> _]. reflexivity.
Qed.

Lemma init_cache_wf c r c' : init_cache c = Done r c' -> groups_wf c'.
Proof.
  intros Hi. unfold init_cache in Hi. run_inv.
  unfold groups_wf. cbn [groups groups_mem groups_pool groups_hash groups_count length seq].
  split; [reflexivity|]. split; [reflexivity|]. split; [unfold GROUP_POOL_SIZE; lia|].
  split; [|split; [|split]].
  - intros i a Hin. change (In a (nth i (replicate 64 (@nil nat)) [])) in Hin.
    rewrite nth_replicate_nil in Hin. destruct Hin.
  - intros a g Ha. rewrite lookup_nil in Ha. discriminate.
  - intros a b g g' Ha. rewrite lookup_nil in Ha. discriminate.
  - intros [a|] g Hy; unfold group_at in Hy; cbn [groups groups_mem routers routers_group] in Hy.
    + rewrite lookup_nil in Hy. discriminate.
    + injection Hy as <-. apply shaped_init, shaped_zero.
Qed.

Lemma reachable_wf c : reachable c -> groups_wf c.
Proof.
  intros (c0 & c1 & ops & Hi & Hr).
  assert (H1 : tables_sized c1 /\ groups_wf c1).
  { split; [|eapply init_cache_wf; exact Hi].
    unfold init_cache in Hi. run_inv. split; reflexivity. }
  clear Hi. revert c1 H1 Hr. induction ops as [|op ops IH]; intros c1 [Hs Hw] Hr; simpl in Hr.
  - unfold ret in Hr. injection Hr as <-. exact Hw.
  - apply bind_inv in Hr as (v & c2 & E & Hr).
    eapply IH; [|exact Hr]. split.
    + eapply run_keeps_sized; eassumption.
    + eapply run_keeps_wf; eassumption.
Qed.

(** ** Looking up what the tables hold *)

(** Over a chain of allocated records the search returns. *)
Lemma groups_hash_find_total chain ea c :
  (forall b, In b chain -> is_Some (groups_mem (groups c) !! b)) ->
  exists r, groups_hash_find chain ea c = Done r c.
Proof.
  induction chain as [|b chain IH]; intros Hv; simpl.
  - eexists. reflexivity.
  - destruct (Hv b (or_introl eq_refl)) as [g Hg].
    rewrite (bind_Done _ _ _ _ _ (group_load_at (pooled b) _ _ Hg)).
    destruct (decide (group_ea g = ea)); [eexists; reflexivity|].
    apply IH. intros b' Hb'. apply Hv. right. exact Hb'.
Qed.

Lemma get_group_total ea c :
  groups_wf c -> exists r, get_group ea false c = Done r c.
Proof.
  intros (_ & _ & _ & W4 & _). rewrite get_group_lookup.
  apply groups_hash_find_total. intros b Hb.
  destruct (W4 _ _ Hb) as (g & Hg & _). eauto.
Qed.

(** Every record of the table is the one the search for its MAC finds. *)
Lemma get_group_finds c a g :
  groups_wf c -> groups_mem (groups c) !! a = Some g ->
  get_group (group_ea g) false c = Done (Some a) c.
Proof.
  intros Hw Hg. destruct (get_group_total (group_ea g) c Hw) as [r Hr].
  destruct Hw as (_ & _ & _ & W4 & W5 & W6 & _).
  rewrite Hr. rewrite get_group_lookup in Hr. destruct r as [b|].
  - apply groups_hash_find_some in Hr as (_ & g' & Hg' & Hea). unfold group_at in Hg'.
    rewrite (W6 b a g' g Hg' Hg Hea). reflexivity.
  - destruct (groups_hash_find_none _ _ _ _ Hr a (W5 a g Hg)) as (g' & Hg' & Hne).
    unfold group_at in Hg'. congruence.
Qed.

Lemma in_pool_allocated c a :
  groups_wf c -> In a (groups_pool (groups c)) -> is_Some (groups_mem (groups c) !! a).
Proof.
  intros (W1 & _) Hin. rewrite W1 in Hin. apply in_seq in Hin.
  apply lookup_lt_is_Some. lia.
Qed.

(** X1.  X1.  The group table never outgrows [GROUP_POOL_SIZE]: [groups.count] is
    the number of records in the pool queue and stays within the bound,
    and every record of the queue is the one [get_group] finds for its
    MAC, so that no MAC has two records. *)
Theorem group_table_bounded c :
  reachable c ->
  groups_count (groups c) = Z.of_nat (length (groups_pool (groups c))) /\
  Z.of_nat (length (groups_pool (groups c))) <= GROUP_POOL_SIZE /\
  NoDup (groups_pool (groups c)) /\
  forall a, In a (groups_pool (groups c)) ->
    exists g, groups_mem (groups c) !! a = Some g /\
              get_group (group_ea g) false c = Done (Some a) c.
Proof.
  intros Hr. apply reachable_wf in Hr as Hw. pose proof Hw as (W1 & W2 & W3 & _).
  assert (Hlen : length (groups_pool (groups c)) = length (groups_mem (groups c))).
  { rewrite W1. apply length_seq. }
  split; [rewrite Hlen; exact W2|]. split; [rewrite Hlen, <- W2; exact W3|].
  split; [rewrite W1; apply NoDup_seq|].
  intros a Hin. destruct (in_pool_allocated _ _ Hw Hin) as [g Hg].
  exists g. split; [exact Hg|]. apply get_group_finds; assumption.
Qed.

(** ** The shape of the host table *)

(** The pool queue holds the allocated records in allocation order, a
    chain links allocated records of its own hash index only, and every
    cached port is a port of the switch. *)
Definition hosts_wf (c : cache) : Prop :=
  hosts_pool (hosts c) = seq 0 (length (hosts_mem (hosts c))) /\
  (forall i a, In a (nth i (hosts_hash (hosts c)) []) ->
     exists h, hosts_mem (hosts c) !! a = Some h /\ HASH_INDEX (host_ea h) = i) /\
  (forall a h, hosts_mem (hosts c) !! a = Some h -> port_valid (host_port h) = true).

Lemma hosts_wf_tables c c' :
  hosts_mem (hosts c') = hosts_mem (hosts c) ->
  hosts_hash (hosts c') = hosts_hash (hosts c) ->
  hosts_pool (hosts c') = hosts_pool (hosts c) ->
  hosts_wf c -> hosts_wf c'.
Proof. intros Hm Hh Hp. unfold hosts_wf. rewrite Hm, Hh, Hp. auto. Qed.

Lemma hosts_wf_put a h h1 c :
  hosts_mem (hosts c) !! a = Some h -> host_ea h1 = host_ea h ->
  port_valid (host_port h1) = true ->
  hosts_wf c -> hosts_wf (put_host a h1 c).
Proof.
  intros Hh Hea Hp (W1 & W2 & W3).
  pose proof (lookup_lt_Some _ _ _ Hh) as Hlt.
  unfold hosts_wf, put_host. simpl. rewrite length_insert.
  split; [exact W1|]. split.
  - intros i b Hin. destruct (W2 i b Hin) as (hb & Hb & Hi).
    destruct (decide (a = b)) as [<-|Hne].
    + exists h1. rewrite list_lookup_insert_eq by exact Hlt.
      split; [reflexivity|]. congruence.
    + exists hb. rewrite list_lookup_insert_ne by exact Hne. auto.
  - intros b hb Hb. destruct (decide (a = b)) as [<-|Hne].
    + rewrite list_lookup_insert_eq in Hb by exact Hlt. congruence.
    + rewrite list_lookup_insert_ne in Hb by exact Hne. eapply W3. exact Hb.
Qed.

Lemma host_created_mem ea rest c :
  hosts_mem (hosts (host_created ea rest c))
  = hosts_mem (hosts c) ++ [set_host_ea ea host_zero].
Proof.
  unfold host_created, put_host. simpl.
  replace (length (hosts_mem (hosts c))) with (length (hosts_mem (hosts c)) + 0)%nat by lia.
  rewrite insert_app_r. reflexivity.
Qed.

Lemma hosts_wf_created ea rest c :
  tables_sized c -> hosts_wf c -> hosts_wf (host_created ea rest c).
Proof.
  intros (Hlen & _) (W1 & W2 & W3).
  pose proof (HASH_INDEX_lt ea) as Hidx. rewrite <- Hlen in Hidx.
  assert (Hpool : hosts_pool (hosts (host_created ea rest c))
                  = hosts_pool (hosts c) ++ [length (hosts_mem (hosts c))]) by reflexivity.
  assert (Hhash : hosts_hash (hosts (host_created ea rest c))
                  = hash_link (HASH_INDEX ea) (length (hosts_mem (hosts c)))
                      (hosts_hash (hosts c))) by reflexivity.
  unfold hosts_wf. rewrite Hpool, Hhash, host_created_mem.
  rewrite length_app. simpl length. rewrite Nat.add_1_r, seq_S. simpl.
  split; [rewrite W1; reflexivity|]. split.
  - intros i a Hin. apply (proj1 (hash_link_chain _ _ _ _ _ Hidx)) in Hin as [[-> ->]|Hin].
    + exists (set_host_ea ea host_zero). split; [|reflexivity].
      rewrite lookup_app_r, Nat.sub_diag by lia. reflexivity.
    + destruct (W2 i a Hin) as (h & Hh & Hi). exists h. split; [|exact Hi].
      apply lookup_app_l_Some. exact Hh.
  - intros a h Ha. apply lookup_app_Some in Ha as [Ha|[Hge Ha]].
    + eapply W3. exact Ha.
    + apply list_lookup_singleton_Some in Ha as [_ <-]. unfold port_valid.
      apply andb_true_iff. split; apply Z.leb_le; simpl; lia.
Qed.

Lemma get_port_keeps_hosts_wf haddr now c r c' :
  tables_sized c -> hosts_wf c -> get_port haddr now c = Done r c' -> hosts_wf c'.
Proof.
  intros Hs Hw H.
  apply get_port_inv in H as (host & c1 & Eh & H).
  assert (Hlog : forall new s, hosts_wf s -> hosts_wf (logged new s)).
  { intros new s. apply hosts_wf_tables; reflexivity. }
  assert (Hpost : forall a s, hosts_wf s ->
            (exists h, hosts_mem (hosts s) !! a = Some h /\
               if time_after_eq (host_time h) now then r = host_port h /\ c' = s
               else r = switch_port_of (world s) haddr /\
                    c' = (if port_valid r then put_host a (host_cached h r now) else id)
                           (logged [drv_get_port haddr] s)) ->
            hosts_wf c').
  { intros a s Hi (h & Hh & Hc). destruct (time_after_eq (host_time h) now).
    - destruct Hc as [_ ->]. exact Hi.
    - destruct Hc as [_ ->]. destruct (port_valid r) eqn:Hv.
      + apply (hosts_wf_put _ h); [exact Hh|reflexivity|exact Hv|apply Hlog; exact Hi].
      + apply Hlog. exact Hi. }
  apply get_host_inv in Eh as [(a & -> & -> & Hf)|(Hnone & [(-> & n & rest & ->)|(rest & -> & ->)])].
  - eapply Hpost; [exact Hw|exact H].
  - destruct H as [_ ->]. apply Hlog. revert Hw. apply hosts_wf_tables; reflexivity.
  - eapply Hpost; [|exact H]. apply hosts_wf_created; assumption.
Qed.

Lemma run_keeps_hosts_wf op c r c' :
  tables_sized c -> hosts_wf c -> run op c = Done r c' -> hosts_wf c'.
Proof.
  intros Hs Hw H.
  assert (Hsame : forall s s', hosts s' = hosts s -> hosts_wf s -> hosts_wf s').
  { intros s s' E. apply hosts_wf_tables; rewrite E; reflexivity. }
  destruct op; simpl in H.
  - eapply get_port_keeps_hosts_wf; eassumption.
  - apply add_member_hosts in H. eapply Hsame; eassumption.
  - apply del_member_frame in H as (Hh & _). eapply Hsame; eassumption.
  - apply add_router_frame in H as (Hh & _). eapply Hsame; eassumption.
  - apply expire_members_frame in H as ((Hh & _) & _). eapply Hsame; eassumption.
  - apply bind_inv in H as (u & c1 & E & H). unfold ret in H. injection H as _ <-.
    unfold fire_group_timer in E. apply bind_inv in E as (u' & c2 & E' & E).
    unfold modify in E'. injection E' as _ <-.
    apply group_timer_frame in E as ((Hh & _) & _).
    eapply Hsame; [exact Hh|]. eapply Hsame; [|exact Hw]. reflexivity.
  - apply bind_inv in H as (u & c1 & E & H). unfold ret in H. injection H as _ <-.
    unfold fire_router_timer in E. apply bind_inv in E as (u' & c2 & E' & E).
    unfold modify in E'. injection E' as _ <-.
    apply router_timer_frame in E as (Hh & _).
    eapply Hsame; [exact Hh|]. eapply Hsame; [|exact Hw]. reflexivity.
Qed.

Lemma reachable_hosts_wf c : reachable c -> hosts_wf c.
Proof.
  intros (c0 & c1 & ops & Hi & Hr).
  assert (H1 : tables_sized c1 /\ hosts_wf c1).
  { unfold init_cache in Hi. run_inv. split; [split; reflexivity|].
    unfold hosts_wf. cbn [hosts hosts_mem hosts_pool hosts_hash length seq].
    split; [reflexivity|]. split.
    - intros i a Hin. change (In a (nth i (replicate 64 (@nil nat)) [])) in Hin.
      rewrite nth_replicate_nil in Hin. destruct Hin.
    - intros a h Ha. rewrite lookup_nil in Ha. discriminate. }
  clear Hi. revert c1 H1 Hr. induction ops as [|op ops IH]; intros c1 [Hs Hw] Hr; simpl in Hr.
  - unfold ret in Hr. injection Hr as <-. exact Hw.
  - apply bind_inv in Hr as (v & c2 & E & Hr).
    eapply IH; [|exact Hr]. split.
    + eapply run_keeps_sized; eassumption.
    + eapply run_keeps_hosts_wf; eassumption.
Qed.

Lemma hosts_hash_find_total chain ea c :
  (forall b, In b chain -> is_Some (hosts_mem (hosts c) !! b)) ->
  exists r, hosts_hash_find chain ea c = Done r c.
Proof.
  induction chain as [|b chain IH]; intros Hv; simpl.
  - eexists. reflexivity.
  - destruct (Hv b (or_introl eq_refl)) as [h Hh].
    rewrite (bind_Done _ _ _ _ _ (host_load_at _ _ _ Hh)).
    destruct (decide (host_ea h = ea)); [eexists; reflexivity|].
    apply IH. intros b' Hb'. apply Hv. right. exact Hb'.
Qed.

Lemma host_find_total ea c :
  hosts_wf c ->
  exists r, hosts_hash_find (nth (HASH_INDEX ea) (hosts_hash (hosts c)) []) ea c = Done r c.
Proof.
  intros (_ & W2 & _). apply hosts_hash_find_total. intros b Hb.
  destruct (W2 _ _ Hb) as (h & Hh & _). eauto.
Qed.

(** ** When [get_port] runs into the cleared pointer *)

(** Whether the next [calloc] fails. *)
Definition calloc_fails (c : cache) : bool :=
  match calloc_results (world c) with
  | false :: _ => true
  | _ => false
  end.

(** The host record at [a] has a time before [time]. *)
Definition host_expired (time : Z) (c : cache) (a : nat) : Prop :=
  exists h, hosts_mem (hosts c) !! a = Some h /\ time_before (host_time h) time = true.

Lemma hosts_pool_scan_total queue time pos c :
  (forall b, In b queue -> is_Some (hosts_mem (hosts c) !! b)) ->
  (exists p a, hosts_pool_scan queue time pos c = Done (Some (p, a)) c /\
               In a queue /\ host_expired time c a)
  \/ (hosts_pool_scan queue time pos c = Done None c /\
      forall a, In a queue -> ~ host_expired time c a).
Proof.
  revert pos. induction queue as [|b queue IH]; intros pos Hv; simpl.
  - right. split; [reflexivity|]. intros a [].
  - destruct (Hv b (or_introl eq_refl)) as [h Hh].
    rewrite (bind_Done _ _ _ _ _ (host_load_at _ _ _ Hh)).
    destruct (time_before (host_time h) time) eqn:Ht.
    + left. exists pos, b. split; [reflexivity|]. split; [left; reflexivity|].
      exists h. auto.
    + destruct (IH (S pos)) as [(p & a & E & Hin & He)|[E Hno]].
      * intros b' Hb'. apply Hv. right. exact Hb'.
      * left. exists p, a. split; [exact E|]. split; [right; exact Hin|exact He].
      * right. split; [exact E|]. intros a [<-|Hin].
        -- intros (h' & Hh' & Ht'). congruence.
        -- apply Hno. exact Hin.
Qed.

Lemma calloc_result_fails c :
  calloc_fails c = true ->
  exists rest, calloc_results (world c) = false :: rest /\
               calloc_result c = Done false (with_world (set_calloc_results rest) c).
Proof.
  unfold calloc_fails, calloc_result. destruct (calloc_results (world c)) as [|[|] rest];
    try discriminate. intros _. eauto.
Qed.

Lemma calloc_result_works c :
  calloc_fails c = false ->
  exists rest, calloc_result c = Done true (with_world (set_calloc_results rest) c).
Proof.
  unfold calloc_fails, calloc_result. destruct (calloc_results (world c)) as [|[|] rest] eqn:E;
    try discriminate; intros _.
  - exists []. rewrite <- E, with_world_id. reflexivity.
  - eauto.
Qed.

(** Running a sequence forward. *)
Lemma bind_gets {A B} (f : cache -> A) (k : A -> cacheM B) c : bind (gets f) k c = k (f c) c.
Proof. reflexivity. Qed.

Lemma bind_ret {A B} (a : A) (k : A -> cacheM B) c : bind (ret a) k c = k a c.
Proof. reflexivity. Qed.

Lemma bind_modify {B} (f : cache -> cache) (k : unit -> cacheM B) c :
  bind (modify f) k c = k tt (f c).
Proof. reflexivity. Qed.

Lemma bind_bind {A B C} (m : cacheM A) (k : A -> cacheM B) (k' : B -> cacheM C) c :
  bind (bind m k) k' c = bind m (fun a => bind (k a) k') c.
Proof. unfold bind. destruct (m c); reflexivity. Qed.

Ltac fwd :=
  repeat (unfold NULL; cbv beta iota;
          progress rewrite ?bind_bind, ?bind_ret, ?bind_gets, ?bind_modify);
  unfold NULL; cbv beta iota.

(** What [get_host] does when the MAC has no record. *)
Lemma get_host_miss ea time c :
  hosts_wf c ->
  hosts_hash_find (nth (HASH_INDEX ea) (hosts_hash (hosts c)) []) ea c = Done None c ->
  if (HOST_POOL_SIZE <=? hosts_count (hosts c)) || calloc_fails c
  then (get_host ea time c = Fault /\
        exists a, In a (hosts_pool (hosts c)) /\ host_expired time c a)
       \/ ((exists n rest, get_host ea time c = Done None (host_refused n rest c)) /\
           forall a, In a (hosts_pool (hosts c)) -> ~ host_expired time c a)
  else exists rest,
         get_host ea time c
         = Done (Some (length (hosts_mem (hosts c)))) (host_created ea rest c).
Proof.
  intros (W1 & _ & _) Hnone. unfold get_host.
  rewrite bind_gets, (bind_Done _ _ _ _ _ Hnone), bind_gets.
  assert (Hscan : forall s,
            hosts_mem (hosts s) = hosts_mem (hosts c) ->
            hosts_pool (hosts s) = hosts_pool (hosts c) ->
            (exists p a, hosts_pool_scan (hosts_pool (hosts s)) time 0 s = Done (Some (p, a)) s /\
                         In a (hosts_pool (hosts c)) /\ host_expired time c a)
            \/ (hosts_pool_scan (hosts_pool (hosts s)) time 0 s = Done None s /\
                forall a, In a (hosts_pool (hosts c)) -> ~ host_expired time c a)).
  { intros s Hm Hp.
    destruct (hosts_pool_scan_total (hosts_pool (hosts s)) time 0 s) as [(p & a & E & Hin & He)|[E Hno]].
    - intros b Hb. rewrite Hp, W1 in Hb. apply in_seq in Hb.
      rewrite Hm. apply lookup_lt_is_Some. lia.
    - left. exists p, a. split; [exact E|]. rewrite <- Hp. split; [exact Hin|].
      unfold host_expired in *. rewrite <- Hm. exact He.
    - right. split; [exact E|]. intros a Hin. rewrite <- Hp in Hin.
      intros He. apply (Hno a Hin). unfold host_expired in *. rewrite Hm. exact He. }
  destruct (Z.leb_spec HOST_POOL_SIZE (hosts_count (hosts c))) as [Hfull|Hroom]; simpl orb.
  - replace (hosts_count (hosts c) <? HOST_POOL_SIZE) with false
      by (symmetry; apply Z.ltb_ge; lia).
    fwd.
    destruct (Hscan c eq_refl eq_refl) as [(p & a & E & Hin & He)|[E Hno]].
    + left. split; [|eauto]. rewrite (bind_Done _ _ _ _ _ E). reflexivity.
    + right. split; [|exact Hno]. rewrite (bind_Done _ _ _ _ _ E).
      exists (hosts_count (hosts c)), (calloc_results (world c)).
      rewrite host_refused_id. reflexivity.
  - replace (hosts_count (hosts c) <? HOST_POOL_SIZE) with true
      by (symmetry; apply Z.ltb_lt; lia).
    unfold calloc_host. fwd.
    destruct (calloc_fails c) eqn:Hc.
    + apply calloc_result_fails in Hc as (rest & _ & Hc).
      rewrite (bind_Done _ _ _ _ _ Hc). fwd.
      match goal with
      | |- (bind (hosts_pool_scan (hosts_pool (hosts ?s)) _ _) _ _ = _ /\ _) \/ _ =>
          destruct (Hscan s eq_refl eq_refl) as [(p & a & E & Hin & He)|[E Hno]]
      end.
      * left. split; [|eauto]. rewrite (bind_Done _ _ _ _ _ E). reflexivity.
      * right. split; [|exact Hno]. rewrite (bind_Done _ _ _ _ _ E).
        eexists _, rest. reflexivity.
    + apply calloc_result_works in Hc as (rest & Hc). exists rest.
      rewrite (bind_Done _ _ _ _ _ Hc). fwd. unfold get_host_link, nonnull. fwd.
      erewrite bind_Done; [|apply host_load_at; apply list_lookup_middle; reflexivity].
      unfold host_store. fwd. reflexivity.
Qed.

(** Once [get_host] has returned, [get_port] returns. *)
Lemma get_port_returns_after haddr now c host c1 :
  get_host haddr now c = Done host c1 ->
  (forall a, host = Some a -> is_Some (hosts_mem (hosts c1) !! a)) ->
  exists r c', get_port haddr now c = Done r c'.
Proof.
  intros Eh Hv. unfold get_port. rewrite (bind_Done _ _ _ _ _ Eh). cbv beta iota.
  destruct host as [a|].
  - destruct (Hv a eq_refl) as [h Hh]. unfold bind, ret, gets, host_load.
    rewrite Hh. destruct (time_after_eq (host_time h) now); [eexists _, _; reflexivity|].
    unfold switch_get_port, driver, modify, bind, gets, ret. simpl.
    destruct ((0 <=? switch_port_of (world c1) haddr)
              && (switch_port_of (world c1) haddr <=? Z.of_nat PORT_MAX)).
    + unfold host_load, host_store, modify. simpl. rewrite Hh. eexists _, _. reflexivity.
    + eexists _, _. reflexivity.
  - unfold bind, ret, switch_get_port, driver, modify, bind, gets, ret.
    eexists _, _. reflexivity.
Qed.

(** X2.  X2.  [get_port] dereferences the cleared pointer, and nothing else that
    is not allocated, exactly on the recycle path: the MAC has no record,
    no new record is to be had, and some record of the pool has a time
    before [now]. *)
Theorem get_port_fault_is_recycling haddr now c :
  reachable c ->
  get_port haddr now c = Fault <->
  host_of c haddr = None /\
  (HOST_POOL_SIZE <=? hosts_count (hosts c)) || calloc_fails c = true /\
  exists a, In a (hosts_pool (hosts c)) /\ host_expired now c a.
Proof.
  intros Hr. pose proof (reachable_hosts_wf _ Hr) as Hw.
  destruct (host_find_total haddr c Hw) as [[a|] Hf].
  - pose proof (hosts_hash_find_some _ _ _ _ _ Hf) as (_ & h & Hh & _).
    assert (Hdone : exists r c', get_port haddr now c = Done r c').
    { apply (get_port_returns_after _ _ _ (Some a) c).
      - apply get_host_found. exact Hf.
      - intros a' Ha'. injection Ha' as <-. eauto. }
    destruct Hdone as (r & c' & E). split.
    + intros HF. congruence.
    + intros (Hnone & _). unfold host_of in Hnone. rewrite Hf, Hh in Hnone. discriminate.
  - assert (Hof : host_of c haddr = None) by (unfold host_of; rewrite Hf; reflexivity).
    pose proof (get_host_miss haddr now c Hw Hf) as Hm.
    destruct ((HOST_POOL_SIZE <=? hosts_count (hosts c)) || calloc_fails c).
    + destruct Hm as [[Hfault Hex]|[(n & rest & Hnull) Hno]].
      * split; [auto|]. intros _. unfold get_port. apply bind_Fault. exact Hfault.
      * destruct (get_port_returns_after _ _ _ _ _ Hnull) as (r & c' & E);
          [intros a Ha; discriminate|].
        split; [intros HF; congruence|].
        intros (_ & _ & a & Hin & He). elim (Hno a Hin He).
    + destruct Hm as (rest & Hnew).
      destruct (get_port_returns_after _ _ _ _ _ Hnew) as (r & c' & E).
      * intros a Ha. injection Ha as <-. rewrite host_created_mem.
        rewrite lookup_app_r, Nat.sub_diag by lia. eauto.
      * split; [intros HF; congruence|]. intros (_ & Hx & _). discriminate.
Qed.

(** ** Where a dereference can go wrong *)

Lemma bind_Fault_inv {A B} (m : cacheM A) (k : A -> cacheM B) c :
  bind m k c = Fault ->
  m c = Fault \/ exists a c1, m c = Done a c1 /\ k a c1 = Fault.
Proof. unfold bind. destruct (m c) as [a c1|]; eauto. Qed.

Lemma group_load_fault x c : group_load x c = Fault -> group_at c x = None.
Proof. unfold group_load. destruct (group_at c x); [discriminate|reflexivity]. Qed.

Lemma not_Fault {A} (o : outcome A) : o <> Fault -> exists r c', o = Done r c'.
Proof. destruct o as [r c'|]; [eauto|congruence]. Qed.

Ltac fault_inv1 :=
  match goal with
  | H : Done _ _ = Fault |- _ => discriminate H
  | H : ret _ _ = Fault |- _ => discriminate H
  | H : gets _ _ = Fault |- _ => discriminate H
  | H : modify _ _ = Fault |- _ => discriminate H
  | H : group_store _ _ _ = Fault |- _ => discriminate H
  | H : driver _ _ = Fault |- _ => discriminate H
  | H : switch_add_portmap _ _ _ = Fault |- _ => discriminate H
  | H : switch_del_portmap _ _ _ = Fault |- _ => discriminate H
  | H : switch_clr_portmap _ _ = Fault |- _ => discriminate H
  | H : calloc_result _ = Fault |- _ =>
      unfold calloc_result in H;
      destruct (calloc_results (world _)); discriminate H
  | H : group_load _ _ = Fault |- _ => apply group_load_fault in H
  | H : bind _ _ _ = Fault |- _ => apply bind_Fault_inv in H as [H|(? & ? & ? & H)]
  | H : (if ?b then _ else _) _ = Fault |- _ => destruct b eqn:?
  | H : (match ?x with _ => _ end) _ = Fault |- _ => destruct x eqn:?
  | H : (let '(_, _) := ?x in _) _ = Fault |- _ => destruct x eqn:?
  end.
Ltac fault_inv := repeat first [fault_inv1 | run_inv1].

Lemma get_member_fault group addr port al c :
  get_member group addr port al c = Fault -> group_at c group = None.
Proof. intros H. unfold get_member in H. fault_inv; assumption. Qed.

Lemma member_touch_fault group port pos time c :
  member_touch group port pos time c = Fault ->
  forall g, group_at c group = Some g -> port_members g port !! pos = None.
Proof.
  intros H g Hg. unfold member_touch in H.
  rewrite (bind_Done _ _ _ _ _ (group_load_at _ _ _ Hg)) in H.
  destruct (port_members g port !! pos); [discriminate H|reflexivity].
Qed.

Lemma consume_member_fault group port pos c :
  consume_member group port pos c = Fault ->
  forall g, group_at c group = Some g -> port_members g port !! pos = None.
Proof.
  intros H g Hg. unfold consume_member in H.
  rewrite (bind_Done _ _ _ _ _ (group_load_at _ _ _ Hg)) in H.
  destruct (port_members g port !! pos); [|reflexivity].
  exfalso. fault_inv.
Qed.

Lemma consume_group_fault group c :
  consume_group group c = Fault -> group_at c group = None.
Proof.
  intros H. destruct (group_at c group) as [g|] eqn:Hg; [|reflexivity].
  destruct (consume_group_total group c) as (c' & E); [eauto|]. congruence.
Qed.

(** A state with the records of [c] has a record wherever [c] has one. *)
Lemma kept_valid c s x :
  groups_kept c s -> is_Some (group_at c x) -> group_at s x = None -> False.
Proof.
  intros (_ & _ & _ & _ & K) [g Hg] Hn. destruct (K x g Hg) as (g' & Hg' & _). congruence.
Qed.

Lemma routers_fan_out_safe (mk : ether_addr -> Z -> driver_call) queue portmap c :
  (forall a, In a queue -> is_Some (group_at c (pooled a))) ->
  routers_fan_out queue portmap (fun ea m => driver (mk ea m)) c <> Fault.
Proof.
  revert c. induction queue as [|a queue IH]; intros c Hv H; simpl in H.
  - discriminate H.
  - destruct (Hv a (or_introl eq_refl)) as [g Hg].
    rewrite (bind_Done _ _ _ _ _ (group_load_at _ _ _ Hg)) in H. cbv zeta in H.
    apply bind_Fault_inv in H as [H|(u & c1 & E & H)].
    + destruct (_ =? 0); discriminate H.
    + apply IH in H; [exact H|]. intros b Hb.
      assert (c1 = c \/ exists new, c1 = logged new c) as [->|[new ->]].
      { destruct (_ =? 0).
        - unfold ret in E. injection E as _ <-. left. reflexivity.
        - rewrite driver_logged in E. injection E as _ <-. right. eauto. }
      * apply Hv. right. exact Hb.
      * rewrite group_at_logged. apply Hv. right. exact Hb.
Qed.

Lemma pool_valid c :
  groups_wf c -> forall a, In a (groups_pool (groups c)) -> is_Some (group_at c (pooled a)).
Proof. intros Hw a Hin. apply in_pool_allocated; assumption. Qed.

Lemma kept_pool_valid c s :
  groups_wf c -> groups_kept c s ->
  forall a, In a (groups_pool (groups c)) -> is_Some (group_at s (pooled a)).
Proof.
  intros Hw Hk a Hin. destruct (group_at s (pooled a)) eqn:E; [eauto|].
  exfalso. eapply kept_valid; [exact Hk|apply pool_valid; eassumption|exact E].
Qed.

Lemma group_timer_sweep_safe queue time exp c :
  (forall a, In a queue -> is_Some (group_at c (pooled a))) ->
  group_timer_sweep queue time exp c <> Fault.
Proof.
  revert exp c. induction queue as [|a queue IH]; intros exp c Hv H; simpl in H.
  - discriminate H.
  - destruct (Hv a (or_introl eq_refl)) as [g Hg].
    rewrite (bind_Done _ _ _ _ _ (group_load_at _ _ _ Hg)) in H. cbv zeta in H.
    assert (Hrest : forall b, In b queue -> is_Some (group_at c (pooled b))).
    { intros b Hb. apply Hv. right. exact Hb. }
    destruct (group_portmap g =? 0); [eapply IH; eassumption|].
    destruct (time_after (group_time g) time); [eapply IH; eassumption|].
    apply bind_Fault_inv in H as [H|(u & c1 & E & H)].
    { apply consume_group_fault in H. congruence. }
    apply bind_Fault_inv in H as [H|(rmap & c2 & E2 & H)]; [discriminate H|].
    unfold gets in E2. injection E2 as <- <-.
    apply bind_Fault_inv in H as [H|(u2 & c3 & E3 & H)].
    { destruct (_ =? 0); discriminate H. }
    apply IH in H; [exact H|]. intros b Hb.
    assert (Hk : groups_kept c c3).
    { destruct (_ =? 0); run_inv; use_inv; kept_peel. }
    destruct (group_at c3 (pooled b)) eqn:Eb; [eauto|].
    exfalso. eapply kept_valid; [exact Hk|apply Hrest; exact Hb|exact Eb].
Qed.

Lemma expire_all_safe queue time c :
  (forall a, In a queue -> is_Some (group_at c (pooled a))) ->
  expire_all queue time c <> Fault.
Proof.
  revert c. induction queue as [|a queue IH]; intros c Hv H; simpl in H.
  - discriminate H.
  - destruct (Hv a (or_introl eq_refl)) as [g Hg].
    rewrite (bind_Done _ _ _ _ _ (group_load_at _ _ _ Hg)) in H.
    unfold group_store in H. rewrite bind_modify in H.
    apply IH in H; [exact H|]. intros b Hb. apply group_at_put_is_Some.
    apply Hv. right. exact Hb.
Qed.

(** The member obtained by [get_member] is there to be written. *)
Lemma touch_after_get_safe group addr port time c r c1 g :
  group_at c group = Some g -> group_shaped g -> (port <= PORT_MAX)%nat ->
  get_member group addr port true c = Done r c1 ->
  match r with
  | Some pos => member_touch group port pos time
  | None => ret tt
  end c1 <> Fault.
Proof.
  intros Hg Hsh Hp E H.
  apply get_member_inv in E as (g0 & Hg0 & [(pos & -> & Hf & ->)|(Hf & [(-> & rest & ->)|(_ & -> & ms & rest & ->)])]).
  - assert (g0 = g) as -> by congruence.
    apply members_find_lookup in Hf as (m & Hm & _).
    pose proof (member_touch_fault _ _ _ _ _ H g Hg). congruence.
  - discriminate H.
  - assert (g0 = g) as -> by congruence.
    match type of H with
    | member_touch _ _ _ _ (put_group _ ?G ?s) = Fault =>
        assert (HG : group_at (put_group group G s) group = Some G)
    end.
    { apply group_at_put_eq. rewrite group_at_member_taken. eauto. }
    pose proof (member_touch_fault _ _ _ _ _ H _ HG) as Hn.
    rewrite port_members_set_eq in Hn by (rewrite Hsh; lia). discriminate Hn.
Qed.

(** An address that held a record in [c] still does in [s]. *)
Ltac still_valid c :=
  match goal with
  | Hn : group_at ?s ?x = None |- _ =>
      exfalso; apply (kept_valid c s x); [kept_peel| |exact Hn]
  end.

Lemma add_router_safe addr port timeout now c :
  groups_wf c -> add_router addr port timeout now c <> Fault.
Proof.
  intros Hw H. unfold add_router in H.
  destruct (port_invalid port) eqn:Hp; [discriminate H|].
  apply port_valid_le in Hp.
  assert (Hsh : group_shaped (routers_group (routers c))).
  { destruct Hw as (_ & _ & _ & _ & _ & _ & W7). apply (W7 the_routers). reflexivity. }
  apply bind_Fault_inv in H as [H|(g & c1 & E & H)]; [discriminate H|].
  apply group_load_inv in E as [-> Hg]. cbv zeta in H.
  unfold group_store in H. rewrite bind_modify in H.
  apply bind_Fault_inv in H as [H|(member & c2 & Em & H)].
  { apply get_member_fault in H. discriminate H. }
  apply bind_Fault_inv in H as [H|(u & c3 & Et & H)].
  { revert H.
    apply (touch_after_get_safe the_routers addr _ _
             (put_group the_routers (set_group_time (ulong (now + timeout)) g) c)
             member c2 (set_group_time (ulong (now + timeout)) g));
      [reflexivity| |exact Hp|exact Em].
    unfold group_at in Hg. injection Hg as <-. exact Hsh. }
  apply bind_Fault_inv in H as [H|(g3 & c4 & E4 & H)]; [discriminate H|].
  apply group_load_inv in E4 as [-> Hg3]. cbv zeta in H. rewrite bind_modify in H.
  apply bind_Fault_inv in H as [H|(timer & c5 & E5 & H)]; [discriminate H|].
  unfold gets in E5. injection E5 as <- <-.
  apply bind_Fault_inv in H as [H|(u6 & c6 & E6 & H)].
  { destruct (_ || _); discriminate H. }
  apply bind_Fault_inv in H as [H|(u7 & c7 & E7 & H)]; [|discriminate H].
  destruct (_ =? 0); [discriminate H|].
  rewrite bind_gets in H. revert H. apply (routers_fan_out_safe drv_add_portmap).
  assert (Hk : groups_kept c c6).
  { clear Hsh. destruct (_ || _); run_inv; use_inv; try discriminate; kept_peel. }
  intros a Hin. rewrite (proj1 Hk) in Hin. eapply kept_pool_valid; eassumption.
Qed.

Lemma router_timer_safe now c : groups_wf c -> router_timer now c <> Fault.
Proof.
  intros Hw H. pose proof H as H0.
  destruct (router_timer now c) as [r c'|] eqn:E; [discriminate H|]. clear H H0.
  unfold router_timer in E.
  apply bind_Fault_inv in E as [H|(g & c1 & E1 & H)]; [discriminate H|].
  apply group_load_inv in E1 as [-> Hg]. cbv zeta in H.
  destruct (group_portmap g <? 0); [discriminate H|].
  apply bind_Fault_inv in H as [H|(portmap & c2 & E2 & H)].
  - destruct (time_after (group_time g) now).
    + rewrite bind_gets in H.
      destruct (fold_left _ ports _) as [g' free'].
      rewrite bind_modify in H. cbv zeta in H. unfold group_store in H.
      rewrite bind_modify in H.
      apply bind_Fault_inv in H as [H|(u & c3 & E3 & H)]; [|discriminate H].
      destruct (_ =? 0); [|discriminate H].
      apply consume_group_fault in H. discriminate H.
    + apply bind_Fault_inv in H as [H|(u & c3 & E3 & H)]; [|discriminate H].
      apply consume_group_fault in H. discriminate H.
  - destruct (portmap =? 0); [discriminate H|].
    rewrite bind_gets in H. revert H. apply (routers_fan_out_safe drv_del_portmap).
    assert (Hk : groups_kept c c2).
    { assert (Hrun : router_timer now c = Done tt c2 \/ True) by (right; exact I).
      clear Hrun.
      destruct (time_after (group_time g) now).
      - apply bind_inv in E2 as (free & c3 & Ef & E2). unfold gets in Ef. injection Ef as <- <-.
        fold (router_fold now ports (set_group_time (ulong (now + ULONG_HALF)) g,
                                     members_free (members c))) in E2.
        destruct (router_fold now ports _) as [g' free'] eqn:Ef.
        apply router_fold_ea in Ef as [Hea Hsh]. cbn in Hea.
        run_inv; use_inv; try discriminate; kept_peel.
      - run_inv; use_inv; try discriminate; kept_peel. }
    intros a Hin.
    assert (Hpool : groups_pool (groups c2) = groups_pool (groups c)) by apply Hk.
    rewrite Hpool in Hin. eapply kept_pool_valid; eassumption.
Qed.

Lemma group_timer_safe now c : groups_wf c -> group_timer now c <> Fault.
Proof.
  intros Hw H. unfold group_timer in H. cbv zeta in H. rewrite bind_gets in H.
  apply bind_Fault_inv in H as [H|(exp & c1 & E & H)].
  - revert H. apply group_timer_sweep_safe. apply pool_valid. exact Hw.
  - destruct (time_before _ _); discriminate H.
Qed.

Lemma expire_members_safe maddr timeout now c :
  groups_wf c -> expire_members maddr timeout now c <> Fault.
Proof.
  intros Hw H. unfold expire_members in H. cbv zeta in H.
  apply bind_Fault_inv in H as [H|(found & c1 & E & H)].
  - destruct maddr as [ea|].
    + destruct (get_group_total ea c Hw) as [r Hr].
      rewrite (bind_Done _ _ _ _ _ Hr) in H. destruct r as [a|]; [|discriminate H].
      rewrite get_group_lookup in Hr.
      apply groups_hash_find_some in Hr as (_ & g & Hg & _).
      rewrite (bind_Done _ _ _ _ _ (group_load_at _ _ _ Hg)) in H. discriminate H.
    + rewrite bind_gets in H.
      apply bind_Fault_inv in H as [H|(u & c2 & E2 & H)]; [|discriminate H].
      revert H. apply expire_all_safe. apply pool_valid. exact Hw.
  - destruct found; [|discriminate H].
    rewrite bind_gets in H.
    apply bind_Fault_inv in H as [H|(u & c2 & E2 & H)]; [|discriminate H].
    destruct (_ || _); discriminate H.
Qed.

Lemma del_member_safe maddr addr port c :
  groups_wf c -> del_member maddr addr port c <> Fault.
Proof.
  intros Hw H. destruct (port_invalid port) eqn:Hp.
  - unfold del_member in H. rewrite Hp in H. discriminate H.
  - destruct (get_group_total maddr c Hw) as [[a|] Hr].
    + pose proof Hr as Hr'. rewrite get_group_lookup in Hr'.
      apply groups_hash_find_some in Hr' as (_ & g & Hg & _).
      destruct (del_member_total _ addr _ _ _ _ Hp Hr Hg) as (r & c' & E). congruence.
    + rewrite (del_member_no_group _ addr _ _ Hp Hr) in H. discriminate H.
Qed.

(** [op] is one of the two operations with a recycle path: [get_host] and
    [get_group] reuse a pooled record when no new one is to be had. *)
Definition may_recycle (op : call) : bool :=
  match op with
  | call_get_port _ _ | call_add_member _ _ _ _ _ => true
  | _ => false
  end.

(** X3.  X3.  In a reachable state [del_member], [add_router], [expire_members] and
    the two timer callbacks always return: they dereference no pointer
    that is [NULL] or was not allocated, and take no member that is not
    in its list. *)
Theorem other_operations_return op c :
  reachable c -> may_recycle op = false ->
  exists r c', run op c = Done r c'.
Proof.
  intros Hr Hop. apply reachable_wf in Hr as Hw. apply not_Fault.
  destruct op; try discriminate Hop; simpl.
  - apply del_member_safe. exact Hw.
  - apply add_router_safe. exact Hw.
  - apply expire_members_safe. exact Hw.
  - intros H. apply bind_Fault_inv in H as [H|(u & c1 & E & H)]; [|discriminate H].
    unfold fire_group_timer in H. rewrite bind_modify in H.
    revert H. apply group_timer_safe.
    revert Hw. apply groups_wf_kept, groups_kept_same; reflexivity.
  - intros H. apply bind_Fault_inv in H as [H|(u & c1 & E & H)]; [|discriminate H].
    unfold fire_router_timer in H. rewrite bind_modify in H.
    revert H. apply router_timer_safe.
    revert Hw. apply groups_wf_kept, groups_kept_same; reflexivity.
Qed.

(** ** When [add_member] runs into the cleared pointer *)

(** The group record at [a] has no ports: [get_group] may pick it for
    reuse. *)
Definition group_idle (c : cache) (a : nat) : Prop :=
  exists g, groups_mem (groups c) !! a = Some g /\ group_portmap g = 0.

Lemma groups_pool_scan_total queue pos c :
  (forall b, In b queue -> is_Some (groups_mem (groups c) !! b)) ->
  (exists p a, groups_pool_scan queue pos c = Done (Some (p, a)) c /\
               In a queue /\ group_idle c a)
  \/ (groups_pool_scan queue pos c = Done None c /\
      forall a, In a queue -> ~ group_idle c a).
Proof.
  revert pos. induction queue as [|b queue IH]; intros pos Hv; simpl.
  - right. split; [reflexivity|]. intros a [].
  - destruct (Hv b (or_introl eq_refl)) as [g Hg].
    rewrite (bind_Done _ _ _ _ _ (group_load_at (pooled b) _ _ Hg)).
    destruct (Z.eqb_spec (group_portmap g) 0) as [Hz|Hnz].
    + left. exists pos, b. split; [reflexivity|]. split; [left; reflexivity|].
      exists g. auto.
    + destruct (IH (S pos)) as [(p & a & E & Hin & He)|[E Hno]].
      * intros b' Hb'. apply Hv. right. exact Hb'.
      * left. exists p, a. split; [exact E|]. split; [right; exact Hin|exact He].
      * right. split; [exact E|]. intros a [<-|Hin].
        -- intros (g' & Hg' & Hz). congruence.
        -- apply Hno. exact Hin.
Qed.

(** What [get_group] with [allocate] does when the MAC has no record. *)
Lemma get_group_miss ea c :
  groups_wf c ->
  groups_hash_find (nth (HASH_INDEX ea) (groups_hash (groups c)) []) ea c = Done None c ->
  if (GROUP_POOL_SIZE <=? groups_count (groups c)) || calloc_fails c
  then (get_group ea true c = Fault /\
        exists a, In a (groups_pool (groups c)) /\ group_idle c a)
       \/ ((exists rest, get_group ea true c
                         = Done None (with_world (set_calloc_results rest) c)) /\
           forall a, In a (groups_pool (groups c)) -> ~ group_idle c a)
  else exists rest,
         get_group ea true c
         = Done (Some (length (groups_mem (groups c)))) (group_created ea rest c).
Proof.
  intros Hw Hnone. pose proof Hw as (W1 & _). unfold get_group.
  rewrite bind_gets, (bind_Done _ _ _ _ _ Hnone). cbn [negb]. fwd.
  assert (Hscan : forall s,
            groups_mem (groups s) = groups_mem (groups c) ->
            groups_pool (groups s) = groups_pool (groups c) ->
            (exists p a, groups_pool_scan (groups_pool (groups s)) 0 s = Done (Some (p, a)) s /\
                         In a (groups_pool (groups c)) /\ group_idle c a /\
                         is_Some (group_at s (pooled a)))
            \/ (groups_pool_scan (groups_pool (groups s)) 0 s = Done None s /\
                forall a, In a (groups_pool (groups c)) -> ~ group_idle c a)).
  { intros s Hm Hp.
    destruct (groups_pool_scan_total (groups_pool (groups s)) 0 s) as [(p & a & E & Hin & He)|[E Hno]].
    - intros b Hb. rewrite Hp, W1 in Hb. apply in_seq in Hb.
      rewrite Hm. apply lookup_lt_is_Some. lia.
    - left. exists p, a. split; [exact E|]. rewrite <- Hp. split; [exact Hin|].
      unfold group_idle in *. rewrite <- Hm. split; [exact He|].
      destruct He as (g & Hg & _). unfold group_at. eauto.
    - right. split; [exact E|]. intros a Hin. rewrite <- Hp in Hin.
      intros He. apply (Hno a Hin). unfold group_idle in *. rewrite Hm. exact He. }
  assert (Hrecycle : forall s p a k,
            is_Some (group_at s (pooled a)) ->
            (modify (with_groups (fun gs => set_groups_hash (hash_unlink a (groups_hash gs)) gs));;;
             modify (with_groups (fun gs => set_groups_pool (delete p (groups_pool gs)) gs));;;
             g <- group_load (pooled a);;
             switch_clr_portmap (group_ea g);;;
             get_group_link ea k NULL) s = Fault).
  { intros s p a k [g Hg]. fwd.
    erewrite bind_Done; [|apply group_load_at; exact Hg].
    unfold switch_clr_portmap, driver. fwd. reflexivity. }
  destruct (Z.leb_spec GROUP_POOL_SIZE (groups_count (groups c))) as [Hfull|Hroom]; simpl orb.
  - replace (groups_count (groups c) <? GROUP_POOL_SIZE) with false
      by (symmetry; apply Z.ltb_ge; lia).
    fwd.
    destruct (Hscan c eq_refl eq_refl) as [(p & a & E & Hin & He & Hv)|[E Hno]].
    + left. split; [|eauto]. rewrite (bind_Done _ _ _ _ _ E). cbv beta iota.
      apply Hrecycle. exact Hv.
    + right. split; [|exact Hno]. rewrite (bind_Done _ _ _ _ _ E).
      exists (calloc_results (world c)). rewrite with_world_id. reflexivity.
  - replace (groups_count (groups c) <? GROUP_POOL_SIZE) with true
      by (symmetry; apply Z.ltb_lt; lia).
    unfold calloc_group. fwd.
    destruct (calloc_fails c) eqn:Hc.
    + apply calloc_result_fails in Hc as (rest & _ & Hc).
      rewrite (bind_Done _ _ _ _ _ Hc). fwd.
      match goal with
      | |- (bind (groups_pool_scan (groups_pool (groups ?s)) _) _ _ = _ /\ _) \/ _ =>
          destruct (Hscan s eq_refl eq_refl) as [(p & a & E & Hin & He & Hv)|[E Hno]]
      end.
      * left. split; [|eauto]. rewrite (bind_Done _ _ _ _ _ E). cbv beta iota.
        apply Hrecycle. exact Hv.
      * right. split; [|exact Hno]. rewrite (bind_Done _ _ _ _ _ E).
        exists rest. reflexivity.
    + apply calloc_result_works in Hc as (rest & Hc). exists rest.
      rewrite (bind_Done _ _ _ _ _ Hc). fwd. unfold get_group_link, nonnull. fwd.
      erewrite bind_Done;
        [|apply (group_load_at (pooled _)); unfold group_at; apply list_lookup_middle; reflexivity].
      unfold group_store. fwd. reflexivity.
Qed.

(** Once [get_group] has returned, [add_member] returns. *)
Lemma add_member_returns_after maddr addr port timeout now c group c1 :
  port_invalid port = false ->
  get_group maddr true c = Done group c1 ->
  groups_wf c1 ->
  (forall a, group = Some a -> is_Some (group_at c1 (pooled a))) ->
  add_member maddr addr port timeout now c <> Fault.
Proof.
  intros Hp Eg Hw Hv H. unfold add_member in H. rewrite Hp in H.
  rewrite (bind_Done _ _ _ _ _ Eg) in H. cbv beta iota in H. clear Eg.
  apply port_valid_le in Hp.
  apply bind_Fault_inv in H as [H|(portmap & c2 & E2 & H)].
  - destruct group as [a|]; [|discriminate H].
    destruct (Hv a eq_refl) as [g Hg]. cbv zeta in H.
    assert (Hsh : group_shaped g).
    { destruct Hw as (_ & _ & _ & _ & _ & _ & W7). apply (W7 (pooled a)). exact Hg. }
    rewrite (bind_Done _ _ _ _ _ (group_load_at _ _ _ Hg)) in H. cbv zeta in H.
    unfold group_store in H. rewrite bind_modify in H.
    apply bind_Fault_inv in H as [H|(member & c3 & Em & H)].
    { apply get_member_fault in H. rewrite group_at_put_eq in H by eauto. discriminate H. }
    apply bind_Fault_inv in H as [H|(u & c4 & Et & H)].
    { revert H.
      apply (touch_after_get_safe (pooled a) addr _ _
               (put_group (pooled a) (set_group_time (ulong (now + timeout)) g) c1)
               member c3 (set_group_time (ulong (now + timeout)) g));
        [|exact Hsh|exact Hp|exact Em].
      apply group_at_put_eq. eauto. }
    apply bind_Fault_inv in H as [H|(g4 & c5 & E5 & H)].
    { apply group_load_fault in H.
      assert (Hk : groups_kept c1 c4).
      { clear H. destruct member; run_inv; use_inv; try discriminate; kept_peel. }
      eapply kept_valid; [exact Hk| |exact H]. eauto. }
    apply group_load_inv in E5 as [-> Hg4]. cbv zeta in H. rewrite bind_modify in H.
    rewrite bind_gets in H.
    apply bind_Fault_inv in H as [H|(u6 & c6 & E6 & H)]; [|discriminate H].
    destruct (_ || _); discriminate H.
  - apply bind_Fault_inv in H as [H|(u & c3 & E3 & H)]; [|discriminate H].
    destruct (portmap =? 0); [discriminate H|].
    rewrite bind_gets in H. discriminate H.
Qed.

Lemma group_of_miss c ea :
  groups_wf c ->
  group_of c ea = None <-> get_group ea false c = Done None c.
Proof.
  intros Hw. destruct (get_group_total ea c Hw) as [[a|] Hr]; unfold group_of; rewrite Hr.
  - rewrite get_group_lookup in Hr.
    apply groups_hash_find_some in Hr as (_ & g & Hg & _). unfold group_at in Hg.
    rewrite Hg. split; discriminate.
  - split; reflexivity.
Qed.

(** X4.  X4.  [add_member] dereferences the cleared pointer, and nothing else that
    is not allocated, exactly on the recycle path: the port is valid, the
    group has no record, no new record is to be had, and some record of
    the pool has bitmask 0. *)
Theorem add_member_fault_is_recycling maddr addr port timeout now c :
  reachable c ->
  add_member maddr addr port timeout now c = Fault <->
  port_invalid port = false /\
  group_of c maddr = None /\
  (GROUP_POOL_SIZE <=? groups_count (groups c)) || calloc_fails c = true /\
  exists a, In a (groups_pool (groups c)) /\ group_idle c a.
Proof.
  intros Hr. pose proof (reachable_wf _ Hr) as Hw. pose proof (reachable_sized _ Hr) as Hs.
  destruct (port_invalid port) eqn:Hp.
  { unfold add_member. rewrite Hp. split; [discriminate|]. intros (? & _). discriminate. }
  rewrite (group_of_miss _ _ Hw).
  destruct (get_group_total maddr c Hw) as [[a|] Hf].
  - assert (Hfound : get_group maddr true c = Done (Some a) c).
    { rewrite get_group_lookup in Hf. unfold get_group.
      rewrite bind_gets, (bind_Done _ _ _ _ _ Hf). reflexivity. }
    split.
    + intros HF. exfalso. revert HF.
      apply (add_member_returns_after _ _ _ _ _ _ (Some a) c Hp Hfound Hw).
      intros a' Ha'. injection Ha' as <-.
      rewrite get_group_lookup in Hf.
      apply groups_hash_find_some in Hf as (_ & g & Hg & _). eauto.
    + intros (_ & Hnone & _). congruence.
  - pose proof Hf as Hf'. rewrite get_group_lookup in Hf'.
    pose proof (get_group_miss maddr c Hw Hf') as Hm.
    destruct ((GROUP_POOL_SIZE <=? groups_count (groups c)) || calloc_fails c).
    + destruct Hm as [[Hfault Hex]|[(rest & Hnull) Hno]].
      * split; [auto|]. intros _. unfold add_member. rewrite Hp.
        apply bind_Fault. exact Hfault.
      * split.
        -- intros HF. exfalso. revert HF.
           apply (add_member_returns_after _ _ _ _ _ _ None _ Hp Hnull).
           ++ revert Hw. apply groups_wf_kept, groups_kept_same; reflexivity.
           ++ intros a Ha. discriminate.
        -- intros (_ & _ & _ & a & Hin & He). elim (Hno a Hin He).
    + destruct Hm as (rest & Hnew). split.
      * intros HF. exfalso. revert HF.
        apply (add_member_returns_after _ _ _ _ _ _ _ _ Hp Hnew).
        -- eapply get_group_keeps_wf; eassumption.
        -- intros a Ha. injection Ha as <-. rewrite group_at_created. eauto.
      * intros (_ & _ & Hx & _). discriminate.
Qed.

(** * Shutdown *)

(** [free(p)] leaves the store as it is: the store is the history of the
    allocations, and what [free] takes away is the right to use the
    address.  It is shown below that [purge_cache] leaves no pointer to
    a record it freed. *)

(** [while ((group = STAILQ_FIRST(&groups.pool))) {
       consume_group(group);
       LIST_REMOVE(group, hash);
       STAILQ_REMOVE_HEAD(&groups.pool, link);
       switch_clr_portmap(group->ea);
       free(group); }]
    over the queue as it is when the loop starts; the loop body takes
    nothing but the head off the queue. *)
Fixpoint purge_groups (queue : list nat) : cacheM unit :=
  match queue with
  | [] => ret tt
  | a :: queue' =>
      consume_group (pooled a);;;
      modify (with_groups (fun gs => set_groups_hash (hash_unlink a (groups_hash gs)) gs));;;
      modify (with_groups (fun gs => set_groups_pool (tail (groups_pool gs)) gs));;;
      g <- group_load (pooled a);;
      switch_clr_portmap (group_ea g);;;
      purge_groups queue'
  end.

(** [while ((host = STAILQ_FIRST(&hosts.pool))) {
       STAILQ_REMOVE_HEAD(&hosts.pool, link);
       LIST_REMOVE(host, hash);
       free(host); }] *)
Fixpoint purge_hosts (queue : list nat) : cacheM unit :=
  match queue with
  | [] => ret tt
  | a :: queue' =>
      modify (with_hosts (fun hs => set_hosts_pool (tail (hosts_pool hs)) hs));;;
      host_load a;;;
      modify (with_hosts (fun hs => set_hosts_hash (hash_unlink a (hosts_hash hs)) hs));;;
      purge_hosts queue'
  end.

Definition purge_cache : cacheM Z :=
  modify (with_groups (fun gs => set_groups_timer (del_timer (groups_timer gs)) gs));;;
  modify (with_routers (fun rs => set_routers_timer (del_timer (routers_timer rs)) rs));;;
  queue <- gets (fun c => groups_pool (groups c));;
  purge_groups queue;;;
  consume_group the_routers;;;
  (* LIST_FOREACH_SAFE(member, &members.free, link, next_member)
       { LIST_REMOVE(member, link); free(member); } *)
  modify (with_members (set_members_free []));;;
  queue <- gets (fun c => hosts_pool (hosts c));;
  purge_hosts queue;;;
  ret 0.

(** ** What shutdown leaves *)

(** The record has bitmask 0 and no member on any port. *)
Definition group_cleared (g : group_entry) : Prop :=
  group_portmap g = 0 /\ forall p, (p <= PORT_MAX)%nat -> port_members g p = [].

Lemma cleared_after_consume g :
  group_cleared (clear_ports ports (set_group_portmap 0 g)).
Proof.
  split; [apply group_portmap_cleared|].
  intros p Hp. apply clear_ports_in. apply in_ports. exact Hp.
Qed.

(** The MAC of the record at [a]. *)
Definition ea_at (c : cache) (a : nat) : ether_addr :=
  match groups_mem (groups c) !! a with
  | Some g => group_ea g
  | None => ea_zero
  end.

(** The state the loop over the groups [queue] leaves, from [c]. *)
Definition groups_purged (queue : list nat) (c c' : cache) : Prop :=
  hosts c' = hosts c /\ routers c' = routers c /\
  groups_timer (groups c') = groups_timer (groups c) /\
  groups_count (groups c') = groups_count (groups c) /\
  members_count (members c') = members_count (members c) /\
  groups_pool (groups c') = drop (length queue) (groups_pool (groups c)) /\
  groups_hash (groups c') = fold_left (fun h a => hash_unlink a h) queue (groups_hash (groups c)) /\
  length (groups_mem (groups c')) = length (groups_mem (groups c)) /\
  (forall a g, groups_mem (groups c) !! a = Some g ->
     exists g', groups_mem (groups c') !! a = Some g' /\ group_ea g' = group_ea g /\
                (In a queue -> group_cleared g') /\ (group_cleared g -> group_cleared g')) /\
  driver_log (world c') = driver_log (world c) ++ map (fun a => drv_clr_portmap (ea_at c a)) queue.

Lemma purge_groups_spec queue c :
  (forall a, In a queue -> is_Some (groups_mem (groups c) !! a)) ->
  exists c', purge_groups queue c = Done tt c' /\ groups_purged queue c c'.
Proof.
  revert c. induction queue as [|a queue IH]; intros c Hv.
  - exists c. split; [reflexivity|]. unfold groups_purged. simpl.
    rewrite drop_0, app_nil_r. repeat split; try reflexivity.
    intros a g Hg. exists g. split; [exact Hg|]. split; [reflexivity|].
    split; [intros []|auto].
  - destruct (Hv a (or_introl eq_refl)) as [g Hg].
    destruct (consume_group_total (pooled a) c) as (c1 & E1); [unfold group_at; eauto|].
    pose proof E1 as E1'. apply consume_group_inv in E1' as (g0 & free' & Hg0 & ->).
    unfold group_at in Hg0. assert (g0 = g) as -> by congruence.
    set (G := clear_ports ports (set_group_portmap 0 g)) in *.
    set (s := with_groups (fun gs => set_groups_pool (tail (groups_pool gs)) gs)
                (with_groups (fun gs => set_groups_hash (hash_unlink a (groups_hash gs)) gs)
                   (with_members (set_members_free free') (put_group (pooled a) G c)))).
    assert (Hmem : groups_mem (groups s) = <[a := G]> (groups_mem (groups c))) by reflexivity.
    assert (Hat : groups_mem (groups s) !! a = Some G).
    { rewrite Hmem. apply list_lookup_insert_eq. eapply lookup_lt_Some. exact Hg. }
    destruct (IH (logged [drv_clr_portmap (group_ea G)] s)) as (c' & E' & P).
    { intros b Hb. change (is_Some (groups_mem (groups s) !! b)). rewrite Hmem.
      apply lookup_lt_is_Some. rewrite length_insert. apply lookup_lt_is_Some.
      apply Hv. right. exact Hb. }
    exists c'. split.
    + simpl. rewrite (bind_Done _ _ _ _ _ E1). fwd.
      erewrite bind_Done; [|apply (group_load_at (pooled a)); exact Hat].
      unfold switch_clr_portmap. erewrite bind_Done; [|apply driver_logged]. exact E'.
    + destruct P as (P1 & P2 & P3 & P4 & P5 & P6 & P7 & P8 & P9 & P10).
      unfold groups_purged. rewrite P1, P2, P3, P4, P5, P6, P7, P8, P10.
      split; [reflexivity|]. split; [reflexivity|]. split; [reflexivity|].
      split; [reflexivity|]. split; [reflexivity|].
      split; [|split; [reflexivity|split; [|split]]].
      * change (groups_pool (groups (logged [drv_clr_portmap (group_ea G)] s)))
          with (tail (groups_pool (groups c))).
        destruct (groups_pool (groups c)); [simpl; rewrite !drop_nil; reflexivity|reflexivity].
      * change (length (groups_mem (groups s)) = length (groups_mem (groups c))).
        rewrite Hmem. apply length_insert.
      * intros b gb Hb.
        assert (Hb1 : exists g1, groups_mem (groups s) !! b = Some g1 /\
                        group_ea g1 = group_ea gb /\
                        (b = a -> group_cleared g1) /\ (group_cleared gb -> group_cleared g1)).
        { rewrite Hmem. destruct (decide (a = b)) as [<-|Hne].
          - exists G. rewrite list_lookup_insert_eq by (eapply lookup_lt_Some; exact Hg).
            assert (gb = g) as -> by congruence.
            split; [reflexivity|]. split; [unfold G; rewrite clear_ports_ea; reflexivity|].
            split; intros _; apply cleared_after_consume.
          - exists gb. rewrite list_lookup_insert_ne by exact Hne.
            split; [exact Hb|]. split; [reflexivity|]. split; [congruence|auto]. }
        destruct Hb1 as (g1 & Hg1 & Hea1 & Hc1 & Hk1).
        destruct (P9 b g1 Hg1) as (g' & Hg' & Hea' & Hin' & Hk').
        exists g'. split; [exact Hg'|]. split; [congruence|]. split.
        -- intros [<-|Hin]; [apply Hk', Hc1; reflexivity|apply Hin'; exact Hin].
        -- intros Hc. apply Hk', Hk1, Hc.
      * change (driver_log (world (logged [drv_clr_portmap (group_ea G)] s)))
          with (driver_log (world c) ++ [drv_clr_portmap (group_ea G)]).
        rewrite <- app_assoc. simpl. f_equal. f_equal.
        -- unfold ea_at. rewrite Hg. unfold G. rewrite clear_ports_ea. reflexivity.
        -- apply map_ext_in. intros b Hb. unfold ea_at.
           change (groups_mem (groups (logged [drv_clr_portmap (group_ea G)] s)))
             with (groups_mem (groups s)).
           rewrite Hmem. destruct (decide (a = b)) as [<-|Hne].
           ++ rewrite list_lookup_insert_eq by (eapply lookup_lt_Some; exact Hg).
              rewrite Hg. unfold G. rewrite clear_ports_ea. reflexivity.
           ++ rewrite list_lookup_insert_ne by exact Hne. reflexivity.
Qed.

Lemma purge_hosts_spec queue c :
  (forall a, In a queue -> is_Some (hosts_mem (hosts c) !! a)) ->
  exists c',
    purge_hosts queue c = Done tt c' /\
    groups c' = groups c /\ routers c' = routers c /\ members c' = members c /\
    world c' = world c /\
    hosts_mem (hosts c') = hosts_mem (hosts c) /\
    hosts_count (hosts c') = hosts_count (hosts c) /\
    hosts_pool (hosts c') = drop (length queue) (hosts_pool (hosts c)) /\
    hosts_hash (hosts c') = fold_left (fun h a => hash_unlink a h) queue (hosts_hash (hosts c)).
Proof.
  revert c. induction queue as [|a queue IH]; intros c Hv.
  - exists c. simpl. rewrite drop_0. repeat split.
  - destruct (Hv a (or_introl eq_refl)) as [h Hh].
    set (s := with_hosts (fun hs => set_hosts_hash (hash_unlink a (hosts_hash hs)) hs)
                (with_hosts (fun hs => set_hosts_pool (tail (hosts_pool hs)) hs) c)).
    destruct (IH s) as (c' & E' & P1 & P2 & P3 & P4 & P5 & P6 & P7 & P8).
    { intros b Hb. apply Hv. right. exact Hb. }
    exists c'. split.
    + simpl. fwd. erewrite bind_Done; [|apply host_load_at; exact Hh]. fwd. exact E'.
    + rewrite P1, P2, P3, P4, P5, P6, P7, P8. repeat split.
      change (hosts_pool (hosts s)) with (tail (hosts_pool (hosts c))).
      destruct (hosts_pool (hosts c)); [simpl; rewrite !drop_nil; reflexivity|reflexivity].
Qed.

Lemma nth_hash_unlink a hash i :
  nth i (hash_unlink a hash) [] = List.remove Nat.eq_dec a (nth i hash []).
Proof.
  unfold hash_unlink.
  change (@nil nat) with (List.remove Nat.eq_dec a []) at 1. apply map_nth.
Qed.

(** Unlinking every record of the table empties every chain. *)
Lemma unlink_all queue hash i :
  (forall a, In a (nth i hash []) -> In a queue) ->
  nth i (fold_left (fun h a => hash_unlink a h) queue hash) [] = [].
Proof.
  revert hash. induction queue as [|a queue IH]; intros hash Hin; simpl.
  - destruct (nth i hash []) as [|b l]; [reflexivity|]. destruct (Hin b (or_introl eq_refl)).
  - apply IH. intros b Hb. rewrite nth_hash_unlink in Hb.
    apply in_remove in Hb as [Hb Hne]. destruct (Hin b Hb) as [->|Hq]; [congruence|exact Hq].
Qed.

(** What [purge_cache] does from a reachable state. *)
Lemma purge_cache_effect c :
  reachable c ->
  exists c',
    purge_cache c = Done 0 c' /\
    calls_made c c' (map (fun a => drv_clr_portmap (ea_at c a)) (groups_pool (groups c))) /\
    groups_pool (groups c') = [] /\
    hosts_pool (hosts c') = [] /\
    (forall i, nth i (groups_hash (groups c')) [] = []) /\
    (forall i, nth i (hosts_hash (hosts c')) [] = []) /\
    members_free (members c') = [] /\
    (forall y g, group_at c' y = Some g -> group_cleared g) /\
    timer_pending (groups_timer (groups c')) = false /\
    timer_pending (routers_timer (routers c')) = false /\
    groups_count (groups c') = groups_count (groups c) /\
    members_count (members c') = members_count (members c) /\
    hosts_count (hosts c') = hosts_count (hosts c).
Proof.
  intros Hr. pose proof (reachable_wf _ Hr) as Hw. pose proof (reachable_hosts_wf _ Hr) as Hh.
  pose proof Hw as (W1 & _ & _ & W4 & _). pose proof Hh as (V1 & V2 & _).
  set (s0 := with_routers (fun rs => set_routers_timer (del_timer (routers_timer rs)) rs)
               (with_groups (fun gs => set_groups_timer (del_timer (groups_timer gs)) gs) c)).
  destruct (purge_groups_spec (groups_pool (groups c)) s0)
    as (c1 & E1 & P1 & P2 & P3 & P4 & P5 & P6 & P7 & P8 & P9 & P10).
  { intros a Ha. apply (in_pool_allocated c); assumption. }
  destruct (consume_group_total the_routers c1) as (c2 & E2); [unfold group_at; eauto|].
  pose proof E2 as E2'. apply consume_group_inv in E2' as (g0 & free' & Hg0 & ->).
  set (s2 := with_members (set_members_free [])
               (with_members (set_members_free free')
                  (put_group the_routers (clear_ports ports (set_group_portmap 0 g0)) c1))).
  destruct (purge_hosts_spec (hosts_pool (hosts c)) s2)
    as (c3 & E3 & Q1 & Q2 & Q3 & Q4 & Q5 & Q6 & Q7 & Q8).
  { intros a Ha. change (hosts_mem (hosts s2)) with (hosts_mem (hosts c1)). rewrite P1.
    rewrite V1 in Ha. apply in_seq in Ha. apply lookup_lt_is_Some. simpl. lia. }
  exists c3. split.
  { unfold purge_cache. fwd. fold s0.
    change (groups_pool (groups s0)) with (groups_pool (groups c)).
    rewrite (bind_Done _ _ _ _ _ E1). cbv beta. rewrite (bind_Done _ _ _ _ _ E2). fwd.
    fold s2. change (hosts_pool (hosts s2)) with (hosts_pool (hosts c1)).
    rewrite P1. change (hosts_pool (hosts s0)) with (hosts_pool (hosts c)).
    rewrite (bind_Done _ _ _ _ _ E3). reflexivity. }
  split.
  { unfold calls_made. rewrite Q4.
    change (driver_log (world s2)) with (driver_log (world c1)). rewrite P10.
    reflexivity. }
  split.
  { rewrite Q1. change (groups_pool (groups s2)) with (groups_pool (groups c1)).
    rewrite P6. change (groups_pool (groups s0)) with (groups_pool (groups c)).
    apply drop_all. }
  split.
  { rewrite Q7. change (hosts_pool (hosts s2)) with (hosts_pool (hosts c1)). rewrite P1.
    change (hosts_pool (hosts s0)) with (hosts_pool (hosts c)). apply drop_all. }
  split.
  { intros i. rewrite Q1. change (groups_hash (groups s2)) with (groups_hash (groups c1)).
    rewrite P7. apply unlink_all. change (groups_hash (groups s0)) with (groups_hash (groups c)).
    intros a Ha. destruct (W4 i a Ha) as (g & Hg & _).
    rewrite W1. apply in_seq. apply lookup_lt_Some in Hg. lia. }
  split.
  { intros i. rewrite Q8. change (hosts_hash (hosts s2)) with (hosts_hash (hosts c1)).
    rewrite P1. change (hosts_hash (hosts s0)) with (hosts_hash (hosts c)).
    apply unlink_all. intros a Ha. destruct (V2 i a Ha) as (h & Hh' & _).
    rewrite V1. apply in_seq. apply lookup_lt_Some in Hh'. lia. }
  split; [rewrite Q3; reflexivity|].
  split.
  { intros [a|] g Hy; unfold group_at in Hy.
    - rewrite Q1 in Hy. change (groups_mem (groups s2)) with (groups_mem (groups c1)) in Hy.
      pose proof (lookup_lt_Some _ _ _ Hy) as Hlt. rewrite P8 in Hlt.
      change (groups_mem (groups s0)) with (groups_mem (groups c)) in *.
      apply lookup_lt_is_Some in Hlt as [g1 Hg1].
      destruct (P9 a g1 Hg1) as (g' & Hg' & _ & Hcl & _).
      assert (g' = g) as -> by congruence. apply Hcl.
      rewrite W1. apply in_seq. apply lookup_lt_Some in Hg1. lia.
    - rewrite Q2 in Hy. injection Hy as <-. apply cleared_after_consume. }
  split; [rewrite Q1; change (groups_timer (groups s2)) with (groups_timer (groups c1));
          rewrite P3; reflexivity|].
  split; [rewrite Q2; change (routers_timer (routers s2)) with (routers_timer (routers c1));
          rewrite P2; reflexivity|].
  split; [rewrite Q1; change (groups_count (groups s2)) with (groups_count (groups c1));
          rewrite P4; reflexivity|].
  split; [rewrite Q3; change (members_count (members s2)) with (members_count (members c1));
          rewrite P5; reflexivity|].
  rewrite Q6. change (hosts_count (hosts s2)) with (hosts_count (hosts c1)).
  rewrite P1. reflexivity.
Qed.

(** X5.  X5.  From a reachable state [purge_cache] returns 0.  It tells the driver
    to clear the forwarding entry of every group, in pool order, and
    leaves no pointer to a record: both pool queues, every hash chain and
    the free list are empty, no group record and not the router state has
    a member or a port left, and both timers are idle.  The three
    counters are not reset. *)
Theorem purge_cache_releases c :
  reachable c ->
  exists c',
    purge_cache c = Done 0 c' /\
    calls_made c c' (map (fun a => drv_clr_portmap (ea_at c a)) (groups_pool (groups c))) /\
    groups_pool (groups c') = [] /\
    hosts_pool (hosts c') = [] /\
    (forall i, nth i (groups_hash (groups c')) [] = []) /\
    (forall i, nth i (hosts_hash (hosts c')) [] = []) /\
    members_free (members c') = [] /\
    (forall y g, group_at c' y = Some g -> group_cleared g) /\
    timer_pending (groups_timer (groups c')) = false /\
    timer_pending (routers_timer (routers c')) = false /\
    groups_count (groups c') = groups_count (groups c) /\
    members_count (members c') = members_count (members c) /\
    hosts_count (hosts c') = hosts_count (hosts c).
Proof. exact (purge_cache_effect c). Qed.

(** * The member pool *)

(** The number of member records linked into the lists of [g]. *)
Definition linked (g : group_entry) : Z :=
  Z.of_nat (length (concat (group_members g))).

Definition linked_in (gs : list group_entry) : Z :=
  fold_right (fun g n => linked g + n) 0 gs.

(** The member records in existence: on the free list, in the router
    state and in the group records. *)
Definition members_held (c : cache) : Z :=
  Z.of_nat (length (members_free (members c)))
  + linked (routers_group (routers c))
  + linked_in (groups_mem (groups c)).

(** [members.count] counts the member records in existence and is within
    [MEMBER_POOL_SIZE]. *)
Definition members_accounted (c : cache) : Prop :=
  (forall y g, group_at c y = Some g -> group_shaped g) /\
  members_count (members c) = members_held c /\
  members_count (members c) <= MEMBER_POOL_SIZE.

Lemma concat_insert_length {A} (L : list (list A)) p l :
  (p < length L)%nat ->
  (length (concat (<[p := l]> L)) + length (nth p L []) = length (concat L) + length l)%nat.
Proof.
  revert p. induction L as [|x L IH]; intros [|p] Hp; simpl in *; try lia.
  - rewrite !length_app. lia.
  - rewrite !length_app. specialize (IH p ltac:(lia)). lia.
Qed.

Lemma linked_set_port p l g :
  linked (set_port_members p l g)
  = linked g - Z.of_nat (length (port_members g p))
    + (if decide (p < length (group_members g))%nat then Z.of_nat (length l) else 0).
Proof.
  unfold linked, set_port_members, port_members. simpl.
  destruct (decide (p < length (group_members g))%nat) as [Hlt|Hge].
  - pose proof (concat_insert_length (group_members g) p l Hlt). lia.
  - rewrite list_insert_ge by lia. rewrite nth_overflow by lia. simpl. lia.
Qed.

Lemma linked_in_insert mem a g g' :
  mem !! a = Some g -> linked_in (<[a := g']> mem) = linked_in mem - linked g + linked g'.
Proof.
  revert a. induction mem as [|x mem IH]; intros [|a] H; simpl in *; try discriminate.
  - injection H as ->. lia.
  - rewrite (IH a H). lia.
Qed.

Lemma linked_in_app l1 l2 : linked_in (l1 ++ l2) = linked_in l1 + linked_in l2.
Proof. induction l1 as [|x l1 IH]; simpl; [reflexivity|]. rewrite IH. lia. Qed.

Lemma held_put x g g' c :
  group_at c x = Some g ->
  members_held (put_group x g' c) = members_held c - linked g + linked g'.
Proof.
  intros Hg. destruct x as [a|]; unfold members_held, put_group, group_at in *; simpl.
  - rewrite (linked_in_insert _ _ _ _ Hg). lia.
  - injection Hg as <-. lia.
Qed.

(** One record and the pool change, and the books still balance. *)
Lemma accounted_move x g g' ms c :
  group_at c x = Some g -> group_shaped g' ->
  members_count ms - Z.of_nat (length (members_free ms)) - linked g'
  = members_count (members c) - Z.of_nat (length (members_free (members c))) - linked g ->
  members_count ms <= MEMBER_POOL_SIZE ->
  members_accounted c ->
  members_accounted (with_members (fun _ => ms) (put_group x g' c)).
Proof.
  intros Hg Hsh Hbal Hle (A1 & A2 & A3). split; [|split].
  - intros y gy Hy. rewrite group_at_with_members in Hy.
    apply group_at_put in Hy as [[_ ->]|[_ Hy]]; [exact Hsh|eapply A1; exact Hy].
  - destruct x as [a|]; unfold members_held, put_group, group_at in *; simpl in *.
    + rewrite (linked_in_insert _ _ _ _ Hg). lia.
    + injection Hg as <-. lia.
  - exact Hle.
Qed.

Lemma accounted_put x g g' c :
  group_at c x = Some g -> group_shaped g' -> linked g' = linked g ->
  members_accounted c -> members_accounted (put_group x g' c).
Proof.
  intros Hg Hsh Hl Ha.
  assert (E : put_group x g' c = with_members (fun _ => members c) (put_group x g' c)).
  { destruct c as [? [] ? ? ?], x; reflexivity. }
  rewrite E. apply (accounted_move x g); try assumption; [rewrite Hl; reflexivity|apply Ha].
Qed.

(** Changes outside the member pool and the group records. *)
Lemma accounted_same c c' :
  groups_mem (groups c') = groups_mem (groups c) ->
  routers_group (routers c') = routers_group (routers c) ->
  members c' = members c ->
  members_accounted c -> members_accounted c'.
Proof.
  intros Hg Hr Hm (A1 & A2 & A3). unfold members_accounted, members_held.
  rewrite Hg, Hr, Hm. split; [|split; assumption].
  intros [a|] g Hy; unfold group_at in Hy.
  - rewrite Hg in Hy. apply (A1 (pooled a)). exact Hy.
  - rewrite Hr in Hy. apply (A1 the_routers). exact Hy.
Qed.

Lemma shaped_at c x g : members_accounted c -> group_at c x = Some g -> group_shaped g.
Proof. intros (A1 & _) Hg. eapply A1. exact Hg. Qed.

(** *** The steps that move member records *)

Lemma get_member_accounted group addr port al c r c' :
  (port <= PORT_MAX)%nat ->
  members_accounted c -> get_member group addr port al c = Done r c' ->
  members_accounted c'.
Proof.
  intros Hp Ha H. unfold get_member in H.
  apply bind_inv in H as (g & c0 & E & H). apply group_load_inv in E as [-> Hg].
  pose proof (shaped_at _ _ _ Ha Hg) as Hsh.
  assert (Hins : forall m,
            linked (set_port_members port (m :: port_members g port) g) = linked g + 1).
  { intros m. rewrite linked_set_port. rewrite decide_True by (rewrite Hsh; lia).
    simpl length. lia. }
  pose proof Ha as (_ & A2 & A3).
  destruct (members_find (port_members g port) addr); [unfold ret in H; injection H as _ <-; exact Ha|].
  destruct (negb al); [unfold ret in H; injection H as _ <-; exact Ha|].
  rewrite bind_gets in H.
  destruct (members_free (members c)) as [|m0 free'] eqn:Hfree.
  - rewrite bind_bind, bind_gets in H.
    destruct (Z.ltb_spec (members_count (members c)) MEMBER_POOL_SIZE) as [Hroom|Hfull].
    + rewrite bind_bind in H. apply bind_inv in H as (ok & c1 & Ec & H).
      apply calloc_result_inv in Ec as (rest & ->). destruct ok.
      * rewrite bind_bind, bind_modify, bind_ret in H. unfold group_store in H.
        rewrite bind_modify in H. unfold ret in H. injection H as _ <-.
        match goal with
        | |- members_accounted (put_group _ ?G (with_members ?f (with_world ?w c))) =>
            apply (accounted_same (with_members (fun _ => f (members c)) (put_group group G c)));
              [destruct group; reflexivity|destruct group; reflexivity|destruct group; reflexivity|];
            apply (accounted_move group g); [exact Hg|apply shaped_set_port, Hsh| |simpl; lia|exact Ha]
        end.
        rewrite Hins. simpl. rewrite ?Hfree. simpl. lia.
      * rewrite bind_ret in H. unfold ret in H. injection H as _ <-.
        revert Ha. apply accounted_same; reflexivity.
    + rewrite bind_ret in H. unfold ret in H. injection H as _ <-. exact Ha.
  - rewrite bind_bind, bind_modify, bind_ret in H. unfold group_store in H.
    rewrite bind_modify in H. unfold ret in H. injection H as _ <-.
    match goal with
    | |- members_accounted (put_group _ ?G (with_members ?f c)) =>
        apply (accounted_same (with_members (fun _ => f (members c)) (put_group group G c)));
          [destruct group; reflexivity|destruct group; reflexivity|destruct group; reflexivity|];
        apply (accounted_move group g); [exact Hg|apply shaped_set_port, Hsh| |simpl; lia|exact Ha]
    end.
    rewrite Hins. simpl. rewrite ?Hfree. simpl length. lia.
Qed.

Lemma in_range_of_member g port pos m :
  port_members g port !! pos = Some m -> (port < length (group_members g))%nat.
Proof.
  unfold port_members. intros H.
  destruct (decide (port < length (group_members g))%nat) as [Hlt|Hge]; [exact Hlt|].
  rewrite nth_overflow in H by lia. rewrite lookup_nil in H. discriminate.
Qed.

Lemma member_touch_accounted group port pos time c r c' :
  members_accounted c -> member_touch group port pos time c = Done r c' ->
  members_accounted c'.
Proof.
  intros Ha H. apply member_touch_inv in H as (g & m & Hg & Hm & ->).
  apply (accounted_put group g); [exact Hg|apply shaped_set_port; eapply shaped_at; eassumption| |exact Ha].
  rewrite linked_set_port. rewrite decide_True by (eapply in_range_of_member; exact Hm).
  rewrite length_insert. lia.
Qed.

Lemma consume_member_accounted group port pos c r c' :
  members_accounted c -> consume_member group port pos c = Done r c' ->
  members_accounted c'.
Proof.
  intros Ha H. apply consume_member_inv in H as (g & m & Hg & Hm & ->).
  match goal with
  | |- members_accounted (with_members ?f (put_group _ ?G c)) =>
      apply (accounted_same (with_members (fun _ => f (members c)) (put_group group G c)));
        [destruct group; reflexivity|destruct group; reflexivity|destruct group; reflexivity|];
      apply (accounted_move group g);
        [exact Hg|apply shaped_set_port; eapply shaped_at; eassumption| |simpl; apply Ha|exact Ha]
  end.
  rewrite linked_set_port. rewrite decide_True by (eapply in_range_of_member; exact Hm).
  rewrite length_delete by eauto. apply lookup_lt_Some in Hm. simpl. lia.
Qed.

Lemma consume_members_length l free :
  length (consume_members l free) = (length l + length free)%nat.
Proof. revert free. induction l as [|m l IH]; intros free; simpl; [reflexivity|]. rewrite IH. simpl. lia. Qed.

(** Emptying lists into the free list keeps the number of records. *)
Lemma consume_fold_balance l g free :
  let '(g', free') :=
    fold_left (fun '(g, free) port =>
                 (set_port_members port [] g, consume_members (port_members g port) free))
              l (g, free) in
  Z.of_nat (length free') + linked g' = Z.of_nat (length free) + linked g.
Proof.
  revert g free. induction l as [|p l IH]; intros g free; simpl; [reflexivity|].
  specialize (IH (set_port_members p [] g) (consume_members (port_members g p) free)).
  destruct (fold_left _ l _) as [g' free'].
  rewrite IH, consume_members_length, linked_set_port.
  destruct (decide _); simpl; lia.
Qed.

Lemma consume_group_accounted group c r c' :
  members_accounted c -> consume_group group c = Done r c' -> members_accounted c'.
Proof.
  intros Ha H. unfold consume_group in H.
  apply bind_inv in H as (g & c0 & E & H). apply group_load_inv in E as [-> Hg].
  rewrite bind_gets in H.
  pose proof (consume_fold_balance ports (set_group_portmap 0 g) (members_free (members c))) as Hb.
  pose proof (consume_fold_group ports (set_group_portmap 0 g) (members_free (members c))) as Hf.
  destruct (fold_left _ ports _) as [g' free']. cbn [fst] in Hf. subst g'.
  unfold group_store in H. rewrite bind_modify in H. unfold modify in H. injection H as _ <-.
  match goal with
  | |- members_accounted (with_members ?f (put_group _ ?G c)) =>
      apply (accounted_same (with_members (fun _ => f (members c)) (put_group group G c)));
        [destruct group; reflexivity|destruct group; reflexivity|destruct group; reflexivity|];
      apply (accounted_move group g);
        [exact Hg|apply (shaped_clear ports); exact (shaped_at _ _ _ Ha Hg)
        | |simpl; apply Ha|exact Ha]
  end.
  cbn [members_count members_free set_members_free].
  change (linked (set_group_portmap 0 g)) with (linked g) in Hb.
  change (clear_ports (seq 1 PORT_MAX) (set_port_members 0 [] (set_group_portmap 0 g)))
    with (clear_ports ports (set_group_portmap 0 g)).
  lia.
Qed.

Lemma router_sweep_balance l time gtime free :
  let '(kept, _, free') := router_sweep l time gtime free in
  (length kept + length free' = length l + length free)%nat.
Proof.
  revert gtime free. induction l as [|m l IH]; intros gtime free; simpl; [reflexivity|].
  destruct (time_after (member_time m) time).
  - specialize (IH (if time_before (member_time m) gtime then member_time m else gtime) free).
    destruct (router_sweep l time _ free) as [[kept gt] free']. simpl. lia.
  - specialize (IH gtime (m :: free)).
    destruct (router_sweep l time gtime (m :: free)) as [[kept gt] free']. simpl in *. lia.
Qed.

Lemma router_sweep_in_range g port time gtime free :
  ~ (port < length (group_members g))%nat ->
  router_sweep (port_members g port) time gtime free = ([], gtime, free).
Proof.
  intros Hge. unfold port_members. rewrite nth_overflow by lia. reflexivity.
Qed.

Lemma router_fold_balance time l g free :
  let '(g', free') := router_fold time l (g, free) in
  Z.of_nat (length free') + linked g' = Z.of_nat (length free) + linked g.
Proof.
  revert g free. induction l as [|p l IH]; intros g free.
  - reflexivity.
  - rewrite router_fold_cons.
    pose proof (router_sweep_balance (port_members g p) time (group_time g) free) as Hb.
    destruct (router_sweep _ time (group_time g) free) as [[kept gtime] free1] eqn:Es.
    specialize (IH (set_port_members p kept (set_group_time gtime g)) free1).
    destruct (router_fold time l _) as [g' free'].
    rewrite IH, linked_set_port.
    change (group_members (set_group_time gtime g)) with (group_members g).
    change (port_members (set_group_time gtime g) p) with (port_members g p).
    change (linked (set_group_time gtime g)) with (linked g).
    destruct (decide (p < length (group_members g))%nat) as [Hlt|Hge].
    + lia.
    + rewrite router_sweep_in_range in Es by exact Hge. injection Es as <- <- <-.
      unfold port_members. rewrite nth_overflow by lia. simpl. lia.
Qed.

(** *** The operations *)

Lemma accounted_put_kept x g g' c :
  group_at c x = Some g -> (group_shaped g -> group_shaped g') -> linked g' = linked g ->
  members_accounted c -> members_accounted (put_group x g' c).
Proof.
  intros Hg Hsh Hl Ha. apply (accounted_put x g); [exact Hg| |exact Hl|exact Ha].
  apply Hsh. eapply shaped_at; eassumption.
Qed.

Lemma linked_nonneg g : 0 <= linked g.
Proof. unfold linked. lia. Qed.

Lemma linked_clear_le l g : linked (clear_ports l g) <= linked g.
Proof.
  unfold clear_ports. revert g. induction l as [|p l IH]; intros g; simpl; [lia|].
  etransitivity; [apply IH|]. rewrite linked_set_port. destruct (decide _); simpl; lia.
Qed.

Lemma linked_zero : linked group_zero = 0.
Proof.
  unfold linked, group_zero. cbn [group_members].
  induction (S PORT_MAX) as [|n IH]; [reflexivity|]. simpl. exact IH.
Qed.

Lemma linked_fresh ea : linked (set_group_ea ea (init_group group_zero)) = 0.
Proof.
  change (linked (set_group_ea ea (init_group group_zero))) with (linked (init_group group_zero)).
  rewrite init_group_clear.
  pose proof (linked_clear_le ports (set_group_portmap 0 group_zero)) as Hle.
  change (linked (set_group_portmap 0 group_zero)) with (linked group_zero) in Hle.
  rewrite linked_zero in Hle.
  pose proof (linked_nonneg (clear_ports ports (set_group_portmap 0 group_zero))). lia.
Qed.

Lemma accounted_created ea rest c :
  members_accounted c -> members_accounted (group_created ea rest c).
Proof.
  intros (A1 & A2 & A3). split; [|split].
  - intros [a|] g Hy; unfold group_at in Hy.
    + rewrite group_created_mem in Hy. apply lookup_app_Some in Hy as [Hy|[_ Hy]].
      * apply (A1 (pooled a)). exact Hy.
      * apply list_lookup_singleton_Some in Hy as [_ <-].
        apply shaped_set_ea, shaped_init, shaped_zero.
    + apply (A1 the_routers). exact Hy.
  - unfold members_held. rewrite group_created_mem, linked_in_app. simpl linked_in.
    rewrite linked_fresh.
    change (members (group_created ea rest c)) with (members c).
    change (routers (group_created ea rest c)) with (routers c).
    unfold members_held in A2. lia.
  - exact A3.
Qed.

Lemma get_group_accounted ea al c r c' :
  members_accounted c -> get_group ea al c = Done r c' -> members_accounted c'.
Proof.
  intros Ha H.
  apply get_group_inv in H as [(a & -> & -> & _)|(Hnone & [(-> & rest & ->)|(_ & rest & -> & ->)])].
  - exact Ha.
  - revert Ha. apply accounted_same; reflexivity.
  - apply accounted_created. exact Ha.
Qed.

Ltac acc_wrap s := apply (accounted_same s); [reflexivity|reflexivity|reflexivity|].

Ltac acc_peel :=
  lazymatch goal with
  | |- members_accounted ?s =>
      first
        [ assumption
        | match goal with
          | H : get_member _ _ _ _ _ = Done _ s |- _ =>
              eapply get_member_accounted; [| |exact H]; [assumption|acc_peel]
          | H : member_touch _ _ _ _ _ = Done _ s |- _ =>
              eapply member_touch_accounted; [|exact H]; acc_peel
          | H : consume_member _ _ _ _ = Done _ s |- _ =>
              eapply consume_member_accounted; [|exact H]; acc_peel
          | H : consume_group _ _ = Done _ s |- _ =>
              eapply consume_group_accounted; [|exact H]; acc_peel
          | H : get_group _ _ _ = Done _ s |- _ =>
              eapply get_group_accounted; [|exact H]; acc_peel
          end
        | lazymatch s with
          | put_group ?x ?g' ?s0 =>
              match goal with
              | Hg : group_at _ x = Some ?g |- _ =>
                  apply (accounted_put_kept x g g' s0);
                  [solve [kept_at Hg]|kept_shape|reflexivity|acc_peel]
              end
          | with_world _ ?s0 => acc_wrap s0; acc_peel
          | logged _ ?s0 => acc_wrap s0; acc_peel
          | with_routers (set_routers_timer _) ?s0 => acc_wrap s0; acc_peel
          | with_routers (fun rs => set_routers_timer _ rs) ?s0 => acc_wrap s0; acc_peel
          | with_groups (set_groups_timer _) ?s0 => acc_wrap s0; acc_peel
          | with_groups (fun gs => set_groups_timer _ gs) ?s0 => acc_wrap s0; acc_peel
          end ]
  end.

Lemma add_member_accounted maddr addr port timeout now c r c' :
  members_accounted c -> add_member maddr addr port timeout now c = Done r c' ->
  members_accounted c'.
Proof.
  intros Ha H. unfold add_member in H.
  destruct (port_invalid port) eqn:Hp; [unfold ret in H; injection H as _ <-; exact Ha|].
  apply port_valid_le in Hp. run_inv; acc_peel.
Qed.

Lemma del_member_accounted maddr addr port c r c' :
  members_accounted c -> del_member maddr addr port c = Done r c' ->
  members_accounted c'.
Proof.
  intros Ha H. unfold del_member in H.
  destruct (port_invalid port) eqn:Hp; [unfold ret in H; injection H as _ <-; exact Ha|].
  apply port_valid_le in Hp. run_inv; acc_peel.
Qed.

Lemma add_router_accounted addr port timeout now c r c' :
  members_accounted c -> add_router addr port timeout now c = Done r c' ->
  members_accounted c'.
Proof.
  intros Ha H. unfold add_router in H.
  destruct (port_invalid port) eqn:Hp; [unfold ret in H; injection H as _ <-; exact Ha|].
  apply port_valid_le in Hp. run_inv; use_fan_out; acc_peel.
Qed.

Lemma router_timer_accounted now c r c' :
  members_accounted c -> router_timer now c = Done r c' -> members_accounted c'.
Proof.
  intros Ha H. unfold router_timer in H.
  apply bind_inv in H as (g & c0 & E & H). apply group_load_inv in E as [-> Hg].
  destruct (group_portmap g <? 0); [unfold ret in H; injection H as _ <-; exact Ha|].
  apply bind_inv in H as (portmap & c1 & E & H).
  assert (Ha1 : members_accounted c1).
  { clear H. destruct (time_after (group_time g) now).
    - rewrite bind_gets in E.
      fold (router_fold now ports (set_group_time (ulong (now + ULONG_HALF)) g,
                                   members_free (members c))) in E.
      pose proof (router_fold_balance now ports (set_group_time (ulong (now + ULONG_HALF)) g)
                    (members_free (members c))) as Hb.
      destruct (router_fold now ports _) as [g' free'] eqn:Ef.
      apply router_fold_ea in Ef as [_ Hsh].
      change (linked (set_group_time (ulong (now + ULONG_HALF)) g)) with (linked g) in Hb.
      rewrite bind_modify in E. cbv zeta in E. unfold group_store in E.
      rewrite bind_modify in E.
      assert (Hmid : members_accounted
                       (put_group the_routers (set_group_portmap (get_portmap g') g')
                          (with_members (set_members_free free') c))).
      { apply (accounted_same
                 (with_members (fun _ => set_members_free free' (members c))
                    (put_group the_routers (set_group_portmap (get_portmap g') g') c)));
          [reflexivity|reflexivity|reflexivity|].
        apply (accounted_move the_routers g); [exact Hg| | |apply Ha|exact Ha].
        - apply (shaped_set_portmap (get_portmap g')), Hsh. exact (shaped_at _ _ _ Ha Hg).
        - cbn [members_count members_free set_members_free].
          change (linked (set_group_portmap (get_portmap g') g')) with (linked g'). lia. }
      run_inv; acc_peel.
    - run_inv; acc_peel. }
  clear E. destruct (portmap =? 0); run_inv; use_fan_out; acc_peel.
Qed.

Lemma group_timer_sweep_accounted queue time exp c r c' :
  members_accounted c -> group_timer_sweep queue time exp c = Done r c' ->
  members_accounted c'.
Proof.
  revert exp c. induction queue as [|a queue IH]; intros exp c Ha H; simpl in H.
  - run_inv. exact Ha.
  - apply bind_inv in H as (g & c1 & E & H). apply group_load_inv in E as [-> Hg].
    destruct (group_portmap g =? 0); [eapply IH; eassumption|].
    destruct (time_after (group_time g) time); [eapply IH; eassumption|].
    apply bind_inv in H as (u & c1 & E & H).
    apply bind_inv in H as (rmap & c2 & E2 & H). unfold gets in E2. injection E2 as <- <-.
    apply bind_inv in H as (u2 & c3 & E3 & H).
    eapply IH; [|exact H]. clear H.
    destruct (_ =? 0); run_inv; acc_peel.
Qed.

Lemma group_timer_accounted now c r c' :
  members_accounted c -> group_timer now c = Done r c' -> members_accounted c'.
Proof.
  intros Ha H. unfold group_timer in H.
  apply bind_inv in H as (queue & c1 & E & H). unfold gets in E. injection E as <- <-.
  apply bind_inv in H as (exp & c2 & E & H).
  apply (group_timer_sweep_accounted _ _ _ _ _ _ Ha) in E.
  run_inv; acc_peel.
Qed.

Lemma expire_all_accounted queue time c r c' :
  members_accounted c -> expire_all queue time c = Done r c' -> members_accounted c'.
Proof.
  revert c. induction queue as [|a queue IH]; intros c Ha H; simpl in H.
  - run_inv. exact Ha.
  - apply bind_inv in H as (g & c1 & E & H). apply group_load_inv in E as [-> Hg].
    apply bind_inv in H as (u & c1 & E & H). run_inv.
    eapply IH; [|exact H]. acc_peel.
Qed.

Lemma expire_members_accounted maddr timeout now c r c' :
  members_accounted c -> expire_members maddr timeout now c = Done r c' ->
  members_accounted c'.
Proof.
  intros Ha H. unfold expire_members in H.
  apply bind_inv in H as (found & c1 & E & H).
  assert (Ha1 : members_accounted c1).
  { clear H. destruct maddr as [ea|].
    - apply bind_inv in E as (group & c2 & Eg & E).
      pose proof (get_group_lookup_state _ _ _ _ Eg) as ->.
      clear Eg. destruct group as [a|]; run_inv; acc_peel.
    - apply bind_inv in E as (queue & c2 & Eq & E). unfold gets in Eq. injection Eq as <- <-.
      apply bind_inv in E as (u & c3 & Ee & E).
      apply (expire_all_accounted _ _ _ _ _ Ha) in Ee.
      unfold ret in E. injection E as _ <-. exact Ee. }
  clear E. run_inv; acc_peel.
Qed.

Lemma run_accounted op c r c' :
  members_accounted c -> run op c = Done r c' -> members_accounted c'.
Proof.
  intros Ha H. destruct op; simpl in H.
  - apply get_port_frame in H as (Hg & Hr & Hm).
    revert Ha. apply accounted_same; congruence.
  - eapply add_member_accounted; eassumption.
  - eapply del_member_accounted; eassumption.
  - eapply add_router_accounted; eassumption.
  - eapply expire_members_accounted; eassumption.
  - apply bind_inv in H as (u & c1 & E & H). unfold ret in H. injection H as _ <-.
    unfold fire_group_timer in E. rewrite bind_modify in E.
    eapply group_timer_accounted; [|exact E]. acc_peel.
  - apply bind_inv in H as (u & c1 & E & H). unfold ret in H. injection H as _ <-.
    unfold fire_router_timer in E. rewrite bind_modify in E.
    eapply router_timer_accounted; [|exact E]. acc_peel.
Qed.

Lemma reachable_accounted c : reachable c -> members_accounted c.
Proof.
  intros (c0 & c1 & ops & Hi & Hr).
  assert (H1 : members_accounted c1).
  { pose proof (init_cache_wf _ _ _ Hi) as (_ & _ & _ & _ & _ & _ & W7).
    split; [exact W7|]. unfold init_cache in Hi. run_inv.
    unfold members_held. cbn [members members_count members_free routers routers_group
                              groups groups_mem length linked_in].
    pose proof (linked_fresh ea_zero) as Hz.
    change (linked (set_group_ea ea_zero (init_group group_zero)))
      with (linked (init_group group_zero)) in Hz.
    rewrite Hz. unfold MEMBER_POOL_SIZE, linked_in. cbn [fold_right]. lia. }
  clear Hi. revert c1 H1 Hr. induction ops as [|op ops IH]; intros c1 Ha Hr; simpl in Hr.
  - unfold ret in Hr. injection Hr as <-. exact Ha.
  - apply bind_inv in Hr as (v & c2 & E & Hr).
    eapply IH; [|exact Hr]. eapply run_accounted; eassumption.
Qed.

(** X6.  X6.  The member pool is bounded: in every reachable state [members.count]
    is the number of member records in existence -- those on the free
    list and those linked into the router state or a group record -- and
    it is at most [MEMBER_POOL_SIZE]. *)
Theorem member_pool_bounded c :
  reachable c ->
  members_count (members c) = members_held c /\
  0 <= members_count (members c) <= MEMBER_POOL_SIZE.
Proof.
  intros Hr. apply reachable_accounted in Hr as (_ & A2 & A3).
  split; [exact A2|]. split; [|exact A3].
  rewrite A2. unfold members_held.
  pose proof (linked_nonneg (routers_group (routers c))).
  assert (0 <= linked_in (groups_mem (groups c))).
  { induction (groups_mem (groups c)) as [|g l IH]; simpl; [lia|].
    pose proof (linked_nonneg g). lia. }
  lia.
Qed.

(** * Router tracking, as the code has it *)

(** The driver calls of the loop
    [STAILQ_FOREACH(group, &groups.pool, link)] at the end of
    [add_router] and of [router_timer]: one call for each group of the
    queue that lacks some port of [portmap], in queue order. *)
Definition fan_out_calls (mk : ether_addr -> Z -> driver_call) (portmap : Z) (c : cache)
    (queue : list nat) : list driver_call :=
  flat_map (fun a => match groups_mem (groups c) !! a with
                     | Some g =>
                         let groupmap := Z.land portmap (Z.lnot (group_portmap g)) in
                         if groupmap =? 0 then [] else [mk (group_ea g) groupmap]
                     | None => []
                     end) queue.

Lemma routers_fan_out_exact (mk : ether_addr -> Z -> driver_call) queue portmap c r c' :
  routers_fan_out queue portmap (fun ea m => driver (mk ea m)) c = Done r c' ->
  c' = logged (fan_out_calls mk portmap c queue) c.
Proof.
  revert c. induction queue as [|a queue IH]; intros c H; simpl in H.
  - run_inv. symmetry. apply logged_nil.
  - apply bind_inv in H as (g & c1 & E & H). apply group_load_inv in E as [-> Hg].
    unfold group_at in Hg. cbv zeta in H.
    apply bind_inv in H as (u & c1 & E & H).
    unfold fan_out_calls. cbn [flat_map]. rewrite Hg. cbv zeta.
    destruct (Z.land portmap (Z.lnot (group_portmap g)) =? 0).
    + unfold ret in E. injection E as _ <-. apply IH in H. exact H.
    + rewrite driver_logged in E. injection E as _ <-. apply IH in H.
      rewrite H. unfold fan_out_calls. rewrite logged_logged. reflexivity.
Qed.

(** The steps of [add_member] and [add_router] from [group->time = ...]
    to [member->time = group->time]. *)
Lemma add_block_inv x addr port time c g member c4 u c5 :
  group_at c x = Some g ->
  get_member x addr port true (put_group x (set_group_time time g) c) = Done member c4 ->
  match member with
  | Some pos => member_touch x port pos time
  | None => ret tt
  end c4 = Done u c5 ->
  exists g1 ms rest,
    member_added g g1 addr port time (pool_has_room c) /\
    c5 = member_taken ms rest (put_group x g1 c).
Proof.
  intros Hg Em Et. set (l := port_members g port).
  assert (Hg0 : group_at (put_group x (set_group_time time g) c) x
                = Some (set_group_time time g)).
  { apply group_at_put_eq. eauto. }
  pose proof Em as Em'.
  apply get_member_inv in Em as (g0 & Hg0' & Hcase).
  rewrite Hg0 in Hg0'. injection Hg0' as <-.
  change (port_members (set_group_time time g) port) with l in Hcase.
  unfold member_added. fold l.
  destruct Hcase as [(pos & -> & Hf & ->)|(Hf & [(-> & rest & ->)|(_ & -> & ms & rest & ->)])].
  - apply member_touch_inv in Et as (g2 & m & Hg2 & Hm & ->).
    rewrite Hg0 in Hg2. injection Hg2 as <-.
    change (port_members (set_group_time time g) port) with l in *.
    rewrite put_group_put. rewrite Hf.
    eexists _, (members c), (calloc_results (world c)). split; [eauto|].
    rewrite <- (member_taken_id (put_group _ _ c)) at 1.
    rewrite put_group_members, put_group_world. reflexivity.
  - unfold ret in Et. injection Et as _ <-. rewrite Hf.
    eexists _, (members c), rest. split; [left; reflexivity|].
    rewrite member_taken_world, put_group_members. reflexivity.
  - apply member_touch_inv in Et as (g2 & m & Hg2 & Hm & ->).
    rewrite put_group_member_taken, put_group_put in Hg2.
    rewrite group_at_member_taken in Hg2. apply group_at_put_same in Hg2. subst g2.
    assert (Hl : port_members
                   (set_port_members port ({| member_time := 0; member_addr := addr |} :: l)
                      (set_group_time time g)) port
                 = {| member_time := 0; member_addr := addr |} :: l).
    { apply port_members_set_eq. simpl.
      destruct (decide (port < length (group_members g))%nat) as [Hlt|Hge]; [exact Hlt|].
      exfalso. unfold port_members, set_port_members in Hm. simpl in Hm.
      rewrite list_insert_ge in Hm by lia.
      rewrite nth_overflow in Hm by lia. discriminate. }
    rewrite Hl in *. simpl in Hm. injection Hm as <-.
    rewrite put_group_put, put_group_member_taken, put_group_put.
    rewrite Hf. eexists _, ms, rest. split; [|reflexivity].
    right. split.
    + assert (Hroom : pool_has_room (put_group x (set_group_time time g) c)).
      { eapply get_member_room; [exact Hg0| |exact Em']. exact Hf. }
      unfold pool_has_room in *. rewrite put_group_members in Hroom. exact Hroom.
    + unfold set_port_members, set_member_time. simpl.
      rewrite list_insert_insert_eq. reflexivity.
Qed.

(** The router timer after [add_router] set the expiry to [time]. *)
Definition timer_brought_forward (timer : timer_entry) (time : Z) : timer_entry :=
  if negb (timer_pending timer) || time_after (expires timer) time
  then mod_timer timer time else timer.

Lemma with_routers_timer_id c : with_routers (set_routers_timer (routers_timer (routers c))) c = c.
Proof. destruct c as [? ? ? [] ?]. reflexivity. Qed.

Lemma add_router_inv addr port timeout now c r c' :
  port_invalid port = false ->
  add_router addr port timeout now c = Done r c' ->
  let time := ulong (now + timeout) in
  let g := routers_group (routers c) in
  exists g1 ms rest,
    member_added g g1 addr (Z.to_nat port) time (pool_has_room c) /\
    r = newly_set (group_portmap g) (get_portmap g1) /\
    c' = logged (fan_out_calls drv_add_portmap r c (groups_pool (groups c)))
           (with_routers (set_routers_timer (timer_brought_forward (routers_timer (routers c)) time))
              (member_taken ms rest
                 (put_group the_routers (set_group_portmap (get_portmap g1) g1) c))).
Proof.
  intros Hp H time g. unfold add_router in H. rewrite Hp in H. cbv zeta in H.
  apply bind_inv in H as (g0 & c0 & El & H). apply group_load_inv in El as [-> Hg].
  unfold group_at in Hg. injection Hg as <-. fold g time in H.
  unfold group_store in H. rewrite bind_modify in H.
  apply bind_inv in H as (member & c4 & Em & H).
  apply bind_inv in H as (u & c5 & Et & H).
  destruct (add_block_inv the_routers addr (Z.to_nat port) time c g member c4 u c5 eq_refl Em Et)
    as (g1 & ms & rest & Hadd & ->).
  clear Em Et.
  apply bind_inv in H as (g2 & c6 & El & H). apply group_load_inv in El as [-> Hg2].
  rewrite group_at_member_taken in Hg2. apply group_at_put_same in Hg2. subst g2.
  cbv zeta in H. rewrite bind_modify in H.
  rewrite put_group_member_taken, put_group_put in H. rewrite bind_gets in H.
  apply bind_inv in H as (u4 & c7 & Etm & H).
  change (routers_timer (routers (member_taken ms rest
            (put_group the_routers (set_group_portmap (get_portmap g1) g1) c))))
    with (routers_timer (routers c)) in Etm.
  assert (Hc7 : c7 = with_routers
                       (set_routers_timer (timer_brought_forward (routers_timer (routers c)) time))
                       (member_taken ms rest
                          (put_group the_routers (set_group_portmap (get_portmap g1) g1) c))).
  { unfold timer_brought_forward. destruct (negb _ || _).
    - unfold modify in Etm. injection Etm as _ <-. reflexivity.
    - unfold ret in Etm. injection Etm as _ <-.
      destruct c as [? ? ? [] ?]. reflexivity. }
  subst c7. clear Etm.
  fold (newly_set (group_portmap g) (get_portmap g1)) in H.
  apply bind_inv in H as (u5 & c8 & Ed & H). unfold ret in H. injection H as <- <-.
  exists g1, ms, rest. split; [exact Hadd|]. split; [reflexivity|].
  destruct (newly_set (group_portmap g) (get_portmap g1) =? 0) eqn:Ez.
  - unfold ret in Ed. injection Ed as _ <-.
    apply Z.eqb_eq in Ez. rewrite Ez.
    assert (Hnil : forall q, fan_out_calls drv_add_portmap 0 c q = []).
    { intros q. unfold fan_out_calls. induction q as [|a q IH]; [reflexivity|].
      cbn [flat_map]. rewrite IH. destruct (groups_mem (groups c) !! a); reflexivity. }
    rewrite Hnil, logged_nil. reflexivity.
  - rewrite bind_gets in Ed.
    apply (routers_fan_out_exact drv_add_portmap) in Ed. rewrite Ed. reflexivity.
Qed.

(** X7.  X7.  [add_router] with a valid port returns the ports that are new in the
    router bitmask, and tells the driver to add those ports to the
    forwarding entry of every group that does not have them as members,
    in pool order.  The member is inserted or refreshed in the router
    state as [add_member] does it in a group; the router timer is moved
    to the new expiry when it was idle or was due later; no group record
    and no host record changes. *)
Theorem add_router_adds_new_ports addr port timeout now c r c' :
  port_invalid port = false ->
  add_router addr port timeout now c = Done r c' ->
  r = newly_set (routers_portmap c) (routers_portmap c') /\
  calls_made c c' (fan_out_calls drv_add_portmap r c (groups_pool (groups c))) /\
  (exists g1,
     member_added (routers_group (routers c)) g1 addr (Z.to_nat port) (ulong (now + timeout))
       (pool_has_room c) /\
     routers_group (routers c') = set_group_portmap (get_portmap g1) g1) /\
  routers_timer (routers c')
  = timer_brought_forward (routers_timer (routers c)) (ulong (now + timeout)) /\
  groups c' = groups c /\ hosts c' = hosts c.
Proof.
  intros Hp H. apply (add_router_inv _ _ _ _ _ _ _ Hp) in H as (g1 & ms & rest & Hadd & -> & ->).
  split; [reflexivity|]. split; [unfold calls_made; reflexivity|].
  split; [exists g1; split; [exact Hadd|reflexivity]|].
  repeat split.
Qed.

(** ** Ticks ahead of the clock *)

(** How far [t] lies ahead of [now], going round the tick range. *)
Definition ahead (now t : Z) : Z := ulong (t - now).

Lemma ulong_range x : 0 < 2 ^ ULONG_BITS -> 0 <= ulong x < 2 ^ ULONG_BITS.
Proof. intros H. unfold ulong. apply Z.mod_pos_bound. exact H. Qed.

Lemma pow2_pos : 1 <= ULONG_BITS -> 0 < 2 ^ (ULONG_BITS - 1) /\ 0 < 2 ^ ULONG_BITS.
Proof. intros H. split; apply Z.pow_pos_nonneg; lia. Qed.

Lemma ulong_opp x :
  0 < 2 ^ ULONG_BITS ->
  ulong (- x) = if ulong x =? 0 then 0 else 2 ^ ULONG_BITS - ulong x.
Proof.
  intros Hpos. unfold ulong. destruct (Z.eqb_spec (x mod 2 ^ ULONG_BITS) 0) as [Hz|Hnz].
  - apply Z.mod_opp_l_z; [lia|exact Hz].
  - apply Z.mod_opp_l_nz; [lia|exact Hnz].
Qed.

(** [t] is after [now] when it lies ahead of it by at most half the range. *)
Lemma time_after_ahead now t :
  1 <= ULONG_BITS ->
  time_after t now = true <-> 1 <= ahead now t <= 2 ^ (ULONG_BITS - 1).
Proof.
  intros Hw. pose proof (pow2_double Hw) as H2. pose proof (pow2_pos Hw) as [Hh Hp].
  unfold time_after, long, ahead.
  replace (now - t) with (- (t - now)) by lia. rewrite ulong_opp by exact Hp.
  pose proof (ulong_range (t - now) Hp) as Hr.
  destruct (Z.eqb_spec (ulong (t - now)) 0) as [Hz|Hnz].
  - rewrite Hz. destruct (Z.ltb_spec 0 (2 ^ (ULONG_BITS - 1))) as [Hc|Hc]; [|lia].
    split; [intros Ht; apply Z.ltb_lt in Ht; lia|lia].
  - destruct (Z.ltb_spec (2 ^ ULONG_BITS - ulong (t - now)) (2 ^ (ULONG_BITS - 1))) as [Hc|Hc].
    + split; [intros Ht; apply Z.ltb_lt in Ht; lia|lia].
    + split; [intros _; lia|intros _; apply Z.ltb_lt; lia].
Qed.

(** Among ticks within half the range ahead of [now], [time_before] is
    the order of the distances. *)
Lemma time_before_ahead now a b :
  1 <= ULONG_BITS ->
  1 <= ahead now a <= 2 ^ (ULONG_BITS - 1) ->
  1 <= ahead now b <= 2 ^ (ULONG_BITS - 1) ->
  time_before a b = true <-> ahead now a < ahead now b.
Proof.
  intros Hw Ha Hb. pose proof (pow2_double Hw) as H2. pose proof (pow2_pos Hw) as [Hh Hp].
  unfold time_before, time_after, long.
  assert (Hd : ulong (a - b) = ulong (ahead now a - ahead now b)).
  { unfold ahead. rewrite ulong_diff. f_equal. lia. }
  rewrite Hd. cbv zeta.
  destruct (Z.lt_ge_cases (ahead now a) (ahead now b)) as [Hlt|Hge].
  - assert (Hm : ulong (ahead now a - ahead now b)
                 = ahead now a - ahead now b + 2 ^ ULONG_BITS).
    { unfold ulong. symmetry. apply Z.mod_unique with (q := -1); lia. }
    rewrite Hm. destruct (Z.ltb_spec (ahead now a - ahead now b + 2 ^ ULONG_BITS)
                            (2 ^ (ULONG_BITS - 1))) as [Hc|Hc]; [lia|].
    split; [intros _; exact Hlt|intros _; apply Z.ltb_lt; lia].
  - assert (Hm : ulong (ahead now a - ahead now b) = ahead now a - ahead now b).
    { unfold ulong. apply Z.mod_small. lia. }
    rewrite Hm.
    destruct (Z.ltb_spec (ahead now a - ahead now b) (2 ^ (ULONG_BITS - 1))) as [Hc|Hc]; [|lia].
    split; [intros Ht; apply Z.ltb_lt in Ht; lia|lia].
Qed.

Lemma ahead_half now :
  2 <= ULONG_BITS -> ahead now (ulong (now + ULONG_HALF)) = 2 ^ (ULONG_BITS - 1) - 1.
Proof.
  intros Hw. assert (Hw1 : 1 <= ULONG_BITS) by lia.
  pose proof (pow2_double Hw1) as H2. pose proof (pow2_pos Hw1) as [Hh Hp].
  assert (Hhalf : ULONG_HALF = 2 ^ (ULONG_BITS - 1) - 1).
  { unfold ULONG_HALF. rewrite H2.
    replace (2 * 2 ^ (ULONG_BITS - 1) - 1) with (1 + (2 ^ (ULONG_BITS - 1) - 1) * 2) by lia.
    rewrite Z.div_add by lia. change (1 / 2) with 0. lia. }
  unfold ahead.
  replace (ulong (ulong (now + ULONG_HALF) - now))
    with (ulong (ulong (now + ULONG_HALF) - ulong now)).
  - rewrite ulong_diff. replace (now + ULONG_HALF - now) with ULONG_HALF by lia.
    rewrite Hhalf. unfold ulong. apply Z.mod_small. lia.
  - unfold ulong. rewrite Zminus_mod_idemp_r. reflexivity.
Qed.

(** ** The router sweep *)

(** The router member has not expired at [now]. *)
Definition alive (now : Z) (m : member_entry) : bool := time_after (member_time m) now.

Lemma router_sweep_spec l now gtime free kept gtime' free' :
  1 <= ULONG_BITS ->
  1 <= ahead now gtime <= 2 ^ (ULONG_BITS - 1) ->
  router_sweep l now gtime free = (kept, gtime', free') ->
  kept = List.filter (alive now) l /\
  1 <= ahead now gtime' <= ahead now gtime /\
  (forall m, In m kept -> ahead now gtime' <= ahead now (member_time m)) /\
  (gtime' = gtime \/ exists m, In m kept /\ member_time m = gtime').
Proof.
  intros Hw. revert gtime free kept gtime' free'.
  induction l as [|m l IH]; intros gtime free kept gtime' free' Hg H; simpl in H.
  - injection H as <- <- <-. split; [reflexivity|]. split; [lia|].
    split; [intros m []|left; reflexivity].
  - cbn [List.filter]. unfold alive at 1.
    destruct (time_after (member_time m) now) eqn:Ha.
    + apply (time_after_ahead now _ Hw) in Ha.
      set (g1 := if time_before (member_time m) gtime then member_time m else gtime) in H.
      assert (Hg1 : 1 <= ahead now g1 <= ahead now gtime /\
                    ahead now g1 <= ahead now (member_time m) /\
                    (g1 = gtime \/ g1 = member_time m)).
      { unfold g1. destruct (time_before (member_time m) gtime) eqn:Hb.
        - apply (time_before_ahead now _ _ Hw Ha Hg) in Hb. split; [lia|]. split; [lia|auto].
        - assert (~ ahead now (member_time m) < ahead now gtime).
          { intros Hlt. apply (time_before_ahead now _ _ Hw Ha Hg) in Hlt. congruence. }
          split; [lia|]. split; [lia|auto]. }
      destruct Hg1 as (Hr1 & Hm1 & Hc1).
      destruct (router_sweep l now g1 free) as [[kept1 gt1] free1] eqn:Es.
      injection H as <- <- <-.
      destruct (IH g1 free kept1 gt1 free1 ltac:(lia) Es) as (Hk & Hr & Hall & Hex).
      split; [rewrite Hk; reflexivity|]. split; [lia|]. split.
      * intros m' [<-|Hin]; [lia|apply Hall; exact Hin].
      * destruct Hex as [-> | (m' & Hin & Hm')].
        -- destruct Hc1 as [-> | ->]; [left; reflexivity|].
           right. exists m. split; [left; reflexivity|reflexivity].
        -- right. exists m'. split; [right; exact Hin|exact Hm'].
    + apply (IH gtime (m :: free) kept gtime' free' Hg H).
Qed.

Lemma port_members_time t g p : port_members (set_group_time t g) p = port_members g p.
Proof. reflexivity. Qed.

Lemma router_fold_spec now l g free g' free' :
  1 <= ULONG_BITS -> NoDup l ->
  1 <= ahead now (group_time g) <= 2 ^ (ULONG_BITS - 1) ->
  router_fold now l (g, free) = (g', free') ->
  (forall p, In p l -> port_members g' p = List.filter (alive now) (port_members g p)) /\
  (forall p, ~ In p l -> port_members g' p = port_members g p) /\
  1 <= ahead now (group_time g') <= ahead now (group_time g) /\
  (forall p m, In p l -> In m (port_members g' p) ->
     ahead now (group_time g') <= ahead now (member_time m)) /\
  (group_time g' = group_time g \/
   exists p m, In p l /\ In m (port_members g' p) /\ member_time m = group_time g').
Proof.
  intros Hw. revert g free g' free'.
  induction l as [|p l IH]; intros g free g' free' Hnd Hg H.
  - injection H as <- <-. split; [intros p []|]. split; [reflexivity|].
    split; [lia|]. split; [intros p m []|left; reflexivity].
  - rewrite router_fold_cons in H.
    destruct (router_sweep (port_members g p) now (group_time g) free)
      as [[kept gtime1] free1] eqn:Es.
    apply (router_sweep_spec _ _ _ _ _ _ _ Hw Hg) in Es as (Hk & Hr & Hall & Hex).
    apply NoDup_cons in Hnd as [Hnin Hnd]. rewrite list_elem_of_In in Hnin.
    set (g1 := set_port_members p kept (set_group_time gtime1 g)) in H.
    assert (Hp1 : port_members g1 p = kept).
    { unfold g1. destruct (decide (p < length (group_members g))%nat) as [Hlt|Hge].
      - apply port_members_set_eq. exact Hlt.
      - rewrite port_members_set_out by exact Hge. rewrite Hk.
        unfold port_members. cbn [group_members set_group_time].
        rewrite nth_overflow by lia. reflexivity. }
    assert (Hq1 : forall q, q <> p -> port_members g1 q = port_members g q).
    { intros q Hq. unfold g1. rewrite port_members_set_ne by congruence. reflexivity. }
    destruct (IH g1 free1 g' free' Hnd ltac:(simpl; lia) H) as (Hin & Hout & Hr' & Hall' & Hex').
    change (group_time g1) with gtime1 in *.
    split; [|split; [|split; [|split]]].
    + intros q [<-|Hq].
      * rewrite Hout by exact Hnin. rewrite Hp1. exact Hk.
      * rewrite (Hin q Hq). rewrite Hq1; [reflexivity|]. intros ->. contradiction.
    + intros q Hq. rewrite Hout by (intros Hl; apply Hq; right; exact Hl).
      apply Hq1. intros ->. apply Hq. left. reflexivity.
    + lia.
    + intros q m [<-|Hq] Hm.
      * rewrite Hout in Hm by exact Hnin. rewrite Hp1 in Hm.
        specialize (Hall m Hm). lia.
      * apply (Hall' q m Hq Hm).
    + destruct Hex' as [-> | (q & m & Hq & Hm & Ht)].
      * destruct Hex as [-> | (m & Hm & Ht)]; [left; reflexivity|].
        right. exists p, m. split; [left; reflexivity|].
        rewrite Hout by exact Hnin. rewrite Hp1. split; assumption.
      * right. exists q, m. split; [right; exact Hq|]. split; assumption.
Qed.

Lemma fan_out_calls_zero mk c queue : fan_out_calls mk 0 c queue = [].
Proof.
  unfold fan_out_calls. induction queue as [|a q IH]; [reflexivity|].
  cbn [flat_map]. rewrite IH. destruct (groups_mem (groups c) !! a); reflexivity.
Qed.

Lemma ports_NoDup : NoDup ports.
Proof. unfold ports. apply NoDup_seq. Qed.

Lemma fan_out_calls_groups mk portmap c c1 queue :
  groups c1 = groups c -> fan_out_calls mk portmap c1 queue = fan_out_calls mk portmap c queue.
Proof. intros E. unfold fan_out_calls. rewrite E. reflexivity. Qed.

Lemma fan_out_tail (mk : ether_addr -> Z -> driver_call) portmap c r c' :
  (if portmap =? 0 then ret tt
   else queue <- gets (fun c => groups_pool (groups c));;
        routers_fan_out queue portmap (fun ea m => driver (mk ea m))) c = Done r c' ->
  c' = logged (fan_out_calls mk portmap c (groups_pool (groups c))) c.
Proof.
  intros H. destruct (portmap =? 0) eqn:Ez.
  - unfold ret in H. injection H as _ <-. apply Z.eqb_eq in Ez. subst portmap.
    rewrite fan_out_calls_zero. symmetry. apply logged_nil.
  - rewrite bind_gets in H. apply routers_fan_out_exact in H. exact H.
Qed.

(** The state [router_timer] leaves when the router list has not gone
    stale: the swept record is stored with its recomputed bitmask, then
    either the timer is set or the (empty) record is consumed, and the
    groups are told which ports lost their last router. *)
Lemma router_timer_inv now c r c' :
  (routers_portmap c <? 0) = false ->
  time_after (group_time (routers_group (routers c))) now = true ->
  router_timer now c = Done r c' ->
  let g := routers_group (routers c) in
  exists g' free' c1,
    router_fold now ports
      (set_group_time (ulong (now + ULONG_HALF)) g, members_free (members c)) = (g', free') /\
    c' = logged (fan_out_calls drv_del_portmap (cleared (group_portmap g) (get_portmap g')) c
                   (groups_pool (groups c))) c1 /\
    groups c1 = groups c /\ hosts c1 = hosts c /\ world c1 = world c /\
    (get_portmap g' <> 0 ->
       routers_group (routers c1) = set_group_portmap (get_portmap g') g' /\
       routers_timer (routers c1) = mod_timer (routers_timer (routers c)) (group_time g')) /\
    (get_portmap g' = 0 ->
       routers_group (routers c1) = clear_ports ports (set_group_portmap 0 g') /\
       routers_timer (routers c1) = routers_timer (routers c)).
Proof.
  intros Hneg Hlive H g. unfold router_timer in H.
  apply bind_inv in H as (g0 & c0 & El & H). apply group_load_inv in El as [-> Hg].
  apply group_at_the_routers in Hg. subst g0. fold g in H.
  unfold routers_portmap in Hneg. fold g in Hneg, Hlive. rewrite Hneg, Hlive in H.
  apply bind_inv in H as (portmap & c1 & E & H).
  rewrite bind_gets in E.
  fold (router_fold now ports (set_group_time (ulong (now + ULONG_HALF)) g,
                               members_free (members c))) in E.
  destruct (router_fold now ports _) as [g' free'] eqn:Ef.
  exists g', free', c1. split; [reflexivity|].
  rewrite bind_modify in E. unfold group_store in E. rewrite bind_modify in E.
  apply bind_inv in E as (u & c2 & E & Er). unfold ret in Er. injection Er as <- <-.
  fold (cleared (group_portmap g) (get_portmap g')) in H.
  apply (fan_out_tail drv_del_portmap) in H.
  destruct (get_portmap g' =? 0) eqn:Ez.
  - apply Z.eqb_eq in Ez.
    apply consume_group_inv in E as (g1 & free1 & Hg1 & ->).
    apply group_at_put_same in Hg1. subst g1.
    split; [rewrite H; f_equal; apply fan_out_calls_groups; reflexivity|].
    split; [reflexivity|]. split; [reflexivity|]. split; [reflexivity|].
    split; [intros Hne; contradiction|]. intros _. split; reflexivity.
  - apply Z.eqb_neq in Ez. unfold modify in E. injection E as _ <-.
    split; [rewrite H; f_equal; apply fan_out_calls_groups; reflexivity|].
    split; [reflexivity|]. split; [reflexivity|]. split; [reflexivity|].
    split; [|intros Hz; contradiction]. intros _. split; reflexivity.
Qed.

Lemma get_portmap_zero g p :
  get_portmap g = 0 -> (p <= PORT_MAX)%nat -> port_members g p = [].
Proof.
  intros Hz Hp. destruct (port_members g p) as [|m l] eqn:E; [reflexivity|].
  assert (Hb : Z.testbit (get_portmap g) (Z.of_nat p) = true).
  { apply get_portmap_spec. exists p. split; [reflexivity|]. split; [exact Hp|].
    rewrite E. discriminate. }
  rewrite Hz, Z.bits_0 in Hb. discriminate.
Qed.

Lemma get_portmap_set_portmap m g : get_portmap (set_group_portmap m g) = get_portmap g.
Proof. reflexivity. Qed.

(** X8.  X8.  When the router timer fires at [now] and the router list as a
    whole has not expired, exactly the routers whose own time is not
    after [now] are dropped from every port, the port bitmask is
    recomputed, every group is told (in queue order) to drop the ports
    that lost their last router and that it does not hold itself, and,
    if a router is left, the timer is set to a time no later than any
    remaining router's expiry: an expiry of a remaining router, or half
    the clock range from [now]. *)
Theorem router_timer_drops_expired now c c' :
  2 <= ULONG_BITS ->
  0 <= routers_portmap c ->
  time_after (group_time (routers_group (routers c))) now = true ->
  router_timer now c = Done tt c' ->
  let g := routers_group (routers c) in
  let g' := routers_group (routers c') in
  (forall p, (p <= PORT_MAX)%nat ->
     port_members g' p = List.filter (alive now) (port_members g p)) /\
  group_portmap g' = get_portmap g' /\
  calls_made c c' (fan_out_calls drv_del_portmap
                     (cleared (group_portmap g) (group_portmap g')) c (groups_pool (groups c))) /\
  (group_portmap g' <> 0 ->
     routers_timer (routers c') = mod_timer (routers_timer (routers c)) (group_time g') /\
     time_after (group_time g') now = true /\
     (forall p m, (p <= PORT_MAX)%nat -> In m (port_members g' p) ->
        time_before (member_time m) (group_time g') = false) /\
     (group_time g' = ulong (now + ULONG_HALF) \/
      exists p m, (p <= PORT_MAX)%nat /\ In m (port_members g' p) /\
                  member_time m = group_time g')) /\
  (group_portmap g' = 0 -> routers_timer (routers c') = routers_timer (routers c)) /\
  groups c' = groups c /\ hosts c' = hosts c.
Proof.
  intros Hw Hpos Hlive H g g'.
  assert (Hneg : (routers_portmap c <? 0) = false) by (apply Z.ltb_ge; exact Hpos).
  destruct (router_timer_inv now c tt c' Hneg Hlive H)
    as (g1 & free1 & c1 & Ef & Hc' & Hgr & Hho & Hwo & Hnz & Hz).
  fold g in Ef, Hc'.
  assert (Hw1 : 1 <= ULONG_BITS) by lia.
  assert (Hhalf : 1 <= ahead now (group_time (set_group_time (ulong (now + ULONG_HALF)) g))
                  <= 2 ^ (ULONG_BITS - 1)).
  { cbn [group_time set_group_time]. rewrite (ahead_half now Hw).
    assert (2 <= 2 ^ (ULONG_BITS - 1)).
    { replace (ULONG_BITS - 1) with (1 + (ULONG_BITS - 2)) by lia.
      rewrite Z.pow_add_r by lia.
      assert (0 < 2 ^ (ULONG_BITS - 2)) by (apply Z.pow_pos_nonneg; lia). lia. }
    lia. }
  destruct (router_fold_spec now ports _ _ _ _ Hw1 ports_NoDup Hhalf Ef)
    as (Hin & _ & Hr & Hall & Hex).
  cbn [group_time set_group_time] in Hr, Hex. rewrite (ahead_half now Hw) in Hr.
  assert (Hg' : g' = routers_group (routers c1)) by (unfold g'; rewrite Hc'; reflexivity).
  assert (Ht' : routers_timer (routers c') = routers_timer (routers c1))
    by (rewrite Hc'; reflexivity).
  assert (Hmem : forall p, (p <= PORT_MAX)%nat -> port_members g' p = port_members g1 p).
  { intros p Hp. rewrite Hg'. destruct (Z.eq_dec (get_portmap g1) 0) as [E|E].
    - rewrite (proj1 (Hz E)). rewrite clear_ports_in by (apply in_ports; exact Hp).
      symmetry. apply get_portmap_zero; assumption.
    - rewrite (proj1 (Hnz E)). reflexivity. }
  assert (Hmap : get_portmap g' = get_portmap g1).
  { apply get_portmap_ext. intros p Hp. rewrite (Hmem p Hp). reflexivity. }
  assert (Hpm : group_portmap g' = get_portmap g1).
  { rewrite Hg'. destruct (Z.eq_dec (get_portmap g1) 0) as [E|E].
    - rewrite (proj1 (Hz E)). rewrite E.
      destruct (clear_ports_fields ports (set_group_portmap 0 g1)) as (_ & Hp & _).
      rewrite Hp. reflexivity.
    - rewrite (proj1 (Hnz E)). reflexivity. }
  split; [|split; [|split; [|split; [|split; [|split]]]]].
  - intros p Hp. rewrite (Hmem p Hp). rewrite (Hin p (proj2 (in_ports p) Hp)). reflexivity.
  - rewrite Hpm, Hmap. reflexivity.
  - rewrite Hpm, Hc'. apply calls_made_logged_after. rewrite Hwo. reflexivity.
  - intros Hne. rewrite Hpm in Hne. destruct (Hnz Hne) as [Eg Et].
    assert (Etime : group_time g' = group_time g1) by (rewrite Hg', Eg; reflexivity).
    rewrite Ht', Et, Etime. split; [reflexivity|].
    split; [apply (time_after_ahead now _ Hw1); lia|]. split.
    + intros p m Hp Hm. rewrite (Hmem p Hp) in Hm.
      pose proof (Hall p m (proj2 (in_ports p) Hp) Hm) as Hle.
      assert (Ha : alive now m = true).
      { rewrite (Hin p (proj2 (in_ports p) Hp)) in Hm. apply filter_In in Hm. apply Hm. }
      unfold alive in Ha. apply (time_after_ahead now _ Hw1) in Ha.
      destruct (time_before (member_time m) (group_time g1)) eqn:Eb; [|reflexivity].
      assert (Hg1 : 1 <= ahead now (group_time g1) <= 2 ^ (ULONG_BITS - 1)) by lia.
      apply (time_before_ahead now _ _ Hw1 Ha Hg1) in Eb. lia.
    + destruct Hex as [E|(p & m & Hp & Hm & E)]; [left; exact E|].
      right. exists p, m. apply in_ports in Hp. split; [exact Hp|].
      rewrite (Hmem p Hp). split; assumption.
  - intros E. rewrite Hpm in E. rewrite Ht'. apply (proj2 (Hz E)).
  - rewrite Hc'. exact Hgr.
  - rewrite Hc'. exact Hho.
Qed.

(** ** The group sweep *)

(** The group has ports and its time is not after [now]: [group_timer]
    consumes it. *)
Definition group_due (now : Z) (g : group_entry) : bool :=
  negb (group_portmap g =? 0) && negb (time_after (group_time g) now).

(** The group has ports and its time is after [now]. *)
Definition group_live (now : Z) (g : group_entry) : bool :=
  negb (group_portmap g =? 0) && time_after (group_time g) now.

(** The record [group_timer] leaves. *)
Definition swept (now : Z) (g : group_entry) : group_entry :=
  if group_due now g then clear_ports ports (set_group_portmap 0 g) else g.

(** The driver calls of [group_timer]: for every group it consumes, the
    ports of the group that no router is on, if there are any. *)
Definition sweep_calls (now rmap : Z) (mem : list group_entry) (queue : list nat)
  : list driver_call :=
  flat_map (fun a => match mem !! a with
                     | Some g =>
                         if group_due now g then
                           let portmap := Z.land (group_portmap g) (Z.lnot rmap) in
                           if portmap =? 0 then [] else [drv_del_portmap (group_ea g) portmap]
                         else []
                     | None => []
                     end) queue.

Lemma sweep_calls_ext now rmap mem mem' queue :
  (forall a, In a queue -> mem' !! a = mem !! a) ->
  sweep_calls now rmap mem' queue = sweep_calls now rmap mem queue.
Proof.
  induction queue as [|a q IH]; intros H; [reflexivity|].
  unfold sweep_calls. cbn [flat_map].
  rewrite (H a (or_introl eq_refl)). f_equal.
  apply IH. intros b Hb. apply H. right. exact Hb.
Qed.

(** What the sweep leaves alone. *)
Definition records_only (c c' : cache) : Prop :=
  hosts c' = hosts c /\ routers c' = routers c /\
  groups_pool (groups c') = groups_pool (groups c) /\
  groups_hash (groups c') = groups_hash (groups c) /\
  groups_timer (groups c') = groups_timer (groups c) /\
  groups_count (groups c') = groups_count (groups c) /\
  length (groups_mem (groups c')) = length (groups_mem (groups c)).

Lemma records_only_refl c : records_only c c.
Proof. repeat split. Qed.

Lemma records_only_trans c1 c2 c3 :
  records_only c1 c2 -> records_only c2 c3 -> records_only c1 c3.
Proof.
  intros (A1 & A2 & A3 & A4 & A5 & A6 & A7) (B1 & B2 & B3 & B4 & B5 & B6 & B7).
  repeat split; congruence.
Qed.

Lemma group_timer_sweep_spec queue now exp c exp' c' :
  1 <= ULONG_BITS -> NoDup queue ->
  1 <= ahead now exp <= 2 ^ (ULONG_BITS - 1) ->
  group_timer_sweep queue now exp c = Done exp' c' ->
  (forall a g, In a queue -> groups_mem (groups c) !! a = Some g ->
     groups_mem (groups c') !! a = Some (swept now g)) /\
  (forall a, ~ In a queue -> groups_mem (groups c') !! a = groups_mem (groups c) !! a) /\
  records_only c c' /\
  calls_made c c' (sweep_calls now (routers_portmap c) (groups_mem (groups c)) queue) /\
  1 <= ahead now exp' <= ahead now exp /\
  (forall a g, In a queue -> groups_mem (groups c) !! a = Some g -> group_live now g = true ->
     ahead now exp' <= ahead now (group_time g)) /\
  (exp' = exp \/
   exists a g, In a queue /\ groups_mem (groups c) !! a = Some g /\ group_live now g = true /\
               group_time g = exp').
Proof.
  intros Hw. revert exp c.
  induction queue as [|a queue IH]; intros exp c Hnd Hexp H; cbn [group_timer_sweep] in H.
  - unfold ret in H. injection H as <- <-.
    split; [intros a g []|]. split; [reflexivity|]. split; [apply records_only_refl|].
    split; [apply calls_made_same; reflexivity|]. split; [lia|].
    split; [intros a g []|left; reflexivity].
  - apply NoDup_cons in Hnd as [Hnin Hnd]. rewrite list_elem_of_In in Hnin.
    apply bind_inv in H as (g & c0 & El & H). apply group_load_inv in El as [-> Hg].
    unfold group_at in Hg. cbv zeta in H.
    unfold sweep_calls. cbn [flat_map]. rewrite Hg.
    fold (sweep_calls now (routers_portmap c) (groups_mem (groups c)) queue).
    destruct (group_portmap g =? 0) eqn:Ez.
    { (* no ports: skipped *)
      destruct (IH exp c Hnd Hexp H) as (Hin & Hout & Hro & Hcalls & Hr & Hall & Hex).
      assert (Hdue : group_due now g = false) by (unfold group_due; rewrite Ez; reflexivity).
      assert (Hlive : group_live now g = false) by (unfold group_live; rewrite Ez; reflexivity).
      rewrite Hdue. cbn [app].
      split; [|split; [|split; [exact Hro|split; [exact Hcalls|split; [exact Hr|split]]]]].
      - intros b gb [<-|Hb] Hgb.
        + rewrite Hout by exact Hnin. rewrite Hgb. rewrite Hg in Hgb. injection Hgb as <-.
          unfold swept. rewrite Hdue. reflexivity.
        + apply Hin; assumption.
      - intros b Hb. apply Hout. intros Hq. apply Hb. right. exact Hq.
      - intros b gb [<-|Hb] Hgb Hl.
        + rewrite Hg in Hgb. injection Hgb as <-. congruence.
        + apply (Hall b gb Hb Hgb Hl).
      - destruct Hex as [E|(b & gb & Hb & Hgb & Hl & E)]; [left; exact E|].
        right. exists b, gb. split; [right; exact Hb|]. auto. }
    destruct (time_after (group_time g) now) eqn:Ea.
    { (* live: its time is a candidate for the next deadline *)
      assert (Hdue : group_due now g = false)
        by (unfold group_due; rewrite Ez, Ea; reflexivity).
      assert (Hlive : group_live now g = true)
        by (unfold group_live; rewrite Ez, Ea; reflexivity).
      pose proof (proj1 (time_after_ahead now _ Hw) Ea) as Hga.
      set (exp1 := if time_before (group_time g) exp then group_time g else exp) in H.
      assert (H1 : 1 <= ahead now exp1 <= ahead now exp /\
                   ahead now exp1 <= ahead now (group_time g) /\
                   (exp1 = exp \/ exp1 = group_time g)).
      { unfold exp1. destruct (time_before (group_time g) exp) eqn:Hb.
        - apply (time_before_ahead now _ _ Hw Hga Hexp) in Hb.
          split; [lia|]. split; [lia|auto].
        - assert (~ ahead now (group_time g) < ahead now exp).
          { intros Hlt. apply (time_before_ahead now _ _ Hw Hga Hexp) in Hlt. congruence. }
          split; [lia|]. split; [lia|auto]. }
      destruct H1 as (Hr1 & Hle1 & Hc1).
      assert (Hexp1 : 1 <= ahead now exp1 <= 2 ^ (ULONG_BITS - 1)) by lia.
      destruct (IH exp1 c Hnd Hexp1 H) as (Hin & Hout & Hro & Hcalls & Hr & Hall & Hex).
      rewrite Hdue. cbn [app].
      split; [|split; [|split; [exact Hro|split; [exact Hcalls|split; [lia|split]]]]].
      - intros b gb [<-|Hb] Hgb.
        + rewrite Hout by exact Hnin. rewrite Hgb. rewrite Hg in Hgb. injection Hgb as <-.
          unfold swept. rewrite Hdue. reflexivity.
        + apply Hin; assumption.
      - intros b Hb. apply Hout. intros Hq. apply Hb. right. exact Hq.
      - intros b gb [<-|Hb] Hgb Hl.
        + rewrite Hg in Hgb. injection Hgb as <-. lia.
        + apply (Hall b gb Hb Hgb Hl).
      - destruct Hex as [E|(b & gb & Hb & Hgb & Hl & E)].
        + destruct Hc1 as [E1|E1]; [left; congruence|].
          right. exists a, g. split; [left; reflexivity|].
          split; [exact Hg|]. split; [exact Hlive|congruence].
        + right. exists b, gb. split; [right; exact Hb|]. auto. }
    (* due: consumed, and reported to the driver *)
    assert (Hdue : group_due now g = true)
      by (unfold group_due; rewrite Ez, Ea; reflexivity).
    rewrite Hdue. cbv zeta.
    apply bind_inv in H as (u & c1 & Ec & H).
    apply consume_group_inv in Ec as (g0 & free1 & Hg0 & ->).
    unfold group_at in Hg0. rewrite Hg in Hg0. injection Hg0 as <-.
    rewrite bind_gets in H.
    apply bind_inv in H as (u2 & c2 & Ed & H).
    set (G := clear_ports ports (set_group_portmap 0 g)) in *.
    set (c1 := with_members (set_members_free free1) (put_group (pooled a) G c)) in *.
    change (routers_portmap c1) with (routers_portmap c) in Ed.
    set (new := if Z.land (group_portmap g) (Z.lnot (routers_portmap c)) =? 0 then []
                else [drv_del_portmap (group_ea g)
                        (Z.land (group_portmap g) (Z.lnot (routers_portmap c)))]).
    assert (Hc2 : c2 = logged new c1).
    { unfold new. revert Ed.
      destruct (Z.land (group_portmap g) (Z.lnot (routers_portmap c)) =? 0); intros Ed.
      - unfold ret in Ed. injection Ed as _ <-. symmetry. apply logged_nil.
      - unfold switch_del_portmap in Ed. rewrite driver_logged in Ed.
        injection Ed as _ <-. reflexivity. }
    clear Ed. subst c2.
    assert (Hlen : (a < length (groups_mem (groups c)))%nat)
      by (apply lookup_lt_is_Some; eauto).
    assert (Hmem : groups_mem (groups (logged new c1)) = <[a := G]> (groups_mem (groups c)))
      by reflexivity.
    destruct (IH exp (logged new c1) Hnd Hexp H)
      as (Hin & Hout & Hro & Hcalls & Hr & Hall & Hex).
    rewrite Hmem in Hin, Hout, Hcalls, Hall, Hex.
    assert (Hne : forall b, In b queue -> <[a := G]> (groups_mem (groups c)) !! b
                                         = groups_mem (groups c) !! b).
    { intros b Hb. apply list_lookup_insert_ne. intros ->. contradiction. }
    split; [|split; [|split; [|split; [|split; [exact Hr|split]]]]].
    + intros b gb [<-|Hb] Hgb.
      * rewrite Hout by exact Hnin. rewrite list_lookup_insert_eq by exact Hlen.
        rewrite Hg in Hgb. injection Hgb as <-. unfold swept. rewrite Hdue. reflexivity.
      * apply Hin; [exact Hb|]. rewrite (Hne b Hb). exact Hgb.
    + intros b Hb. rewrite Hout by (intros Hq; apply Hb; right; exact Hq).
      apply list_lookup_insert_ne. intros ->. apply Hb. left. reflexivity.
    + eapply records_only_trans; [|exact Hro].
      unfold records_only. rewrite Hmem, length_insert. repeat split.
    + unfold calls_made in *. rewrite Hcalls.
      change (routers_portmap (logged new c1)) with (routers_portmap c).
      rewrite (sweep_calls_ext _ _ _ _ _ Hne).
      change (driver_log (world (logged new c1))) with (driver_log (world c) ++ new).
      rewrite <- app_assoc. reflexivity.
    + intros b gb [<-|Hb] Hgb Hl.
      * rewrite Hg in Hgb. injection Hgb as <-. unfold group_live in Hl.
        rewrite Ea in Hl. rewrite andb_false_r in Hl. discriminate.
      * apply (Hall b gb Hb); [rewrite (Hne b Hb); exact Hgb|exact Hl].
    + destruct Hex as [E|(b & gb & Hb & Hgb & Hl & E)]; [left; exact E|].
      right. exists b, gb. split; [right; exact Hb|].
      rewrite (Hne b Hb) in Hgb. auto.
Qed.

Lemma half_window : 2 <= ULONG_BITS -> 2 <= 2 ^ (ULONG_BITS - 1).
Proof.
  intros Hw. replace (ULONG_BITS - 1) with (1 + (ULONG_BITS - 2)) by lia.
  rewrite Z.pow_add_r by lia.
  assert (0 < 2 ^ (ULONG_BITS - 2)) by (apply Z.pow_pos_nonneg; lia). lia.
Qed.

Lemma group_timer_inv now c c' :
  2 <= ULONG_BITS -> NoDup (groups_pool (groups c)) ->
  group_timer now c = Done tt c' ->
  exists exp' c1,
    group_timer_sweep (groups_pool (groups c)) now (ulong (now + ULONG_HALF)) c = Done exp' c1 /\
    1 <= ahead now exp' <= 2 ^ (ULONG_BITS - 1) - 1 /\
    (ahead now exp' < 2 ^ (ULONG_BITS - 1) - 1 ->
       c' = with_groups (fun gs => set_groups_timer (mod_timer (groups_timer gs) exp') gs) c1) /\
    (ahead now exp' = 2 ^ (ULONG_BITS - 1) - 1 -> c' = c1).
Proof.
  intros Hw Hnd H. unfold group_timer in H. rewrite bind_gets in H.
  apply bind_inv in H as (exp' & c1 & Es & H). cbv zeta in H.
  assert (Hw1 : 1 <= ULONG_BITS) by lia.
  pose proof (half_window Hw) as Hh.
  assert (Hexp : 1 <= ahead now (ulong (now + ULONG_HALF)) <= 2 ^ (ULONG_BITS - 1))
    by (rewrite (ahead_half now Hw); lia).
  pose proof (group_timer_sweep_spec _ _ _ _ _ _ Hw1 Hnd Hexp Es) as (_ & _ & _ & _ & Hr & _).
  rewrite (ahead_half now Hw) in Hr.
  exists exp', c1. split; [exact Es|]. split; [lia|].
  assert (He' : 1 <= ahead now exp' <= 2 ^ (ULONG_BITS - 1)) by lia.
  destruct (time_before exp' (ulong (now + ULONG_HALF))) eqn:Eb.
  - apply (time_before_ahead now _ _ Hw1 He' Hexp) in Eb. rewrite (ahead_half now Hw) in Eb.
    unfold modify in H. injection H as <-. split; [reflexivity|lia].
  - assert (~ ahead now exp' < ahead now (ulong (now + ULONG_HALF))).
    { intros Hlt. apply (time_before_ahead now _ _ Hw1 He' Hexp) in Hlt. congruence. }
    rewrite (ahead_half now Hw) in *.
    unfold ret in H. injection H as <-. split; [lia|reflexivity].
Qed.

(** X9.  X9.  When the group timer fires at [now] in a reachable state, every
    group record that has ports and whose time is not after [now] loses
    all its members and ports, and every other record stays as it is.
    For each group it consumes, in pool order, the driver is told to
    drop the ports of the group that no router is on, if there are any.
    The timer is set again only when some remaining group with ports has
    its time less than half the clock range ahead: then to the earliest
    such time. *)
Theorem group_timer_expires_groups now c c' :
  2 <= ULONG_BITS -> reachable c ->
  group_timer now c = Done tt c' ->
  (forall a g, groups_mem (groups c) !! a = Some g ->
     groups_mem (groups c') !! a = Some (swept now g)) /\
  calls_made c c' (sweep_calls now (routers_portmap c) (groups_mem (groups c))
                     (groups_pool (groups c))) /\
  ((groups_timer (groups c') = groups_timer (groups c) /\
    forall a g, groups_mem (groups c) !! a = Some g -> group_live now g = true ->
      time_before (group_time g) (ulong (now + ULONG_HALF)) = false)
   \/
   (exists a g, groups_mem (groups c) !! a = Some g /\ group_live now g = true /\
                groups_timer (groups c') = mod_timer (groups_timer (groups c)) (group_time g)) /\
    forall a g, groups_mem (groups c) !! a = Some g -> group_live now g = true ->
      time_before (group_time g) (expires (groups_timer (groups c'))) = false) /\
  hosts c' = hosts c /\ routers c' = routers c /\
  groups_pool (groups c') = groups_pool (groups c) /\
  groups_hash (groups c') = groups_hash (groups c) /\
  groups_count (groups c') = groups_count (groups c).
Proof.
  intros Hw Hreach H.
  assert (Hw1 : 1 <= ULONG_BITS) by lia.
  pose proof (half_window Hw) as Hh.
  pose proof (reachable_wf c Hreach) as Hwf.
  assert (Hpool : groups_pool (groups c) = seq 0 (length (groups_mem (groups c))))
    by apply Hwf.
  assert (Hnd : NoDup (groups_pool (groups c))) by (rewrite Hpool; apply NoDup_seq).
  assert (Hall_in : forall a g, groups_mem (groups c) !! a = Some g ->
                                In a (groups_pool (groups c))).
  { intros a g Hg. rewrite Hpool. apply in_seq. apply lookup_lt_Some in Hg. lia. }
  destruct (group_timer_inv now c c' Hw Hnd H) as (exp' & c1 & Es & Hr' & Hset & Hkeep).
  assert (Hexp : 1 <= ahead now (ulong (now + ULONG_HALF)) <= 2 ^ (ULONG_BITS - 1))
    by (rewrite (ahead_half now Hw); lia).
  destruct (group_timer_sweep_spec _ _ _ _ _ _ Hw1 Hnd Hexp Es)
    as (Hin & _ & (R1 & R2 & R3 & R4 & R5 & R6 & R7) & Hcalls & _ & Hall & Hex).
  assert (He' : 1 <= ahead now exp' <= 2 ^ (ULONG_BITS - 1)) by lia.
  assert (Hlive_win : forall g, group_live now g = true ->
                        1 <= ahead now (group_time g) <= 2 ^ (ULONG_BITS - 1)).
  { intros g Hl. unfold group_live in Hl. apply andb_true_iff in Hl as [_ Hl].
    apply (time_after_ahead now _ Hw1). exact Hl. }
  destruct (Z.eq_dec (ahead now exp') (2 ^ (ULONG_BITS - 1) - 1)) as [Eq|Ne].
  - (* the timer is left alone *)
    rewrite (Hkeep Eq).
    split; [intros a g Hg; apply Hin; [eapply Hall_in; exact Hg|exact Hg]|].
    split; [exact Hcalls|]. split; [|repeat split; assumption].
    left. split; [exact R5|]. intros a g Hg Hl.
    pose proof (Hall a g (Hall_in a g Hg) Hg Hl) as Hle.
    destruct (time_before (group_time g) (ulong (now + ULONG_HALF))) eqn:Eb; [|reflexivity].
    apply (time_before_ahead now _ _ Hw1 (Hlive_win g Hl) Hexp) in Eb.
    rewrite (ahead_half now Hw) in Eb. lia.
  - (* the timer is set to the earliest deadline *)
    rewrite (Hset ltac:(lia)).
    split; [intros a g Hg; apply Hin; [eapply Hall_in; exact Hg|exact Hg]|].
    split; [exact Hcalls|]. split; [|repeat split; assumption].
    right. split.
    + destruct Hex as [E|(a & g & Ha & Hg & Hl & E)].
      * rewrite E, (ahead_half now Hw) in Ne. contradiction.
      * exists a, g. split; [exact Hg|]. split; [exact Hl|].
        cbn. rewrite R5, E. reflexivity.
    + intros a g Hg Hl. cbn.
      pose proof (Hall a g (Hall_in a g Hg) Hg Hl) as Hle.
      destruct (time_before (group_time g) exp') eqn:Eb; [|reflexivity].
      apply (time_before_ahead now _ _ Hw1 (Hlive_win g Hl) He') in Eb. lia.
Qed.

(** ** Forced expiry *)

(** The groups [expire_members] is asked about: the one with this MAC, or
    all of them for a null [maddr]. *)
Definition named (maddr : option ether_addr) (g : group_entry) : bool :=
  match maddr with
  | Some ea => bool_decide (group_ea g = ea)
  | None => true
  end.

Lemma expire_all_spec queue time c r c' :
  expire_all queue time c = Done r c' ->
  (forall a, In a queue ->
     groups_mem (groups c') !! a = set_group_time time <$> groups_mem (groups c) !! a) /\
  (forall a, ~ In a queue -> groups_mem (groups c') !! a = groups_mem (groups c) !! a) /\
  c' = with_groups (set_groups_mem (groups_mem (groups c'))) c.
Proof.
  revert c. induction queue as [|a queue IH]; intros c H; cbn [expire_all] in H.
  - unfold ret in H. injection H as _ <-.
    split; [intros a []|]. split; [reflexivity|].
    destruct c as [? ? [] ? ?]. reflexivity.
  - apply bind_inv in H as (g & c0 & El & H). apply group_load_inv in El as [-> Hg].
    unfold group_at in Hg. unfold group_store in H. rewrite bind_modify in H.
    destruct (IH _ H) as (Hin & Hout & Hc').
    assert (Hmem : groups_mem (groups (put_group (pooled a) (set_group_time time g) c))
                   = <[a := set_group_time time g]> (groups_mem (groups c))) by reflexivity.
    rewrite Hmem in Hin, Hout.
    assert (Hlen : (a < length (groups_mem (groups c)))%nat)
      by (apply lookup_lt_is_Some; eauto).
    assert (Ha : groups_mem (groups c') !! a
                 = set_group_time time <$> groups_mem (groups c) !! a).
    { rewrite Hg. cbn [fmap option_fmap option_map].
      destruct (in_dec Nat.eq_dec a queue) as [Hq|Hq].
      - rewrite (Hin a Hq), list_lookup_insert_eq by exact Hlen. reflexivity.
      - rewrite (Hout a Hq), list_lookup_insert_eq by exact Hlen. reflexivity. }
    split; [|split].
    + intros b [<-|Hb]; [exact Ha|].
      destruct (decide (b = a)) as [->|Hne]; [exact Ha|].
      rewrite (Hin b Hb), list_lookup_insert_ne by congruence. reflexivity.
    + intros b Hb. rewrite Hout by (intros Hq; apply Hb; right; exact Hq).
      apply list_lookup_insert_ne. intros ->. apply Hb. left. reflexivity.
    + rewrite Hc' at 1. destruct c as [? ? [] ? ?]. reflexivity.
Qed.

(** The records and the timer [expire_members] leaves when it returns 0. *)
Lemma expire_members_inv maddr timeout now c r c' :
  groups_wf c ->
  expire_members maddr timeout now c = Done r c' ->
  let time := ulong (now + timeout) in
  (r = -1 /\ c' = c /\ exists ea, maddr = Some ea /\ group_of c ea = None) \/
  (r = 0 /\
   (forall ea, maddr = Some ea -> group_of c ea <> None) /\
   exists mem',
     (forall a g, groups_mem (groups c) !! a = Some g ->
        mem' !! a = Some (if named maddr g then set_group_time time g else g)) /\
     length mem' = length (groups_mem (groups c)) /\
     c' = with_groups (fun gs => set_groups_timer
                                   (timer_brought_forward (groups_timer (groups c)) time)
                                   (set_groups_mem mem' gs)) c).
Proof.
  intros Hwf H time. unfold expire_members in H. fold time in H.
  apply bind_inv in H as (found & c1 & Ef & H).
  assert (Htimer : forall s : cache, found = true ->
            (timer <- gets (fun c => groups_timer (groups c));;
             (if negb (timer_pending timer) || time_after (expires timer) time
              then modify (with_groups (set_groups_timer (mod_timer timer time)))
              else ret tt);;; ret 0) s
            = Done 0 (with_groups (set_groups_timer
                                     (timer_brought_forward (groups_timer (groups s)) time)) s)).
  { intros s _. rewrite bind_gets. unfold timer_brought_forward.
    destruct (negb _ || _).
    - rewrite bind_modify. reflexivity.
    - rewrite bind_ret. unfold ret. f_equal. destruct s as [? ? [] ? ?]. reflexivity. }
  destruct maddr as [ea|].
  - apply bind_inv in Ef as (group & c2 & Eg & Ef).
    pose proof (get_group_lookup_state _ _ _ _ Eg) as ->.
    destruct group as [a|].
    + apply bind_inv in Ef as (g & c3 & El & Ef). apply group_load_inv in El as [-> Hg].
      unfold group_at in Hg. unfold group_store in Ef. rewrite bind_modify in Ef.
      unfold ret in Ef. injection Ef as <- <-.
      rewrite (Htimer _ eq_refl) in H. injection H as <- <-.
      assert (Hea : group_ea g = ea).
      { rewrite get_group_lookup in Eg. apply groups_hash_find_some in Eg as (_ & g' & Hg' & E).
        unfold group_at in Hg'. congruence. }
      right. split; [reflexivity|]. split.
      { intros ea' [= <-]. unfold group_of. rewrite Eg, Hg. discriminate. }
      exists (<[a := set_group_time time g]> (groups_mem (groups c))).
      split; [|split; [apply length_insert|destruct c as [? ? [] ? ?]; reflexivity]].
      intros b gb Hgb. unfold named. destruct (bool_decide (group_ea gb = ea)) eqn:Eb.
      * apply bool_decide_eq_true_1 in Eb.
        destruct Hwf as (_ & _ & _ & _ & _ & W6 & _).
        assert (b = a) by (apply (W6 b a gb g Hgb Hg); congruence). subst b.
        rewrite Hg in Hgb. injection Hgb as <-.
        apply list_lookup_insert_eq. apply lookup_lt_is_Some. eauto.
      * apply bool_decide_eq_false_1 in Eb.
        rewrite list_lookup_insert_ne; [exact Hgb|]. intros ->.
        rewrite Hg in Hgb. injection Hgb as <-. contradiction.
    + unfold ret in Ef. injection Ef as <- <-. unfold ret in H. injection H as <- <-.
      left. split; [reflexivity|]. split; [reflexivity|].
      exists ea. split; [reflexivity|]. unfold group_of. rewrite Eg. reflexivity.
  - rewrite bind_gets in Ef. apply bind_inv in Ef as (u & c2 & Ea & Ef).
    unfold ret in Ef. injection Ef as <- <-.
    rewrite (Htimer _ eq_refl) in H. injection H as <- <-.
    destruct (expire_all_spec _ _ _ _ _ Ea) as (Hin & Hout & Hc2).
    destruct (expire_all_kept _ _ _ _ _ Ea) as (_ & _ & _ & L & _).
    remember (groups_mem (groups c2)) as M eqn:HM. clear HM Ea. subst c2.
    right. split; [reflexivity|]. split; [intros ea [=]|].
    exists M. split; [|split].
    + intros a g Hg. cbn [named]. rewrite Hin, Hg; [reflexivity|].
      destruct Hwf as (W1 & _). rewrite W1. apply in_seq.
      apply lookup_lt_Some in Hg. lia.
    + exact L.
    + destruct c as [? ? [] ? ?]. reflexivity.
Qed.

(** X10.  X10.  [expire_members] gives the named group -- every group of the pool for
    a null [maddr] -- the expiry [now() + timeout], whether or not the
    group has ports, and leaves its members, ports and MAC alone; no other
    record changes.  The group timer is moved to that time when it was
    idle or was due later.  The call returns 0 and changes nothing else;
    when the named group has no record it returns -1 and changes
    nothing. *)
Theorem expire_members_sets_deadline maddr timeout now c r c' :
  reachable c ->
  expire_members maddr timeout now c = Done r c' ->
  let time := ulong (now + timeout) in
  (r = -1 /\ c' = c /\ exists ea, maddr = Some ea /\ group_of c ea = None) \/
  (r = 0 /\
   (forall ea, maddr = Some ea -> group_of c ea <> None) /\
   (forall a g, groups_mem (groups c) !! a = Some g ->
      groups_mem (groups c') !! a
      = Some (if named maddr g then set_group_time time g else g)) /\
   groups_timer (groups c') = timer_brought_forward (groups_timer (groups c)) time /\
   groups_pool (groups c') = groups_pool (groups c) /\
   groups_hash (groups c') = groups_hash (groups c) /\
   groups_count (groups c') = groups_count (groups c) /\
   hosts c' = hosts c /\ members c' = members c /\ routers c' = routers c /\
   world c' = world c).
Proof.
  intros Hreach H time.
  destruct (expire_members_inv _ _ _ _ _ _ (reachable_wf c Hreach) H)
    as [Hmiss|(Hr & Hsome & mem' & Hmem & _ & ->)]; [left; exact Hmiss|].
  right. split; [exact Hr|]. split; [exact Hsome|].
  split; [exact Hmem|]. repeat split.
Qed.

Lemma group_timer_records now c c' a g :
  2 <= ULONG_BITS -> groups_wf c ->
  group_timer now c = Done tt c' ->
  groups_mem (groups c) !! a = Some g ->
  groups_mem (groups c') !! a = Some (swept now g).
Proof.
  intros Hw Hwf H Hg.
  assert (Hpool : groups_pool (groups c) = seq 0 (length (groups_mem (groups c))))
    by apply Hwf.
  assert (Hnd : NoDup (groups_pool (groups c))) by (rewrite Hpool; apply NoDup_seq).
  assert (Hin : In a (groups_pool (groups c))).
  { rewrite Hpool. apply in_seq. apply lookup_lt_Some in Hg. lia. }
  destruct (group_timer_inv now c c' Hw Hnd H) as (exp' & c1 & Es & Hr' & Hset & Hkeep).
  assert (Hexp : 1 <= ahead now (ulong (now + ULONG_HALF)) <= 2 ^ (ULONG_BITS - 1)).
  { rewrite (ahead_half now Hw). pose proof (half_window Hw). lia. }
  destruct (group_timer_sweep_spec _ _ _ _ _ _ ltac:(lia) Hnd Hexp Es) as (Hrec & _).
  specialize (Hrec a g Hin Hg).
  destruct (Z.eq_dec (ahead now exp') (2 ^ (ULONG_BITS - 1) - 1)) as [Eq|Ne].
  - rewrite (Hkeep Eq). exact Hrec.
  - rewrite (Hset ltac:(lia)). exact Hrec.
Qed.

(** X11.  X11.  Forced expiry takes effect: after [expire_members] returned 0 for a
    group (or for all groups), a run of the group timer at or after the
    time [now() + timeout] leaves each such group with its record and its
    MAC, but without members and ports. *)
Theorem forced_expiry_takes_effect maddr timeout now now' c c1 c2 :
  2 <= ULONG_BITS -> reachable c ->
  expire_members maddr timeout now c = Done 0 c1 ->
  time_after (ulong (now + timeout)) now' = false ->
  group_timer now' c1 = Done tt c2 ->
  forall a g, groups_mem (groups c) !! a = Some g -> named maddr g = true ->
    exists g', groups_mem (groups c2) !! a = Some g' /\ group_ea g' = group_ea g /\
               group_cleared g'.
Proof.
  intros Hw Hreach He Hlate Ht a g Hg Hn.
  pose proof (reachable_wf c Hreach) as Hwf.
  assert (Hwf1 : groups_wf c1).
  { eapply groups_wf_kept; [|exact Hwf]. eapply expire_members_kept. exact He. }
  destruct (expire_members_inv _ _ _ _ _ _ Hwf He)
    as [(Hr & _)|(_ & _ & mem' & Hmem & _ & Hc1)]; [discriminate|].
  assert (Hg1 : groups_mem (groups c1) !! a
                = Some (set_group_time (ulong (now + timeout)) g)).
  { rewrite Hc1. cbn. rewrite (Hmem a g Hg), Hn. reflexivity. }
  rewrite (group_timer_records now' c1 c2 a _ Hw Hwf1 Ht Hg1).
  eexists. split; [reflexivity|]. unfold swept, group_due.
  cbn [group_portmap group_time set_group_time]. rewrite Hlate.
  destruct (group_portmap g =? 0) eqn:Ez; cbn [negb andb].
  - split; [reflexivity|]. apply Z.eqb_eq in Ez.
    assert (Hc : consistent g).
    { apply (reachable_inv c Hreach (pooled a)); [discriminate|exact Hg]. }
    unfold consistent in Hc. split; [exact Ez|].
    intros p Hp. change (port_members g p = []).
    apply get_portmap_zero; [congruence|exact Hp].
  - split; [rewrite clear_ports_ea; reflexivity|]. apply cleared_after_consume.
Qed.

(** ** What [get_port] answers *)

Lemma host_of_head ea c a h chain :
  nth (HASH_INDEX ea) (hosts_hash (hosts c)) [] = a :: chain ->
  hosts_mem (hosts c) !! a = Some h -> host_ea h = ea ->
  host_of c ea = Some h.
Proof.
  intros Hc Hh Hea. unfold host_of. rewrite Hc. cbn [hosts_hash_find].
  rewrite (bind_Done _ _ _ _ _ (host_load_at _ _ _ Hh)).
  destruct (decide (host_ea h = ea)); [|contradiction]. unfold ret. exact Hh.
Qed.

Lemma host_of_none_find ea c :
  hosts_wf c -> host_of c ea = None ->
  hosts_hash_find (nth (HASH_INDEX ea) (hosts_hash (hosts c)) []) ea c = Done None c.
Proof.
  intros Hwf Hnone. destruct (host_find_total ea c Hwf) as [r Hr].
  rewrite Hr. destruct r as [a|]; [|reflexivity].
  unfold host_of in Hnone. rewrite Hr in Hnone.
  apply hosts_hash_find_some in Hr as (Hin & _).
  destruct Hwf as (_ & W2 & _). destruct (W2 _ _ Hin) as (h & Hh & _). congruence.
Qed.

(** X12.  X12.  A call of [get_port] that returns either returns a port of the switch
    without asking the driver, or asks the driver once and returns its
    answer as it is, valid or not.  An answer that is not a port of the
    switch is never stored: every host record holds a port in
    0..PORT_MAX.  Groups, members and the router state are not touched. *)
Theorem get_port_answer haddr now c r c' :
  reachable c ->
  get_port haddr now c = Done r c' ->
  ((calls_made c c' [] /\ port_valid r = true) \/
   (calls_made c c' [drv_get_port haddr] /\ r = switch_port_of (world c) haddr)) /\
  (forall a h, hosts_mem (hosts c') !! a = Some h -> port_valid (host_port h) = true) /\
  groups c' = groups c /\ routers c' = routers c /\ members c' = members c.
Proof.
  intros Hreach H.
  pose proof (get_port_keeps_hosts_wf _ _ _ _ _ (reachable_sized c Hreach)
                (reachable_hosts_wf c Hreach) H) as (_ & _ & W3).
  split; [|split; [exact W3|apply (get_port_frame _ _ _ _ _ H)]].
  apply get_port_inv in H as (host & c1 & Eh & H).
  destruct (get_host_world_log _ _ _ _ _ Eh) as (Hlog & Hsw).
  destruct host as [a|].
  - destruct H as (h & Hh & H). destruct (time_after_eq (host_time h) now).
    + destruct H as [-> ->]. left. split; [apply calls_made_log; exact Hlog|].
      apply (W3 a h Hh).
    + destruct H as [Hr ->]. right. rewrite Hsw in Hr. split; [|exact Hr].
      unfold calls_made. rewrite <- Hlog. destruct (port_valid r); reflexivity.
  - destruct H as [Hr ->]. right. rewrite Hsw in Hr. split; [|exact Hr].
    unfold calls_made. rewrite <- Hlog. reflexivity.
Qed.

(** The record [calloc] hands out, under its MAC. *)
Definition host_fresh (ea : ether_addr) : host_entry := set_host_ea ea host_zero.

(** X13.  X13.  The first lookup of a MAC, when a record is to be had: the record is
    created with time 0 and port 0 and appended to the pool queue.  If
    tick 0 is not before [now] in the wrap-around order (that is, [now] is
    0 or lies in the upper half of the tick range), the new record counts
    as current: the call returns port 0 and the driver is not asked.
    Otherwise the driver is asked and its answer returned, and cached for
    [HOST_TTL] if it is a port of the switch. *)
Theorem get_port_first_lookup haddr now c :
  reachable c -> host_of c haddr = None ->
  (HOST_POOL_SIZE <=? hosts_count (hosts c)) || calloc_fails c = false ->
  let answer := switch_port_of (world c) haddr in
  exists c',
    get_port haddr now c = Done (if time_after_eq 0 now then 0 else answer) c' /\
    calls_made c c' (if time_after_eq 0 now then [] else [drv_get_port haddr]) /\
    host_of c' haddr
    = Some (if negb (time_after_eq 0 now) && port_valid answer
            then host_cached (host_fresh haddr) answer now
            else host_fresh haddr) /\
    hosts_pool (hosts c') = hosts_pool (hosts c) ++ [length (hosts_mem (hosts c))].
Proof.
  intros Hreach Hnone Hroom answer.
  pose proof (reachable_hosts_wf c Hreach) as Hwf.
  pose proof (reachable_sized c Hreach) as (Hlen & _).
  pose proof (get_host_miss haddr now c Hwf (host_of_none_find _ _ Hwf Hnone)) as Hm.
  rewrite Hroom in Hm. destruct Hm as (rest & Eh).
  set (a := length (hosts_mem (hosts c))) in *.
  set (c1 := host_created haddr rest c) in *.
  assert (Hh : hosts_mem (hosts c1) !! a = Some (host_fresh haddr)).
  { unfold c1. rewrite host_created_mem. apply list_lookup_middle. reflexivity. }
  assert (Hidx : (HASH_INDEX haddr < length (hosts_hash (hosts c)))%nat)
    by (rewrite Hlen; apply HASH_INDEX_lt).
  assert (Hchain : nth (HASH_INDEX haddr) (hosts_hash (hosts c1)) []
                   = a :: nth (HASH_INDEX haddr) (hosts_hash (hosts c)) []).
  { change (hosts_hash (hosts c1))
      with (hash_link (HASH_INDEX haddr) a (hosts_hash (hosts c))).
    unfold hash_link. rewrite (nth_lookup (<[_ := _]> _)).
    rewrite list_lookup_insert_eq by exact Hidx. reflexivity. }
  unfold get_port. rewrite (bind_Done _ _ _ _ _ Eh). cbv beta iota.
  rewrite bind_bind. rewrite (bind_Done _ _ _ _ _ (host_load_at _ _ _ Hh)).
  rewrite bind_ret. change (host_time (host_fresh haddr)) with 0.
  destruct (time_after_eq 0 now) eqn:Et.
  - exists c1. split; [reflexivity|]. split; [apply calls_made_log; reflexivity|].
    split; [|reflexivity]. cbn [negb andb].
    apply (host_of_head haddr c1 a _ _ Hchain Hh). reflexivity.
  - cbn [negb andb].
    exists ((if port_valid answer then put_host a (host_cached (host_fresh haddr) answer now)
             else id) (logged [drv_get_port haddr] c1)).
    split; [|split; [|split]].
    + unfold switch_get_port, driver, bind, modify, gets, ret, host_store, modify, port_valid.
      change (switch_port_of (world (with_world _ c1)) haddr) with answer.
      destruct ((0 <=? answer) && (answer <=? Z.of_nat PORT_MAX)); [|reflexivity].
      unfold host_load.
      change (hosts_mem (hosts (with_world _ c1))) with (hosts_mem (hosts c1)).
      rewrite Hh. reflexivity.
    + unfold calls_made. destruct (port_valid answer); reflexivity.
    + destruct (port_valid answer).
      * eapply host_of_head; [exact Hchain| |reflexivity].
        cbn. apply list_lookup_insert_eq. apply lookup_lt_is_Some. eauto.
      * unfold id.
        apply (host_of_head haddr (logged [drv_get_port haddr] c1) a _ _ Hchain Hh).
        reflexivity.
    + destruct (port_valid answer); reflexivity.
Qed.

(** X14.  X14.  When the router timer fires at or after the time of the router list
    as a whole -- the expiry the last [add_router] set -- all routers are
    dropped at once, whatever their own times are: the router state is
    left without members and ports, every group is told (in queue order)
    to drop the former router ports it does not hold itself, and the
    timer is not set again. *)
Theorem router_timer_drops_all_when_stale now c c' :
  0 <= routers_portmap c ->
  time_after (group_time (routers_group (routers c))) now = false ->
  router_timer now c = Done tt c' ->
  group_cleared (routers_group (routers c')) /\
  calls_made c c' (fan_out_calls drv_del_portmap (routers_portmap c) c
                     (groups_pool (groups c))) /\
  routers_timer (routers c') = routers_timer (routers c) /\
  groups c' = groups c /\ hosts c' = hosts c.
Proof.
  intros Hpos Hstale H. unfold router_timer in H.
  apply bind_inv in H as (g & c0 & El & H). apply group_load_inv in El as [-> Hg].
  apply group_at_the_routers in Hg. subst g.
  assert (Hneg : (group_portmap (routers_group (routers c)) <? 0) = false)
    by (apply Z.ltb_ge; exact Hpos).
  rewrite Hneg, Hstale in H.
  apply bind_inv in H as (portmap & c1 & E & H).
  apply bind_inv in E as (u & c2 & Ec & Er). unfold ret in Er. injection Er as <- <-.
  apply consume_group_inv in Ec as (g1 & free1 & Hg1 & ->).
  apply group_at_the_routers in Hg1. subst g1.
  apply (fan_out_tail drv_del_portmap) in H. subst c'.
  split; [apply cleared_after_consume|].
  split; [|repeat split].
  unfold calls_made, routers_portmap. reflexivity.
Qed.

(** ** What the membership calls return *)

Lemma single_bit r (port : nat) :
  (forall i, 0 <= i -> Z.testbit r i = true -> i = Z.of_nat port) ->
  r = 0 \/ r = Z.shiftl 1 (Z.of_nat port).
Proof.
  intros H. destruct (Z.testbit r (Z.of_nat port)) eqn:E.
  - right. apply Z.bits_inj'. intros i Hi.
    rewrite Z.shiftl_1_l, Z.pow2_bits_eqb by lia.
    destruct (Z.eqb_spec (Z.of_nat port) i) as [<-|Hne]; [exact E|].
    destruct (Z.testbit r i) eqn:Ei; [|reflexivity].
    apply H in Ei; [congruence|exact Hi].
  - left. apply Z.bits_inj'. intros i Hi. rewrite Z.bits_0.
    destruct (Z.testbit r i) eqn:Ei; [|reflexivity].
    pose proof (H i Hi Ei). subst i. congruence.
Qed.

(** Two records that differ on one port only have bitmasks that differ
    in that bit only. *)
Lemma one_port_changed g g1 (port : nat) i :
  (forall q, q <> port -> port_members g1 q = port_members g q) ->
  Z.testbit (get_portmap g) i <> Z.testbit (get_portmap g1) i -> i = Z.of_nat port.
Proof.
  intros Hsame Hne.
  destruct (Z.eq_dec i (Z.of_nat port)) as [E|E]; [exact E|]. exfalso. apply Hne.
  destruct (Z.testbit (get_portmap g) i) eqn:E1, (Z.testbit (get_portmap g1) i) eqn:E2;
    try reflexivity.
  - apply get_portmap_spec in E1 as (p & -> & Hp & Hm).
    assert (Z.testbit (get_portmap g1) (Z.of_nat p) = true); [|congruence].
    apply get_portmap_spec. exists p. split; [reflexivity|]. split; [exact Hp|].
    rewrite Hsame by (intros ->; contradiction). exact Hm.
  - apply get_portmap_spec in E2 as (p & -> & Hp & Hm).
    assert (Z.testbit (get_portmap g) (Z.of_nat p) = true); [|congruence].
    apply get_portmap_spec. exists p. split; [reflexivity|]. split; [exact Hp|].
    rewrite <- Hsame by (intros ->; contradiction). exact Hm.
Qed.

Lemma member_added_other g g1 addr port time room q :
  member_added g g1 addr port time room -> q <> port ->
  port_members g1 q = port_members g q.
Proof.
  unfold member_added. intros H Hq. destruct (members_find _ addr).
  - destruct H as (m & _ & ->). rewrite port_members_set_ne by congruence. reflexivity.
  - destruct H as [->|[_ ->]]; [reflexivity|].
    rewrite port_members_set_ne by congruence. reflexivity.
Qed.

Lemma member_removed_other g addr port q :
  q <> port -> port_members (member_removed g addr port) q = port_members g q.
Proof.
  unfold member_removed. intros Hq. destruct (members_find _ addr); [|reflexivity].
  rewrite port_members_set_ne by congruence. reflexivity.
Qed.

(** The port argument of the calls that take one. *)
Definition port_of_call (op : call) : option Z :=
  match op with
  | call_add_member _ _ port _ _ | call_del_member _ _ port | call_add_router _ port _ _ =>
      Some port
  | _ => None
  end.

(** X15.  X15.  [add_member], [del_member] and [add_router] return -1, and change
    nothing, when the port is not in 0..PORT_MAX; with a valid port they
    return 0 or the single bit [1 << port], since a call changes the
    member list of that one port only. *)
Theorem port_calls_return_one_bit op port c r c' :
  reachable c -> port_of_call op = Some port ->
  run op c = Done r c' ->
  (port_invalid port = true /\ r = -1 /\ c' = c) \/
  (port_invalid port = false /\ (r = 0 \/ r = Z.shiftl 1 port)).
Proof.
  intros Hreach Hop H.
  destruct (port_invalid port) eqn:Hp.
  { left. split; [reflexivity|].
    destruct op; try discriminate; injection Hop as ->; cbn [run] in H.
    - unfold add_member in H. rewrite Hp in H. unfold ret in H. injection H as <- <-. auto.
    - unfold del_member in H. rewrite Hp in H. unfold ret in H. injection H as <- <-. auto.
    - unfold add_router in H. rewrite Hp in H. unfold ret in H. injection H as <- <-. auto. }
  right. split; [reflexivity|].
  assert (Hport : port = Z.of_nat (Z.to_nat port)).
  { unfold port_invalid in Hp. apply orb_false_iff in Hp as [Hp _].
    apply Z.ltb_ge in Hp. lia. }
  rewrite Hport at 1.
  destruct op; try discriminate; injection Hop as ->; cbn [run] in H.
  - (* add_member *)
    apply (add_member_spec _ _ _ _ _ _ _ _ (reachable_sized c Hreach) Hp) in H
      as [(_ & _ & -> & _)|(g1 & Hadd & _ & -> & _)]; [left; reflexivity|].
    pose proof (reachable_entry_consistent c maddr Hreach) as Hc. unfold consistent in Hc.
    rewrite Hc. apply single_bit. intros i Hi Hb. rewrite newly_set_spec in Hb.
    apply (one_port_changed (entry_for c maddr) g1 _ i).
    + intros q Hq. eapply member_added_other; eassumption.
    + destruct (Z.testbit (get_portmap (entry_for c maddr)) i),
               (Z.testbit (get_portmap g1) i); discriminate.
  - (* del_member *)
    apply (del_member_inv _ _ _ _ _ _ Hp) in H
      as [(_ & -> & _)|(a & g & g1 & g' & ms & _ & Hg & Hg1 & _ & -> & _)];
      [left; reflexivity|].
    assert (Hc : consistent g) by (apply (reachable_inv c Hreach (pooled a)); [discriminate|exact Hg]).
    unfold consistent in Hc. rewrite Hc.
    assert (Hg1' : g1 = member_removed g addr (Z.to_nat port)).
    { unfold member_removed. destruct (members_find _ addr); exact Hg1. }
    subst g1. apply single_bit. intros i Hi Hb.
    rewrite Z.land_spec, cleared_spec in Hb.
    apply (one_port_changed g (member_removed g addr (Z.to_nat port)) _ i).
    + intros q Hq. apply member_removed_other. exact Hq.
    + destruct (Z.testbit (get_portmap g) i),
               (Z.testbit (get_portmap (member_removed g addr (Z.to_nat port))) i);
        discriminate.
  - (* add_router *)
    destruct (add_router_inv _ _ _ _ _ _ _ Hp H) as (g1 & ms & rest & Hadd & -> & _).
    assert (Hc : consistent (routers_group (routers c))).
    { apply (reachable_inv c Hreach the_routers); [discriminate|reflexivity]. }
    unfold consistent in Hc. rewrite Hc. apply single_bit. intros i Hi Hb.
    rewrite newly_set_spec in Hb.
    apply (one_port_changed (routers_group (routers c)) g1 _ i).
    + intros q Hq. eapply member_added_other; eassumption.
    + destruct (Z.testbit (get_portmap (routers_group (routers c))) i),
               (Z.testbit (get_portmap g1) i); discriminate.
Qed.

(** ** One member record per host and port *)

(** No two members of a port list have the same address. *)
Definition distinct_members (g : group_entry) : Prop :=
  forall p, NoDup (member_addr <$> port_members g p).

(** [g'] has, on every port, members of [g] only, in the order of [g]. *)
Definition shrunk (g g' : group_entry) : Prop :=
  forall p, port_members g' p `sublist_of` port_members g p.

Lemma distinct_shrunk g g' : shrunk g g' -> distinct_members g -> distinct_members g'.
Proof.
  intros Hs Hd p. eapply sublist_NoDup; [apply Hd|]. apply fmap_sublist. apply Hs.
Qed.

Lemma shrunk_refl g : shrunk g g.
Proof. intros p. reflexivity. Qed.

Lemma shrunk_trans g1 g2 g3 : shrunk g1 g2 -> shrunk g2 g3 -> shrunk g1 g3.
Proof. intros H1 H2 p. etransitivity; [apply H2|apply H1]. Qed.

Lemma shrunk_same g g' : (forall p, port_members g' p = port_members g p) -> shrunk g g'.
Proof. intros H p. rewrite H. reflexivity. Qed.

Lemma shrunk_set_port p l g :
  l `sublist_of` port_members g p -> shrunk g (set_port_members p l g).
Proof.
  intros Hl q. destruct (decide (p = q)) as [<-|Hne].
  - destruct (port_members_set_cases p l g) as [-> | ->]; [exact Hl|reflexivity].
  - rewrite port_members_set_ne by exact Hne. reflexivity.
Qed.

Lemma shrunk_clear l g : shrunk g (clear_ports l g).
Proof.
  revert g. induction l as [|p l IH]; intros g; [apply shrunk_refl|].
  change (clear_ports (p :: l) g) with (clear_ports l (set_port_members p [] g)).
  eapply shrunk_trans; [|apply IH]. apply shrunk_set_port, sublist_nil_l.
Qed.

Lemma filter_sublist {A} (f : A -> bool) l : List.filter f l `sublist_of` l.
Proof.
  induction l as [|x l IH]; [reflexivity|]. cbn [List.filter].
  destruct (f x); [apply sublist_skip|apply sublist_cons]; exact IH.
Qed.

Lemma shrunk_removed g addr port : shrunk g (member_removed g addr port).
Proof.
  unfold member_removed. destruct (members_find _ addr); [|apply shrunk_refl].
  apply shrunk_set_port, sublist_delete.
Qed.

Lemma router_sweep_sublist l now gtime free :
  fst (fst (router_sweep l now gtime free)) `sublist_of` l.
Proof.
  revert gtime free. induction l as [|m l IH]; intros gtime free; cbn [router_sweep].
  - reflexivity.
  - destruct (time_after (member_time m) now).
    + match goal with |- context [router_sweep l now ?t ?f] =>
        specialize (IH t f); destruct (router_sweep l now t f) as [[kept gt] fr] end.
      cbn [fst] in *. apply sublist_skip. exact IH.
    + apply sublist_cons. apply IH.
Qed.

Lemma router_fold_shrunk now l g free g' free' :
  router_fold now l (g, free) = (g', free') -> shrunk g g'.
Proof.
  revert g free. induction l as [|p l IH]; intros g free H.
  - injection H as <- <-. apply shrunk_refl.
  - rewrite router_fold_cons in H.
    pose proof (router_sweep_sublist (port_members g p) now (group_time g) free) as Hs.
    destruct (router_sweep (port_members g p) now (group_time g) free)
      as [[kept gtime1] free1].
    cbn [fst] in Hs. apply IH in H. eapply shrunk_trans; [|exact H].
    eapply shrunk_trans; [|apply shrunk_set_port; exact Hs].
    apply shrunk_same. reflexivity.
Qed.

Lemma distinct_touch (pos : nat) m time (l : list member_entry) :
  l !! pos = Some m ->
  member_addr <$> <[pos := set_member_time time m]> l = member_addr <$> l.
Proof.
  intros H. rewrite list_fmap_insert. apply list_insert_id.
  rewrite list_lookup_fmap, H. reflexivity.
Qed.

Lemma distinct_new (l : list member_entry) addr time :
  members_find l addr = None -> NoDup (member_addr <$> l) ->
  NoDup (member_addr <$> {| member_time := time; member_addr := addr |} :: l).
Proof.
  intros Hf Hd. rewrite fmap_cons. apply NoDup_cons. split; [|exact Hd].
  cbn. intros Hin. apply list_elem_of_fmap in Hin as (m & Hm & Hin).
  apply members_find_none in Hf. rewrite Forall_forall in Hf.
  apply (Hf m Hin). congruence.
Qed.

Lemma distinct_set_port p l g :
  NoDup (member_addr <$> l) -> distinct_members g ->
  distinct_members (set_port_members p l g).
Proof.
  intros Hl Hd q. destruct (decide (p = q)) as [<-|Hne].
  - destruct (port_members_set_cases p l g) as [-> | ->]; [exact Hl|apply Hd].
  - rewrite port_members_set_ne by exact Hne. apply Hd.
Qed.

Lemma distinct_added g g1 addr port time room :
  member_added g g1 addr port time room -> distinct_members g -> distinct_members g1.
Proof.
  unfold member_added. intros H Hd.
  destruct (members_find (port_members g port) addr) eqn:Ef.
  - destruct H as (m & Hm & ->). apply distinct_set_port; [|exact Hd].
    rewrite (distinct_touch _ _ _ _ Hm). apply Hd.
  - destruct H as [->|[_ ->]]; [exact Hd|].
    apply distinct_set_port; [|exact Hd]. apply distinct_new; [exact Ef|apply Hd].
Qed.

(** ** ... in every record of the cache *)

Definition distinct_inv (c : cache) : Prop :=
  forall y g, group_at c y = Some g -> distinct_members g.

(** Every record of [c'] comes from the record of [c] at the same place
    by dropping members. *)
Definition descends (c c' : cache) : Prop :=
  forall y g', group_at c' y = Some g' ->
    exists g, group_at c y = Some g /\ shrunk g g'.

Lemma descends_refl c : descends c c.
Proof. intros y g Hy. exists g. split; [exact Hy|apply shrunk_refl]. Qed.

Lemma descends_trans c1 c2 c3 : descends c1 c2 -> descends c2 c3 -> descends c1 c3.
Proof.
  intros H1 H2 y g3 Hy. destruct (H2 y g3 Hy) as (g2 & Hy2 & S2).
  destruct (H1 y g2 Hy2) as (g1 & Hy1 & S1).
  exists g1. split; [exact Hy1|]. eapply shrunk_trans; eassumption.
Qed.

Lemma descends_same c c' :
  groups_mem (groups c') = groups_mem (groups c) ->
  routers_group (routers c') = routers_group (routers c) ->
  descends c c'.
Proof.
  intros Hm Hr [a|] g Hy; unfold group_at in *.
  - rewrite Hm in Hy. exists g. split; [exact Hy|apply shrunk_refl].
  - rewrite Hr in Hy. exists g. split; [exact Hy|apply shrunk_refl].
Qed.

Lemma descends_put x g g' c :
  group_at c x = Some g -> shrunk g g' -> descends c (put_group x g' c).
Proof.
  intros Hx Hs y gy Hy. apply group_at_put in Hy as [[<- ->]|[_ Hy]].
  - exists g. split; assumption.
  - exists gy. split; [exact Hy|apply shrunk_refl].
Qed.

Lemma distinct_descends c c' : descends c c' -> distinct_inv c -> distinct_inv c'.
Proof.
  intros Hd Hi y g' Hy. destruct (Hd y g' Hy) as (g & Hg & Hs).
  eapply distinct_shrunk; [exact Hs|]. eapply Hi. exact Hg.
Qed.

Lemma distinct_inv_put x g' c :
  distinct_inv c -> distinct_members g' -> distinct_inv (put_group x g' c).
Proof.
  intros Hi Hg y gy Hy. apply group_at_put in Hy as [[_ ->]|[_ Hy]]; [exact Hg|].
  eapply Hi. exact Hy.
Qed.

Lemma consume_group_descends group c r c' :
  consume_group group c = Done r c' -> descends c c'.
Proof.
  intros H. apply consume_group_inv in H as (g & free' & Hg & ->).
  apply (descends_trans _ (put_group group (clear_ports ports (set_group_portmap 0 g)) c));
    [|apply descends_same; reflexivity].
  apply (descends_put group g); [exact Hg|].
  eapply shrunk_trans; [|apply shrunk_clear]. apply shrunk_same. reflexivity.
Qed.

Lemma group_timer_sweep_descends queue now exp c exp' c' :
  group_timer_sweep queue now exp c = Done exp' c' -> descends c c'.
Proof.
  revert exp c. induction queue as [|a queue IH]; intros exp c H; cbn [group_timer_sweep] in H.
  - unfold ret in H. injection H as _ <-. apply descends_refl.
  - apply bind_inv in H as (g & c0 & El & H). apply group_load_inv in El as [-> Hg].
    cbv zeta in H.
    destruct (group_portmap g =? 0); [eapply IH; exact H|].
    destruct (time_after (group_time g) now); [eapply IH; exact H|].
    apply bind_inv in H as (u & c1 & Ec & H). apply consume_group_descends in Ec.
    rewrite bind_gets in H. apply bind_inv in H as (u2 & c2 & Ed & H).
    apply IH in H. eapply descends_trans; [exact Ec|].
    eapply descends_trans; [|exact H].
    destruct (_ =? 0).
    + unfold ret in Ed. injection Ed as _ <-. apply descends_refl.
    + unfold switch_del_portmap in Ed. rewrite driver_logged in Ed.
      injection Ed as _ <-. apply descends_same; reflexivity.
Qed.

Lemma group_timer_descends now c r c' : group_timer now c = Done r c' -> descends c c'.
Proof.
  intros H. unfold group_timer in H. rewrite bind_gets in H.
  apply bind_inv in H as (exp' & c1 & Es & H). apply group_timer_sweep_descends in Es.
  eapply descends_trans; [exact Es|]. cbv zeta in H.
  destruct (time_before _ _).
  - unfold modify in H. injection H as _ <-. apply descends_same; reflexivity.
  - unfold ret in H. injection H as _ <-. apply descends_refl.
Qed.

Lemma router_timer_descends now c r c' : router_timer now c = Done r c' -> descends c c'.
Proof.
  intros H. unfold router_timer in H.
  apply bind_inv in H as (g & c0 & El & H). apply group_load_inv in El as [-> Hg].
  cbv zeta in H.
  destruct (group_portmap g <? 0);
    [unfold ret in H; injection H as _ <-; apply descends_refl|].
  apply bind_inv in H as (portmap & c1 & E & H).
  apply (fan_out_tail drv_del_portmap) in H. subst c'.
  apply (descends_trans _ c1); [|apply descends_same; reflexivity].
  destruct (time_after (group_time g) now).
  - rewrite bind_gets in E.
    fold (router_fold now ports (set_group_time (ulong (now + ULONG_HALF)) g,
                                 members_free (members c))) in E.
    destruct (router_fold now ports _) as [g' free'] eqn:Ef.
    apply router_fold_shrunk in Ef.
    rewrite bind_modify in E. unfold group_store in E. rewrite bind_modify in E.
    apply bind_inv in E as (u & c2 & E & Er). unfold ret in Er. injection Er as _ <-.
    assert (Hd : descends c (put_group the_routers (set_group_portmap (get_portmap g') g')
                               (with_members (set_members_free free') c))).
    { eapply descends_trans; [apply (descends_same c (with_members (set_members_free free') c));
                              reflexivity|].
      apply (descends_put the_routers g); [exact Hg|].
      eapply shrunk_trans; [|apply shrunk_same; reflexivity].
      eapply shrunk_trans; [apply shrunk_same; reflexivity|exact Ef]. }
    eapply descends_trans; [exact Hd|].
    destruct (get_portmap g' =? 0).
    + eapply consume_group_descends. exact E.
    + unfold modify in E. injection E as _ <-. apply descends_same; reflexivity.
  - apply bind_inv in E as (u & c2 & E & Er). unfold ret in Er. injection Er as _ <-.
    eapply consume_group_descends. exact E.
Qed.

Lemma distinct_inv_same c c' :
  groups_mem (groups c') = groups_mem (groups c) ->
  routers_group (routers c') = routers_group (routers c) ->
  distinct_inv c -> distinct_inv c'.
Proof. intros Hm Hr. apply distinct_descends, descends_same; assumption. Qed.

Lemma distinct_zero : distinct_members group_zero.
Proof.
  intros p. unfold port_members. cbn [group_members group_zero].
  rewrite nth_replicate_nil. apply NoDup_nil_2.
Qed.

Lemma distinct_init ea : distinct_members (set_group_ea ea (init_group group_zero)).
Proof.
  rewrite init_group_clear. eapply distinct_shrunk; [|apply distinct_zero].
  eapply shrunk_trans; [apply (shrunk_clear ports (set_group_portmap 0 group_zero))|].
  apply shrunk_same. reflexivity.
Qed.

Lemma distinct_inv_created ea rest c :
  distinct_inv c -> distinct_inv (group_created ea rest c).
Proof.
  intros Hi [a|] g Hy; unfold group_at in Hy.
  - rewrite group_created_mem in Hy. apply lookup_app_Some in Hy as [Hy|[_ Hy]].
    + apply (Hi (pooled a)). exact Hy.
    + apply list_lookup_singleton_Some in Hy as [_ <-]. apply distinct_init.
  - apply (Hi the_routers). exact Hy.
Qed.

Lemma run_keeps_distinct op c r c' :
  groups_wf c -> distinct_inv c -> run op c = Done r c' -> distinct_inv c'.
Proof.
  intros Hwf Hi H. destruct op; cbn [run] in H.
  - (* get_port *)
    apply get_port_frame in H as (Hg & Hr & _).
    revert Hi. apply distinct_inv_same; [rewrite Hg|rewrite Hr]; reflexivity.
  - (* add_member *)
    destruct (port_invalid port) eqn:Hp.
    { unfold add_member in H. rewrite Hp in H. unfold ret in H. injection H as _ <-. exact Hi. }
    apply (add_member_inv _ _ _ _ _ _ _ _ Hp) in H
      as [(_ & _ & rest & ->)|(a & c1 & g & g1 & ms & rest & Hslot & Hg & Hm & _ & ->)].
    { revert Hi. apply distinct_inv_same; reflexivity. }
    assert (Hi1 : distinct_inv c1).
    { destruct Hslot as [[_ ->]|(_ & _ & rest0 & ->)];
        [exact Hi|apply distinct_inv_created; exact Hi]. }
    cbv zeta in Hm.
    assert (Hg1 : distinct_members g1).
    { pose proof (Hi1 _ _ Hg) as Hd.
      destruct (members_find (port_members g (Z.to_nat port)) addr) eqn:Ef.
      - destruct Hm as (m & Hl & ->). apply distinct_set_port; [|exact Hd].
        rewrite (distinct_touch _ _ _ _ Hl). apply Hd.
      - destruct Hm as [[-> _]|[_ ->]]; [exact Hd|].
        apply distinct_set_port; [|exact Hd]. apply distinct_new; [exact Ef|apply Hd]. }
    apply (distinct_inv_same
             (put_group (pooled a) (set_group_portmap (get_portmap g1) g1) c1));
      [reflexivity|reflexivity|].
    apply distinct_inv_put; [exact Hi1|exact Hg1].
  - (* del_member *)
    destruct (port_invalid port) eqn:Hp.
    { unfold del_member in H. rewrite Hp in H. unfold ret in H. injection H as _ <-. exact Hi. }
    apply (del_member_inv _ _ _ _ _ _ Hp) in H
      as [(_ & _ & ->)|(a & g & g1 & g' & ms & _ & Hg & Hg1 & Hg' & _ & ->)]; [exact Hi|].
    assert (Hs1 : shrunk g g1).
    { destruct (members_find _ addr); [|subst g1; apply shrunk_refl].
      subst g1. apply shrunk_set_port, sublist_delete. }
    assert (Hs : shrunk g g').
    { eapply shrunk_trans; [exact Hs1|]. destruct Hg' as [->|[_ ->]].
      - apply shrunk_same. reflexivity.
      - eapply shrunk_trans; [|apply shrunk_clear]. apply shrunk_same. reflexivity. }
    apply (distinct_inv_same (put_group (pooled a) g' c)); [reflexivity|reflexivity|].
    apply distinct_inv_put; [exact Hi|].
    eapply distinct_shrunk; [exact Hs|]. apply (Hi _ _ Hg).
  - (* add_router *)
    destruct (port_invalid port) eqn:Hp.
    { unfold add_router in H. rewrite Hp in H. unfold ret in H. injection H as _ <-. exact Hi. }
    destruct (add_router_inv _ _ _ _ _ _ _ Hp H) as (g1 & ms & rest & Hadd & _ & ->).
    apply (distinct_inv_same
             (put_group the_routers (set_group_portmap (get_portmap g1) g1) c));
      [reflexivity|reflexivity|].
    apply distinct_inv_put; [exact Hi|].
    apply (distinct_added _ _ _ _ _ _ Hadd). apply (Hi the_routers). reflexivity.
  - (* expire_members *)
    destruct (expire_members_inv _ _ _ _ _ _ Hwf H)
      as [(_ & -> & _)|(_ & _ & mem' & Hmem & Hlen & ->)]; [exact Hi|].
    intros [a|] g' Hy; unfold group_at in Hy; cbn in Hy.
    + assert (Hlt : (a < length (groups_mem (groups c)))%nat)
        by (rewrite <- Hlen; eapply lookup_lt_Some; exact Hy).
      apply lookup_lt_is_Some in Hlt as [g Hg].
      rewrite (Hmem a g Hg) in Hy. injection Hy as <-.
      pose proof (Hi (pooled a) g Hg) as Hd.
      destruct (named maddr g); exact Hd.
    + apply (Hi the_routers). exact Hy.
  - (* group_timer *)
    apply bind_inv in H as (u & c1 & E & H). unfold ret in H. injection H as _ <-.
    unfold fire_group_timer in E. rewrite bind_modify in E.
    apply group_timer_descends in E. apply (distinct_descends _ _ E).
    revert Hi. apply distinct_inv_same; reflexivity.
  - (* router_timer *)
    apply bind_inv in H as (u & c1 & E & H). unfold ret in H. injection H as _ <-.
    unfold fire_router_timer in E. rewrite bind_modify in E.
    apply router_timer_descends in E. apply (distinct_descends _ _ E).
    revert Hi. apply distinct_inv_same; reflexivity.
Qed.

Lemma reachable_distinct c : reachable c -> distinct_inv c.
Proof.
  intros (c0 & c1 & ops & Hi & Hr).
  assert (H1 : tables_sized c1 /\ groups_wf c1 /\ distinct_inv c1).
  { split; [|split; [eapply init_cache_wf; exact Hi|]].
    - unfold init_cache in Hi. run_inv. split; reflexivity.
    - unfold init_cache in Hi. run_inv. intros [a|] g Hy; unfold group_at in Hy; cbn in Hy.
      + rewrite lookup_nil in Hy. discriminate.
      + injection Hy as <-. apply (distinct_init ea_zero). }
  clear Hi. revert c1 H1 Hr.
  induction ops as [|op ops IH]; intros c1 (Hs & Hw & Hd) Hr; simpl in Hr.
  - unfold ret in Hr. injection Hr as <-. exact Hd.
  - apply bind_inv in Hr as (v & c2 & E & Hr).
    eapply IH; [|exact Hr]. split; [|split].
    + eapply run_keeps_sized; eassumption.
    + eapply run_keeps_wf; eassumption.
    + eapply run_keeps_distinct; eassumption.
Qed.

(** X16.  X16.  In every reachable state a host is a member of a port at most once:
    no member list of a group record or of the router state holds two
    records with the same address.  A repeated report refreshes the
    record it finds instead of adding one. *)
Theorem member_once_per_port c y g p :
  reachable c -> group_at c y = Some g ->
  NoDup (member_addr <$> port_members g p).
Proof.
  intros Hreach Hy. exact (reachable_distinct c Hreach y g Hy p).
Qed.

(** ** Refreshing and removing a member *)

(** The record [get_member] finds for host [addr] on [port] of the group
    with MAC [ea]. *)
Definition member_of (c : cache) (ea : ether_addr) (addr : in_addr_t) (port : nat)
  : option member_entry :=
  match group_of c ea with
  | Some g => match members_find (port_members g port) addr with
              | Some pos => port_members g port !! pos
              | None => None
              end
  | None => None
  end.

Definition has_addr (addr : in_addr_t) (m : member_entry) : bool :=
  bool_decide (member_addr m = addr).

Lemma found_is_find (l : list member_entry) addr :
  match members_find l addr with Some pos => l !! pos | None => None end
  = List.find (has_addr addr) l.
Proof.
  induction l as [|m l IH]; [reflexivity|]. cbn [members_find List.find]. unfold has_addr at 1.
  destruct (decide (member_addr m = addr)) as [E|E].
  - rewrite bool_decide_eq_true_2 by exact E. reflexivity.
  - rewrite bool_decide_eq_false_2 by exact E. rewrite <- IH.
    destruct (members_find l addr); reflexivity.
Qed.

Lemma delete_is_filter (l : list member_entry) addr pos :
  NoDup (member_addr <$> l) -> members_find l addr = Some pos ->
  delete pos l = List.filter (fun m => negb (has_addr addr m)) l.
Proof.
  revert pos. induction l as [|m l IH]; intros pos Hd Hf; [discriminate|].
  rewrite fmap_cons in Hd. apply NoDup_cons in Hd as [Hnin Hd].
  cbn [members_find] in Hf. cbn [List.filter]. unfold has_addr at 1.
  destruct (decide (member_addr m = addr)) as [E|E].
  - injection Hf as <-. rewrite bool_decide_eq_true_2 by exact E. cbn [negb].
    change (delete 0%nat (m :: l)) with l.
    symmetry. apply forallb_filter_id. apply forallb_forall. intros x Hx.
    unfold has_addr. rewrite bool_decide_eq_false_2; [reflexivity|].
    intros Ex. apply Hnin. rewrite E, <- Ex. apply list_elem_of_fmap.
    exists x. split; [reflexivity|apply list_elem_of_In; exact Hx].
  - rewrite bool_decide_eq_false_2 by exact E. cbn [negb].
    destruct (members_find l addr) as [q|] eqn:Eq; [|discriminate].
    injection Hf as <-. change (delete (S q) (m :: l)) with (m :: delete q l).
    f_equal. apply IH; [exact Hd|reflexivity].
Qed.

Lemma find_filter {A} (f g : A -> bool) l :
  (forall x, f x = true -> g x = true) -> List.find f (List.filter g l) = List.find f l.
Proof.
  intros H. induction l as [|x l IH]; [reflexivity|]. cbn [List.filter List.find].
  destruct (g x) eqn:Eg.
  - cbn [List.find]. rewrite IH. reflexivity.
  - destruct (f x) eqn:Ef; [rewrite (H x Ef) in Eg; discriminate|exact IH].
Qed.

Lemma find_filter_out {A} (f : A -> bool) l : List.find f (List.filter (fun x => negb (f x)) l) = None.
Proof.
  induction l as [|x l IH]; [reflexivity|]. cbn [List.filter].
  destruct (f x) eqn:Ef; cbn [negb]; [exact IH|]. cbn [List.find]. rewrite Ef. exact IH.
Qed.

Lemma find_insert {A} (f : A -> bool) (l : list A) (pos : nat) m m' :
  l !! pos = Some m -> f m = f m' ->
  List.find f (<[pos := m']> l)
  = if f m then match List.find f (take pos l) with
                | Some _ => List.find f l
                | None => Some m'
                end
    else List.find f l.
Proof.
  revert pos. induction l as [|x l IH]; intros pos Hl Hf; [discriminate|].
  destruct pos as [|pos]; cbn in Hl.
  - injection Hl as ->. cbn. rewrite <- Hf. destruct (f m); reflexivity.
  - cbn [take]. change (<[S pos := m']> (x :: l)) with (x :: <[pos := m']> l).
    cbn [List.find]. rewrite (IH pos Hl Hf).
    destruct (f x), (f m); try reflexivity.
Qed.

Lemma find_take_first (l : list member_entry) addr pos :
  members_find l addr = Some pos -> List.find (has_addr addr) (take pos l) = None.
Proof.
  revert pos. induction l as [|m l IH]; intros pos Hf; [discriminate|].
  cbn [members_find] in Hf. destruct (decide (member_addr m = addr)) as [E|E].
  - injection Hf as <-. reflexivity.
  - destruct (members_find l addr) as [q|] eqn:Eq; [|discriminate].
    injection Hf as <-. cbn [take List.find]. unfold has_addr at 1.
    rewrite bool_decide_eq_false_2 by exact E. apply IH. reflexivity.
Qed.

Lemma get_group_hit ea c a al :
  get_group ea false c = Done (Some a) c -> get_group ea al c = Done (Some a) c.
Proof.
  rewrite get_group_lookup. intros H. unfold get_group. rewrite bind_gets.
  rewrite (bind_Done _ _ _ _ _ H). reflexivity.
Qed.

Lemma member_of_found c ea a g addr port :
  get_group ea false c = Done (Some a) c -> groups_mem (groups c) !! a = Some g ->
  member_of c ea addr port = List.find (has_addr addr) (port_members g port).
Proof.
  intros Hget Hg. unfold member_of. rewrite (group_of_found _ _ _ Hget).
  unfold group_at. rewrite Hg. apply found_is_find.
Qed.

Lemma member_of_record c ea g addr port :
  group_of c ea = Some g ->
  member_of c ea addr port = List.find (has_addr addr) (port_members g port).
Proof. intros Hg. unfold member_of. rewrite Hg. apply found_is_find. Qed.

Lemma filter_none (l : list member_entry) addr :
  members_find l addr = None -> List.filter (fun m => negb (has_addr addr m)) l = l.
Proof.
  intros Hf. apply members_find_none in Hf. rewrite Forall_forall in Hf.
  apply forallb_filter_id, forallb_forall. intros x Hx. unfold has_addr.
  rewrite bool_decide_eq_false_2; [reflexivity|]. apply Hf, list_elem_of_In, Hx.
Qed.

(** X17.  X17.  After [del_member] with a valid port the host is no longer a member
    of the group on that port -- whether or not it was one -- and every
    other member of the group, on this port and on the others, is still
    found with the record it had. *)
Theorem del_member_removes_member maddr addr port c r c' :
  reachable c -> port_invalid port = false ->
  del_member maddr addr port c = Done r c' ->
  member_of c' maddr addr (Z.to_nat port) = None /\
  forall addr' p', (p' <= PORT_MAX)%nat -> (addr', p') <> (addr, Z.to_nat port) ->
    member_of c' maddr addr' p' = member_of c maddr addr' p'.
Proof.
  intros Hreach Hp H.
  apply (del_member_inv _ _ _ _ _ _ Hp) in H
    as [(Hnone & _ & ->)|(a & g & g1 & g' & ms & Hget & Hg & Hg1 & Hg' & _ & ->)].
  { split; [|reflexivity]. unfold member_of. rewrite (group_of_absent _ _ Hnone). reflexivity. }
  set (port' := Z.to_nat port) in *.
  pose proof (port_valid_le _ Hp) as Hle. fold port' in Hle.
  pose proof (reachable_distinct c Hreach _ _ Hg) as Hdist.
  assert (Hsh : group_shaped g).
  { destruct (reachable_wf c Hreach) as (_ & _ & _ & _ & _ & _ & W7). apply (W7 _ _ Hg). }
  set (F := List.filter (fun m => negb (has_addr addr m)) (port_members g port')).
  assert (H1 : port_members g1 port' = F /\
               (forall p, p <> port' -> port_members g1 p = port_members g p) /\
               group_ea g1 = group_ea g).
  { destruct (members_find (port_members g port') addr) as [pos|] eqn:Ef.
    - subst g1. split; [|split; [|reflexivity]].
      + rewrite port_members_set_eq by (unfold group_shaped in Hsh; lia).
        apply delete_is_filter; [apply Hdist|exact Ef].
      + intros p Hne. apply port_members_set_ne. congruence.
    - subst g1. split; [symmetry; apply filter_none; exact Ef|]. split; reflexivity. }
  destruct H1 as (Hport & Hother & Hea1).
  assert (H2 : (forall p, (p <= PORT_MAX)%nat -> port_members g' p = port_members g1 p) /\
               group_ea g' = group_ea g).
  { destruct Hg' as [->|[Hz ->]]; [split; [reflexivity|exact Hea1]|]. split.
    - intros p Hpm. rewrite clear_ports_in by (apply in_ports; exact Hpm).
      symmetry. apply get_portmap_zero; assumption.
    - rewrite clear_ports_ea. exact Hea1. }
  destruct H2 as (Hlists & Hea).
  assert (Hof' : group_of (logged (calls_if r (drv_del_portmap maddr r))
                   (with_members (fun _ => ms) (put_group (pooled a) g' c))) maddr = Some g').
  { eapply group_of_after_put; [exact Hget|exact Hg|exact Hea|reflexivity|].
    intros b. rewrite group_at_logged, group_at_with_members. reflexivity. }
  assert (Hof : group_of c maddr = Some g) by (rewrite (group_of_found _ _ _ Hget); exact Hg).
  split.
  - rewrite (member_of_record _ _ _ _ _ Hof'), (Hlists _ Hle), Hport.
    apply (find_filter_out (has_addr addr)).
  - intros addr' p' Hp' Hne.
    rewrite (member_of_record _ _ _ _ _ Hof'), (member_of_record _ _ _ _ _ Hof), (Hlists _ Hp').
    destruct (decide (p' = port')) as [->|Hpp]; [|rewrite (Hother _ Hpp); reflexivity].
    rewrite Hport. apply find_filter. intros x Hx. unfold has_addr in *.
    apply bool_decide_eq_true_1 in Hx. rewrite bool_decide_eq_false_2; [reflexivity|].
    intros Ex. apply Hne. congruence.
Qed.

Lemma touched_same_ports g (port pos : nat) m time :
  port_members g port !! pos = Some m ->
  get_portmap (set_port_members port (<[pos := set_member_time time m]> (port_members g port))
                 (set_group_time time g))
  = get_portmap g.
Proof.
  intros Hl. apply get_portmap_ext. intros p _.
  destruct (decide (port = p)) as [<-|Hne].
  - destruct (port_members_set_cases port (<[pos := set_member_time time m]> (port_members g port))
                (set_group_time time g)) as [-> | ->]; [|reflexivity].
    revert Hl. destruct (port_members g port) as [|x l]; [discriminate|].
    intros _. destruct pos; reflexivity.
  - rewrite port_members_set_ne by exact Hne. reflexivity.
Qed.

(** [add_member] for a host that is a member already, step by step. *)
Lemma add_member_refresh_eval maddr addr port timeout now c a g pos m :
  port_invalid port = false ->
  get_group maddr false c = Done (Some a) c ->
  groups_mem (groups c) !! a = Some g -> consistent g ->
  members_find (port_members g (Z.to_nat port)) addr = Some pos ->
  port_members g (Z.to_nat port) !! pos = Some m ->
  let time := ulong (now + timeout) in
  let G1 := set_port_members (Z.to_nat port)
              (<[pos := set_member_time time m]> (port_members g (Z.to_nat port)))
              (set_group_time time g) in
  add_member maddr addr port timeout now c
  = Done 0 (with_groups (set_groups_timer (timer_after_add (groups_timer (groups c)) time))
              (put_group (pooled a) (set_group_portmap (get_portmap G1) G1) c)).
Proof.
  intros Hp Hget Hg Hc Ef Hl time G1.
  set (port' := Z.to_nat port) in *.
  set (c1 := put_group (pooled a) (set_group_time time g) c).
  assert (Hg1 : group_at c1 (pooled a) = Some (set_group_time time g)).
  { apply group_at_put_eq. unfold group_at. eauto. }
  assert (Em : get_member (pooled a) addr port' true c1 = Done (Some pos) c1).
  { unfold get_member. rewrite (bind_Done _ _ _ _ _ (group_load_at _ _ _ Hg1)).
    change (port_members (set_group_time time g) port') with (port_members g port').
    rewrite Ef. reflexivity. }
  assert (Et : member_touch (pooled a) port' pos time c1
               = Done tt (put_group (pooled a) G1 c)).
  { unfold member_touch. rewrite (bind_Done _ _ _ _ _ (group_load_at _ _ _ Hg1)).
    change (port_members (set_group_time time g) port') with (port_members g port').
    rewrite Hl. unfold group_store, modify, c1. rewrite put_group_put. reflexivity. }
  assert (Hg2 : group_at (put_group (pooled a) G1 c) (pooled a) = Some G1).
  { apply group_at_put_eq. unfold group_at. eauto. }
  assert (Hmap : get_portmap G1 = group_portmap g).
  { unfold G1. rewrite (touched_same_ports _ _ _ _ _ Hl). symmetry. exact Hc. }
  unfold add_member. rewrite Hp.
  rewrite (bind_Done _ _ _ _ _ (get_group_hit _ _ _ true Hget)). cbv beta iota zeta.
  rewrite !bind_bind. rewrite (bind_Done _ _ _ _ _ (group_load_at (pooled a) c g Hg)).
  unfold group_store. rewrite !bind_bind, bind_modify.
  fold time. fold c1. rewrite !bind_bind.
  rewrite (bind_Done _ _ _ _ _ Em). cbv beta iota. rewrite !bind_bind.
  rewrite (bind_Done _ _ _ _ _ Et). rewrite !bind_bind.
  rewrite (bind_Done _ _ _ _ _ (group_load_at _ _ _ Hg2)).
  rewrite !bind_bind, bind_modify. rewrite put_group_put.
  rewrite !bind_bind, bind_gets.
  change (groups_timer (groups (put_group (pooled a) (set_group_portmap (get_portmap G1) G1) c)))
    with (groups_timer (groups c)).
  rewrite Hmap, Z.lxor_nilpotent, Z.land_0_l.
  unfold timer_after_add.
  destruct (negb (timer_pending (groups_timer (groups c)))
            || time_before time (expires (groups_timer (groups c)))).
  - rewrite !bind_bind, bind_modify, bind_ret. reflexivity.
  - rewrite !bind_bind, bind_ret, bind_ret.
    change ((0 =? 0)) with true. cbv iota. rewrite bind_ret. reflexivity.
Qed.

(** X18.  X18.  [add_member] for a host that is a member of the group on that port
    already only refreshes it: the call returns 0 and makes no driver
    call, the member's record gets the expiry [now() + timeout] and stays
    the only one for the host, every other member of the group keeps its
    record, the bitmask stays, and no member record is taken from the
    pool.  The group timer is moved to the new expiry when it was idle or
    was due later. *)
Theorem add_member_refreshes_member maddr addr port timeout now c m :
  reachable c -> port_invalid port = false ->
  member_of c maddr addr (Z.to_nat port) = Some m ->
  let time := ulong (now + timeout) in
  exists c',
    add_member maddr addr port timeout now c = Done 0 c' /\
    calls_made c c' [] /\
    member_of c' maddr addr (Z.to_nat port) = Some (set_member_time time m) /\
    (forall addr' p', (addr', p') <> (addr, Z.to_nat port) ->
       member_of c' maddr addr' p' = member_of c maddr addr' p') /\
    bitmask_of c' maddr = bitmask_of c maddr /\
    groups_timer (groups c') = timer_after_add (groups_timer (groups c)) time /\
    members c' = members c /\ hosts c' = hosts c /\ routers c' = routers c /\
    world c' = world c.
Proof.
  intros Hreach Hp Hm time.
  set (port' := Z.to_nat port) in *.
  assert (Hgr : exists a g, get_group maddr false c = Done (Some a) c /\
                            groups_mem (groups c) !! a = Some g).
  { unfold member_of, group_of in Hm.
    destruct (get_group maddr false c) as [[a|] c1|] eqn:Eg; try discriminate.
    pose proof (get_group_lookup_state _ _ _ _ Eg) as ->.
    destruct (groups_mem (groups c) !! a) as [g|] eqn:Hg; [|discriminate]. eauto. }
  destruct Hgr as (a & g & Hget & Hg).
  assert (Hof : group_of c maddr = Some g) by (rewrite (group_of_found _ _ _ Hget); exact Hg).
  unfold member_of in Hm. rewrite Hof in Hm.
  destruct (members_find (port_members g port') addr) as [pos|] eqn:Ef; [|discriminate].
  assert (Hc : consistent g) by (apply (reachable_inv c Hreach (pooled a)); [discriminate|exact Hg]).
  assert (Hsh : group_shaped g).
  { destruct (reachable_wf c Hreach) as (_ & _ & _ & _ & _ & _ & W7).
    apply (W7 (pooled a) g Hg). }
  pose proof (port_valid_le _ Hp) as Hle. fold port' in Hle.
  pose proof (add_member_refresh_eval maddr addr port timeout now c a g pos m
                Hp Hget Hg Hc Ef Hm) as Heval.
  cbv zeta in Heval. fold time port' in Heval.
  set (L := <[pos := set_member_time time m]> (port_members g port')) in *.
  set (G1 := set_port_members port' L (set_group_time time g)) in *.
  set (G' := set_group_portmap (get_portmap G1) G1) in *.
  eexists. split; [exact Heval|].
  assert (Hof' : group_of (with_groups
                             (set_groups_timer (timer_after_add (groups_timer (groups c)) time))
                             (put_group (pooled a) G' c)) maddr = Some G').
  { eapply group_of_after_put; [exact Hget|exact Hg|reflexivity|reflexivity|].
    intros b. apply group_at_groups_timer. }
  assert (Hport : port_members G' port' = L).
  { unfold G', G1. apply port_members_set_eq. unfold group_shaped in Hsh.
    cbn [group_members set_group_time]. lia. }
  assert (Hother : forall p, p <> port' -> port_members G' p = port_members g p).
  { intros p Hne. unfold G', G1.
    change (port_members (set_port_members port' L (set_group_time time g)) p
            = port_members g p).
    rewrite port_members_set_ne by congruence. reflexivity. }
  pose proof (members_find_lookup _ _ _ Ef) as (m0 & Hm0 & Haddr).
  rewrite Hm in Hm0. injection Hm0 as <-.
  assert (Hfind : forall addr', List.find (has_addr addr') L
                  = if has_addr addr' m then Some (set_member_time time m)
                    else List.find (has_addr addr') (port_members g port')).
  { intros addr'. unfold L. rewrite (find_insert _ _ _ m _ Hm) by reflexivity.
    destruct (has_addr addr' m) eqn:Eh; [|reflexivity].
    unfold has_addr in Eh. apply bool_decide_eq_true_1 in Eh.
    assert (Ha : addr' = addr) by congruence. rewrite Ha.
    rewrite (find_take_first _ _ _ Ef). reflexivity. }
  split; [apply calls_made_log; reflexivity|].
  split; [|split; [|split; [|repeat split]]].
  - rewrite (member_of_record _ _ _ _ _ Hof'), Hport, Hfind.
    unfold has_addr. rewrite bool_decide_eq_true_2 by exact Haddr. reflexivity.
  - intros addr' p' Hne.
    rewrite (member_of_record _ _ _ _ _ Hof'), (member_of_record _ _ _ _ _ Hof).
    destruct (decide (p' = port')) as [->|Hpp]; [|rewrite (Hother _ Hpp); reflexivity].
    rewrite Hport, Hfind. unfold has_addr at 1.
    rewrite bool_decide_eq_false_2; [reflexivity|]. intros Ex. apply Hne. congruence.
  - unfold bitmask_of. rewrite Hof', Hof. unfold G'. cbn [group_portmap set_group_portmap].
    unfold G1, L. rewrite (touched_same_ports _ _ _ _ _ Hm). symmetry. exact Hc.
Qed.

(** ** The host table as a whole *)

Lemma omap_NoDup_inj {A B} (f : A -> option B) (l : list A) a b x :
  NoDup (omap f l) -> In a l -> In b l -> f a = Some x -> f b = Some x -> a = b.
Proof.
  induction l as [|y l IH]; intros Hnd Ha Hb Hfa Hfb; [destruct Ha|].
  rewrite omap_step in Hnd.
  assert (Hin : forall z, In z l -> f z = Some x -> x ∈ omap f l).
  { intros z Hz Hfz. apply list_elem_of_omap. exists z.
    split; [apply list_elem_of_In; exact Hz|exact Hfz]. }
  destruct Ha as [<-|Ha], Hb as [<-|Hb]; [reflexivity| | |].
  - rewrite Hfa in Hnd. apply NoDup_cons in Hnd as [Hnin _].
    exfalso. apply Hnin. apply (Hin b Hb Hfb).
  - rewrite Hfb in Hnd. apply NoDup_cons in Hnd as [Hnin _].
    exfalso. apply Hnin. apply (Hin a Ha Hfa).
  - apply IH; try assumption.
    destruct (f y); [apply NoDup_cons in Hnd as [_ Hnd]|]; exact Hnd.
Qed.

(** X19.  X19.  In every reachable state the host pool holds no record twice, every
    record of it is the one the lookup of its own MAC finds -- so no two
    records have the same MAC -- and the port it caches is a port of the
    switch. *)
Theorem host_table_consistent c :
  reachable c ->
  NoDup (hosts_pool (hosts c)) /\
  forall a, In a (hosts_pool (hosts c)) ->
    exists h, hosts_mem (hosts c) !! a = Some h /\
              host_of c (host_ea h) = Some h /\
              port_valid (host_port h) = true.
Proof.
  intros Hreach.
  pose proof (reachable_hosts_wf c Hreach) as Hwf.
  pose proof (hosts_one_entry_per_mac c Hreach) as (Hchain & Hmacs).
  destruct Hwf as (W1 & W2 & W3).
  split; [rewrite W1; apply NoDup_seq|].
  intros a Ha. destruct (Hchain a Ha) as (h & Hh & Hin).
  exists h. split; [exact Hh|]. split; [|apply (W3 a h Hh)].
  destruct (host_find_total (host_ea h) c (conj W1 (conj W2 W3))) as [r Hr].
  unfold host_of. rewrite Hr. destruct r as [b|].
  - apply hosts_hash_find_some in Hr as (Hb & hb & Hhb & Hea).
    assert (Hbp : In b (hosts_pool (hosts c))).
    { rewrite W1. apply in_seq. apply lookup_lt_Some in Hhb. lia. }
    assert (b = a); [|subst b; exact Hh].
    apply (omap_NoDup_inj _ _ b a (host_ea h) Hmacs Hbp Ha).
    + rewrite Hhb. cbn. congruence.
    + rewrite Hh. reflexivity.
  - destruct (hosts_hash_find_none _ _ _ _ Hr a Hin) as (h' & Hh' & Hne). congruence.
Qed.

Lemma entry_for_shaped c ea : groups_wf c -> group_shaped (entry_for c ea).
Proof.
  intros (_ & _ & _ & _ & _ & _ & W7). unfold entry_for, group_of.
  destruct (get_group ea false c) as [[a|] c1|]; try apply shaped_init, shaped_zero.
  destruct (groups_mem (groups c) !! a) as [g|] eqn:Hg; [|apply shaped_init, shaped_zero].
  apply (W7 (pooled a) g Hg).
Qed.

Lemma member_of_entry c ea addr port :
  member_of c ea addr port = List.find (has_addr addr) (port_members (entry_for c ea) port).
Proof.
  unfold member_of, entry_for. destruct (group_of c ea) as [g|]; [apply found_is_find|].
  assert (Hnil : port_members (set_group_ea ea (init_group group_zero)) port = []).
  { assert (Hs : shrunk group_zero (set_group_ea ea (init_group group_zero))).
    { rewrite init_group_clear.
      eapply shrunk_trans; [apply (shrunk_clear ports (set_group_portmap 0 group_zero))|].
      apply shrunk_same. reflexivity. }
    specialize (Hs port). unfold port_members at 2 in Hs. cbn [group_members group_zero] in Hs.
    rewrite nth_replicate_nil in Hs. apply sublist_nil_r in Hs. exact Hs. }
  rewrite Hnil. reflexivity.
Qed.

(** No member record can be had: the free list is empty and either the
    pool has reached [MEMBER_POOL_SIZE] or [calloc] fails -- the case in
    which [get_member] returns [NULL] when asked to allocate. *)
Definition member_pool_exhausted (c : cache) : Prop :=
  members_free (members c) = [] /\
  (MEMBER_POOL_SIZE <=? members_count (members c)) || calloc_fails c = true.

(** No group record can be had: the pool has reached [GROUP_POOL_SIZE] or
    [calloc] fails, and no record of the pool has bitmask 0 -- the case
    in which [get_group] returns [NULL] when asked to allocate. *)
Definition group_pool_exhausted (c : cache) : Prop :=
  (GROUP_POOL_SIZE <=? groups_count (groups c)) || calloc_fails c = true /\
  forall a, In a (groups_pool (groups c)) -> ~ group_idle c a.

(** The state [get_group(maddr, 1)] leaves, in which [add_member] calls
    [get_member]. *)
Definition after_get_group (c : cache) (maddr : ether_addr) : cache :=
  match get_group maddr true c with
  | Done _ c1 => c1
  | Fault => c
  end.

Lemma get_member_none group addr port c c' :
  get_member group addr port true c = Done None c' -> member_pool_exhausted c.
Proof.
  intros H. unfold get_member in H.
  apply bind_inv in H as (g & c1 & E & H). apply group_load_inv in E as [-> Hg].
  destruct (members_find (port_members g port) addr) as [pos|]; [discriminate|].
  cbn [negb] in H. rewrite bind_gets in H. unfold member_pool_exhausted, calloc_fails.
  destruct (members_free (members c)) as [|m free].
  - split; [reflexivity|]. rewrite bind_bind, bind_gets in H.
    destruct (Z.ltb_spec (members_count (members c)) MEMBER_POOL_SIZE) as [Hlt|Hge].
    + rewrite bind_bind in H. unfold bind at 1, calloc_result in H.
      destruct (calloc_results (world c)) as [|[|] rest].
      * rewrite bind_bind, bind_modify, bind_ret in H. unfold bind, group_store, modify, ret in H.
        discriminate.
      * rewrite bind_bind, bind_modify, bind_ret in H. unfold bind, group_store, modify, ret in H.
        discriminate.
      * apply orb_true_r.
    + apply orb_true_iff. left. apply Z.leb_le. exact Hge.
  - rewrite bind_bind, bind_modify, bind_ret in H. unfold bind, group_store, modify, ret in H.
    discriminate.
Qed.

Lemma member_pool_exhausted_put x g c :
  member_pool_exhausted (put_group x g c) -> member_pool_exhausted c.
Proof.
  unfold member_pool_exhausted, calloc_fails.
  rewrite put_group_members, put_group_world. auto.
Qed.

Lemma add_member_inv_pool maddr addr port timeout now c r c' :
  groups_wf c ->
  port_invalid port = false ->
  add_member maddr addr port timeout now c = Done r c' ->
  (get_group maddr false c = Done None c /\ r = 0 /\ group_pool_exhausted c /\
   exists rest, c' = with_world (set_calloc_results rest) c)
  \/ exists a c1 g g1 ms rest,
       ((get_group maddr false c = Done (Some a) c /\ c1 = c) \/
        (get_group maddr false c = Done None c /\ a = length (groups_mem (groups c)) /\
         exists rest0, c1 = group_created maddr rest0 c)) /\
       get_group maddr true c = Done (Some a) c1 /\
       group_at c1 (pooled a) = Some g /\
       let time := ulong (now + timeout) in
       let l := port_members g (Z.to_nat port) in
       match members_find l addr with
       | Some pos =>
           exists m, l !! pos = Some m /\
             g1 = set_port_members (Z.to_nat port) (<[pos := set_member_time time m]> l)
                    (set_group_time time g)
       | None =>
           (g1 = set_group_time time g /\ ms = members c /\ member_pool_exhausted c1) \/
           (pool_has_room c /\
            g1 = set_port_members (Z.to_nat port)
                   ({| member_time := time; member_addr := addr |} :: l)
                   (set_group_time time g))
       end /\
       r = newly_set (group_portmap g) (get_portmap g1) /\
       c' = logged (calls_if r (drv_add_portmap maddr (Z.lor r (routers_portmap c))))
              (with_groups (set_groups_timer (timer_after_add (groups_timer (groups c)) time))
                 (member_taken ms rest
                    (put_group (pooled a) (set_group_portmap (get_portmap g1) g1) c1))).
Proof.
  intros Hwf Hp H. unfold add_member in H. rewrite Hp in H.
  apply bind_inv in H as (group & c1 & Eg & H). pose proof Eg as Eg0.
  assert (Hslot :
    (group = None /\ get_group maddr false c = Done None c /\
     exists rest, c1 = with_world (set_calloc_results rest) c)
    \/ exists a, group = Some a /\
         ((get_group maddr false c = Done (Some a) c /\ c1 = c) \/
          (get_group maddr false c = Done None c /\ a = length (groups_mem (groups c)) /\
           exists rest0, c1 = group_created maddr rest0 c))).
  { rewrite get_group_lookup.
    apply get_group_inv in Eg as [(a & -> & -> & Hf)|(Hf & [(-> & rest & ->)|(_ & rest & -> & ->)])].
    - right. exists a. auto.
    - left. eauto.
    - right. eexists. split; [reflexivity|]. right. eauto. }
  clear Eg. destruct Hslot as [(-> & Hnone & rest & ->)|(a & -> & Hslot)].
  { left. split; [exact Hnone|].
    assert (Hex : group_pool_exhausted c).
    { pose proof Hnone as Hn. rewrite get_group_lookup in Hn.
      pose proof (get_group_miss maddr c Hwf Hn) as Hm. unfold group_pool_exhausted.
      destruct ((GROUP_POOL_SIZE <=? groups_count (groups c)) || calloc_fails c).
      - destruct Hm as [[Hf _]|[_ Hno]]; [congruence|]. split; [reflexivity|exact Hno].
      - destruct Hm as [rest' Hm]. congruence. }
    clear Eg0. run_inv; simpl in *; try discriminate. split; [reflexivity|].
    split; [exact Hex|]. eauto. }
  right.
  assert (Hsame : members c1 = members c /\ routers c1 = routers c /\
                  groups_timer (groups c1) = groups_timer (groups c)).
  { destruct Hslot as [[_ ->]|(_ & _ & rest0 & ->)]; auto. }
  destruct Hsame as (Hmem1 & Hrt1 & Htm1).
  apply bind_inv in H as (portmap & c2 & Ep & H).
  apply bind_inv in Ep as (g & c3 & El & Ep). apply group_load_inv in El as [-> Hg].
  apply bind_inv in Ep as (u & c3 & Es & Ep).
  unfold group_store, modify in Es. injection Es as _ <-.
  apply bind_inv in Ep as (member & c4 & Em & Ep).
  apply bind_inv in Ep as (u2 & c5 & Et & Ep).
  set (time := ulong (now + timeout)) in *.
  set (l := port_members g (Z.to_nat port)).
  assert (Hg0 : group_at (put_group (pooled a) (set_group_time time g) c1) (pooled a)
                = Some (set_group_time time g)).
  { apply group_at_put_eq. eauto. }
  assert (Hc5 : exists g1 ms rest,
            match members_find l addr with
            | Some pos =>
                exists m, l !! pos = Some m /\
                  g1 = set_port_members (Z.to_nat port) (<[pos := set_member_time time m]> l)
                         (set_group_time time g)
            | None =>
                (g1 = set_group_time time g /\ ms = members c /\ member_pool_exhausted c1) \/
                (pool_has_room c /\
                 g1 = set_port_members (Z.to_nat port)
                        ({| member_time := time; member_addr := addr |} :: l)
                        (set_group_time time g))
            end /\
            c5 = member_taken ms rest (put_group (pooled a) g1 c1)).
  { pose proof Em as Em'.
    apply get_member_inv in Em as (g0 & Hg0' & Hcase).
    rewrite Hg0 in Hg0'. injection Hg0' as <-.
    change (port_members (set_group_time time g) (Z.to_nat port)) with l in Hcase.
    destruct Hcase as [(pos & -> & Hf & ->)|(Hf & [(-> & rest & ->)|(_ & -> & ms & rest & ->)])].
    - apply member_touch_inv in Et as (g2 & m & Hg2 & Hm & ->).
      rewrite Hg0 in Hg2. injection Hg2 as <-.
      change (port_members (set_group_time time g) (Z.to_nat port)) with l in *.
      rewrite put_group_put. rewrite Hf.
      eexists _, (members c1), (calloc_results (world c1)). split; [eauto|].
      rewrite <- (member_taken_id (put_group _ _ c1)) at 1.
      rewrite put_group_members, put_group_world. reflexivity.
    - unfold ret in Et. injection Et as _ <-. rewrite Hf.
      apply get_member_none, member_pool_exhausted_put in Em'.
      eexists _, (members c), rest.
      split; [left; split; [reflexivity|split; [reflexivity|exact Em']]|].
      rewrite member_taken_world, put_group_members, Hmem1. reflexivity.
    - apply member_touch_inv in Et as (g2 & m & Hg2 & Hm & ->).
      rewrite put_group_member_taken, put_group_put in Hg2.
      rewrite group_at_member_taken in Hg2. apply group_at_put_same in Hg2. subst g2.
      assert (Hl : port_members
                     (set_port_members (Z.to_nat port)
                        ({| member_time := 0; member_addr := addr |} :: l)
                        (set_group_time time g)) (Z.to_nat port)
                   = {| member_time := 0; member_addr := addr |} :: l).
      { apply port_members_set_eq. simpl.
        destruct (decide (Z.to_nat port < length (group_members g))%nat) as [Hlt|Hge];
          [exact Hlt|].
        exfalso. unfold port_members, set_port_members in Hm. simpl in Hm.
        rewrite list_insert_ge in Hm by lia.
        unfold l, port_members in Hf. rewrite nth_overflow in Hm by lia.
        discriminate. }
      rewrite Hl in *. simpl in Hm. injection Hm as <-.
      rewrite put_group_put, put_group_member_taken, put_group_put.
      rewrite Hf. eexists _, ms, rest. split; [|reflexivity].
      right. split.
      + assert (Hroom : pool_has_room (put_group (pooled a) (set_group_time time g) c1)).
        { eapply get_member_room; [exact Hg0| |exact Em']. exact Hf. }
        unfold pool_has_room in *. rewrite put_group_members, Hmem1 in Hroom. exact Hroom.
      + unfold set_port_members, set_member_time. simpl.
        rewrite list_insert_insert_eq. reflexivity. }
  destruct Hc5 as (g1 & ms & rest & Hg1 & ->). clear Em Et.
  apply bind_inv in Ep as (g2 & c6 & El & Ep). apply group_load_inv in El as [-> Hg2].
  rewrite group_at_member_taken in Hg2. apply group_at_put_same in Hg2. subst g2.
  apply bind_inv in Ep as (u3 & c6 & Es & Ep).
  unfold group_store, modify in Es. injection Es as _ <-.
  rewrite put_group_member_taken, put_group_put in Ep.
  apply bind_inv in Ep as (timer & c6 & Eg & Ep). unfold gets in Eg.
  injection Eg as <- <-.
  assert (Htimer : groups_timer
                     (groups (member_taken ms rest
                                (put_group (pooled a)
                                   (set_group_portmap (get_portmap g1) g1) c1)))
                   = groups_timer (groups c)).
  { rewrite <- Htm1. reflexivity. }
  rewrite Htm1 in Ep.
  apply bind_inv in Ep as (u4 & c7 & Etm & Ep).
  unfold ret in Ep. injection Ep as <- <-.
  fold (newly_set (group_portmap g) (get_portmap g1)) in H.
  assert (Hc7 : c7 = with_groups
                       (set_groups_timer (timer_after_add (groups_timer (groups c)) time))
                       (member_taken ms rest
                          (put_group (pooled a) (set_group_portmap (get_portmap g1) g1) c1))).
  { unfold timer_after_add. destruct (negb _ || _).
    - unfold modify in Etm. injection Etm as _ <-. reflexivity.
    - unfold ret in Etm. injection Etm as _ <-.
      rewrite <- Htimer. symmetry. apply with_groups_timer_id. }
  subst c7. clear Etm.
  exists a, c1, g, g1, ms, rest. split; [exact Hslot|]. split; [exact Eg0|]. split; [exact Hg|].
  split; [exact Hg1|].
  apply bind_inv in H as (u5 & c8 & Ed & H). unfold ret in H. injection H as <- <-.
  split; [reflexivity|]. unfold calls_if.
  destruct (_ =? 0).
  - unfold ret in Ed. injection Ed as _ <-. symmetry. apply logged_nil.
  - apply bind_inv in Ed as (rmap & c9 & Er & Ed). unfold gets in Er. injection Er as <- <-.
    unfold switch_add_portmap in Ed. rewrite driver_logged in Ed. injection Ed as _ <-.
    assert (Hr : routers_portmap
                   (with_groups
                      (set_groups_timer (timer_after_add (groups_timer (groups c)) time))
                      (member_taken ms rest
                         (put_group (pooled a) (set_group_portmap (get_portmap g1) g1) c1)))
                 = routers_portmap c).
    { unfold routers_portmap. rewrite <- Hrt1. reflexivity. }
    rewrite Hr. reflexivity.
Qed.

Lemma add_member_spec_pool maddr addr port timeout now c r c' :
  tables_sized c -> groups_wf c ->
  port_invalid port = false ->
  add_member maddr addr port timeout now c = Done r c' ->
  (group_of c maddr = None /\ group_of c' maddr = None /\ r = 0 /\ group_pool_exhausted c)
  \/ exists g1,
       let time := ulong (now + timeout) in
       let l := port_members (entry_for c maddr) (Z.to_nat port) in
       match members_find l addr with
       | Some pos =>
           exists m, l !! pos = Some m /\
             g1 = set_port_members (Z.to_nat port) (<[pos := set_member_time time m]> l)
                    (set_group_time time (entry_for c maddr))
       | None =>
           (g1 = set_group_time time (entry_for c maddr) /\
            member_pool_exhausted (after_get_group c maddr)) \/
           g1 = set_port_members (Z.to_nat port)
                  ({| member_time := time; member_addr := addr |} :: l)
                  (set_group_time time (entry_for c maddr))
       end /\
       r = newly_set (group_portmap (entry_for c maddr)) (get_portmap g1) /\
       group_of c' maddr = Some (set_group_portmap (get_portmap g1) g1).
Proof.
  intros (_ & Hlen) Hwf Hp H.
  apply (add_member_inv_pool _ _ _ _ _ _ _ _ Hwf Hp) in H
    as [(Hnone & -> & Hex & rest & ->)
       |(a & c1 & g & g1 & ms & rest & Hslot & Hget1 & Hg & Hm & -> & ->)].
  - left. split; [apply group_of_absent; exact Hnone|].
    assert (Hnone' : get_group maddr false (with_world (set_calloc_results rest) c)
                     = Done None (with_world (set_calloc_results rest) c)).
    { apply get_group_lookup_transfer with (c := c); [reflexivity| |exact Hnone].
      intros b. rewrite group_at_with_world. reflexivity. }
    split; [apply group_of_absent; exact Hnone'|].
    split; [reflexivity|exact Hex].
  - right. exists g1.
    assert (Hentry : entry_for c maddr = g /\ group_ea g = maddr).
    { unfold entry_for. destruct Hslot as [[Hget ->]|(Hnone & -> & rest0 & ->)].
      - rewrite (group_of_found _ _ _ Hget), Hg. split; [reflexivity|].
        rewrite get_group_lookup in Hget.
        apply groups_hash_find_some in Hget as (_ & g0 & Hg0 & Hea). congruence.
      - rewrite (group_of_absent _ _ Hnone). rewrite group_at_created in Hg.
        injection Hg as <-. split; reflexivity. }
    destruct Hentry as (-> & Hea).
    assert (Hafter1 : after_get_group c maddr = c1).
    { unfold after_get_group. rewrite Hget1. reflexivity. }
    rewrite Hafter1.
    assert (Hea1 : group_ea g1 = group_ea g).
    { simpl in Hm. destruct (members_find _ addr).
      - destruct Hm as (m & _ & ->). reflexivity.
      - destruct Hm as [(-> & _)|[_ ->]]; reflexivity. }
    split.
    { simpl in Hm. cbv zeta. destruct (members_find _ addr); [exact Hm|].
      destruct Hm as [(-> & _ & Hex)|[_ ->]]; [left; split; [reflexivity|exact Hex]|right; reflexivity]. }
    split; [reflexivity|].
    match goal with |- group_of ?st0 _ = _ => set (st := st0) end.
    assert (Hafter : exists a', get_group maddr false st = Done (Some a') st /\
                       group_of st maddr = Some (set_group_portmap (get_portmap g1) g1)).
    { subst st. destruct Hslot as [[Hget ->]|(Hnone & -> & rest0 & ->)].
      * exists a. eapply group_of_after_put; [exact Hget|exact Hg| |reflexivity|].
        -- simpl. exact Hea1.
        -- intros b. rewrite group_at_logged, group_at_groups_timer, group_at_member_taken.
           reflexivity.
      * eexists. eapply group_of_after_create with (rest := rest0); [exact Hlen| |reflexivity|].
        -- simpl. congruence.
        -- intros b. rewrite group_at_logged, group_at_groups_timer, group_at_member_taken.
           reflexivity. }
    destruct Hafter as (a' & _ & Hof'). exact Hof'.
Qed.

(** X20.  X20.  After [add_member] with a valid port returned, a lookup of the host
    on that port of the group finds a record with the expiry
    [now() + timeout] -- or nothing, and that only when no group or member
    record could be had: either the group is not in the table and
    [get_group] could neither allocate nor recycle a record, or the member
    free list is empty and the member pool is full or [calloc] failed;
    then the host was no member before and the call returned 0.
    Every other member of the group is found with the record it had. *)
Theorem add_member_then_lookup maddr addr port timeout now c r c' :
  reachable c -> port_invalid port = false ->
  add_member maddr addr port timeout now c = Done r c' ->
  let time := ulong (now + timeout) in
  let p := Z.to_nat port in
  (member_of c' maddr addr p = Some {| member_time := time; member_addr := addr |} \/
   (member_of c' maddr addr p = None /\ member_of c maddr addr p = None /\ r = 0 /\
    ((group_of c maddr = None /\ group_of c' maddr = None /\ group_pool_exhausted c) \/
     (group_of c' maddr <> None /\ member_pool_exhausted (after_get_group c maddr))))) /\
  (forall addr' p', (addr', p') <> (addr, p) ->
     member_of c' maddr addr' p' = member_of c maddr addr' p').
Proof.
  intros Hreach Hp H time p.
  pose proof (port_valid_le _ Hp) as Hle. fold p in Hle.
  pose proof (entry_for_shaped c maddr (reachable_wf c Hreach)) as Hsh.
  pose proof (reachable_entry_consistent c maddr Hreach) as Hc.
  apply (add_member_spec_pool _ _ _ _ _ _ _ _ (reachable_sized c Hreach)
           (reachable_wf c Hreach) Hp) in H
    as [(Hg & Hg' & -> & Hex)|(g1 & Hadd & -> & Hg')].
  { unfold member_of. rewrite Hg, Hg'. split; [right; auto 10|reflexivity]. }
  cbv zeta in Hadd. fold time p in Hadd.
  set (E := entry_for c maddr) in *. set (l := port_members E p) in *.
  assert (Hof : forall addr' p', member_of c' maddr addr' p'
                                 = List.find (has_addr addr') (port_members g1 p')).
  { intros addr' p'. apply (member_of_record _ _ _ _ _ Hg'). }
  assert (Hlt : (p < length (group_members (set_group_time time E)))%nat).
  { unfold group_shaped in Hsh. cbn [group_members set_group_time]. lia. }
  destruct (members_find l addr) as [pos|] eqn:Ef.
  - destruct Hadd as (m & Hl & ->).
    pose proof (members_find_lookup _ _ _ Ef) as (m0 & Hm0 & Haddr).
    rewrite Hl in Hm0. injection Hm0 as <-.
    assert (Hfind : forall addr', List.find (has_addr addr') (<[pos := set_member_time time m]> l)
                    = if has_addr addr' m then Some (set_member_time time m)
                      else List.find (has_addr addr') l).
    { intros addr'. rewrite (find_insert _ _ _ m _ Hl) by reflexivity.
      destruct (has_addr addr' m) eqn:Eh; [|reflexivity].
      unfold has_addr in Eh. apply bool_decide_eq_true_1 in Eh.
      assert (Ha : addr' = addr) by congruence. rewrite Ha.
      rewrite (find_take_first _ _ _ Ef). reflexivity. }
    split.
    + left. rewrite Hof, port_members_set_eq by exact Hlt. rewrite Hfind.
      unfold has_addr. rewrite bool_decide_eq_true_2 by exact Haddr.
      unfold set_member_time. rewrite Haddr. reflexivity.
    + intros addr' p' Hne. rewrite Hof, member_of_entry. fold E.
      destruct (decide (p' = p)) as [->|Hpp].
      * rewrite port_members_set_eq by exact Hlt. rewrite Hfind. unfold has_addr at 1.
        rewrite bool_decide_eq_false_2; [reflexivity|]. intros Ex. apply Hne. congruence.
      * rewrite port_members_set_ne by congruence. reflexivity.
  - destruct Hadd as [[-> Hex]| ->].
    + split.
      * right. rewrite Hof, member_of_entry. fold E.
        change (port_members (set_group_time time E) p) with l.
        fold l. rewrite <- found_is_find, Ef. split; [reflexivity|]. split; [reflexivity|].
        split.
        -- change (get_portmap (set_group_time time E)) with (get_portmap E).
           unfold consistent in Hc. fold E in Hc. rewrite <- Hc.
           unfold newly_set. rewrite Z.lxor_nilpotent. apply Z.land_0_l.
        -- right. split; [rewrite Hg'; discriminate|exact Hex].
      * intros addr' p' _. rewrite Hof, member_of_entry. reflexivity.
    + split.
      * left. rewrite Hof, port_members_set_eq by exact Hlt.
        cbn [List.find]. unfold has_addr at 1. cbn [member_addr].
        rewrite bool_decide_eq_true_2 by reflexivity. reflexivity.
      * intros addr' p' Hne. rewrite Hof, member_of_entry. fold E.
        destruct (decide (p' = p)) as [->|Hpp].
        -- rewrite port_members_set_eq by exact Hlt.
           cbn [List.find]. unfold has_addr at 1. cbn [member_addr].
           rewrite bool_decide_eq_false_2; [reflexivity|]. intros Ex. apply Hne. congruence.
        -- rewrite port_members_set_ne by congruence. reflexivity.
Qed.

(** ** Where a forwarding entry is cleared *)

(** [get_group] down to [init_group(group)]: [inl group] is the value of
    an early [return], [inr group] the pointer that goes on to
    [init_group], after [switch_clr_portmap] and the [memset] when a
    record of the pool was picked for reuse. *)
Definition get_group_obtain (ea : ether_addr) (allocate : bool) : cacheM (ptr + ptr) :=
  let index := HASH_INDEX ea in
  chain <- gets (fun c => nth index (groups_hash (groups c)) []);;
  group <- groups_hash_find chain ea;;
  match group with
  | Some _ => ret (inl group)
  | None =>
      if negb allocate then ret (inl NULL)
      else
        count <- gets (fun c => groups_count (groups c));;
        group <- (if count <? GROUP_POOL_SIZE then
                    group <- calloc_group;;
                    match group with
                    | Some _ =>
                        modify (with_groups (fun gs =>
                                  set_groups_count (groups_count gs + 1) gs));;;
                        ret group
                    | None => ret group
                    end
                  else ret NULL);;
        match group with
        | Some _ => ret (inr group)
        | None =>
            queue <- gets (fun c => groups_pool (groups c));;
            found <- groups_pool_scan queue 0;;
            match found with
            | None => ret (inl NULL)
            | Some (pos, a) =>
                modify (with_groups (fun gs =>
                          set_groups_hash (hash_unlink a (groups_hash gs)) gs));;;
                modify (with_groups (fun gs =>
                          set_groups_pool (delete pos (groups_pool gs)) gs));;;
                g <- group_load (pooled a);;
                switch_clr_portmap (group_ea g);;;
                ret (inr NULL)
            end
        end
  end.

(** The rest of [get_group]: the early [return], or [init_group(group)]
    and what follows it. *)
Definition get_group_rest (ea : ether_addr) (obtained : ptr + ptr) : cacheM ptr :=
  match obtained with
  | inl group => ret group
  | inr group => get_group_link ea (HASH_INDEX ea) group
  end.

Lemma bind_ext {A B} (m : cacheM A) (k k' : A -> cacheM B) c :
  (forall a s, k a s = k' a s) -> bind m k c = bind m k' c.
Proof. intros H. unfold bind. destruct (m c); [apply H|reflexivity]. Qed.

(** [get_group] is the two halves in a row. *)
Lemma get_group_split ea allocate c :
  get_group ea allocate c
  = (obtained <- get_group_obtain ea allocate;; get_group_rest ea obtained) c.
Proof.
  unfold get_group, get_group_obtain. cbv zeta.
  rewrite bind_bind. apply bind_ext. intros chain s1.
  rewrite bind_bind. apply bind_ext. intros [a|] s2; [rewrite bind_ret; reflexivity|].
  destruct allocate; cbn [negb]; [|rewrite bind_ret; reflexivity].
  rewrite bind_bind. apply bind_ext. intros count s3.
  rewrite bind_bind. apply bind_ext. intros [a|] s4; [rewrite bind_ret; reflexivity|].
  rewrite bind_bind. apply bind_ext. intros queue s5.
  rewrite bind_bind. apply bind_ext. intros [[pos a]|] s6; [|rewrite bind_ret; reflexivity].
  rewrite bind_bind. apply bind_ext. intros u1 s7.
  rewrite bind_bind. apply bind_ext. intros u2 s8.
  rewrite bind_bind. apply bind_ext. intros g s9.
  rewrite bind_bind. apply bind_ext. intros u3 s10.
  rewrite bind_ret. reflexivity.
Qed.

(** When the MAC has no record, no new record is to be had and the pool
    has a record with bitmask 0, [get_group] takes the first such record
    out of the tables and has its forwarding entry cleared. *)
Lemma get_group_reclaims ea c :
  groups_wf c ->
  groups_hash_find (nth (HASH_INDEX ea) (groups_hash (groups c)) []) ea c = Done None c ->
  (GROUP_POOL_SIZE <=? groups_count (groups c)) || calloc_fails c = true ->
  (exists a, In a (groups_pool (groups c)) /\ group_idle c a) ->
  exists a g c1,
    In a (groups_pool (groups c)) /\
    groups_mem (groups c) !! a = Some g /\ group_portmap g = 0 /\
    get_group_obtain ea true c = Done (inr NULL) c1 /\
    calls_made c c1 [drv_clr_portmap (group_ea g)] /\
    routers c1 = routers c.
Proof.
  intros Hw Hnone Hcond (a0 & Hin0 & Hidle0). pose proof Hw as (W1 & _).
  unfold get_group_obtain.
  rewrite bind_gets, (bind_Done _ _ _ _ _ Hnone). cbn [negb]. fwd.
  assert (Hscan : forall s,
            groups_mem (groups s) = groups_mem (groups c) ->
            groups_pool (groups s) = groups_pool (groups c) ->
            exists p a g,
              groups_pool_scan (groups_pool (groups s)) 0 s = Done (Some (p, a)) s /\
              In a (groups_pool (groups c)) /\
              groups_mem (groups c) !! a = Some g /\ group_portmap g = 0).
  { intros s Hm Hp.
    destruct (groups_pool_scan_total (groups_pool (groups s)) 0 s)
      as [(p & a & E & Hin & (g & Hg & Hz))|[E Hno]].
    - intros b Hb. rewrite Hp, W1 in Hb. apply in_seq in Hb.
      rewrite Hm. apply lookup_lt_is_Some. lia.
    - exists p, a, g. rewrite <- Hp, <- Hm. auto.
    - exfalso. apply (Hno a0); [rewrite Hp; exact Hin0|].
      unfold group_idle. rewrite Hm. exact Hidle0. }
  assert (Hrecycle : forall s p a g,
            groups_mem (groups s) !! a = Some g ->
            exists c1,
              (modify (with_groups (fun gs =>
                         set_groups_hash (hash_unlink a (groups_hash gs)) gs));;;
               modify (with_groups (fun gs =>
                         set_groups_pool (delete p (groups_pool gs)) gs));;;
               g <- group_load (pooled a);;
               switch_clr_portmap (group_ea g);;;
               ret (inr NULL)) s = Done (inr NULL : ptr + ptr) c1 /\
              calls_made s c1 [drv_clr_portmap (group_ea g)] /\
              routers c1 = routers s).
  { intros s p a g Hg. eexists. fwd.
    erewrite bind_Done; [|apply group_load_at; unfold group_at; exact Hg].
    unfold switch_clr_portmap.
    erewrite bind_Done; [|apply driver_logged]. unfold ret.
    split; [reflexivity|]. split; reflexivity. }
  destruct (Z.leb_spec GROUP_POOL_SIZE (groups_count (groups c))) as [Hfull|Hroom];
    simpl orb in Hcond.
  - replace (groups_count (groups c) <? GROUP_POOL_SIZE) with false
      by (symmetry; apply Z.ltb_ge; lia).
    fwd.
    destruct (Hscan c eq_refl eq_refl) as (p & a & g & E & Hin & Hg & Hz).
    rewrite (bind_Done _ _ _ _ _ E). cbv beta iota.
    destruct (Hrecycle c p a g Hg) as (c1 & E1 & Hcalls & Hrt).
    exists a, g, c1. auto 10.
  - replace (groups_count (groups c) <? GROUP_POOL_SIZE) with true
      by (symmetry; apply Z.ltb_lt; lia).
    unfold calloc_group. fwd.
    apply calloc_result_fails in Hcond as (rest & _ & Hc).
    rewrite (bind_Done _ _ _ _ _ Hc). fwd.
    match goal with
    | |- exists _ _ _, _ /\ _ /\ _ /\
           bind (groups_pool_scan (groups_pool (groups ?s)) _) _ _ = _ /\ _ =>
        destruct (Hscan s eq_refl eq_refl) as (p & a & g & E & Hin & Hg & Hz);
        rewrite (bind_Done _ _ _ _ _ E); cbv beta iota;
        destruct (Hrecycle s p a g Hg) as (c1 & E1 & Hcalls & Hrt)
    end.
    exists a, g, c1. auto 10.
Qed.

(** C6.  In a reachable state:
    - of the driver calls an operation that returns makes, none removes a
      port from a forwarding mask while that port is in the router bitmask
      the operation leaves; a port that was in the router bitmask before
      the operation is removed by the router timer only, after the sweep
      took it out of the router bitmask, and only from the masks of pooled
      groups whose own bitmask does not have it;
    - [purge_cache] returns, and has the forwarding entry of every group
      of the pool cleared, whatever the router bitmask is;
    - [get_group], asked to allocate for a MAC that has no record when no
      new record is to be had and the pool has a record with bitmask 0,
      has the forwarding entry of the record it reclaims cleared before it
      goes on to [init_group], whatever the router bitmask is, and leaves
      the router state as it was. *)
Theorem router_ports_kept_except_on_clear c :
  reachable c ->
  (forall op r c',
     run op c = Done r c' ->
     exists new,
       calls_made c c' new /\
       forall call p,
         In call new -> removes_port call p ->
         Z.testbit (routers_portmap c') p = false /\
         (Z.testbit (routers_portmap c) p = true ->
          exists now a g m,
            op = call_router_timer now /\
            In a (groups_pool (groups c)) /\
            groups_mem (groups c) !! a = Some g /\
            call = drv_del_portmap (group_ea g) m /\
            Z.testbit (group_portmap g) p = false)) /\
  (exists c',
     purge_cache c = Done 0 c' /\
     calls_made c c'
       (map (fun a => drv_clr_portmap (ea_at c a)) (groups_pool (groups c)))) /\
  (forall ea,
     group_of c ea = None ->
     (GROUP_POOL_SIZE <=? groups_count (groups c)) || calloc_fails c = true ->
     (exists a, In a (groups_pool (groups c)) /\ group_idle c a) ->
     get_group ea true c
     = (obtained <- get_group_obtain ea true;; get_group_rest ea obtained) c /\
     exists a g group c1,
       In a (groups_pool (groups c)) /\
       groups_mem (groups c) !! a = Some g /\ group_portmap g = 0 /\
       get_group_obtain ea true c = Done (inr group) c1 /\
       calls_made c c1 [drv_clr_portmap (group_ea g)] /\
       routers c1 = routers c).
Proof.
  intros Hr. split; [|split].
  - intros op r c' H. exact (returning_calls_keep_router_ports op c r c' H).
  - destruct (purge_cache_effect c Hr) as (c' & E & Hcalls & _). exists c'. auto.
  - intros ea Hnone Hcond Hidle. split; [apply get_group_split|].
    pose proof (reachable_wf _ Hr) as Hw.
    apply (group_of_miss _ _ Hw) in Hnone. rewrite get_group_lookup in Hnone.
    destruct (get_group_reclaims ea c Hw Hnone Hcond Hidle)
      as (a & g & c1 & Hin & Hg & Hz & E & Hcalls & Hrt).
    exists a, g, NULL, c1. auto 10.
Qed.

End Snooper.

(** * Concrete runs

    A switch with ports 0 to 8, ten ticks a second and 32-bit ticks; MACs
    are hashed by their last octet, and the switch reports the port in the
    fifth octet. *)

Definition demo_ports : nat := 8.
Definition demo_hz : Z := 10.
Definition demo_bits : Z := 32.
Definition demo_hash (ea : ether_addr) : N := Byte.to_N (ea5 ea).

Definition demo_world (results : list bool) : world_t :=
  {| calloc_results := results;
     switch_port_of := fun ea => Z.of_N (Byte.to_N (ea4 ea));
     driver_log := [] |}.

(** The statics before [init_cache] ran. *)
Definition blank (w : world_t) : cache :=
  {| hosts := {| hosts_mem := []; hosts_pool := []; hosts_hash := []; hosts_count := 0 |};
     members := {| members_free := []; members_count := 0 |};
     groups := {| groups_mem := []; groups_pool := []; groups_hash := [];
                  groups_timer := timer_zero; groups_count := 0 |};
     routers := {| routers_group := group_zero demo_ports; routers_timer := timer_zero |};
     world := w |}.

(** The state [init_cache] leaves. *)
Definition started (w : world_t) : cache :=
  match init_cache demo_ports (blank w) with
  | Done _ c => c
  | Fault => blank w
  end.

(** The state a run of operations leaves. *)
Definition after (ops : list call) (c : cache) : cache :=
  match run_all demo_ports demo_hz demo_bits demo_hash ops c with
  | Done _ c' => c'
  | Fault => c
  end.

Definition group_G : ether_addr := EtherAddr x01 x00 x5e x00 x00 x05.
Definition group_G' : ether_addr := EtherAddr x01 x00 x5e x00 x00 x06.
Definition host_H : ether_addr := EtherAddr x02 x00 x00 x00 x03 x07.
Definition host_H' : ether_addr := EtherAddr x02 x00 x00 x00 x04 x08.

(** Group [G] with the one member 10.0.0.5 on port 2. *)
Definition one_member : cache :=
  after [call_add_member group_G 5 2 50 100] (started (demo_world [])).

(** The same, with a router heard on port 2 as well. *)
Definition member_and_router : cache :=
  after [call_add_member group_G 5 2 50 100; call_add_router 9 2 100 100]
        (started (demo_world [])).

(** Group [G] with its member on port 2, and a router heard on port 0. *)
Definition router_elsewhere : cache :=
  after [call_add_member group_G 5 2 50 100; call_add_router 9 0 100 100]
        (started (demo_world [])).

(** A run that leaves the member pool full: 1024 members of [G] on port 2. *)
Definition fill_pool : list call :=
  map (fun n => call_add_member group_G (Z.of_nat n) 2 50 100) (seq 1 1024).

Definition pool_full : cache := after fill_pool (started (demo_world [])).

Lemma started_reachable w : reachable demo_ports demo_hz demo_bits demo_hash (started w).
Proof. exists (blank w), (started w), []. split; reflexivity. Qed.

Lemma after_reachable ops w :
  run_all demo_ports demo_hz demo_bits demo_hash ops (started w)
  = Done tt (after ops (started w)) ->
  reachable demo_ports demo_hz demo_bits demo_hash (after ops (started w)).
Proof. intros H. exists (blank w), (started w), ops. split; [reflexivity|exact H]. Qed.

Lemma one_member_reachable : reachable demo_ports demo_hz demo_bits demo_hash one_member.
Proof. apply after_reachable. vm_compute. reflexivity. Qed.

Lemma member_and_router_reachable :
  reachable demo_ports demo_hz demo_bits demo_hash member_and_router.
Proof. apply after_reachable. vm_compute. reflexivity. Qed.

Lemma pool_full_reachable : reachable demo_ports demo_hz demo_bits demo_hash pool_full.
Proof. apply after_reachable. vm_compute. reflexivity. Qed.

(** The invariant of C1 on a run that adds a member and a router. *)
Lemma bitmask_always_exact_witness :
  (bitmask_exact demo_ports (routers_group (routers member_and_router)) /\
   forall a g, groups_mem (groups member_and_router) !! a = Some g ->
               bitmask_exact demo_ports g) /\
  forall op r c',
    run demo_ports demo_hz demo_bits demo_hash op member_and_router = Done r c' ->
    bitmask_exact demo_ports (routers_group (routers c')) /\
    forall a g, groups_mem (groups c') !! a = Some g -> bitmask_exact demo_ports g.
Proof.
  exact (bitmask_always_exact demo_ports demo_hz demo_bits demo_hash member_and_router
           member_and_router_reachable).
Defined.

(** The groups 01:00:5e:00:00:00 .. 01:00:5e:00:02:00. *)
Definition group_nr (n : nat) : ether_addr :=
  EtherAddr x01 x00 x5e x00 (default x00 (Byte.of_nat (n / 256)))
            (default x00 (Byte.of_nat (n mod 256))).

(** [GROUP_POOL_SIZE] groups with a member each, the first of them left
    by its member again. *)
Definition groups_full : cache :=
  after (map (fun n => call_add_member (group_nr n) 5 2 50 100) (seq 0 512)
         ++ [call_del_member (group_nr 0) 5 2])
        (started (demo_world [])).

(** C2 on the code: a host entry whose time has passed, and a group entry
    with bitmask 0, are picked for reuse when no new record is to be had
    ([calloc] fails, or the group table is at [GROUP_POOL_SIZE]); the
    record is not reset, and the call faults on the pointer that was
    cleared in its place. *)
Theorem recycled_record_is_not_reset :
  let hosts_seen := after [call_get_port host_H 100] (started (demo_world [true; false])) in
  let group_left :=
    after [call_add_member group_G 5 2 50 100; call_del_member group_G 5 2]
          (started (demo_world [true; true; false])) in
  (host_of demo_hash hosts_seen host_H
   = Some {| host_time := 130; host_port := 3; host_ea := host_H |} /\
   get_port demo_ports demo_hz demo_bits demo_hash host_H' 200 hosts_seen = Fault) /\
  (bitmask_of demo_ports demo_hash group_left group_G = 0 /\
   add_member demo_ports demo_bits demo_hash group_G' 6 3 50 200 group_left = Fault) /\
  (groups_count (groups groups_full) = GROUP_POOL_SIZE /\
   calloc_results (world groups_full) = [] /\
   bitmask_of demo_ports demo_hash groups_full (group_nr 0) = 0 /\
   add_member demo_ports demo_bits demo_hash (group_nr 512) 6 3 50 200 groups_full = Fault).
Proof. vm_compute. repeat split. Qed.

(** The 33 MACs 02:00:00:00:01:00 .. 02:00:00:00:01:20. *)
Definition host_nr (n : nat) : ether_addr :=
  EtherAddr x02 x00 x00 x00 x01 (default x00 (Byte.of_nat n)).

Definition seen_33_hosts : cache :=
  after (map (fun n => call_get_port (host_nr n) 100) (seq 0 33)) (started (demo_world [])).

(** C3 on the code: from a fresh cache, 33 calls of [get_port] with
    distinct MACs leave 33 live host entries, one more than
    [HOST_POOL_SIZE]; [hosts.count] is still 0, because it is incremented
    when [calloc] fails and not when it succeeds. *)
Theorem host_pool_outgrows_its_bound :
  run_all demo_ports demo_hz demo_bits demo_hash
    (map (fun n => call_get_port (host_nr n) 100) (seq 0 33)) (started (demo_world []))
  = Done tt seen_33_hosts /\
  NoDup (map (fun n => host_nr n) (seq 0 33)) /\
  Z.of_nat (length (hosts_pool (hosts seen_33_hosts))) = 33 /\
  HOST_POOL_SIZE < Z.of_nat (length (hosts_pool (hosts seen_33_hosts))) /\
  hosts_count (hosts seen_33_hosts) = 0.
Proof.
  split; [vm_compute; reflexivity|].
  split; [apply (bool_decide_unpack (NoDup (map (fun n => host_nr n) (seq 0 33)))); vm_compute; exact I|].
  vm_compute. repeat split.
Qed.

(** C4 as stated fails: with a router on port 2, removing the last member
    on port 2 takes bit 2 out of the group's bitmask, yet the call returns
    0, not 4. *)
Lemma del_member_return_excludes_router_ports :
  let c' := after [call_del_member group_G 5 2] member_and_router in
  del_member demo_ports demo_hash group_G 5 2 member_and_router = Done 0 c' /\
  cleared (bitmask_of demo_ports demo_hash member_and_router group_G)
          (bitmask_of demo_ports demo_hash c' group_G) = 4.
Proof. vm_compute. split; reflexivity. Qed.

Lemma del_member_returns_masked_ports_witness :
  let c' := after [call_del_member group_G 5 2] one_member in
  (forall i, Z.testbit 4 i =
             Z.testbit (bitmask_of demo_ports demo_hash one_member group_G) i
             && negb (Z.testbit (bitmask_of demo_ports demo_hash c' group_G) i)
             && negb (Z.testbit (routers_portmap one_member) i)) /\
  calls_made one_member c' (if 4 =? 0 then [] else [drv_del_portmap group_G 4]).
Proof.
  intros c'.
  apply (del_member_returns_masked_ports demo_ports demo_hash group_G 5 2 one_member 4 c').
  - vm_compute. reflexivity.
  - vm_compute. reflexivity.
Defined.

Lemma add_member_returns_new_ports_witness :
  let c' := after [call_add_member group_G 6 3 50 100] one_member in
  (forall i, Z.testbit 8 i =
             negb (Z.testbit (bitmask_of demo_ports demo_hash one_member group_G) i)
             && Z.testbit (bitmask_of demo_ports demo_hash c' group_G) i) /\
  calls_made one_member c'
    (if 8 =? 0 then [] else [drv_add_portmap group_G (Z.lor 8 (routers_portmap c'))]).
Proof.
  intros c'.
  apply (add_member_returns_new_ports demo_ports demo_hz demo_bits demo_hash
           group_G 6 3 50 100 one_member 8 c').
  - exact one_member_reachable.
  - vm_compute. reflexivity.
  - vm_compute. reflexivity.
Defined.

(** C7 as stated fails: group [G] has the member (10.0.0.5, port 2) and no
    other; adding it again and deleting it leaves bitmask 0 where it was
    4. *)
Lemma del_after_add_drops_old_member :
  let c1 := after [call_add_member group_G 5 2 50 100] one_member in
  let c2 := after [call_del_member group_G 5 2] c1 in
  bitmask_of demo_ports demo_hash one_member group_G = 4 /\
  option_map group_members (group_of demo_ports demo_hash one_member group_G)
  = Some [[]; []; [{| member_time := 150; member_addr := 5 |}]; []; []; []; []; []; []] /\
  add_member demo_ports demo_bits demo_hash group_G 5 2 50 100 one_member = Done 0 c1 /\
  del_member demo_ports demo_hash group_G 5 2 c1 = Done 4 c2 /\
  bitmask_of demo_ports demo_hash c2 group_G = 0.
Proof. vm_compute. repeat split. Qed.

Lemma del_after_add_on_empty_group_witness :
  let c1 := after [call_add_member group_G' 5 2 50 100] one_member in
  exists r2 c2,
    del_member demo_ports demo_hash group_G' 5 2 c1 = Done r2 c2 /\
    bitmask_of demo_ports demo_hash c2 group_G'
    = bitmask_of demo_ports demo_hash one_member group_G'.
Proof.
  intros c1.
  apply (del_after_add_on_empty_group demo_ports demo_hz demo_bits demo_hash
           group_G' 5 2 50 100 one_member 4 c1).
  - exact one_member_reachable.
  - vm_compute. reflexivity.
  - vm_compute. exact I.
  - vm_compute. reflexivity.
Defined.

Lemma get_port_caches_for_ttl_witness :
  let c := started (demo_world []) in
  let c1 := after [call_get_port host_H 100] c in
  let ops := [call_get_port host_H' 105; call_add_member group_G 5 2 50 110;
              call_group_timer 120] in
  let c2 := after ops c1 in
  (forall d, 0 <= d <= HOST_TTL * demo_hz ->
     get_port demo_ports demo_hz demo_bits demo_hash host_H (ulong demo_bits (100 + d)) c2
     = Done 3 c2) /\
  (forall d, HOST_TTL * demo_hz < d <= 2 ^ (demo_bits - 1) ->
     exists r c3,
       get_port demo_ports demo_hz demo_bits demo_hash host_H (ulong demo_bits (100 + d)) c2
       = Done r c3 /\
       calls_made c2 c3 [drv_get_port host_H]) /\
  (forall ea now s r s',
     get_port demo_ports demo_hz demo_bits demo_hash ea now s = Done r s' ->
     calls_made s s' [] \/ calls_made s s' [drv_get_port ea]).
Proof.
  intros c c1 ops c2.
  apply (get_port_caches_for_ttl demo_ports demo_hz demo_bits demo_hash
           host_H 100 c 3 c1 ops c2).
  - apply started_reachable.
  - vm_compute. discriminate.
  - vm_compute. split; [discriminate|reflexivity].
  - vm_compute. reflexivity.
  - vm_compute. reflexivity.
  - vm_compute. reflexivity.
  - vm_compute. discriminate.
  - vm_compute. reflexivity.
  - vm_compute. reflexivity.
Defined.

(** C9 as stated fails: naming a group that has no entry,
    [expire_members] returns the error code -1. *)
Lemma expire_unknown_group_is_an_error :
  let c := started (demo_world []) in
  get_group demo_ports demo_hash group_G false c = Done None c /\
  expire_members demo_ports demo_bits demo_hash (Some group_G) 5 100 c = Done (-1) c /\
  -1 <> 0.
Proof. vm_compute. repeat split. discriminate. Qed.

Lemma lookup_miss_changes_nothing_witness :
  (forall maddr addr port,
     port_invalid demo_ports port = false ->
     match get_group demo_ports demo_hash maddr false one_member with
     | Done None _ => True
     | Done (Some a) _ =>
         exists g, groups_mem (groups one_member) !! a = Some g /\
                   members_find (port_members g (Z.to_nat port)) addr = None
     | Fault => False
     end ->
     del_member demo_ports demo_hash maddr addr port one_member = Done 0 one_member) /\
  (forall ea timeout now,
     get_group demo_ports demo_hash ea false one_member = Done None one_member ->
     expire_members demo_ports demo_bits demo_hash (Some ea) timeout now one_member
     = Done (-1) one_member).
Proof.
  exact (lookup_miss_changes_nothing demo_ports demo_hz demo_bits demo_hash one_member
           one_member_reachable).
Defined.

Lemma add_member_without_member_record_witness :
  let c' := after [call_add_member group_G' 7 3 50 200] pool_full in
  let time := ulong demo_bits (200 + 50) in
  let timer := groups_timer (groups pool_full) in
  0 = 0 /\
  calls_made pool_full c' [] /\
  (exists g', group_of demo_ports demo_hash c' group_G' = Some g' /\
              group_ea g' = group_G' /\
              group_time g' = time /\
              (group_of demo_ports demo_hash pool_full group_G' = None ->
               group_portmap g' = 0 /\
               forall p, (p <= demo_ports)%nat -> port_members g' p = [])) /\
  groups_timer (groups c') =
    (if negb (timer_pending timer) || time_before demo_bits time (expires timer)
     then {| timer_pending := true; expires := time |}
     else timer).
Proof.
  intros c'.
  apply (add_member_without_member_record demo_ports demo_hz demo_bits demo_hash
           group_G' 7 3 50 200 pool_full 0 c').
  - exact pool_full_reachable.
  - vm_compute. reflexivity.
  - vm_compute. reflexivity.
  - vm_compute. discriminate.
  - vm_compute. reflexivity.
  - vm_compute. reflexivity.
  - vm_compute. discriminate.
Defined.

(** * The further properties on concrete runs *)

Lemma group_table_bounded_witness :
  let c := member_and_router in
  groups_count (groups c) = Z.of_nat (length (groups_pool (groups c))) /\
  Z.of_nat (length (groups_pool (groups c))) <= GROUP_POOL_SIZE /\
  NoDup (groups_pool (groups c)) /\
  forall a, In a (groups_pool (groups c)) ->
    exists g, groups_mem (groups c) !! a = Some g /\
              get_group demo_ports demo_hash (group_ea g) false c = Done (Some a) c.
Proof.
  exact (group_table_bounded demo_ports demo_hz demo_bits demo_hash member_and_router
           member_and_router_reachable).
Defined.

(** One host seen at tick 100, and the next [calloc] fails. *)
Definition host_then_no_memory : cache :=
  after [call_get_port host_H 100] (started (demo_world [true; false])).

Lemma host_then_no_memory_reachable :
  reachable demo_ports demo_hz demo_bits demo_hash host_then_no_memory.
Proof. apply after_reachable. vm_compute. reflexivity. Qed.

Lemma get_port_fault_is_recycling_witness :
  let c := host_then_no_memory in
  get_port demo_ports demo_hz demo_bits demo_hash host_H' 200 c = Fault <->
  host_of demo_hash c host_H' = None /\
  (HOST_POOL_SIZE <=? hosts_count (hosts c)) || calloc_fails c = true /\
  exists a, In a (hosts_pool (hosts c)) /\ host_expired demo_bits 200 c a.
Proof.
  exact (get_port_fault_is_recycling demo_ports demo_hz demo_bits demo_hash host_H' 200
           host_then_no_memory host_then_no_memory_reachable).
Defined.

Lemma other_operations_return_witness :
  exists r c',
    run demo_ports demo_hz demo_bits demo_hash (call_del_member group_G 5 2) one_member
    = Done r c'.
Proof.
  apply (other_operations_return demo_ports demo_hz demo_bits demo_hash
           (call_del_member group_G 5 2) one_member).
  - exact one_member_reachable.
  - reflexivity.
Defined.

Lemma groups_full_reachable : reachable demo_ports demo_hz demo_bits demo_hash groups_full.
Proof. apply after_reachable. vm_compute. reflexivity. Qed.

Lemma add_member_fault_is_recycling_witness :
  let c := groups_full in
  add_member demo_ports demo_bits demo_hash (group_nr 600) 5 2 50 100 c = Fault <->
  port_invalid demo_ports 2 = false /\
  group_of demo_ports demo_hash c (group_nr 600) = None /\
  (GROUP_POOL_SIZE <=? groups_count (groups c)) || calloc_fails c = true /\
  exists a, In a (groups_pool (groups c)) /\ group_idle c a.
Proof.
  exact (add_member_fault_is_recycling demo_ports demo_hz demo_bits demo_hash (group_nr 600)
           5 2 50 100 groups_full groups_full_reachable).
Defined.

Lemma purge_cache_releases_witness :
  let c := member_and_router in
  exists c', purge_cache demo_ports c = Done 0 c' /\
    calls_made c c' (map (fun a => drv_clr_portmap (ea_at c a)) (groups_pool (groups c))) /\
    groups_pool (groups c') = [] /\ hosts_pool (hosts c') = [] /\
    (forall i, nth i (groups_hash (groups c')) [] = []) /\
    (forall i, nth i (hosts_hash (hosts c')) [] = []) /\
    members_free (members c') = [] /\
    (forall y g, group_at c' y = Some g -> group_cleared demo_ports g) /\
    timer_pending (groups_timer (groups c')) = false /\
    timer_pending (routers_timer (routers c')) = false /\
    groups_count (groups c') = groups_count (groups c) /\
    members_count (members c') = members_count (members c) /\
    hosts_count (hosts c') = hosts_count (hosts c).
Proof.
  exact (purge_cache_releases demo_ports demo_hz demo_bits demo_hash member_and_router
           member_and_router_reachable).
Defined.

Lemma member_pool_bounded_witness :
  members_count (members pool_full) = members_held pool_full /\
  0 <= members_count (members pool_full) <= MEMBER_POOL_SIZE.
Proof.
  exact (member_pool_bounded demo_ports demo_hz demo_bits demo_hash pool_full
           pool_full_reachable).
Defined.

Lemma add_router_adds_new_ports_witness :
  let c := one_member in
  let c' := router_elsewhere in
  1 = newly_set (routers_portmap c) (routers_portmap c') /\
  calls_made c c' (fan_out_calls drv_add_portmap 1 c (groups_pool (groups c))) /\
  (exists g1, member_added (routers_group (routers c)) g1 9 (Z.to_nat 0)
                (ulong demo_bits (100 + 100)) (pool_has_room c) /\
              routers_group (routers c') = set_group_portmap (get_portmap demo_ports g1) g1) /\
  routers_timer (routers c')
  = timer_brought_forward demo_bits (routers_timer (routers c)) (ulong demo_bits (100 + 100)) /\
  groups c' = groups c /\ hosts c' = hosts c.
Proof.
  apply (add_router_adds_new_ports demo_ports demo_bits 9 0 100 100 one_member 1
           router_elsewhere).
  - reflexivity.
  - vm_compute. reflexivity.
Defined.

(** Two routers: one on port 2 that expires at tick 120, one on port 0
    that expires at tick 200; group [G] has its member on port 0. *)
Definition two_routers : cache :=
  after [call_add_member group_G 5 0 50 100; call_add_member group_G' 5 1 50 100;
         call_add_router 9 2 20 100; call_add_router 8 0 100 100]
        (started (demo_world [])).

Lemma router_timer_drops_expired_witness :
  let c := two_routers in
  let c' := after [call_router_timer 150] two_routers in
  let g := routers_group (routers c) in
  let g' := routers_group (routers c') in
  (forall p, (p <= demo_ports)%nat ->
     port_members g' p = List.filter (alive demo_bits 150) (port_members g p)) /\
  group_portmap g' = get_portmap demo_ports g' /\
  calls_made c c' (fan_out_calls drv_del_portmap
                     (cleared (group_portmap g) (group_portmap g')) c (groups_pool (groups c))) /\
  (group_portmap g' <> 0 ->
     routers_timer (routers c') = mod_timer (routers_timer (routers c)) (group_time g') /\
     time_after demo_bits (group_time g') 150 = true /\
     (forall p m, (p <= demo_ports)%nat -> In m (port_members g' p) ->
        time_before demo_bits (member_time m) (group_time g') = false) /\
     (group_time g' = ulong demo_bits (150 + ULONG_HALF demo_bits) \/
      exists p m, (p <= demo_ports)%nat /\ In m (port_members g' p) /\
                  member_time m = group_time g')) /\
  (group_portmap g' = 0 -> routers_timer (routers c') = routers_timer (routers c)) /\
  groups c' = groups c /\ hosts c' = hosts c.
Proof.
  apply (router_timer_drops_expired demo_ports demo_bits 150 two_routers
           (after [call_router_timer 150] two_routers)).
  - vm_compute. discriminate.
  - vm_compute. discriminate.
  - vm_compute. reflexivity.
  - vm_compute. reflexivity.
Defined.

(** The state an operation leaves ([c] itself if it does not return). *)
Definition left_by {A} (m : cacheM A) (c : cache) : cache :=
  match m c with
  | Done _ c' => c'
  | Fault => c
  end.

(** Group [G] with a member until tick 150, group [G'] with one until
    tick 300. *)
Definition two_groups : cache :=
  after [call_add_member group_G 5 2 50 100; call_add_member group_G' 6 1 200 100]
        (started (demo_world [])).

Lemma two_groups_reachable : reachable demo_ports demo_hz demo_bits demo_hash two_groups.
Proof. apply after_reachable. vm_compute. reflexivity. Qed.

Lemma group_timer_expires_groups_witness :
  let c := two_groups in
  let c' := left_by (group_timer demo_ports demo_bits 160) two_groups in
  (forall a g, groups_mem (groups c) !! a = Some g ->
     groups_mem (groups c') !! a = Some (swept demo_ports demo_bits 160 g)) /\
  calls_made c c' (sweep_calls demo_bits 160 (routers_portmap c) (groups_mem (groups c))
                     (groups_pool (groups c))) /\
  ((groups_timer (groups c') = groups_timer (groups c) /\
    forall a g, groups_mem (groups c) !! a = Some g -> group_live demo_bits 160 g = true ->
      time_before demo_bits (group_time g) (ulong demo_bits (160 + ULONG_HALF demo_bits))
      = false)
   \/
   (exists a g, groups_mem (groups c) !! a = Some g /\ group_live demo_bits 160 g = true /\
                groups_timer (groups c') = mod_timer (groups_timer (groups c)) (group_time g)) /\
    forall a g, groups_mem (groups c) !! a = Some g -> group_live demo_bits 160 g = true ->
      time_before demo_bits (group_time g) (expires (groups_timer (groups c'))) = false) /\
  hosts c' = hosts c /\ routers c' = routers c /\
  groups_pool (groups c') = groups_pool (groups c) /\
  groups_hash (groups c') = groups_hash (groups c) /\
  groups_count (groups c') = groups_count (groups c).
Proof.
  apply (group_timer_expires_groups demo_ports demo_hz demo_bits demo_hash 160 two_groups
           (left_by (group_timer demo_ports demo_bits 160) two_groups)).
  - vm_compute. discriminate.
  - exact two_groups_reachable.
  - vm_compute. reflexivity.
Defined.

Lemma expire_members_sets_deadline_witness :
  let c := one_member in
  let c' := left_by (expire_members demo_ports demo_bits demo_hash (Some group_G) 5 110)
              one_member in
  let time := ulong demo_bits (110 + 5) in
  (0 = -1 /\ c' = c /\
   exists ea, Some group_G = Some ea /\ group_of demo_ports demo_hash c ea = None) \/
  (0 = 0 /\
   (forall ea, Some group_G = Some ea -> group_of demo_ports demo_hash c ea <> None) /\
   (forall a g, groups_mem (groups c) !! a = Some g ->
      groups_mem (groups c') !! a
      = Some (if named (Some group_G) g then set_group_time time g else g)) /\
   groups_timer (groups c') = timer_brought_forward demo_bits (groups_timer (groups c)) time /\
   groups_pool (groups c') = groups_pool (groups c) /\
   groups_hash (groups c') = groups_hash (groups c) /\
   groups_count (groups c') = groups_count (groups c) /\
   hosts c' = hosts c /\ members c' = members c /\ routers c' = routers c /\
   world c' = world c).
Proof.
  apply (expire_members_sets_deadline demo_ports demo_hz demo_bits demo_hash (Some group_G)
           5 110 one_member 0
           (left_by (expire_members demo_ports demo_bits demo_hash (Some group_G) 5 110)
              one_member)).
  - exact one_member_reachable.
  - vm_compute. reflexivity.
Defined.

Lemma forced_expiry_takes_effect_witness :
  let c := one_member in
  let c1 := left_by (expire_members demo_ports demo_bits demo_hash (Some group_G) 5 110)
              one_member in
  let c2 := left_by (group_timer demo_ports demo_bits 115) c1 in
  let g := nth 0 (groups_mem (groups c)) (group_zero demo_ports) in
  exists g', groups_mem (groups c2) !! 0%nat = Some g' /\ group_ea g' = group_ea g /\
             group_cleared demo_ports g'.
Proof.
  intros c c1 c2 g.
  apply (forced_expiry_takes_effect demo_ports demo_hz demo_bits demo_hash (Some group_G)
           5 110 115 c c1 c2).
  - vm_compute. discriminate.
  - exact one_member_reachable.
  - vm_compute. reflexivity.
  - vm_compute. reflexivity.
  - vm_compute. reflexivity.
  - vm_compute. reflexivity.
  - vm_compute. reflexivity.
Defined.

Lemma get_port_answer_witness :
  let c := started (demo_world []) in
  let c' := after [call_get_port host_H 100] c in
  ((calls_made c c' [] /\ port_valid demo_ports 3 = true) \/
   (calls_made c c' [drv_get_port host_H] /\ 3 = switch_port_of (world c) host_H)) /\
  (forall a h, hosts_mem (hosts c') !! a = Some h ->
     port_valid demo_ports (host_port h) = true) /\
  groups c' = groups c /\ routers c' = routers c /\ members c' = members c.
Proof.
  intros c c'.
  apply (get_port_answer demo_ports demo_hz demo_bits demo_hash host_H 100 c 3 c').
  - apply started_reachable.
  - vm_compute. reflexivity.
Defined.

Lemma get_port_first_lookup_witness :
  let c := started (demo_world []) in
  let now := 3000000000 in
  let answer := switch_port_of (world c) host_H in
  exists c',
    get_port demo_ports demo_hz demo_bits demo_hash host_H now c
    = Done (if time_after_eq demo_bits 0 now then 0 else answer) c' /\
    calls_made c c' (if time_after_eq demo_bits 0 now then [] else [drv_get_port host_H]) /\
    host_of demo_hash c' host_H
    = Some (if negb (time_after_eq demo_bits 0 now) && port_valid demo_ports answer
            then host_cached demo_hz demo_bits (host_fresh host_H) answer now
            else host_fresh host_H) /\
    hosts_pool (hosts c') = hosts_pool (hosts c) ++ [length (hosts_mem (hosts c))].
Proof.
  intros c now.
  apply (get_port_first_lookup demo_ports demo_hz demo_bits demo_hash host_H now c).
  - apply started_reachable.
  - vm_compute. reflexivity.
  - vm_compute. reflexivity.
Defined.

(** A router heard on port 2 with 100 ticks to live, then one on port 0
    with 10: the router list as a whole expires at tick 110. *)
Definition short_lived_router : cache :=
  after [call_add_member group_G 5 1 50 100; call_add_router 9 2 100 100;
         call_add_router 8 0 10 100]
        (started (demo_world [])).

Lemma router_timer_drops_all_when_stale_witness :
  let c := short_lived_router in
  let c' := left_by (router_timer demo_ports demo_bits 110) short_lived_router in
  group_cleared demo_ports (routers_group (routers c')) /\
  calls_made c c' (fan_out_calls drv_del_portmap (routers_portmap c) c
                     (groups_pool (groups c))) /\
  routers_timer (routers c') = routers_timer (routers c) /\
  groups c' = groups c /\ hosts c' = hosts c.
Proof.
  apply (router_timer_drops_all_when_stale demo_ports demo_bits 110 short_lived_router
           (left_by (router_timer demo_ports demo_bits 110) short_lived_router)).
  - vm_compute. discriminate.
  - vm_compute. reflexivity.
  - vm_compute. reflexivity.
Defined.

Lemma port_calls_return_one_bit_witness :
  (port_invalid demo_ports 2 = true /\ 4 = -1 /\ one_member = started (demo_world [])) \/
  (port_invalid demo_ports 2 = false /\ (4 = 0 \/ 4 = Z.shiftl 1 2)).
Proof.
  apply (port_calls_return_one_bit demo_ports demo_hz demo_bits demo_hash
           (call_add_member group_G 5 2 50 100) 2 (started (demo_world [])) 4 one_member).
  - apply started_reachable.
  - reflexivity.
  - vm_compute. reflexivity.
Defined.

Lemma member_once_per_port_witness :
  NoDup (member_addr <$> port_members (routers_group (routers member_and_router)) 2).
Proof.
  apply (member_once_per_port demo_ports demo_hz demo_bits demo_hash member_and_router
           the_routers (routers_group (routers member_and_router)) 2).
  - exact member_and_router_reachable.
  - reflexivity.
Defined.

Lemma del_member_removes_member_witness :
  let c := one_member in
  let c' := after [call_del_member group_G 5 2] one_member in
  member_of demo_ports demo_hash c' group_G 5 (Z.to_nat 2) = None /\
  forall addr' p', (p' <= demo_ports)%nat -> (addr', p') <> (5, Z.to_nat 2) ->
    member_of demo_ports demo_hash c' group_G addr' p'
    = member_of demo_ports demo_hash c group_G addr' p'.
Proof.
  intros c c'.
  apply (del_member_removes_member demo_ports demo_hz demo_bits demo_hash group_G 5 2 c 4 c').
  - exact one_member_reachable.
  - reflexivity.
  - vm_compute. reflexivity.
Defined.

Lemma add_member_refreshes_member_witness :
  let c := one_member in
  let m := {| member_time := 150; member_addr := 5 |} in
  let time := ulong demo_bits (120 + 50) in
  exists c',
    add_member demo_ports demo_bits demo_hash group_G 5 2 50 120 c = Done 0 c' /\
    calls_made c c' [] /\
    member_of demo_ports demo_hash c' group_G 5 (Z.to_nat 2) = Some (set_member_time time m) /\
    (forall addr' p', (addr', p') <> (5, Z.to_nat 2) ->
       member_of demo_ports demo_hash c' group_G addr' p'
       = member_of demo_ports demo_hash c group_G addr' p') /\
    bitmask_of demo_ports demo_hash c' group_G = bitmask_of demo_ports demo_hash c group_G /\
    groups_timer (groups c') = timer_after_add demo_bits (groups_timer (groups c)) time /\
    members c' = members c /\ hosts c' = hosts c /\ routers c' = routers c /\
    world c' = world c.
Proof.
  intros c m.
  apply (add_member_refreshes_member demo_ports demo_hz demo_bits demo_hash group_G 5 2 50 120
           c m).
  - exact one_member_reachable.
  - reflexivity.
  - vm_compute. reflexivity.
Defined.

Lemma host_table_consistent_witness :
  let c := host_then_no_memory in
  NoDup (hosts_pool (hosts c)) /\
  forall a, In a (hosts_pool (hosts c)) ->
    exists h, hosts_mem (hosts c) !! a = Some h /\
              host_of demo_hash c (host_ea h) = Some h /\
              port_valid demo_ports (host_port h) = true.
Proof.
  exact (host_table_consistent demo_ports demo_hz demo_bits demo_hash host_then_no_memory
           host_then_no_memory_reachable).
Defined.

Lemma add_member_then_lookup_witness :
  let c := started (demo_world []) in
  let c' := one_member in
  let time := ulong demo_bits (100 + 50) in
  let p := Z.to_nat 2 in
  (member_of demo_ports demo_hash c' group_G 5 p
   = Some {| member_time := time; member_addr := 5 |} \/
   (member_of demo_ports demo_hash c' group_G 5 p = None /\
    member_of demo_ports demo_hash c group_G 5 p = None /\ 4 = 0 /\
    ((group_of demo_ports demo_hash c group_G = None /\
      group_of demo_ports demo_hash c' group_G = None /\ group_pool_exhausted c) \/
     (group_of demo_ports demo_hash c' group_G <> None /\
      member_pool_exhausted (after_get_group demo_ports demo_hash c group_G))))) /\
  (forall addr' p', (addr', p') <> (5, p) ->
     member_of demo_ports demo_hash c' group_G addr' p'
     = member_of demo_ports demo_hash c group_G addr' p').
Proof.
  intros c c'.
  apply (add_member_then_lookup demo_ports demo_hz demo_bits demo_hash group_G 5 2 50 100
           c 4 c').
  - apply started_reachable.
  - reflexivity.
  - vm_compute. reflexivity.
Defined.

(** Group [G] left by its only member, a router heard on port 0, and no
    memory for another record. *)
Definition router_and_idle_group : cache :=
  after [call_add_member group_G 5 2 50 100; call_del_member group_G 5 2;
         call_add_router 9 0 100 100]
        (started (demo_world [true; true; false])).

Lemma router_and_idle_group_reachable :
  reachable demo_ports demo_hz demo_bits demo_hash router_and_idle_group.
Proof. apply after_reachable. vm_compute. reflexivity. Qed.

(** C6 as stated fails.  With group [G] and a router both on port 2,
    [purge_cache] has the forwarding entry of [G] cleared, port 2 with it,
    while bit 2 is in the router bitmask.  With a router on port 0 and the
    record of [G] idle, [add_member] for another group, for which no
    record is to be had, has the forwarding entry of [G] cleared inside
    [get_group], while bit 0 is in the router bitmask. *)
Lemma router_port_cleared_while_active :
  (reachable demo_ports demo_hz demo_bits demo_hash member_and_router /\
   Z.testbit (routers_portmap member_and_router) 2 = true /\
   exists c',
     purge_cache demo_ports member_and_router = Done 0 c' /\
     calls_made member_and_router c' [drv_clr_portmap group_G] /\
     removes_port (drv_clr_portmap group_G) 2) /\
  (reachable demo_ports demo_hz demo_bits demo_hash router_and_idle_group /\
   Z.testbit (routers_portmap router_and_idle_group) 0 = true /\
   exists c1,
     get_group_obtain demo_ports demo_hash group_G' true router_and_idle_group
     = Done (inr NULL) c1 /\
     calls_made router_and_idle_group c1 [drv_clr_portmap group_G] /\
     removes_port (drv_clr_portmap group_G) 0).
Proof.
  split.
  - split; [exact member_and_router_reachable|]. split; [reflexivity|].
    eexists. split; [vm_compute; reflexivity|]. split; [vm_compute; reflexivity|exact I].
  - split; [exact router_and_idle_group_reachable|]. split; [reflexivity|].
    eexists. split; [vm_compute; reflexivity|]. split; [vm_compute; reflexivity|exact I].
Qed.

Lemma router_ports_kept_except_on_clear_witness :
  let c := router_and_idle_group in
  (forall op r c',
     run demo_ports demo_hz demo_bits demo_hash op c = Done r c' ->
     exists new,
       calls_made c c' new /\
       forall call p,
         In call new -> removes_port call p ->
         Z.testbit (routers_portmap c') p = false /\
         (Z.testbit (routers_portmap c) p = true ->
          exists now a g m,
            op = call_router_timer now /\
            In a (groups_pool (groups c)) /\
            groups_mem (groups c) !! a = Some g /\
            call = drv_del_portmap (group_ea g) m /\
            Z.testbit (group_portmap g) p = false)) /\
  (exists c',
     purge_cache demo_ports c = Done 0 c' /\
     calls_made c c'
       (map (fun a => drv_clr_portmap (ea_at c a)) (groups_pool (groups c)))) /\
  (forall ea,
     group_of demo_ports demo_hash c ea = None ->
     (GROUP_POOL_SIZE <=? groups_count (groups c)) || calloc_fails c = true ->
     (exists a, In a (groups_pool (groups c)) /\ group_idle c a) ->
     get_group demo_ports demo_hash ea true c
     = (obtained <- get_group_obtain demo_ports demo_hash ea true;;
        get_group_rest demo_ports demo_hash ea obtained) c /\
     exists a g group c1,
       In a (groups_pool (groups c)) /\
       groups_mem (groups c) !! a = Some g /\ group_portmap g = 0 /\
       get_group_obtain demo_ports demo_hash ea true c = Done (inr group) c1 /\
       calls_made c c1 [drv_clr_portmap (group_ea g)] /\
       routers c1 = routers c).
Proof.
  exact (router_ports_kept_except_on_clear demo_ports demo_hz demo_bits demo_hash
           router_and_idle_group router_and_idle_group_reachable).
Defined.

